(** * Connect-4 Monte Carlo tree search: AMAF and RAVE engines

    A shallow embedding of [scripts/connect4_AMAF.py] and
    [scripts/connect4_RAVE.py], and the properties of the board rules, the
    search tree, the rollout and the backpropagation that are proved (or
    refuted) about them.

    Conventions of the embedding.
    - A board is a numpy array of fixed shape (6, 7).  It is modelled by its
      cell function from a row and a column index to the stored number; the
      code reads it at rows below 6 and columns below 7 only.
    - Python integers are [Z]; loop indices produced by [range] are [nat].
    - Python objects that are mutated and shared (the arrays and the tree
      nodes) live in explicit stores addressed by their position; a fresh
      object is appended at the end of its store. *)

From Stdlib Require Import ZArith Lia.
From stdpp Require Import base option list gmap.

(** ** Python and numpy helpers *)

Inductive exn : Type := IndexError | ZeroDivisionError | AttributeError.

(** Result of running a piece of Python: a value, a raised exception, or
    the bound on loop iterations of the model exhausted. *)
Inductive res (A : Type) : Type :=
| Ret (a : A)
| Raise (e : exn)
| OutOfFuel.
Arguments Ret {A} a.
Arguments Raise {A} e.
Arguments OutOfFuel {A}.

#[global] Instance res_bind : MBind res := λ A B k m,
  match m with
  | Ret a => k a
  | Raise e => Raise e
  | OutOfFuel => OutOfFuel
  end.

(** The floating-point operations the scoring formulas use.  The formulas
    are kept as written; what the operations compute is left to the
    instance, since no property below depends on it. *)
Class FloatOps (F : Type) : Type := {
  f_of_int : Z → F;           (* an int used in a float expression *)
  f_truediv : Z → Z → F;      (* int / int, for a non-zero divisor *)
  f_add : F → F → F;
  f_sub : F → F → F;
  f_mul : F → F → F;
  f_div : F → F → F;          (* numpy division: never raises *)
  f_sqrt : F → F;             (* np.sqrt *)
  f_log : F → F;              (* np.log *)
  f_gt : F → F → bool;        (* > *)
  f_neg_inf : F               (* -np.inf *)
}.

(** [a / b] on Python integers. *)
Definition py_truediv {F} {ops : FloatOps F} (a b : Z) : res F :=
  if bool_decide (b = 0%Z) then Raise ZeroDivisionError else Ret (f_truediv a b).

(** Truth value of an optional number ([None] and 0 are false). *)
Definition truthy (o : option Z) : bool :=
  match o with
  | Some v => negb (bool_decide (v = 0%Z))
  | None => false
  end.

(** [o != 0] for an optional number: [None != 0] holds. *)
Definition py_ne_zero (o : option Z) : bool :=
  match o with
  | Some v => negb (bool_decide (v = 0%Z))
  | None => true
  end.

(** [turn == winner] where [winner] may be [None]. *)
Definition is_winner (turn : Z) (winner : option Z) : bool :=
  match winner with
  | Some w => bool_decide (turn = w)
  | None => false
  end.

(** [range(k)] *)
Definition range (k : nat) : list nat := seq 0 k.

(** [for x in l: r = f(x); if r is not None: return r] followed by
    [return None]. *)
Fixpoint first_some {A B} (f : A → option B) (l : list A) : option B :=
  match l with
  | [] => None
  | x :: l' =>
      match f x with
      | Some y => Some y
      | None => first_some f l'
      end
  end.

(** [l.count(v)] on a list of numbers. *)
Definition py_count (v : Z) (l : list Z) : nat :=
  length (filter (λ x, x = v) l).

(** [l[a:a+k]] for [0 <= a]. *)
Definition py_slice {A} (l : list A) (a k : nat) : list A := take k (drop a l).

(** Index normalisation of numpy on an axis of length [size]: a negative
    index counts from the end, anything outside [-size, size) raises. *)
Definition np_index (size : nat) (k : Z) : option nat :=
  if bool_decide (0 ≤ k < Z.of_nat size)%Z then Some (Z.to_nat k)
  else if bool_decide (- Z.of_nat size ≤ k < 0)%Z
       then Some (Z.to_nat (k + Z.of_nat size))
       else None.

(** ** Boards *)

Definition Board : Type := nat → nat → Z.

(** [np.zeros(shape=(6, 7))] *)
Definition zeros : Board := λ _ _, 0%Z.

(** [b[j, i] = v] on a copy: the cell function after the assignment. *)
Definition setitem (b : Board) (j i : nat) (v : Z) : Board :=
  λ r c, if bool_decide (r = j ∧ c = i) then v else b r c.

(** A board given by its rows, row 0 first (cells outside are 0). *)
Definition of_rows (rows : list (list Z)) : Board :=
  λ r c, default 0%Z (rows !! r ≫= (.!! c)).

(** [(b1 == b2).all()] *)
Definition board_eqb (b1 b2 : Board) : bool :=
  forallb (λ j, forallb (λ i, bool_decide (b1 j i = b2 j i)) (range 7)) (range 6).

(** [a == b == c == d != 0] *)
Definition run4 (a b c d : Z) : bool :=
  bool_decide (a = b) && bool_decide (b = c) && bool_decide (c = d)
  && negb (bool_decide (d = 0%Z)).

(** [list(board[5]).count(0)] *)
Definition top_row_zeros (board : Board) : nat :=
  py_count 0%Z ((λ i, board 5 i) <$> range 7).

(** The first cell, rows outermost, at which two boards differ
    ([get_action], and the scan that ends [compute_move]). *)
Definition first_diff (b1 b2 : Board) : option (nat * nat) :=
  first_some (λ j, first_some (λ i,
    if bool_decide (b1 j i ≠ b2 j i) then Some (j, i) else None) (range 7))
    (range 6).

(** ** connect4_AMAF.py *)

Module AMAF.

(** *** class GameBoard *)

Record GameBoard : Type := mkGameBoard {
  gb_turn : Z;
  gb_board : Board;
  gb_cpu : Z
}.

Definition check_rows (board : Board) : option Z :=
  first_some (λ y, first_some (λ x,
    if run4 (board y x) (board y (x + 1)) (board y (x + 2)) (board y (x + 3))
    then Some (board y x) else None) (range 4)) (range 6).

Definition check_cols (board : Board) : option Z :=
  first_some (λ x, first_some (λ y,
    if run4 (board y x) (board (y + 1) x) (board (y + 2) x) (board (y + 3) x)
    then Some (board y x) else None) (range 3)) (range 7).

Definition check_diag (board : Board) : option Z :=
  match
    first_some (λ y, first_some (λ x,
      if run4 (board y x) (board (y + 1) (x + 1)) (board (y + 2) (x + 2))
              (board (y + 3) (x + 3))
      then Some (board y x) else None) (range 4)) (range 3)
  with
  | Some w => Some w
  | None =>
      first_some (λ y, first_some (λ x,
        if run4 (board y x) (board (y + 1) (x - 1)) (board (y + 2) (x - 2))
                (board (y + 3) (x - 3))
        then Some (board y x) else None) (seq 3 4)) (range 3)
  end.

(** [np.all(board != 0)] *)
Definition check_tie (board : Board) : bool :=
  forallb (λ y, forallb (λ x, negb (bool_decide (board y x = 0%Z))) (range 7))
          (range 6).

Definition check_win (g : GameBoard) : bool * option Z :=
  match first_some (λ check, check (gb_board g))
                   [check_rows; check_cols; check_diag] with
  | Some winner => (true, Some winner)
  | None => if check_tie (gb_board g) then (true, None) else (false, None)
  end.

Definition switch_turn (g : GameBoard) : GameBoard :=
  {| gb_turn := 3 - gb_turn g; gb_board := gb_board g; gb_cpu := gb_cpu g |}.

(** The loop of [apply_move] over the rows, for the array column [c]. *)
Fixpoint apply_move_rows (g : GameBoard) (c : nat) (rows : list nat)
  : bool * GameBoard :=
  match rows with
  | [] => (false, g)
  | i :: rows' =>
      if bool_decide (gb_board g i c = 0%Z)
      then (true, switch_turn {| gb_turn := gb_turn g;
                                 gb_board := setitem (gb_board g) i c (gb_turn g);
                                 gb_cpu := gb_cpu g |})
      else apply_move_rows g c rows'
  end.

(** [apply_move(column)]: every access is [self.board[i, column - 1]]. *)
Definition apply_move (g : GameBoard) (column : Z) : res (bool * GameBoard) :=
  match np_index 7 (column - 1) with
  | None => Raise IndexError
  | Some c => Ret (apply_move_rows g c (range 6))
  end.

(** *** class Node

    Nodes are objects with identity: they live in the store [nodes] and are
    named by their position in it.  [board] is a reference into the store
    of arrays. *)

Record Node : Type := mkNode {
  q : Z;                  (* sum of rollout outcomes *)
  n : Z;                  (* number of visits *)
  parent : option nat;
  board : nat;
  turn : Z;
  children : list nat;
  terminal : bool;
  expanded : bool
}.

(** The state a search works on: both object stores, the [amaf_stats]
    dictionary of the engine, and the pending draws of the random source
    ([random.choice] takes the next one, modulo the number of choices). *)
Record State : Type := mkState {
  nodes : list Node;
  arrays : list Board;
  amaf_stats : gmap (nat * nat) (Z * Z);
  rng : list nat
}.

Definition dummy_node : Node :=
  mkNode 0 0 None 0 0 [] false false.

(** Dereferencing.  A Python reference always points to an object; the
    defaults are not reached from a state whose references are in range. *)
Definition node_at (st : State) (x : nat) : Node :=
  default dummy_node (nodes st !! x).
Definition array_at (st : State) (l : nat) : Board :=
  default zeros (arrays st !! l).

Definition with_nodes (st : State) (ns : list Node) : State :=
  mkState ns (arrays st) (amaf_stats st) (rng st).
Definition with_arrays (st : State) (arrs : list Board) : State :=
  mkState (nodes st) arrs (amaf_stats st) (rng st).
Definition with_stats (st : State) (m : gmap (nat * nat) (Z * Z)) : State :=
  mkState (nodes st) (arrays st) m (rng st).
Definition with_rng (st : State) (r : list nat) : State :=
  mkState (nodes st) (arrays st) (amaf_stats st) r.

Definition set_node (st : State) (x : nat) (nd : Node) : State :=
  with_nodes st (<[x := nd]> (nodes st)).

(** [a.copy()]: a fresh array with the cells of [a]. *)
Definition np_copy (st : State) (a : nat) : State * nat :=
  (with_arrays st (arrays st ++ [array_at st a]), length (arrays st)).

(** [a[j, i] = v]: the array [a] is changed in place. *)
Definition np_setitem (st : State) (a j i : nat) (v : Z) : State :=
  with_arrays st (<[a := setitem (array_at st a) j i v]> (arrays st)).

Definition check_terminal (b : Board) : bool :=
  existsb (λ check, truthy (check b)) [check_rows; check_cols; check_diag]
  || check_tie b.

(** [Node(parent, board, turn)]: the new object and its name. *)
Definition new_node (st : State) (parent_ : option nat) (board_ : nat) (turn_ : Z)
  : State * nat :=
  (with_nodes st (nodes st ++
     [{| q := 0; n := 0; parent := parent_; board := board_;
         turn := 3 - turn_; children := [];
         terminal := check_terminal (array_at st board_);
         expanded := false |}]),
   length (nodes st)).

Definition set_expanded (nd : Node) (e : bool) : Node :=
  mkNode (q nd) (n nd) (parent nd) (board nd) (turn nd) (children nd)
         (terminal nd) e.
Definition append_child (nd : Node) (c : nat) : Node :=
  mkNode (q nd) (n nd) (parent nd) (board nd) (turn nd) (children nd ++ [c])
         (terminal nd) (expanded nd).
Definition set_stats (nd : Node) (q_ n_ : Z) : Node :=
  mkNode q_ n_ (parent nd) (board nd) (turn nd) (children nd)
         (terminal nd) (expanded nd).

(** [any((tmp == child.board).all() for child in self.children)] *)
Definition is_duplicate (st : State) (tmp : nat) (self : nat) : bool :=
  existsb (λ child, board_eqb (array_at st tmp)
                              (array_at st (board (node_at st child))))
          (children (node_at st self)).

(** The loop of [add_child] over the columns still to scan. *)
Fixpoint add_child_cols (st : State) (self : nat) (cols : list nat) : State :=
  match cols with
  | [] => set_node st self (set_expanded (node_at st self) true)
  | i :: cols' =>
      let b := array_at st (board (node_at st self)) in
      if bool_decide (b 5 i = 0%Z) then
        match find (λ j, bool_decide (b j i = 0%Z)) (range 6) with
        | Some j =>
            let '(st1, tmp) := np_copy st (board (node_at st self)) in
            let st2 := np_setitem st1 tmp j i (turn (node_at st1 self)) in
            if negb (is_duplicate st2 tmp self) then
              let '(st3, c) := new_node st2 (Some self) tmp
                                        (turn (node_at st2 self)) in
              set_node st3 self (append_child (node_at st3 self) c)
            else add_child_cols st2 self cols'
        | None => add_child_cols st self cols'
        end
      else add_child_cols st self cols'
  end.

Definition add_child (st : State) (self : nat) : State :=
  if expanded (node_at st self) then st
  else add_child_cols st self (range 7).

(** *** class AMAF *)

(** [get_action(parent_board, child_board)] *)
Definition get_action (st : State) (parent_board child_board : nat)
  : option (nat * nat) :=
  first_diff (array_at st parent_board) (array_at st child_board).

Definition result (b : Board) : option Z :=
  first_some (λ check, check b) [check_rows; check_cols; check_diag].

(** [apply_move_to_board(board, col, turn)] *)
Definition apply_move_to_board (st : State) (board_ : nat) (col : nat) (turn_ : Z)
  : State * nat :=
  let '(st1, new_board) := np_copy st board_ in
  match find (λ j, bool_decide (array_at st1 new_board j col = 0%Z)) (range 6) with
  | Some j => (np_setitem st1 new_board j col turn_, new_board)
  | None => (st1, new_board)
  end.

(** The list comprehension of [get_moves] over the columns still to scan. *)
Fixpoint get_moves_cols (st : State) (board_ : nat) (turn_ : Z) (cols : list nat)
  : State * list nat :=
  match cols with
  | [] => (st, [])
  | i :: cols' =>
      if bool_decide (array_at st board_ 5 i = 0%Z) then
        let '(st1, m) := apply_move_to_board st board_ i turn_ in
        let '(st2, ms) := get_moves_cols st1 board_ turn_ cols' in
        (st2, m :: ms)
      else get_moves_cols st board_ turn_ cols'
  end.

Definition get_moves (st : State) (board_ : nat) (turn_ : Z) : State * list nat :=
  get_moves_cols st board_ turn_ (range 7).

(** [random.choice(moves)] for a non-empty list. *)
Definition random_choice (st : State) (moves : list nat) : State * nat :=
  match rng st with
  | [] => (st, default 0 (moves !! 0))
  | r :: rest => (with_rng st rest, default 0 (moves !! (r mod length moves)))
  end.

(** The [while not node.terminal] loop of [rollout]; [fuel] bounds the
    number of times its body runs. *)
Fixpoint rollout_loop (fuel : nat) (st : State) (node : nat)
    (board_ : nat) (turn_ : Z) (actions : list (nat * nat))
  : res (State * option Z * list (nat * nat)) :=
  if negb (terminal (node_at st node)) then
    match fuel with
    | 0 => OutOfFuel
    | S fuel' =>
        let turn1 := (3 - turn_)%Z in
        let '(st1, moves) := get_moves st board_ turn1 in
        match moves with
        | [] => Ret (st1, result (array_at st1 board_), actions)
        | _ :: _ =>
            let '(st2, next_board) := random_choice st1 moves in
            let actions1 :=
              match get_action st2 board_ next_board with
              | Some action => actions ++ [action]
              | None => actions
              end in
            let terminal_ := result (array_at st2 next_board) in
            if py_ne_zero terminal_ then Ret (st2, terminal_, actions1)
            else rollout_loop fuel' st2 node next_board turn1 actions1
        end
    end
  else Ret (st, result (array_at st board_), actions).

Definition rollout (fuel : nat) (st : State) (node : nat)
  : res (State * option Z * list (nat * nat)) :=
  rollout_loop fuel st node (board (node_at st node)) (turn (node_at st node)) [].

Definition fully_expanded (st : State) (node : nat) : bool :=
  if bool_decide (length (children (node_at st node))
                  = top_row_zeros (array_at st (board (node_at st node))))
  then forallb (λ child, bool_decide (0 < n (node_at st child))%Z)
               (children (node_at st node))
  else false.

Definition pick_unvisited (st : State) (children_ : list nat) : option nat :=
  find (λ child, bool_decide (n (node_at st child) = 0%Z)) children_.

(** [max(node.children, key=lambda child: child.n, default=None)]: the
    first child among those with the largest key. *)
Fixpoint py_max_by_n (st : State) (cs : list nat) (best : option nat) : option nat :=
  match cs with
  | [] => best
  | c :: cs' =>
      match best with
      | None => py_max_by_n st cs' (Some c)
      | Some b =>
          if bool_decide (n (node_at st b) < n (node_at st c))%Z
          then py_max_by_n st cs' (Some c)
          else py_max_by_n st cs' best
      end
  end.

Definition best_child (st : State) (node : nat) : option nat :=
  py_max_by_n st (children (node_at st node)) None.

(** One update of [amaf_stats] in [backpropagate]. *)
Definition amaf_update (won : bool) (m : gmap (nat * nat) (Z * Z)) (action : nat * nat)
  : gmap (nat * nat) (Z * Z) :=
  let '(q0, n0) := default (0%Z, 0%Z) (m !! action) in
  <[action := ((q0 + (if won then 1 else 0))%Z, (n0 + 1)%Z)]> m.

(** [backpropagate(node, winner, actions)]; [fuel] bounds the depth of the
    recursion. *)
Fixpoint backpropagate (fuel : nat) (st : State) (node : nat)
    (winner : option Z) (actions : list (nat * nat)) : res State :=
  match fuel with
  | 0 => OutOfFuel
  | S fuel' =>
      let nd := node_at st node in
      let won := is_winner (turn nd) winner in
      let st1 := set_node st node
                   (set_stats nd (if won then q nd + 1 else q nd)%Z (n nd + 1)%Z) in
      let st2 := with_stats st1 (foldl (amaf_update won) (amaf_stats st1) actions) in
      match parent (node_at st2 node) with
      | Some p => backpropagate fuel' st2 p winner actions
      | None => Ret st2
      end
  end.

Section Scoring.
Context {F : Type} {ops : FloatOps F}.

Definition get_amaf_value (st : State) (child : nat) : res F :=
  match parent (node_at st child) with
  | None => Raise AttributeError
  | Some p =>
      match get_action st (board (node_at st p)) (board (node_at st child)) with
      | None => Ret (f_of_int 0)
      | Some action =>
          let '(q0, n0) := default (0%Z, 0%Z) (amaf_stats st !! action) in
          if bool_decide (0 < n0)%Z then py_truediv q0 n0 else Ret (f_of_int 0)
      end
  end.

(** The loop of [select_amaf] over the children still to score.  [log]
    records, for every score computed, the visit counts [(node.n, child.n)]
    it was computed from. *)
Fixpoint select_amaf_loop (st : State) (node : nat) (cs : list nat)
    (best_value : F) (best_node : option nat) (log : list (Z * Z))
  : res (option nat * list (Z * Z)) :=
  match cs with
  | [] => Ret (best_node, log)
  | child :: cs' =>
      let log1 := log ++ [(n (node_at st node), n (node_at st child))] in
      x ← py_truediv (q (node_at st child)) (n (node_at st child));
      let uct :=
        f_add x (f_mul (f_of_int 2)
                       (f_sqrt (f_div (f_log (f_of_int (n (node_at st node))))
                                      (f_of_int (n (node_at st child)))))) in
      amaf_value ← get_amaf_value st child;
      let combined_value := f_add uct amaf_value in
      if f_gt combined_value best_value
      then select_amaf_loop st node cs' combined_value (Some child) log1
      else select_amaf_loop st node cs' best_value best_node log1
  end.

Definition select_amaf (st : State) (node : nat) (log : list (Z * Z))
  : res (nat * list (Z * Z)) :=
  '(best_node, log1) ← select_amaf_loop st node (children (node_at st node))
                                         f_neg_inf None log;
  Ret (default node best_node, log1).

(** The [while self.fully_expanded(node)] loop of [select]; [fuel] bounds
    the number of times its body runs. *)
Fixpoint select_loop (fuel : nat) (st : State) (node : nat) (log : list (Z * Z))
  : res (nat * list (Z * Z)) :=
  if fully_expanded st node then
    match fuel with
    | 0 => OutOfFuel
    | S fuel' =>
        '(tmp, log1) ← select_amaf st node log;
        if bool_decide (tmp = node) then Ret (node, log1)
        else select_loop fuel' st tmp log1
    end
  else Ret (node, log).

(** [select(node)]: the state after it, the leaf (or [None]) and the log of
    the scores computed on the way.  A walk down the tree passes each node
    at most once, which bounds the loop. *)
Definition select (st : State) (node : nat)
  : res (State * option nat * list (Z * Z)) :=
  '(node1, log) ← select_loop (length (nodes st)) st node [];
  if terminal (node_at st node1) then Ret (st, Some node1, log)
  else
    let st1 := add_child st node1 in
    match children (node_at st1 node1) with
    | [] => Ret (st1, Some node1, log)
    | _ :: _ => Ret (st1, pick_unvisited st1 (children (node_at st1 node1)), log)
    end.

(** The body of the loop of [compute_move], run [K] times in place of the
    wall-clock test.  The flag is false when the loop was left by the
    [return (-1, -1)] inside it.  A rollout has at most 42 plies. *)
Fixpoint iterate (K : nat) (st : State) (node : nat) : res (State * bool) :=
  match K with
  | 0 => Ret (st, true)
  | S K' =>
      '(st1, leaf, _) ← select st node;
      match leaf with
      | None => Ret (st1, false)
      | Some leaf_ =>
          '(st2, simulation_result, actions) ← rollout 42 st1 leaf_;
          st3 ← backpropagate (length (nodes st2)) st2 leaf_
                               simulation_result actions;
          iterate K' st3 node
      end
  end.

(** The statements of [compute_move] after its loop. *)
Definition move_of_best (st : State) (node : nat) : Z * Z :=
  match best_child st node with
  | None => (-1, -1)%Z
  | Some selected =>
      match first_diff (array_at st (board (node_at st selected)))
                       (array_at st (board (node_at st node))) with
      | Some (j, i) => (Z.of_nat j, Z.of_nat i)
      | None => (-1, -1)%Z
      end
  end.

Definition compute_move (K : nat) (st : State) (node : nat)
  : res (State * (Z * Z)) :=
  '(st1, finished) ← iterate K st node;
  if (finished : bool) then Ret (st1, move_of_best st1 node)
  else Ret (st1, (-1, -1)%Z).

End Scoring.

(** [root = Node(parent=None, board=gameboard.board, turn=symbol)] in a
    state that holds the game board and nothing else. *)
Definition root_state (b : Board) (symbol : Z)
    (stats : gmap (nat * nat) (Z * Z)) (draws : list nat) : State :=
  fst (new_node (mkState [] [b] stats draws) None 0 symbol).

End AMAF.

(** ** connect4_RAVE.py *)

Module RAVE.

(** *** class GameBoard *)

Record GameBoard : Type := mkGameBoard {
  gb_turn : Z;
  gb_board : Board;
  gb_cpu : Z
}.

(** [seg[0:4].count(seg[0]) == 4] followed by [seg[0] != 0], where [seg]
    is the row or column from the position under test on. *)
Definition four_equal (line : list Z) (x : nat) : option Z :=
  let v := default 0%Z (line !! x) in
  if bool_decide (py_count v (py_slice line x 4) = 4)
  then if negb (bool_decide (v = 0%Z)) then Some v else None
  else None.

Definition check_rows (board : Board) : option Z :=
  first_some (λ y,
    let row := (λ x, board y x) <$> range 7 in
    first_some (λ x, four_equal row x) (range 4)) (range 6).

Definition check_cols (board : Board) : option Z :=
  first_some (λ x,
    let col := (λ y, board y x) <$> range 6 in
    first_some (λ y, four_equal col y) (range 3)) (range 7).

Definition right_points : list (nat * nat) :=
  [(3, 0); (4, 0); (3, 1); (5, 0); (4, 1); (3, 2); (5, 1); (4, 2);
   (3, 3); (5, 2); (4, 3); (5, 3)].

Definition left_points : list (nat * nat) :=
  [(5, 3); (5, 4); (4, 3); (5, 5); (4, 4); (3, 3); (5, 6); (4, 5);
   (3, 4); (4, 6); (3, 5); (3, 6)].

(** [diag.count(1) == 4 or diag.count(2) == 4], then [return diag[0]]. *)
Definition diag_winner (diag : list Z) : option Z :=
  if bool_decide (py_count 1%Z diag = 4) || bool_decide (py_count 2%Z diag = 4)
  then Some (default 0%Z (diag !! 0)) else None.

Definition check_diag (board : Board) : option Z :=
  match
    first_some (λ point : nat * nat,
      diag_winner ((λ k, board (point.1 - k) (point.2 + k)) <$> range 4))
      right_points
  with
  | Some w => Some w
  | None =>
      first_some (λ point : nat * nat,
        diag_winner ((λ k, board (point.1 - k) (point.2 - k)) <$> range 4))
        left_points
  end.

Definition check_tie (board : Board) : bool :=
  forallb (λ y, forallb (λ x, negb (bool_decide (board y x = 0%Z))) (range 7))
          (range 6)
  && negb (truthy (check_rows board)) && negb (truthy (check_cols board))
  && negb (truthy (check_diag board)).

Definition check_win (g : GameBoard) : bool * option Z :=
  match check_rows (gb_board g) with
  | Some winner => (true, Some winner)
  | None =>
      match check_cols (gb_board g) with
      | Some winner => (true, Some winner)
      | None =>
          match check_diag (gb_board g) with
          | Some winner => (true, Some winner)
          | None =>
              if check_tie (gb_board g) then (true, None) else (false, None)
          end
      end
  end.

Definition switch_turn (g : GameBoard) : GameBoard :=
  {| gb_turn := if bool_decide (gb_turn g = 1%Z) then 2 else 1;
     gb_board := gb_board g; gb_cpu := gb_cpu g |}.

(** The loop of [apply_move] over the rows, for the array column [c]. *)
Fixpoint apply_move_rows (g : GameBoard) (c : nat) (rows : list nat)
  : bool * GameBoard :=
  match rows with
  | [] => (false, g)
  | i :: rows' =>
      if bool_decide (gb_board g i c = 0%Z)
      then (true, switch_turn {| gb_turn := gb_turn g;
                                 gb_board := setitem (gb_board g) i c (gb_turn g);
                                 gb_cpu := gb_cpu g |})
      else apply_move_rows g c rows'
  end.

Definition apply_move (g : GameBoard) (column : Z) : res (bool * GameBoard) :=
  match np_index 7 (column - 1) with
  | None => Raise IndexError
  | Some c => Ret (apply_move_rows g c (range 6))
  end.

(** *** class Node *)

Record Node : Type := mkNode {
  q : Z;                  (* sum of rollout outcomes *)
  n : Z;                  (* number of visits *)
  rave_q : Z;             (* sum of RAVE outcomes for this action *)
  rave_n : Z;             (* number of RAVE visits for this action *)
  parent : option nat;
  board : nat;
  turn : Z;
  children : list nat;
  terminal : bool;
  expanded : bool
}.

Record State : Type := mkState {
  nodes : list Node;
  arrays : list Board;
  rng : list nat
}.

Definition dummy_node : Node :=
  mkNode 0 0 0 0 None 0 0 [] false false.

Definition node_at (st : State) (x : nat) : Node :=
  default dummy_node (nodes st !! x).
Definition array_at (st : State) (l : nat) : Board :=
  default zeros (arrays st !! l).

Definition with_nodes (st : State) (ns : list Node) : State :=
  mkState ns (arrays st) (rng st).
Definition with_arrays (st : State) (arrs : list Board) : State :=
  mkState (nodes st) arrs (rng st).
Definition with_rng (st : State) (r : list nat) : State :=
  mkState (nodes st) (arrays st) r.

Definition set_node (st : State) (x : nat) (nd : Node) : State :=
  with_nodes st (<[x := nd]> (nodes st)).

Definition np_copy (st : State) (a : nat) : State * nat :=
  (with_arrays st (arrays st ++ [array_at st a]), length (arrays st)).

Definition np_setitem (st : State) (a j i : nat) (v : Z) : State :=
  with_arrays st (<[a := setitem (array_at st a) j i v]> (arrays st)).

Definition check_terminal (b : Board) : bool :=
  if truthy (check_rows b) then true
  else if truthy (check_cols b) then true
  else if truthy (check_diag b) then true
  else if check_tie b then true
  else false.

(** [Node(parent, board, turn)] *)
Definition new_node (st : State) (parent_ : option nat) (board_ : nat) (turn_ : Z)
  : State * nat :=
  (with_nodes st (nodes st ++
     [{| q := 0; n := 0; rave_q := 0; rave_n := 0;
         parent := parent_; board := board_;
         turn := if bool_decide (turn_ = 1%Z) then 2 else 1;
         children := [];
         terminal := check_terminal (array_at st board_);
         expanded := false |}]),
   length (nodes st)).

Definition set_expanded (nd : Node) (e : bool) : Node :=
  mkNode (q nd) (n nd) (rave_q nd) (rave_n nd) (parent nd) (board nd) (turn nd)
         (children nd) (terminal nd) e.
Definition append_child (nd : Node) (c : nat) : Node :=
  mkNode (q nd) (n nd) (rave_q nd) (rave_n nd) (parent nd) (board nd) (turn nd)
         (children nd ++ [c]) (terminal nd) (expanded nd).
Definition set_stats (nd : Node) (q_ n_ : Z) : Node :=
  mkNode q_ n_ (rave_q nd) (rave_n nd) (parent nd) (board nd) (turn nd)
         (children nd) (terminal nd) (expanded nd).
Definition set_rave (nd : Node) (rq rn : Z) : Node :=
  mkNode (q nd) (n nd) rq rn (parent nd) (board nd) (turn nd)
         (children nd) (terminal nd) (expanded nd).

(** [compare_children(new_child, children)] *)
Definition compare_children (st : State) (new_child : nat) (children_ : list nat)
  : bool :=
  existsb (λ child, board_eqb (array_at st new_child) (array_at st child))
          children_.

(** The tail shared by both branches of [add_child] once [tmp] is filled
    in: append [Node(self, tmp, turn_)] and return (left), or [break] to
    the next column (right). *)
Definition add_or_break (st : State) (self tmp : nat) (turn_ : Z)
    (child_board : list nat) : State + State :=
  let add :=
    let '(st1, c) := new_node st (Some self) tmp turn_ in
    set_node st1 self (append_child (node_at st1 self) c) in
  match child_board with
  | _ :: _ =>
      if negb (compare_children st tmp child_board) then inl add else inr st
  | [] => inl add
  end.

(** The loop of [add_child] over the columns still to scan. *)
Fixpoint add_child_cols (st : State) (self : nat) (child_board : list nat)
    (cols : list nat) : State :=
  match cols with
  | [] => set_node st self (set_expanded (node_at st self) true)
  | i :: cols' =>
      let b := array_at st (board (node_at st self)) in
      if bool_decide (b 5 i = 0%Z) then
        match find (λ j, bool_decide (b j i = 0%Z)) (range 6) with
        | Some j =>
            let '(st1, tmp) := np_copy st (board (node_at st self)) in
            let r :=
              if bool_decide (turn (node_at st1 self) = 1%Z)
              then add_or_break (np_setitem st1 tmp j i 2) self tmp 1 child_board
              else add_or_break (np_setitem st1 tmp j i 1) self tmp 2 child_board in
            match r with
            | inl st2 => st2
            | inr st2 => add_child_cols st2 self child_board cols'
            end
        | None => add_child_cols st self child_board cols'
        end
      else add_child_cols st self child_board cols'
  end.

Definition add_child (st : State) (self : nat) : State :=
  if expanded (node_at st self) then st
  else
    let child_board := (λ child, board (node_at st child))
                         <$> children (node_at st self) in
    add_child_cols st self child_board (range 7).

(** *** class RAVE *)

Definition get_action (st : State) (parent_board child_board : nat)
  : option (nat * nat) :=
  first_diff (array_at st parent_board) (array_at st child_board).

Definition result (b : Board) : option Z :=
  match check_rows b with
  | Some winner => Some winner
  | None =>
      match check_cols b with
      | Some winner => Some winner
      | None => check_diag b
      end
  end.

(** The loop of [get_moves] over the columns still to scan. *)
Fixpoint get_moves_cols (st : State) (board_ : nat) (turn_ : Z) (cols : list nat)
  : State * list nat :=
  match cols with
  | [] => (st, [])
  | i :: cols' =>
      if bool_decide (array_at st board_ 5 i = 0%Z) then
        match find (λ j, bool_decide (array_at st board_ j i = 0%Z)) (range 6) with
        | Some j =>
            let '(st1, tmp) := np_copy st board_ in
            let st2 := np_setitem st1 tmp j i turn_ in
            let '(st3, ms) := get_moves_cols st2 board_ turn_ cols' in
            (st3, tmp :: ms)
        | None => get_moves_cols st board_ turn_ cols'
        end
      else get_moves_cols st board_ turn_ cols'
  end.

Definition get_moves (st : State) (board_ : nat) (turn_ : Z) : State * list nat :=
  get_moves_cols st board_ turn_ (range 7).

Definition random_choice (st : State) (moves : list nat) : State * nat :=
  match rng st with
  | [] => (st, default 0 (moves !! 0))
  | r :: rest => (with_rng st rest, default 0 (moves !! (r mod length moves)))
  end.

(** The [while True] loop of [rollout]; [fuel] bounds the number of times
    its body runs. *)
Fixpoint rollout_loop (fuel : nat) (st : State) (board_ : nat) (turn_ : Z)
    (actions : list (nat * nat)) : res (State * option Z * list (nat * nat)) :=
  match fuel with
  | 0 => OutOfFuel
  | S fuel' =>
      let turn1 := if bool_decide (turn_ = 2%Z) then 1%Z else 2%Z in
      let '(st1, moves) := get_moves st board_ turn1 in
      match moves with
      | _ :: _ =>
          let '(st2, next_board) := random_choice st1 moves in
          let actions1 :=
            match get_action st2 board_ next_board with
            | Some action => actions ++ [action]
            | None => actions
            end in
          let terminal_ := result (array_at st2 next_board) in
          if py_ne_zero terminal_ then Ret (st2, terminal_, actions1)
          else rollout_loop fuel' st2 next_board turn1 actions1
      | [] => Ret (st1, result (array_at st1 board_), actions)
      end
  end.

Definition rollout (fuel : nat) (st : State) (node : nat)
  : res (State * option Z * list (nat * nat)) :=
  if negb (terminal (node_at st node))
  then rollout_loop fuel st (board (node_at st node)) (turn (node_at st node)) []
  else Ret (st, result (array_at st (board (node_at st node))), []).

Definition fully_expanded (st : State) (node : nat) : bool :=
  if bool_decide (top_row_zeros (array_at st (board (node_at st node)))
                  = length (children (node_at st node)))
  then foldl (λ visited child,
                if bool_decide (n (node_at st child) = 0%Z) then false else visited)
             true (children (node_at st node))
  else false.

Definition pick_unvisited (st : State) (children_ : list nat) : option nat :=
  find (λ child, bool_decide (n (node_at st child) = 0%Z)) children_.

(** The loop of [best_child]. *)
Fixpoint best_child_loop (st : State) (cs : list nat) (max_visit : Z)
    (best_node : option nat) : option nat :=
  match cs with
  | [] => best_node
  | child :: cs' =>
      if bool_decide (max_visit < n (node_at st child))%Z
      then best_child_loop st cs' (n (node_at st child)) (Some child)
      else best_child_loop st cs' max_visit best_node
  end.

Definition best_child (st : State) (node : nat) : option nat :=
  best_child_loop st (children (node_at st node)) 0 None.

(** The inner loop of [backpropagate] over the children, for one action. *)
Definition rave_update (node : nat) (won : bool) (st : State) (action : nat * nat)
  : State :=
  foldl (λ s child,
    if bool_decide (array_at s (board (node_at s child)) action.1 action.2
                    ≠ array_at s (board (node_at s node)) action.1 action.2)
    then set_node s child
           (set_rave (node_at s child)
                     (rave_q (node_at s child) + (if won then 1 else 0))%Z
                     (rave_n (node_at s child) + 1)%Z)
    else s) st (children (node_at st node)).

Fixpoint backpropagate (fuel : nat) (st : State) (node : nat)
    (winner : option Z) (actions : list (nat * nat)) : res State :=
  match fuel with
  | 0 => OutOfFuel
  | S fuel' =>
      let nd := node_at st node in
      let won := is_winner (turn nd) winner in
      let st1 := set_node st node
                   (set_stats nd (if won then q nd + 1 else q nd)%Z (n nd + 1)%Z) in
      let st2 := foldl (rave_update node won) st1 actions in
      match parent (node_at st2 node) with
      | None => Ret st2
      | Some p => backpropagate fuel' st2 p winner actions
      end
  end.

Section Scoring.
Context {F : Type} {ops : FloatOps F}.
(** [self.t], the time budget in whole seconds. *)
Variable t : Z.

(** The loop of [select_uct] over the children still to score, with the
    log of the visit counts [(node.n, child.n)] of every score computed. *)
Fixpoint select_uct_loop (st : State) (node : nat) (cs : list nat)
    (best_uct : F) (best_node : option nat) (log : list (Z * Z))
  : res (option nat * list (Z * Z)) :=
  match cs with
  | [] => Ret (best_node, log)
  | child :: cs' =>
      let log1 := log ++ [(n (node_at st node), n (node_at st child))] in
      x ← py_truediv (q (node_at st child)) (n (node_at st child));
      let uct :=
        f_add x (f_mul (f_of_int 2)
                       (f_sqrt (f_div (f_log (f_of_int (n (node_at st node))))
                                      (f_of_int (n (node_at st child)))))) in
      y ← py_truediv t (3 * n (node_at st node) + t);
      let beta := f_sqrt y in
      rave_value ←
        (if bool_decide (0 < rave_n (node_at st child))%Z
         then py_truediv (rave_q (node_at st child)) (rave_n (node_at st child))
         else Ret (f_of_int 0));
      let combined_value :=
        f_add (f_mul (f_sub (f_of_int 1) beta) uct) (f_mul beta rave_value) in
      if f_gt combined_value best_uct
      then select_uct_loop st node cs' combined_value (Some child) log1
      else select_uct_loop st node cs' best_uct best_node log1
  end.

Definition select_uct (st : State) (node : nat) (log : list (Z * Z))
  : res (nat * list (Z * Z)) :=
  '(best_node, log1) ← select_uct_loop st node (children (node_at st node))
                                        f_neg_inf None log;
  Ret (default node best_node, log1).

Fixpoint select_loop (fuel : nat) (st : State) (node : nat) (log : list (Z * Z))
  : res (nat * list (Z * Z)) :=
  if fully_expanded st node then
    match fuel with
    | 0 => OutOfFuel
    | S fuel' =>
        '(tmp, log1) ← select_uct st node log;
        if bool_decide (tmp = node) then Ret (node, log1)
        else select_loop fuel' st tmp log1
    end
  else Ret (node, log).

Definition select (st : State) (node : nat)
  : res (State * option nat * list (Z * Z)) :=
  '(node1, log) ← select_loop (length (nodes st)) st node [];
  if terminal (node_at st node1) then Ret (st, Some node1, log)
  else
    let st1 := add_child st node1 in
    match children (node_at st1 node1) with
    | [] => Ret (st1, Some node1, log)
    | _ :: _ => Ret (st1, pick_unvisited st1 (children (node_at st1 node1)), log)
    end.

(** The body of the loop of [compute_move], run [K] times in place of the
    wall-clock test; the flag is false when the loop was left by the
    [return (-1, -1)] inside it. *)
Fixpoint iterate (K : nat) (st : State) (node : nat) : res (State * bool) :=
  match K with
  | 0 => Ret (st, true)
  | S K' =>
      '(st1, leaf, _) ← select st node;
      match leaf with
      | None => Ret (st1, false)
      | Some leaf_ =>
          '(st2, simulation_result, actions) ← rollout 42 st1 leaf_;
          st3 ← backpropagate (length (nodes st2)) st2 leaf_
                              simulation_result actions;
          iterate K' st3 node
      end
  end.

(** The statements of [compute_move] after its loop. *)
Definition move_of_best (st : State) (node : nat) : Z * Z :=
  match best_child st node with
  | None => (-1, -1)%Z
  | Some selected =>
      match first_diff (array_at st (board (node_at st selected)))
                       (array_at st (board (node_at st node))) with
      | Some (j, i) => (Z.of_nat j, Z.of_nat i)
      | None => (-1, -1)%Z
      end
  end.

Definition compute_move (K : nat) (st : State) (node : nat)
  : res (State * (Z * Z)) :=
  '(st1, finished) ← iterate K st node;
  if (finished : bool) then Ret (st1, move_of_best st1 node)
  else Ret (st1, (-1, -1)%Z).

End Scoring.

Definition root_state (b : Board) (symbol : Z) (draws : list nat) : State :=
  fst (new_node (mkState [] [b] draws) None 0 symbol).

End RAVE.

(** ** Specification vocabulary *)

(** The four cells of a straight line of length 4 inside the 6 x 7 grid. *)
Inductive line4 : list (nat * nat) → Prop :=
| line_row r c : r < 6 → c + 3 < 7 →
    line4 [(r, c); (r, c + 1); (r, c + 2); (r, c + 3)]
| line_col r c : r + 3 < 6 → c < 7 →
    line4 [(r, c); (r + 1, c); (r + 2, c); (r + 3, c)]
| line_diag_right r c : r + 3 < 6 → c + 3 < 7 →
    line4 [(r, c); (r + 1, c + 1); (r + 2, c + 2); (r + 3, c + 3)]
| line_diag_left r c : r + 3 < 6 → c + 3 < 7 →
    line4 [(r, c + 3); (r + 1, c + 2); (r + 2, c + 1); (r + 3, c)].

(** Player [p] has four marks in a line. *)
Definition wins (b : Board) (p : Z) : Prop :=
  p ≠ 0%Z ∧ ∃ l, line4 l ∧ Forall (λ rc : nat * nat, b rc.1 rc.2 = p) l.

Definition has_win (b : Board) : Prop := ∃ p, wins b p.

(** Every cell of the grid is occupied. *)
Definition full (b : Board) : Prop :=
  ∀ r c, r < 6 → c < 7 → b r c ≠ 0%Z.

(** Every cell is empty (0) or holds the mark of player 1 or 2. *)
Definition marks_ok (b : Board) : Prop :=
  ∀ r c, r < 6 → c < 7 → b r c = 0%Z ∨ b r c = 1%Z ∨ b r c = 2%Z.

(** The three readings of the pair returned by [check_win]. *)
Inductive Outcome : Type := InProgress | Win (p : Z) | Tie.

Definition outcome_of (r : bool * option Z) : option Outcome :=
  match r with
  | (true, Some p) => Some (Win p)
  | (true, None) => Some Tie
  | (false, None) => Some InProgress
  | (false, Some _) => None
  end.

(** What [check_win] tells about a board [b]: its answer is one of the
    three outcomes, and each of them says the following about the board. *)
Definition outcome_spec (b : Board) (r : bool * option Z) : Prop :=
  match outcome_of r with
  | Some (Win p) => wins b p
  | Some Tie => full b ∧ ¬ has_win b
  | Some InProgress => ¬ full b ∧ ¬ has_win b
  | None => False
  end.

(** Executable form of [marks_ok]. *)
Definition marks_okb (b : Board) : bool :=
  forallb (λ r, forallb (λ c,
    bool_decide (b r c = 0%Z ∨ b r c = 1%Z ∨ b r c = 2%Z)) (range 7)) (range 6).

(** No empty cell lies below an occupied one: marks are dropped. *)
Definition gravity (b : Board) : Prop :=
  ∀ r c, r + 1 < 6 → c < 7 → b r c = 0%Z → b (r + 1) c = 0%Z.

(** Row [i] is the lowest empty cell of column [c]. *)
Definition lowest_empty (b : Board) (c i : nat) : Prop :=
  i < 6 ∧ b i c = 0%Z ∧ ∀ i', i' < i → b i' c ≠ 0%Z.

(** The game boards a [GameBoard] object can hold: the constructor gives
    the empty board with a turn drawn from [randint(1, 2)], and
    [apply_move] is the only method that writes to it. *)
Inductive amaf_reachable : AMAF.GameBoard → Prop :=
| amaf_reach_init t cpu :
    t = 1%Z ∨ t = 2%Z → amaf_reachable (AMAF.mkGameBoard t zeros cpu)
| amaf_reach_move g column ok g' :
    amaf_reachable g → AMAF.apply_move g column = Ret (ok, g') →
    amaf_reachable g'.

Inductive rave_reachable : RAVE.GameBoard → Prop :=
| rave_reach_init t cpu :
    t = 1%Z ∨ t = 2%Z → rave_reachable (RAVE.mkGameBoard t zeros cpu)
| rave_reach_move g column ok g' :
    rave_reachable g → RAVE.apply_move g column = Ret (ok, g') →
    rave_reachable g'.

(** A sequence of [apply_move] calls, as the game loop makes them; a
    call that raises leaves the game where it was. *)
Definition amaf_play (columns : list Z) (g : AMAF.GameBoard) : AMAF.GameBoard :=
  foldl (λ g column,
    match AMAF.apply_move g column with Ret (_, g') => g' | _ => g end)
    g columns.

Definition rave_play (columns : list Z) (g : RAVE.GameBoard) : RAVE.GameBoard :=
  foldl (λ g column,
    match RAVE.apply_move g column with Ret (_, g') => g' | _ => g end)
    g columns.

(** Example data: a game in which the first column has been filled, and a
    full board whose bottom row holds four marks of player 1 in a line. *)
Definition amaf_first_column_full : AMAF.GameBoard :=
  amaf_play [1; 1; 1; 1; 1; 1]%Z (AMAF.mkGameBoard 1 zeros 1).

Definition rave_first_column_full : RAVE.GameBoard :=
  rave_play [1; 1; 1; 1; 1; 1]%Z (RAVE.mkGameBoard 1 zeros 1).

Definition full_board_with_line : Board :=
  of_rows [[1; 1; 1; 1; 2; 2; 2];
           [2; 2; 1; 2; 1; 1; 1];
           [1; 1; 2; 1; 2; 2; 2];
           [2; 2; 1; 2; 1; 1; 1];
           [1; 1; 2; 1; 2; 2; 2];
           [2; 2; 1; 2; 1; 1; 1]]%Z.

(** Two boards differ in exactly one cell of the grid. *)
Definition one_cell_diff (b1 b2 : Board) (j i : nat) : Prop :=
  j < 6 ∧ i < 7 ∧ b1 j i ≠ b2 j i
  ∧ ∀ j' i', j' < 6 → i' < 7 → (j', i') ≠ (j, i) → b1 j' i' = b2 j' i'.

(** Column [i] is legal on [b] and row [j] is where a mark dropped in it
    lands. *)
Definition legal_drop (b : Board) (i j : nat) : Prop :=
  i < 7 ∧ b 5 i = 0%Z ∧ lowest_empty b i j.

(** Two boards differ in some cell of the grid. *)
Definition some_cell_differs (b1 b2 : Board) : Prop :=
  ∃ j i, j < 6 ∧ i < 7 ∧ b1 j i ≠ b2 j i.

(** [brd] is [b] with the mark [v] dropped in cell (j, i): the cell was
    empty and now holds [v], and every other cell of the grid is as it
    was. *)
Definition mark_added (b brd : Board) (j i : nat) (v : Z) : Prop :=
  j < 6 ∧ i < 7 ∧ b j i = 0%Z ∧ brd j i = v
  ∧ ∀ j' i', j' < 6 → i' < 7 → (j', i') ≠ (j, i) → brd j' i' = b j' i'.

(** *** Search trees of connect4_AMAF.py *)

Module AmafSpec.
Import AMAF.

(** The board of node [x]. *)
Definition board_of (st : State) (x : nat) : Board :=
  array_at st (board (node_at st x)).

(** [brd] is structurally equal to the board of no child of [self]. *)
Definition is_new (st : State) (self : nat) (brd : Board) : Prop :=
  ∀ c, c ∈ children (node_at st self) → board_eqb brd (board_of st c) = false.

(** No two children in the list have structurally equal boards. *)
Definition distinct_boards (st : State) (cs : list nat) : Prop :=
  ∀ k1 k2 c1 c2, cs !! k1 = Some c1 → cs !! k2 = Some c2 → k1 ≠ k2 →
    board_eqb (board_of st c1) (board_of st c2) = false.

(** Every array that exists in [st] exists unchanged in [st'], and the
    nodes of [st] still refer to the same arrays. *)
Definition frame (st st' : State) : Prop :=
  arrays st `prefix_of` arrays st'
  ∧ length (nodes st) ≤ length (nodes st')
  ∧ ∀ x, x < length (nodes st) → board (node_at st' x) = board (node_at st x).

(** What a rollout leaves unchanged: the nodes, the statistics and every
    array that exists. *)
Definition amaf_arrays_grow (st st' : State) : Prop :=
  nodes st' = nodes st ∧ amaf_stats st' = amaf_stats st
  ∧ arrays st `prefix_of` arrays st'.

(** Nodes agree on their links into the tree and on their board. *)
Definition same_links (nd nd' : Node) : Prop :=
  parent nd' = parent nd ∧ board nd' = board nd ∧ turn nd' = turn nd
  ∧ children nd' = children nd.

(** The shape of a search tree: node 0 is the root, parents come before
    their children in the store, references are in range, every child was
    made from its parent by one move, and siblings have different boards. *)
Definition node_ok (st : State) (x : nat) (nd : Node) : Prop :=
  board nd < length (arrays st)
  ∧ (turn nd = 1%Z ∨ turn nd = 2%Z)
  ∧ match parent nd with None => x = 0 | Some p => p < x end
  ∧ (∀ c, c ∈ children nd →
       x < c < length (nodes st) ∧ parent (node_at st c) = Some x
       ∧ ∃ j i, one_cell_diff (array_at st (board nd)) (board_of st c) j i)
  ∧ distinct_boards st (children nd).

Definition tree_ok (st : State) : Prop :=
  0 < length (nodes st)
  ∧ ∀ x, x < length (nodes st) → node_ok st x (node_at st x).

(** Visit counts between two iterations: never negative, and at least 1
    for every node but a root without children.  While an iteration runs,
    the child just added ([pending]) has no visit yet. *)
Definition visits_ok (st : State) (pending : option nat) : Prop :=
  ∀ x, x < length (nodes st) →
    (0 ≤ n (node_at st x))%Z
    ∧ (x ≠ 0 → pending ≠ Some x → (1 ≤ n (node_at st x))%Z).

Definition root_visited (st : State) : Prop :=
  children (node_at st 0) ≠ [] → (1 ≤ n (node_at st 0))%Z.

(** The nodes from [x] up to the root, following [parent]. *)
Fixpoint path_to_root (fuel : nat) (st : State) (x : nat) : list nat :=
  match fuel with
  | 0 => []
  | S fuel' =>
      x :: match parent (node_at st x) with
           | Some p => path_to_root fuel' st p
           | None => []
           end
  end.

(** [add_child] on [self] appended one child: a new node at the end of the
    store, whose board is a new array equal to the board of [self] with the
    mark [turn] of [self] at row [j] of column [i]. *)
Definition added_child (st st' : State) (self i j : nat) : Prop :=
  let nd := node_at st self in
  let brd := setitem (array_at st (board nd)) j i (turn nd) in
  ∃ tl, length (arrays st) ≤ tl ∧ arrays st' !! tl = Some brd
    ∧ nodes st'
      = <[self := append_child nd (length (nodes st))]>
          (nodes st ++ [mkNode 0 0 (Some self) tl (3 - turn nd) []
                               (check_terminal brd) false]).

(** Every score in the log was computed from positive visit counts. *)
Definition log_positive (log : list (Z * Z)) : Prop :=
  Forall (λ e : Z * Z, (0 < e.1)%Z ∧ (0 < e.2)%Z) log.

(** The state between two iterations of the search. *)
Definition search_inv (st : State) : Prop :=
  tree_ok st ∧ visits_ok st None ∧ root_visited st.

(** [best] is the child at position [k] of [cs], no child has more visits,
    and every child before it has fewer. *)
Definition first_max (st : State) (cs : list nat) (k best : nat) : Prop :=
  cs !! k = Some best
  ∧ (∀ k' c, cs !! k' = Some c → (n (node_at st c) ≤ n (node_at st best))%Z)
  ∧ (∀ k' c, k' < k → cs !! k' = Some c →
       (n (node_at st c) < n (node_at st best))%Z).

(** A backpropagation from [leaf] in [st] that ends in [st3] counted one
    visit at each node of the path from [leaf] to the root, the root
    included, and none elsewhere. *)
Definition counts_path (st st3 : State) (leaf : nat) : Prop :=
  let path := path_to_root (length (nodes st)) st leaf in
  leaf ∈ path ∧ last path = Some 0
  ∧ ∀ x, n (node_at st3 x)
         = (n (node_at st x) + if bool_decide (x ∈ path) then 1 else 0)%Z.

(** In every node the children have pairwise different boards, and each
    differs from the board of its parent in exactly one cell. *)
Definition children_ok (st : State) : Prop :=
  ∀ x, x < length (nodes st) →
    distinct_boards st (children (node_at st x))
    ∧ ∀ c, c ∈ children (node_at st x) →
        ∃ j i, one_cell_diff (board_of st x) (board_of st c) j i.

(** What a call [add_child] on [self] that leads from [st] to [st'] did:
    nothing (the node was marked as expanded); or it appended one new node
    whose board is the board of [self] changed in the one cell where a mark
    dropped in a legal column lands, and is the board of no earlier child;
    or it appended nothing and marked the node as expanded, every legal
    drop giving the board of some child. *)
Definition expansion_step (st st' : State) (self : nat) : Prop :=
  let nd := node_at st self in
  let b := board_of st self in
  (expanded nd = true ∧ st' = st)
  ∨ (∃ i j, legal_drop b i j
       ∧ children (node_at st' self) = children nd ++ [length (nodes st)]
       ∧ one_cell_diff (board_of st' self)
                       (board_of st' (length (nodes st))) j i
       ∧ is_new st self (board_of st' (length (nodes st))))
  ∨ (children (node_at st' self) = children nd
     ∧ expanded (node_at st' self) = true
     ∧ ∀ i j, legal_drop b i j → ¬ is_new st self (setitem b j i (turn nd))).

(** The move extracted from the tree when the loop of [compute_move] has
    ended: the no-move value for a root without children, otherwise the
    cell in which the board of the first most-visited child differs from
    the board of the root. *)
Definition robust_move (st : State) (mv : Z * Z) : Prop :=
  (children (node_at st 0) = [] → mv = (-1, -1)%Z)
  ∧ (children (node_at st 0) ≠ [] →
     ∃ k best j i, first_max st (children (node_at st 0)) k best
       ∧ one_cell_diff (board_of st 0) (board_of st best) j i
       ∧ mv = (Z.of_nat j, Z.of_nat i)).

(** [children_ok] read cell by cell: in every node, two children at
    different positions of the list have boards that differ in some cell,
    and every child differs from its parent in exactly one cell. *)
Definition children_cells (st : State) : Prop :=
  ∀ x, x < length (nodes st) →
    (∀ k1 k2 c1 c2,
       children (node_at st x) !! k1 = Some c1 →
       children (node_at st x) !! k2 = Some c2 → k1 ≠ k2 →
       some_cell_differs (board_of st c1) (board_of st c2))
    ∧ ∀ c, c ∈ children (node_at st x) →
        ∃ j i, one_cell_diff (board_of st x) (board_of st c) j i.

(** [expansion_step] read cell by cell.  A call [add_child] on [self] that
    leads from [st] to [st'] did nothing (the node was marked as expanded);
    or it appended one new node, whose board is the board of [self] with the
    mark [turn] of [self] in the cell where a mark dropped in a legal column
    lands and every other cell as it was, and differs in some cell from the
    board of every earlier child; or it appended nothing and marked the node
    as expanded, and then for every legal drop some child already holds the
    board that the drop gives. *)
Definition expansion_cells (st st' : State) (self : nat) : Prop :=
  let nd := node_at st self in
  let b := board_of st self in
  let new := length (nodes st) in
  (expanded nd = true ∧ st' = st)
  ∨ (∃ i j, legal_drop b i j
       ∧ children (node_at st' self) = children nd ++ [new]
       ∧ one_cell_diff (board_of st' self) (board_of st' new) j i
       ∧ mark_added b (board_of st' new) j i (turn nd)
       ∧ ∀ c, c ∈ children nd →
           some_cell_differs (board_of st' new) (board_of st c))
  ∨ (children (node_at st' self) = children nd
     ∧ expanded (node_at st' self) = true
     ∧ ∀ i j, legal_drop b i j →
         ∃ c, c ∈ children nd ∧ mark_added b (board_of st c) j i (turn nd)).

End AmafSpec.

(** *** Search trees of connect4_RAVE.py *)

Module RaveSpec.
Import RAVE.

(** The board of node [x]. *)
Definition board_of (st : State) (x : nat) : Board :=
  array_at st (board (node_at st x)).

(** [brd] is structurally equal to the board of no child of [self]. *)
Definition is_new (st : State) (self : nat) (brd : Board) : Prop :=
  ∀ c, c ∈ children (node_at st self) → board_eqb brd (board_of st c) = false.

(** No two children in the list have structurally equal boards. *)
Definition distinct_boards (st : State) (cs : list nat) : Prop :=
  ∀ k1 k2 c1 c2, cs !! k1 = Some c1 → cs !! k2 = Some c2 → k1 ≠ k2 →
    board_eqb (board_of st c1) (board_of st c2) = false.

(** Every array that exists in [st] exists unchanged in [st'], and the
    nodes of [st] still refer to the same arrays. *)
Definition frame (st st' : State) : Prop :=
  arrays st `prefix_of` arrays st'
  ∧ length (nodes st) ≤ length (nodes st')
  ∧ ∀ x, x < length (nodes st) → board (node_at st' x) = board (node_at st x).

(** What a rollout leaves unchanged: the nodes and every array that
    exists. *)
Definition rave_arrays_grow (st st' : State) : Prop :=
  nodes st' = nodes st ∧ arrays st `prefix_of` arrays st'.

(** Nodes agree on their links into the tree and on their board. *)
Definition same_links (nd nd' : Node) : Prop :=
  parent nd' = parent nd ∧ board nd' = board nd ∧ turn nd' = turn nd
  ∧ children nd' = children nd.

(** The shape of a search tree: node 0 is the root, parents come before
    their children in the store, references are in range, every child was
    made from its parent by one move, and siblings have different boards. *)
Definition node_ok (st : State) (x : nat) (nd : Node) : Prop :=
  board nd < length (arrays st)
  ∧ (turn nd = 1%Z ∨ turn nd = 2%Z)
  ∧ match parent nd with None => x = 0 | Some p => p < x end
  ∧ (∀ c, c ∈ children nd →
       x < c < length (nodes st) ∧ parent (node_at st c) = Some x
       ∧ ∃ j i, one_cell_diff (array_at st (board nd)) (board_of st c) j i)
  ∧ distinct_boards st (children nd).

Definition tree_ok (st : State) : Prop :=
  0 < length (nodes st)
  ∧ ∀ x, x < length (nodes st) → node_ok st x (node_at st x).

(** Visit counts between two iterations: never negative, and at least 1
    for every node but a root without children.  While an iteration runs,
    the child just added ([pending]) has no visit yet. *)
Definition visits_ok (st : State) (pending : option nat) : Prop :=
  ∀ x, x < length (nodes st) →
    (0 ≤ n (node_at st x))%Z
    ∧ (x ≠ 0 → pending ≠ Some x → (1 ≤ n (node_at st x))%Z).

Definition root_visited (st : State) : Prop :=
  children (node_at st 0) ≠ [] → (1 ≤ n (node_at st 0))%Z.

(** The nodes from [x] up to the root, following [parent]. *)
Fixpoint path_to_root (fuel : nat) (st : State) (x : nat) : list nat :=
  match fuel with
  | 0 => []
  | S fuel' =>
      x :: match parent (node_at st x) with
           | Some p => path_to_root fuel' st p
           | None => []
           end
  end.

(** The mark [add_child] puts on the board of a child of [nd]. *)
Definition child_mark (nd : Node) : Z :=
  if bool_decide (turn nd = 1%Z) then 2%Z else 1%Z.

(** [add_child] on [self] appended one child: a new node at the end of the
    store, whose board is a new array equal to the board of [self] with the
    mark of the other player at row [j] of column [i]. *)
Definition added_child (st st' : State) (self i j : nat) : Prop :=
  let nd := node_at st self in
  let brd := setitem (array_at st (board nd)) j i (child_mark nd) in
  ∃ tl, length (arrays st) ≤ tl ∧ arrays st' !! tl = Some brd
    ∧ nodes st'
      = <[self := append_child nd (length (nodes st))]>
          (nodes st ++ [mkNode 0 0 0 0 (Some self) tl (child_mark nd) []
                               (check_terminal brd) false]).

(** Only the RAVE statistics of nodes differ between [st] and [st']. *)
Definition rave_only (st st' : State) : Prop :=
  arrays st' = arrays st ∧ rng st' = rng st
  ∧ length (nodes st') = length (nodes st)
  ∧ ∀ y, same_links (node_at st y) (node_at st' y)
      ∧ n (node_at st' y) = n (node_at st y).

(** Every score in the log was computed from positive visit counts. *)
Definition log_positive (log : list (Z * Z)) : Prop :=
  Forall (λ e : Z * Z, (0 < e.1)%Z ∧ (0 < e.2)%Z) log.

(** The state between two iterations of the search. *)
Definition search_inv (st : State) : Prop :=
  tree_ok st ∧ visits_ok st None ∧ root_visited st.

(** [best] is the child at position [k] of [cs], no child has more visits,
    and every child before it has fewer. *)
Definition first_max (st : State) (cs : list nat) (k best : nat) : Prop :=
  cs !! k = Some best
  ∧ (∀ k' c, cs !! k' = Some c → (n (node_at st c) ≤ n (node_at st best))%Z)
  ∧ (∀ k' c, k' < k → cs !! k' = Some c →
       (n (node_at st c) < n (node_at st best))%Z).

(** A backpropagation from [leaf] in [st] that ends in [st3] counted one
    visit at each node of the path from [leaf] to the root, the root
    included, and none elsewhere. *)
Definition counts_path (st st3 : State) (leaf : nat) : Prop :=
  let path := path_to_root (length (nodes st)) st leaf in
  leaf ∈ path ∧ last path = Some 0
  ∧ ∀ x, n (node_at st3 x)
         = (n (node_at st x) + if bool_decide (x ∈ path) then 1 else 0)%Z.

(** In every node the children have pairwise different boards, and each
    differs from the board of its parent in exactly one cell. *)
Definition children_ok (st : State) : Prop :=
  ∀ x, x < length (nodes st) →
    distinct_boards st (children (node_at st x))
    ∧ ∀ c, c ∈ children (node_at st x) →
        ∃ j i, one_cell_diff (board_of st x) (board_of st c) j i.

(** What a call [add_child] on [self] that leads from [st] to [st'] did:
    nothing (the node was marked as expanded); or it appended one new node
    whose board is the board of [self] changed in the one cell where a mark
    dropped in a legal column lands, and is the board of no earlier child;
    or it appended nothing and marked the node as expanded, every legal
    drop giving the board of some child. *)
Definition expansion_step (st st' : State) (self : nat) : Prop :=
  let nd := node_at st self in
  let b := board_of st self in
  (expanded nd = true ∧ st' = st)
  ∨ (∃ i j, legal_drop b i j
       ∧ children (node_at st' self) = children nd ++ [length (nodes st)]
       ∧ one_cell_diff (board_of st' self)
                       (board_of st' (length (nodes st))) j i
       ∧ is_new st self (board_of st' (length (nodes st))))
  ∨ (children (node_at st' self) = children nd
     ∧ expanded (node_at st' self) = true
     ∧ ∀ i j, legal_drop b i j → ¬ is_new st self (setitem b j i (child_mark nd))).

(** The move extracted from the tree when the loop of [compute_move] has
    ended: the no-move value for a root without children, otherwise the
    cell in which the board of the first most-visited child differs from
    the board of the root. *)
Definition robust_move (st : State) (mv : Z * Z) : Prop :=
  (children (node_at st 0) = [] → mv = (-1, -1)%Z)
  ∧ (children (node_at st 0) ≠ [] →
     ∃ k best j i, first_max st (children (node_at st 0)) k best
       ∧ one_cell_diff (board_of st 0) (board_of st best) j i
       ∧ mv = (Z.of_nat j, Z.of_nat i)).

Definition children_cells (st : State) : Prop :=
  ∀ x, x < length (nodes st) →
    (∀ k1 k2 c1 c2,
       children (node_at st x) !! k1 = Some c1 →
       children (node_at st x) !! k2 = Some c2 → k1 ≠ k2 →
       some_cell_differs (board_of st c1) (board_of st c2))
    ∧ ∀ c, c ∈ children (node_at st x) →
        ∃ j i, one_cell_diff (board_of st x) (board_of st c) j i.

Definition expansion_cells (st st' : State) (self : nat) : Prop :=
  let nd := node_at st self in
  let b := board_of st self in
  let new := length (nodes st) in
  (expanded nd = true ∧ st' = st)
  ∨ (∃ i j, legal_drop b i j
       ∧ children (node_at st' self) = children nd ++ [new]
       ∧ one_cell_diff (board_of st' self) (board_of st' new) j i
       ∧ mark_added b (board_of st' new) j i (child_mark nd)
       ∧ ∀ c, c ∈ children nd →
           some_cell_differs (board_of st' new) (board_of st c))
  ∨ (children (node_at st' self) = children nd
     ∧ expanded (node_at st' self) = true
     ∧ ∀ i j, legal_drop b i j →
         ∃ c, c ∈ children nd ∧ mark_added b (board_of st c) j i (child_mark nd)).

End RaveSpec.

(** *** Example data for the searches *)

(** A fixed-point stand-in for the float operations (three decimal digits,
    a base-2 logarithm scaled by ln 2), to run searches in examples. *)
Definition fixed_point_ops : FloatOps Z := {|
  f_of_int z := (z * 1000)%Z;
  f_truediv a b := (a * 1000 / b)%Z;
  f_add := Z.add;
  f_sub := Z.sub;
  f_mul a b := (a * b / 1000)%Z;
  f_div a b := (a * 1000 / b)%Z;
  f_sqrt a := Z.sqrt (a * 1000);
  f_log a := (Z.log2 (a / 1000) * 693)%Z;
  f_gt a b := bool_decide (b < a)%Z;
  f_neg_inf := (- 1000000000000)%Z
|}.

(** The engine is asked for a move on the empty board, playing symbol 1. *)
Definition amaf_start : AMAF.State :=
  AMAF.root_state zeros 1 ∅ [3; 1; 4; 1; 5; 9; 2; 6].

Definition rave_start : RAVE.State :=
  RAVE.root_state zeros 1 [3; 1; 4; 1; 5; 9; 2; 6].

(** The columns of a board whose top cell is empty, in increasing order:
    the legal moves. *)
Definition legal_columns (b : Board) : list nat :=
  filter (λ i, b 5 i = 0%Z) (range 7).

(** [brd] is the board [b] after the mark [v] was dropped in the legal
    column [i]. *)
Definition dropped_in (b : Board) (v : Z) (i : nat) (brd : Board) : Prop :=
  ∃ j, legal_drop b i j ∧ brd = setitem b j i v.

(** [self.amaf_stats.get(action, (0, 0))] *)
Definition amaf_entry (m : gmap (nat * nat) (Z * Z)) (a : nat * nat) : Z * Z :=
  default (0%Z, 0%Z) (m !! a).

(** [actions.count(a)] *)
Definition count_action (a : nat * nat) (actions : list (nat * nat)) : nat :=
  length (filter (λ x, x = a) actions).

(** The number of nodes of [path] whose recorded turn is the winner. *)
Definition amaf_winners_on (st : AMAF.State) (winner : option Z)
    (path : list nat) : nat :=
  length (filter (λ x, is_winner (AMAF.turn (AMAF.node_at st x)) winner = true)
                 path).

(** Two versions of a node that differ in the counters only: the score
    and the visits did not decrease, and the score grew by no more than
    the visits. *)
Definition amaf_counted (nd nd' : AMAF.Node) : Prop :=
  AMAF.parent nd' = AMAF.parent nd ∧ AMAF.board nd' = AMAF.board nd
  ∧ AMAF.turn nd' = AMAF.turn nd ∧ AMAF.children nd' = AMAF.children nd
  ∧ AMAF.terminal nd' = AMAF.terminal nd ∧ AMAF.expanded nd' = AMAF.expanded nd
  ∧ (AMAF.q nd ≤ AMAF.q nd')%Z
  ∧ (AMAF.q nd' - AMAF.q nd ≤ AMAF.n nd' - AMAF.n nd)%Z.

Definition rave_counted (nd nd' : RAVE.Node) : Prop :=
  RAVE.parent nd' = RAVE.parent nd ∧ RAVE.board nd' = RAVE.board nd
  ∧ RAVE.turn nd' = RAVE.turn nd ∧ RAVE.children nd' = RAVE.children nd
  ∧ RAVE.terminal nd' = RAVE.terminal nd ∧ RAVE.expanded nd' = RAVE.expanded nd
  ∧ (RAVE.q nd ≤ RAVE.q nd')%Z
  ∧ (RAVE.q nd' - RAVE.q nd ≤ RAVE.n nd' - RAVE.n nd)%Z
  ∧ (RAVE.rave_q nd ≤ RAVE.rave_q nd')%Z
  ∧ (RAVE.rave_q nd' - RAVE.rave_q nd ≤ RAVE.rave_n nd' - RAVE.rave_n nd)%Z.

(** Only counters of nodes differ between two states. *)
Definition rave_counted_state (st st' : RAVE.State) : Prop :=
  RAVE.arrays st' = RAVE.arrays st ∧ RAVE.rng st' = RAVE.rng st
  ∧ length (RAVE.nodes st') = length (RAVE.nodes st)
  ∧ ∀ x, rave_counted (RAVE.node_at st x) (RAVE.node_at st' x).

(** Every entry of the table has between 0 and its number of visits as
    its number of wins. *)
Definition amaf_table_ok (m : gmap (nat * nat) (Z * Z)) : Prop :=
  ∀ a, (0 ≤ (amaf_entry m a).1 ≤ (amaf_entry m a).2)%Z.

(** What holds of every node of a tree grown by the search of
    connect4_AMAF.py: the score lies between 0 and the number of visits;
    the flag [terminal] tells whether the game is over on the board of the
    node, and a terminal node has no children; the board of every child is
    the board of the node after a legal drop of the mark [turn] of the
    node. *)
Definition amaf_node_inv (st : AMAF.State) (x : nat) : Prop :=
  let nd := AMAF.node_at st x in
  (0 ≤ AMAF.q nd ≤ AMAF.n nd)%Z
  ∧ AMAF.terminal nd = AMAF.check_terminal (AmafSpec.board_of st x)
  ∧ (AMAF.terminal nd = true → AMAF.children nd = [])
  ∧ ∀ c, c ∈ AMAF.children nd →
      ∃ i, dropped_in (AmafSpec.board_of st x) (AMAF.turn nd) i
                      (AmafSpec.board_of st c).

Definition amaf_game_tree (st : AMAF.State) : Prop :=
  ∀ x, x < length (AMAF.nodes st) → amaf_node_inv st x.

(** The same for connect4_RAVE.py, whose nodes carry RAVE counters and
    whose children hold the mark of the other player. *)
Definition rave_node_inv (st : RAVE.State) (x : nat) : Prop :=
  let nd := RAVE.node_at st x in
  (0 ≤ RAVE.q nd ≤ RAVE.n nd)%Z
  ∧ (0 ≤ RAVE.rave_q nd ≤ RAVE.rave_n nd)%Z
  ∧ RAVE.terminal nd = RAVE.check_terminal (RaveSpec.board_of st x)
  ∧ (RAVE.terminal nd = true → RAVE.children nd = [])
  ∧ ∀ c, c ∈ RAVE.children nd →
      ∃ i, dropped_in (RaveSpec.board_of st x) (RaveSpec.child_mark nd) i
                      (RaveSpec.board_of st c).

Definition rave_game_tree (st : RAVE.State) : Prop :=
  ∀ x, x < length (RAVE.nodes st) → rave_node_inv st x.

(** ** main_AMAF.py

    The game loop, as far as the state of the game goes: the test for the
    end of the game, the handling of the queued events and the turn of the
    engine.  The drawing calls between them are handed the board to read
    and are left out.  [amaf = AMAF(symbol=1, t=5)] is made once per game,
    so its table [amaf_stats] lives across the turns; a root node is made
    anew at each turn of the engine, on the array of the game board
    itself. *)

Module MainAMAF.

(** What the loop reads of a pygame event. *)
Inductive Event : Type :=
| QUIT | K_ESCAPE | K_RIGHT | K_LEFT | K_RETURN | OtherKey | OtherEvent.

(** A block of the loop goes on with a value, or [sys.exit()] was called. *)
Inductive Flow (A : Type) : Type :=
| Continue (a : A)
| SysExit.
Arguments Continue {A} a.
Arguments SysExit {A}.

(** [amaf.symbol] *)
Definition symbol : Z := 1.

(** The body of [for event in pygame.event.get()] for one event, on
    [select_move] and [gameboard]. *)
Definition handle_event (event : Event) (select_move : Z) (g : AMAF.GameBoard)
  : res (Flow (Z * AMAF.GameBoard)) :=
  match event with
  | QUIT => Ret SysExit
  | K_ESCAPE => Ret SysExit
  | K_RIGHT =>
      Ret (Continue (if bool_decide (select_move < 7)%Z then (select_move + 1)%Z
                     else select_move, g))
  | K_LEFT =>
      Ret (Continue (if bool_decide (select_move > 1)%Z then (select_move - 1)%Z
                     else select_move, g))
  | K_RETURN =>
      if bool_decide (AMAF.gb_turn g ≠ symbol) then
        match np_index 7 (select_move - 1) with
        | None => Raise IndexError
        | Some c =>
            if bool_decide (AMAF.gb_board g 5 c = 0%Z) then
              '(_, g') ← AMAF.apply_move g select_move;
              Ret (Continue (select_move, g'))
            else Ret (Continue (select_move, g))
        end
      else Ret (Continue (select_move, g))
  | OtherKey | OtherEvent => Ret (Continue (select_move, g))
  end.

(** The loop over the queued events. *)
Fixpoint handle_events (events : list Event) (select_move : Z)
    (g : AMAF.GameBoard) : res (Flow (Z * AMAF.GameBoard)) :=
  match events with
  | [] => Ret (Continue (select_move, g))
  | event :: events' =>
      r ← handle_event event select_move g;
      match r with
      | SysExit => Ret SysExit
      | Continue (select_move', g') => handle_events events' select_move' g'
      end
  end.

Section Engine.
Context {F : Type} {ops : FloatOps F}.

(** The turn of the engine: the game, the table of the engine and the
    random source after it.  The root shares the array of the game board,
    which is array 0 of the store the search works on; [K] is the number
    of turns of the search loop that fit in the time budget. *)
Definition engine_turn (K : nat) (g : AMAF.GameBoard)
    (stats : gmap (nat * nat) (Z * Z)) (draws : list nat)
  : res (AMAF.GameBoard * gmap (nat * nat) (Z * Z) * list nat) :=
  if bool_decide (AMAF.gb_turn g = symbol) then
    let st0 := AMAF.root_state (AMAF.gb_board g) symbol stats draws in
    '(st1, amaf_move) ← AMAF.compute_move K st0 0;
    let g1 := AMAF.mkGameBoard (AMAF.gb_turn g) (AMAF.array_at st1 0)
                               (AMAF.gb_cpu g) in
    if bool_decide (amaf_move ≠ (-1, -1)%Z) then
      '(_, g2) ← AMAF.apply_move g1 (amaf_move.2 + 1);
      Ret (g2, AMAF.amaf_stats st1, AMAF.rng st1)
    else Ret (g1, AMAF.amaf_stats st1, AMAF.rng st1)
  else Ret (g, stats, draws).

(** The state of a game between two rounds of the game loop. *)
Record Game : Type := mkGame {
  gameboard : AMAF.GameBoard;
  amaf_stats : gmap (nat * nat) (Z * Z);
  draws : list nat;
  select_move : Z
}.

(** How a round of the game loop ends. *)
Inductive Round : Type :=
| GameOver (winner_id : option Z)
| Exited
| Next (gm : Game).

(** One round of the game loop, for the events queued when it runs. *)
Definition round (K : nat) (events : list Event) (gm : Game) : res Round :=
  match AMAF.check_win (gameboard gm) with
  | (true, winner_id) => Ret (GameOver winner_id)
  | (false, _) =>
      r ← handle_events events (select_move gm) (gameboard gm);
      match r with
      | SysExit => Ret Exited
      | Continue (select_move', g) =>
          '(g', stats', draws') ← engine_turn K g (amaf_stats gm) (draws gm);
          Ret (Next (mkGame g' stats' draws' select_move'))
      end
  end.

End Engine.

End MainAMAF.

(** The game [g'] is [g] after the player to move dropped a mark in a
    legal column. *)
Definition amaf_moved (g g' : AMAF.GameBoard) : Prop :=
  ∃ i j, legal_drop (AMAF.gb_board g) i j
    ∧ g' = AMAF.mkGameBoard (3 - AMAF.gb_turn g)
             (setitem (AMAF.gb_board g) j i (AMAF.gb_turn g)) (AMAF.gb_cpu g).

(** ** Facts about the helpers *)

Lemma first_some_None {A B} (f : A → option B) (l : list A) :
  first_some f l = None ↔ ∀ x, x ∈ l → f x = None.
Proof.
  induction l as [|a l IH]; simpl.
  - split; [intros _ x Hx; inversion Hx | done].
  - destruct (f a) eqn:Ha.
    + split; [done | intros Hall]. rewrite <- Ha. apply Hall. left.
    + rewrite IH. split.
      * intros Hall x Hx. apply elem_of_cons in Hx as [-> | Hx]; auto.
      * intros Hall x Hx. apply Hall. by right.
Qed.

Lemma first_some_Some {A B} (f : A → option B) (l : list A) (y : B) :
  first_some f l = Some y → ∃ x, x ∈ l ∧ f x = Some y.
Proof.
  induction l as [|a l IH]; simpl; [done |].
  destruct (f a) eqn:Ha.
  - intros [= <-]. exists a. split; [left | done].
  - intros Hy. destruct (IH Hy) as (x & Hx & Hfx).
    exists x. split; [by right | done].
Qed.

Lemma first_some_ext {A B} (f g : A → option B) (l : list A) :
  (∀ x, x ∈ l → f x = g x) → first_some f l = first_some g l.
Proof.
  induction l as [|a l IH]; simpl; [done |]. intros Hfg.
  rewrite (Hfg a) by left. destruct (g a); [done |].
  apply IH. intros x Hx. apply Hfg. by right.
Qed.

Lemma elem_of_range (k x : nat) : x ∈ range k ↔ x < k.
Proof. unfold range. rewrite elem_of_seq. lia. Qed.

Lemma forallb_range_true (p : nat → bool) (k : nat) :
  forallb p (range k) = true ↔ ∀ x, x < k → p x = true.
Proof.
  rewrite forallb_forall. split.
  - intros Hp x Hx. apply Hp. apply list_elem_of_In, elem_of_range, Hx.
  - intros Hp x Hx. apply Hp. by apply elem_of_range, list_elem_of_In.
Qed.

Lemma run4_true (a b c d : Z) :
  run4 a b c d = true ↔ a = b ∧ b = c ∧ c = d ∧ d ≠ 0%Z.
Proof.
  unfold run4. rewrite !andb_true_iff, negb_true_iff, !bool_decide_eq_true,
    bool_decide_eq_false. tauto.
Qed.

Lemma board_eqb_true (b1 b2 : Board) :
  board_eqb b1 b2 = true ↔ ∀ j i, j < 6 → i < 7 → b1 j i = b2 j i.
Proof.
  unfold board_eqb. rewrite forallb_range_true. split.
  - intros Hall j i Hj Hi. specialize (Hall j Hj).
    rewrite forallb_range_true in Hall. specialize (Hall i Hi).
    by apply bool_decide_eq_true in Hall.
  - intros Hall j Hj. apply forallb_range_true. intros i Hi.
    apply bool_decide_eq_true. auto.
Qed.

Lemma board_eqb_sym (b1 b2 : Board) : board_eqb b1 b2 = board_eqb b2 b1.
Proof.
  apply eq_true_iff_eq. rewrite !board_eqb_true.
  split; intros Heq j i Hj Hi; symmetry; by apply Heq.
Qed.


Lemma one_cell_diff_setitem (b : Board) (j i : nat) (v : Z) :
  j < 6 → i < 7 → b j i ≠ v → one_cell_diff b (setitem b j i v) j i.
Proof.
  intros Hj Hi Hv. unfold one_cell_diff, setitem. split_and!; [done.. | |].
  - rewrite bool_decide_eq_true_2 by done. done.
  - intros j' i' _ _ Hne. rewrite bool_decide_eq_false_2; [done |].
    intros [-> ->]. done.
Qed.

Lemma board_eqb_false (b1 b2 : Board) :
  board_eqb b1 b2 = false ↔ some_cell_differs b1 b2.
Proof.
  split.
  - intros Hne.
    destruct (decide (Exists (λ j, Exists (λ i, b1 j i ≠ b2 j i) (range 7))
                             (range 6))) as [Hex | Hno].
    + apply Exists_exists in Hex as (j & Hj & Hex).
      apply Exists_exists in Hex as (i & Hi & Hcell).
      apply elem_of_range in Hj, Hi. by exists j, i.
    + assert (board_eqb b1 b2 = true) as Heq; [| congruence].
      apply board_eqb_true. intros j i Hj Hi.
      destruct (decide (b1 j i = b2 j i)) as [? | Hcell]; [done |].
      exfalso. apply Hno. apply Exists_exists. exists j.
      split; [by apply elem_of_range |].
      apply Exists_exists. exists i. split; [by apply elem_of_range | done].
  - intros (j & i & Hj & Hi & Hcell).
    destruct (board_eqb b1 b2) eqn:Heq; [| done].
    exfalso. apply Hcell. by apply (proj1 (board_eqb_true b1 b2) Heq).
Qed.

Lemma mark_added_setitem (b brd : Board) (j i : nat) (v : Z) :
  j < 6 → i < 7 → b j i = 0%Z →
  board_eqb (setitem b j i v) brd = true → mark_added b brd j i v.
Proof.
  intros Hj Hi Hz Heq. pose proof (proj1 (board_eqb_true _ _) Heq) as Hcells.
  split_and!; [done.. | |].
  - rewrite <- (Hcells j i Hj Hi). unfold setitem.
    by rewrite bool_decide_eq_true_2.
  - intros j' i' Hj' Hi' Hne. rewrite <- (Hcells j' i' Hj' Hi'). unfold setitem.
    rewrite bool_decide_eq_false_2; [done |]. intros [-> ->]. done.
Qed.

Lemma mark_added_setitem_refl (b : Board) (j i : nat) (v : Z) :
  j < 6 → i < 7 → b j i = 0%Z → mark_added b (setitem b j i v) j i v.
Proof.
  intros Hj Hi Hz. apply mark_added_setitem; [done.. |].
  by apply board_eqb_true.
Qed.

Lemma legal_drop_cell (b : Board) (i j : nat) :
  legal_drop b i j → j < 6 ∧ i < 7 ∧ b j i = 0%Z.
Proof. intros (Hi & _ & Hj & Hz & _). done. Qed.

(** Some element of a list has a board structurally equal to [brd] unless
    all of them differ from it. *)
Lemma exists_equal_board (f : nat → Board) (brd : Board) (cs : list nat) :
  ¬ (∀ c, c ∈ cs → board_eqb brd (f c) = false) →
  ∃ c, c ∈ cs ∧ board_eqb brd (f c) = true.
Proof.
  induction cs as [|c cs IH]; intros Hnot.
  - exfalso. apply Hnot. intros c Hc. inversion Hc.
  - destruct (board_eqb brd (f c)) eqn:Heq.
    + exists c. split; [left | done].
    + destruct IH as (c' & Hc' & Heq').
      * intros Hall. apply Hnot. intros c' Hc'.
        apply elem_of_cons in Hc' as [-> | Hc']; auto.
      * exists c'. split; [by right | done].
Qed.


Lemma find_all_false {A} (p : A → bool) (l : list A) :
  (∀ x, x ∈ l → p x = false) → find p l = None.
Proof.
  induction l as [|a l IH]; intros Hall; simpl; [done |].
  rewrite (Hall a) by left. apply IH. intros x Hx. apply Hall. by right.
Qed.


Lemma find_app_false {A} (p : A → bool) (l1 l2 : list A) :
  (∀ x, x ∈ l1 → p x = false) → find p (l1 ++ l2) = find p l2.
Proof.
  induction l1 as [|a l1 IH]; intros Hall; simpl; [done |].
  rewrite (Hall a) by left. apply IH. intros x Hx. apply Hall. by right.
Qed.

Lemma py_truediv_pos {F} {ops : FloatOps F} (a b : Z) :
  (0 < b)%Z → py_truediv a b = Ret (f_truediv a b).
Proof. intros Hb. unfold py_truediv. by rewrite bool_decide_eq_false_2 by lia. Qed.

(** ** The win checks of connect4_AMAF.py find exactly the lines *)

Ltac inv_line_cells H :=
  repeat match type of H with
  | Forall _ (_ :: _) => apply Forall_cons in H as [? H]
  end; simpl in *.

Lemma line_cells (b : Board) (p : Z) c1 c2 c3 c4 :
  b c1.1 c1.2 = p → b c2.1 c2.2 = p → b c3.1 c3.2 = p → b c4.1 c4.2 = p →
  Forall (λ rc : nat * nat, b rc.1 rc.2 = p) [c1; c2; c3; c4].
Proof. intros. repeat constructor; done. Qed.

Lemma amaf_check_rows_Some (b : Board) (w : Z) :
  AMAF.check_rows b = Some w → wins b w.
Proof.
  unfold AMAF.check_rows. intros Hw.
  apply first_some_Some in Hw as (y & Hy & Hw).
  apply first_some_Some in Hw as (x & Hx & Hw).
  apply elem_of_range in Hy, Hx.
  destruct (run4 _ _ _ _) eqn:Hrun; [|done]. injection Hw as <-.
  apply run4_true in Hrun as (H1 & H2 & H3 & H4).
  split; [congruence |].
  exists [(y, x); (y, x + 1); (y, x + 2); (y, x + 3)].
  split; [constructor; lia |]. apply line_cells; simpl; congruence.
Qed.

Lemma amaf_check_rows_None (b : Board) (p : Z) (r c : nat) :
  AMAF.check_rows b = None → r < 6 → c + 3 < 7 → p ≠ 0%Z →
  b r c = p → b r (c + 1) = p → b r (c + 2) = p → b r (c + 3) = p → False.
Proof.
  unfold AMAF.check_rows. intros Hnone Hr Hc Hp H0 H1 H2 H3.
  rewrite first_some_None in Hnone.
  specialize (Hnone r (proj2 (elem_of_range _ _) Hr)).
  rewrite first_some_None in Hnone.
  specialize (Hnone c (proj2 (elem_of_range 4 c) ltac:(lia))).
  destruct (run4 _ _ _ _) eqn:Hrun; [done |].
  assert (run4 (b r c) (b r (c + 1)) (b r (c + 2)) (b r (c + 3)) = true)
    by (apply run4_true; repeat split; congruence).
  congruence.
Qed.

Lemma amaf_check_cols_Some (b : Board) (w : Z) :
  AMAF.check_cols b = Some w → wins b w.
Proof.
  unfold AMAF.check_cols. intros Hw.
  apply first_some_Some in Hw as (x & Hx & Hw).
  apply first_some_Some in Hw as (y & Hy & Hw).
  apply elem_of_range in Hy, Hx.
  destruct (run4 _ _ _ _) eqn:Hrun; [|done]. injection Hw as <-.
  apply run4_true in Hrun as (H1 & H2 & H3 & H4).
  split; [congruence |].
  exists [(y, x); (y + 1, x); (y + 2, x); (y + 3, x)].
  split; [constructor; lia |]. apply line_cells; simpl; congruence.
Qed.

Lemma amaf_check_cols_None (b : Board) (p : Z) (r c : nat) :
  AMAF.check_cols b = None → r + 3 < 6 → c < 7 → p ≠ 0%Z →
  b r c = p → b (r + 1) c = p → b (r + 2) c = p → b (r + 3) c = p → False.
Proof.
  unfold AMAF.check_cols. intros Hnone Hr Hc Hp H0 H1 H2 H3.
  rewrite first_some_None in Hnone.
  specialize (Hnone c (proj2 (elem_of_range _ _) Hc)).
  rewrite first_some_None in Hnone.
  specialize (Hnone r (proj2 (elem_of_range 3 r) ltac:(lia))).
  destruct (run4 _ _ _ _) eqn:Hrun; [done |].
  assert (run4 (b r c) (b (r + 1) c) (b (r + 2) c) (b (r + 3) c) = true)
    by (apply run4_true; repeat split; congruence).
  congruence.
Qed.

Lemma amaf_check_diag_Some (b : Board) (w : Z) :
  AMAF.check_diag b = Some w → wins b w.
Proof.
  unfold AMAF.check_diag.
  destruct (first_some _ (range 3)) as [w'|] eqn:Hright.
  - intros [= ->].
    apply first_some_Some in Hright as (y & Hy & Hw).
    apply first_some_Some in Hw as (x & Hx & Hw).
    apply elem_of_range in Hy, Hx.
    destruct (run4 _ _ _ _) eqn:Hrun; [|done]. injection Hw as <-.
    apply run4_true in Hrun as (H1 & H2 & H3 & H4).
    split; [congruence |].
    exists [(y, x); (y + 1, x + 1); (y + 2, x + 2); (y + 3, x + 3)].
    split; [constructor; lia |]. apply line_cells; simpl; congruence.
  - intros Hw.
    apply first_some_Some in Hw as (y & Hy & Hw).
    apply first_some_Some in Hw as (x & Hx & Hw).
    apply elem_of_range in Hy. apply elem_of_seq in Hx.
    destruct (run4 _ _ _ _) eqn:Hrun; [|done]. injection Hw as <-.
    apply run4_true in Hrun as (H1 & H2 & H3 & H4).
    split; [congruence |].
    exists [(y, (x - 3) + 3); (y + 1, (x - 3) + 2); (y + 2, (x - 3) + 1);
            (y + 3, x - 3)].
    split; [constructor; lia |].
    replace (x - 3 + 3) with x by lia.
    replace (x - 3 + 2) with (x - 1) by lia.
    replace (x - 3 + 1) with (x - 2) by lia.
    apply line_cells; simpl; congruence.
Qed.

Lemma amaf_check_diag_None_right (b : Board) (p : Z) (r c : nat) :
  AMAF.check_diag b = None → r + 3 < 6 → c + 3 < 7 → p ≠ 0%Z →
  b r c = p → b (r + 1) (c + 1) = p → b (r + 2) (c + 2) = p →
  b (r + 3) (c + 3) = p → False.
Proof.
  unfold AMAF.check_diag. intros Hnone Hr Hc Hp H0 H1 H2 H3.
  destruct (first_some _ (range 3)) as [w'|] eqn:Hright; [done |].
  rewrite first_some_None in Hright.
  specialize (Hright r (proj2 (elem_of_range 3 r) ltac:(lia))).
  rewrite first_some_None in Hright.
  specialize (Hright c (proj2 (elem_of_range 4 c) ltac:(lia))).
  destruct (run4 _ _ _ _) eqn:Hrun; [done |].
  assert (run4 (b r c) (b (r + 1) (c + 1)) (b (r + 2) (c + 2))
               (b (r + 3) (c + 3)) = true)
    by (apply run4_true; repeat split; congruence).
  congruence.
Qed.

Lemma amaf_check_diag_None_left (b : Board) (p : Z) (r c : nat) :
  AMAF.check_diag b = None → r + 3 < 6 → c + 3 < 7 → p ≠ 0%Z →
  b r (c + 3) = p → b (r + 1) (c + 2) = p → b (r + 2) (c + 1) = p →
  b (r + 3) c = p → False.
Proof.
  unfold AMAF.check_diag. intros Hnone Hr Hc Hp H0 H1 H2 H3.
  destruct (first_some _ (range 3)) as [w'|] eqn:Hright; [done |].
  rewrite first_some_None in Hnone.
  specialize (Hnone r (proj2 (elem_of_range 3 r) ltac:(lia))).
  rewrite first_some_None in Hnone.
  assert (Hin : c + 3 ∈ seq 3 4) by (apply elem_of_seq; lia).
  specialize (Hnone (c + 3) Hin).
  replace (c + 3 - 1) with (c + 2) in Hnone by lia.
  replace (c + 3 - 2) with (c + 1) in Hnone by lia.
  replace (c + 3 - 3) with c in Hnone by lia.
  destruct (run4 _ _ _ _) eqn:Hrun; [done |].
  assert (run4 (b r (c + 3)) (b (r + 1) (c + 2)) (b (r + 2) (c + 1))
               (b (r + 3) c) = true)
    by (apply run4_true; repeat split; congruence).
  congruence.
Qed.

(** [result] returns a winner exactly when some line of four exists, and
    the winner it returns owns such a line. *)
Lemma amaf_result_Some (b : Board) (w : Z) :
  AMAF.result b = Some w → wins b w.
Proof.
  unfold AMAF.result. simpl.
  destruct (AMAF.check_rows b) eqn:Hr;
    [intros [= <-]; by apply amaf_check_rows_Some |].
  destruct (AMAF.check_cols b) eqn:Hc;
    [intros [= <-]; by apply amaf_check_cols_Some |].
  destruct (AMAF.check_diag b) eqn:Hd;
    [intros [= <-]; by apply amaf_check_diag_Some | done].
Qed.

Lemma amaf_result_None (b : Board) :
  AMAF.result b = None → ¬ has_win b.
Proof.
  unfold AMAF.result. simpl.
  destruct (AMAF.check_rows b) eqn:Hr; [done |].
  destruct (AMAF.check_cols b) eqn:Hc; [done |].
  destruct (AMAF.check_diag b) eqn:Hd; [done |].
  intros _ (p & Hp & l & Hl & Hcells).
  destruct Hl; inv_line_cells Hcells.
  - eapply amaf_check_rows_None; eauto.
  - eapply amaf_check_cols_None; eauto.
  - eapply amaf_check_diag_None_right; eauto.
  - eapply amaf_check_diag_None_left; eauto.
Qed.

Lemma amaf_check_tie_true (b : Board) : AMAF.check_tie b = true ↔ full b.
Proof.
  unfold AMAF.check_tie, full. rewrite forallb_range_true. split.
  - intros Hall r c Hr Hc. specialize (Hall r Hr).
    rewrite forallb_range_true in Hall. specialize (Hall c Hc).
    by apply negb_true_iff, bool_decide_eq_false in Hall.
  - intros Hall r Hr. apply forallb_range_true. intros c Hc.
    apply negb_true_iff, bool_decide_eq_false. auto.
Qed.

(** ** The win checks of connect4_RAVE.py *)

Lemma py_count4 (v a b c d : Z) :
  py_count v [a; b; c; d] = 4 ↔ a = v ∧ b = v ∧ c = v ∧ d = v.
Proof.
  unfold py_count. rewrite !filter_cons, filter_nil.
  repeat case_decide; simpl; split; intros; try lia; try tauto.
Qed.

Lemma rave_four_equal (f : nat → Z) (k x : nat) :
  x + 3 < k →
  RAVE.four_equal (f <$> range k) x
  = if run4 (f x) (f (x + 1)) (f (x + 2)) (f (x + 3)) then Some (f x) else None.
Proof.
  intros Hx. unfold RAVE.four_equal, py_slice, range.
  assert (Hlook : ∀ i, i < k → (f <$> seq 0 k) !! i = Some (f i)).
  { intros i Hi. rewrite list_lookup_fmap, lookup_seq_lt by done. done. }
  rewrite (Hlook x) by lia. simpl.
  assert (Hslice : take 4 (drop x (f <$> seq 0 k))
                   = [f x; f (x + 1); f (x + 2); f (x + 3)]).
  { apply list_eq. intros i. rewrite lookup_take, lookup_drop.
    case_decide as Hi.
    - rewrite Hlook by lia.
      do 4 (destruct i as [|i]; [simpl; f_equal; f_equal; lia |]). lia.
    - do 4 (destruct i as [|i]; [lia |]). done. }
  rewrite Hslice.
  destruct (run4 _ _ _ _) eqn:Hrun.
  - apply run4_true in Hrun as (H1 & H2 & H3 & H4).
    rewrite bool_decide_eq_true_2 by (apply py_count4; repeat split; congruence).
    rewrite bool_decide_eq_false_2 by congruence. done.
  - case_bool_decide as Hcount; [|done].
    apply py_count4 in Hcount as (_ & H1 & H2 & H3).
    case_bool_decide as Hz; [done |]. simpl.
    assert (run4 (f x) (f (x + 1)) (f (x + 2)) (f (x + 3)) = true)
      by (apply run4_true; repeat split; congruence).
    congruence.
Qed.

Lemma rave_check_rows_eq (b : Board) : RAVE.check_rows b = AMAF.check_rows b.
Proof.
  unfold RAVE.check_rows, AMAF.check_rows.
  apply first_some_ext. intros y _. apply first_some_ext. intros x Hx.
  apply elem_of_range in Hx. rewrite (rave_four_equal (b y)) by lia. done.
Qed.

Lemma rave_check_cols_eq (b : Board) : RAVE.check_cols b = AMAF.check_cols b.
Proof.
  unfold RAVE.check_cols, AMAF.check_cols.
  apply first_some_ext. intros x _. apply first_some_ext. intros y Hy.
  apply elem_of_range in Hy.
  rewrite (rave_four_equal (λ y, b y x)) by lia. done.
Qed.

Lemma rave_diag_winner_Some (a b c d w : Z) :
  RAVE.diag_winner [a; b; c; d] = Some w →
  w ≠ 0%Z ∧ a = w ∧ b = w ∧ c = w ∧ d = w.
Proof.
  unfold RAVE.diag_winner. simpl.
  destruct (_ || _) eqn:Hor; [|done]. intros [= <-].
  apply orb_true_iff in Hor as [Hc | Hc]; apply bool_decide_eq_true in Hc;
    apply py_count4 in Hc as (-> & -> & -> & ->); repeat split; lia.
Qed.

Lemma rave_diag_winner_None (a b c d p : Z) :
  RAVE.diag_winner [a; b; c; d] = None →
  p = 1%Z ∨ p = 2%Z → a = p → b = p → c = p → d = p → False.
Proof.
  unfold RAVE.diag_winner. intros Hnone Hp -> -> -> ->.
  destruct (_ || _) eqn:Hor; [done |].
  apply orb_false_iff in Hor as [H1 H2].
  apply bool_decide_eq_false in H1, H2.
  rewrite py_count4 in H1, H2. destruct Hp as [-> | ->]; tauto.
Qed.

Lemma rave_check_diag_Some (b : Board) (w : Z) :
  RAVE.check_diag b = Some w → wins b w.
Proof.
  unfold RAVE.check_diag.
  destruct (first_some _ RAVE.right_points) as [w'|] eqn:Hright.
  - intros [= ->].
    apply first_some_Some in Hright as ([p0 p1] & Hin & Hw). simpl in Hw.
    apply rave_diag_winner_Some in Hw as (Hw & H0 & H1 & H2 & H3).
    split; [done |].
    exists [(p0 - 3, p1 + 3); (p0 - 3 + 1, p1 + 2); (p0 - 3 + 2, p1 + 1);
            (p0 - 3 + 3, p1)].
    unfold RAVE.right_points in Hin.
    repeat (apply elem_of_cons in Hin as [[= -> ->] | Hin];
            [split; [apply line_diag_left; lia | by apply line_cells] |]).
    inversion Hin.
  - intros Hleft.
    apply first_some_Some in Hleft as ([p0 p1] & Hin & Hw). simpl in Hw.
    apply rave_diag_winner_Some in Hw as (Hw & H0 & H1 & H2 & H3).
    split; [done |].
    exists [(p0 - 3, p1 - 3); (p0 - 3 + 1, p1 - 3 + 1); (p0 - 3 + 2, p1 - 3 + 2);
            (p0 - 3 + 3, p1 - 3 + 3)].
    unfold RAVE.left_points in Hin.
    repeat (apply elem_of_cons in Hin as [[= -> ->] | Hin];
            [split; [apply line_diag_right; lia | by apply line_cells] |]).
    inversion Hin.
Qed.

Lemma rave_right_points_all (r c : nat) :
  r + 3 < 6 → c + 3 < 7 → (r + 3, c) ∈ RAVE.right_points.
Proof.
  intros Hr Hc. unfold RAVE.right_points.
  assert (Hr' : r = 0 ∨ r = 1 ∨ r = 2) by lia.
  assert (Hc' : c = 0 ∨ c = 1 ∨ c = 2 ∨ c = 3) by lia.
  destruct_or!; subst; simpl; set_solver.
Qed.

Lemma rave_left_points_all (r c : nat) :
  r + 3 < 6 → c + 3 < 7 → (r + 3, c + 3) ∈ RAVE.left_points.
Proof.
  intros Hr Hc. unfold RAVE.left_points.
  assert (Hr' : r = 0 ∨ r = 1 ∨ r = 2) by lia.
  assert (Hc' : c = 0 ∨ c = 1 ∨ c = 2 ∨ c = 3) by lia.
  destruct_or!; subst; simpl; set_solver.
Qed.

Lemma rave_check_diag_None_right (b : Board) (p : Z) (r c : nat) :
  RAVE.check_diag b = None → r + 3 < 6 → c + 3 < 7 → p = 1%Z ∨ p = 2%Z →
  b r c = p → b (r + 1) (c + 1) = p → b (r + 2) (c + 2) = p →
  b (r + 3) (c + 3) = p → False.
Proof.
  unfold RAVE.check_diag. intros Hnone Hr Hc Hp H0 H1 H2 H3.
  destruct (first_some _ RAVE.right_points) eqn:Hright; [done |].
  rewrite first_some_None in Hnone.
  specialize (Hnone _ (rave_left_points_all r c Hr Hc)). simpl in Hnone.
  eapply rave_diag_winner_None; [exact Hnone | exact Hp | ..].
  - by replace (r + 3 - 0) with (r + 3) by lia;
       replace (c + 3 - 0) with (c + 3) by lia.
  - by replace (r + 3 - 1) with (r + 2) by lia;
       replace (c + 3 - 1) with (c + 2) by lia.
  - by replace (r + 3 - 2) with (r + 1) by lia;
       replace (c + 3 - 2) with (c + 1) by lia.
  - by replace (r + 3 - 3) with r by lia; replace (c + 3 - 3) with c by lia.
Qed.

Lemma rave_check_diag_None_left (b : Board) (p : Z) (r c : nat) :
  RAVE.check_diag b = None → r + 3 < 6 → c + 3 < 7 → p = 1%Z ∨ p = 2%Z →
  b r (c + 3) = p → b (r + 1) (c + 2) = p → b (r + 2) (c + 1) = p →
  b (r + 3) c = p → False.
Proof.
  unfold RAVE.check_diag. intros Hnone Hr Hc Hp H0 H1 H2 H3.
  destruct (first_some _ RAVE.right_points) eqn:Hright; [done |].
  rewrite first_some_None in Hright.
  specialize (Hright _ (rave_right_points_all r c Hr Hc)). simpl in Hright.
  eapply rave_diag_winner_None; [exact Hright | exact Hp | ..].
  - by replace (r + 3 - 0) with (r + 3) by lia; replace (c + 0) with c by lia.
  - by replace (r + 3 - 1) with (r + 2) by lia.
  - by replace (r + 3 - 2) with (r + 1) by lia.
  - by replace (r + 3 - 3) with r by lia.
Qed.

Lemma rave_result_Some (b : Board) (w : Z) :
  RAVE.result b = Some w → wins b w.
Proof.
  unfold RAVE.result. rewrite rave_check_rows_eq, rave_check_cols_eq.
  destruct (AMAF.check_rows b) eqn:Hr;
    [intros [= <-]; by apply amaf_check_rows_Some |].
  destruct (AMAF.check_cols b) eqn:Hc;
    [intros [= <-]; by apply amaf_check_cols_Some |].
  apply rave_check_diag_Some.
Qed.

Lemma rave_result_None (b : Board) :
  marks_ok b → RAVE.result b = None → ¬ has_win b.
Proof.
  unfold RAVE.result. rewrite rave_check_rows_eq, rave_check_cols_eq.
  intros Hok.
  destruct (AMAF.check_rows b) eqn:Hr; [done |].
  destruct (AMAF.check_cols b) eqn:Hc; [done |].
  intros Hd (p & Hp & l & Hl & Hcells).
  destruct Hl as [r c Hr' Hc' | r c Hr' Hc' | r c Hr' Hc' | r c Hr' Hc'];
    inv_line_cells Hcells.
  - eapply amaf_check_rows_None; eauto.
  - eapply amaf_check_cols_None; eauto.
  - assert (Hp' : p = 1%Z ∨ p = 2%Z).
    { destruct (Hok r c) as [? | ?]; [lia | lia | congruence | congruence]. }
    eapply rave_check_diag_None_right; eauto.
  - assert (Hp' : p = 1%Z ∨ p = 2%Z).
    { destruct (Hok (r + 3) c) as [? | ?]; [lia | lia | congruence | congruence]. }
    eapply rave_check_diag_None_left; eauto.
Qed.

Lemma truthy_false_wins (o : option Z) (b : Board) :
  (∀ w, o = Some w → wins b w) → truthy o = false → o = None.
Proof.
  intros Hw. destruct o as [w|]; [|done]. simpl.
  intros Hz%negb_false_iff%bool_decide_eq_true.
  destruct (Hw w eq_refl) as [Hne _]. done.
Qed.

Lemma rave_check_tie_true (b : Board) :
  RAVE.check_tie b = true ↔ full b ∧ RAVE.result b = None.
Proof.
  unfold RAVE.check_tie. rewrite !andb_true_iff, !negb_true_iff.
  fold (AMAF.check_tie b). rewrite amaf_check_tie_true.
  unfold RAVE.result. split.
  - intros (((Hfull & Hr) & Hc) & Hd). split; [done |].
    apply truthy_false_wins with (b := b) in Hr as ->;
      [| intros w Hw; apply amaf_check_rows_Some; by rewrite <- rave_check_rows_eq].
    apply truthy_false_wins with (b := b) in Hc as ->;
      [| intros w Hw; apply amaf_check_cols_Some; by rewrite <- rave_check_cols_eq].
    apply truthy_false_wins with (b := b) in Hd as ->;
      [done | apply rave_check_diag_Some].
  - intros (Hfull & Hres).
    destruct (RAVE.check_rows b); [done |].
    destruct (RAVE.check_cols b); [done |].
    rewrite Hres. done.
Qed.

Lemma rave_check_win_result (g : RAVE.GameBoard) :
  RAVE.check_win g
  = match RAVE.result (RAVE.gb_board g) with
    | Some w => (true, Some w)
    | None => if RAVE.check_tie (RAVE.gb_board g) then (true, None)
              else (false, None)
    end.
Proof.
  unfold RAVE.check_win, RAVE.result.
  destruct (RAVE.check_rows _); [done |].
  destruct (RAVE.check_cols _); [done |].
  destruct (RAVE.check_diag _); done.
Qed.

(** ** The outcome check *)

Lemma amaf_check_win_spec (g : AMAF.GameBoard) :
  outcome_spec (AMAF.gb_board g) (AMAF.check_win g).
Proof.
  unfold outcome_spec, AMAF.check_win. fold (AMAF.result (AMAF.gb_board g)).
  destruct (AMAF.result _) as [w|] eqn:Hres; simpl.
  - by apply amaf_result_Some.
  - apply amaf_result_None in Hres.
    destruct (AMAF.check_tie _) eqn:Htie; simpl.
    + split; [by apply amaf_check_tie_true | done].
    + split; [|done]. rewrite <- amaf_check_tie_true. congruence.
Qed.

Lemma rave_check_win_spec (g : RAVE.GameBoard) :
  marks_ok (RAVE.gb_board g) →
  outcome_spec (RAVE.gb_board g) (RAVE.check_win g).
Proof.
  intros Hok. unfold outcome_spec. rewrite rave_check_win_result.
  destruct (RAVE.result _) as [w|] eqn:Hres; simpl.
  - by apply rave_result_Some.
  - pose proof (rave_result_None _ Hok Hres) as Hnowin.
    destruct (RAVE.check_tie _) eqn:Htie; simpl.
    + apply rave_check_tie_true in Htie as [Hfull _]. done.
    + split; [|done].
      intros Hfull. assert (RAVE.check_tie (RAVE.gb_board g) = true)
        by (by apply rave_check_tie_true). congruence.
Qed.

Lemma marks_okb_true (b : Board) : marks_okb b = true → marks_ok b.
Proof.
  unfold marks_okb, marks_ok. rewrite forallb_range_true.
  intros Hall r c Hr Hc. specialize (Hall r Hr).
  rewrite forallb_range_true in Hall. specialize (Hall c Hc).
  by apply bool_decide_eq_true in Hall.
Qed.

(** ** apply_move *)

Lemma find_seq_Some (p : nat → bool) (a k i : nat) :
  find p (seq a k) = Some i →
  a ≤ i < a + k ∧ p i = true ∧ ∀ i', a ≤ i' < i → p i' = false.
Proof.
  revert a. induction k as [|k IH]; intros a; simpl; [done |].
  destruct (p a) eqn:Hpa.
  - intros [= <-]. repeat split; [lia | lia | done | intros; lia].
  - intros Hf. destruct (IH _ Hf) as (Hi & Hpi & Hlow).
    repeat split; [lia | lia | done |].
    intros i' Hi'. destruct (decide (i' = a)) as [-> | Hne]; [done |].
    apply Hlow. lia.
Qed.

Lemma find_seq_None (p : nat → bool) (a k : nat) :
  find p (seq a k) = None → ∀ i, a ≤ i < a + k → p i = false.
Proof.
  revert a. induction k as [|k IH]; intros a; simpl; [intros; lia |].
  destruct (p a) eqn:Hpa; [done |].
  intros Hf i Hi. destruct (decide (i = a)) as [-> | Hne]; [done |].
  apply (IH _ Hf). lia.
Qed.

Lemma find_lowest_empty (b : Board) (c i : nat) :
  find (λ j, bool_decide (b j c = 0%Z)) (range 6) = Some i ↔ lowest_empty b c i.
Proof.
  unfold lowest_empty, range. split.
  - intros (Hi & Hz & Hlow)%find_seq_Some.
    apply bool_decide_eq_true in Hz. repeat split; [lia | done |].
    intros i' Hi'. specialize (Hlow i' ltac:(lia)).
    by apply bool_decide_eq_false in Hlow.
  - intros (Hi & Hz & Hlow).
    destruct (find _ _) as [i0|] eqn:Hf.
    + apply find_seq_Some in Hf as (Hi0 & Hz0 & Hlow0).
      apply bool_decide_eq_true in Hz0.
      destruct (decide (i0 = i)) as [-> | Hne]; [done |].
      destruct (decide (i0 < i)) as [Hlt | Hge].
      * by destruct (Hlow i0 Hlt).
      * specialize (Hlow0 i ltac:(lia)).
        apply bool_decide_eq_false in Hlow0. done.
    + pose proof (find_seq_None _ _ _ Hf i ltac:(lia)) as Hfalse.
      apply bool_decide_eq_false in Hfalse. done.
Qed.

Lemma find_no_empty (b : Board) (c : nat) :
  find (λ j, bool_decide (b j c = 0%Z)) (range 6) = None
  ↔ ∀ i, i < 6 → b i c ≠ 0%Z.
Proof.
  unfold range. split.
  - intros Hf i Hi. pose proof (find_seq_None _ _ _ Hf i ltac:(lia)) as Hfalse.
    by apply bool_decide_eq_false in Hfalse.
  - intros Hall. destruct (find _ _) as [i|] eqn:Hf; [|done].
    apply find_seq_Some in Hf as (Hi & Hz & _).
    apply bool_decide_eq_true in Hz. destruct (Hall i); [lia | done].
Qed.

Lemma amaf_apply_move_rows_find (g : AMAF.GameBoard) (c : nat) (rows : list nat) :
  AMAF.apply_move_rows g c rows
  = match find (λ j, bool_decide (AMAF.gb_board g j c = 0%Z)) rows with
    | Some i => (true, AMAF.mkGameBoard (3 - AMAF.gb_turn g)
                         (setitem (AMAF.gb_board g) i c (AMAF.gb_turn g))
                         (AMAF.gb_cpu g))
    | None => (false, g)
    end.
Proof.
  induction rows as [|i rows IH]; simpl; [done |].
  destruct (bool_decide _); [done | apply IH].
Qed.

Lemma rave_apply_move_rows_find (g : RAVE.GameBoard) (c : nat) (rows : list nat) :
  RAVE.apply_move_rows g c rows
  = match find (λ j, bool_decide (RAVE.gb_board g j c = 0%Z)) rows with
    | Some i => (true, RAVE.mkGameBoard
                         (if bool_decide (RAVE.gb_turn g = 1%Z) then 2 else 1)
                         (setitem (RAVE.gb_board g) i c (RAVE.gb_turn g))
                         (RAVE.gb_cpu g))
    | None => (false, g)
    end.
Proof.
  induction rows as [|i rows IH]; simpl; [done |].
  destruct (bool_decide (RAVE.gb_board g i c = 0%Z)); [done | apply IH].
Qed.

Lemma np_index_Some (size : nat) (k : Z) (c : nat) :
  np_index size k = Some c → c < size.
Proof.
  unfold np_index. repeat case_bool_decide; intros [= <-]; lia.
Qed.

Lemma np_index_in_range (size c : nat) :
  c < size → np_index size (Z.of_nat c + 1 - 1) = Some c.
Proof.
  intros Hc. unfold np_index. rewrite bool_decide_eq_true_2 by lia.
  f_equal. lia.
Qed.

Lemma gravity_setitem (b : Board) (c i : nat) (v : Z) :
  gravity b → lowest_empty b c i → v ≠ 0%Z → gravity (setitem b i c v).
Proof.
  intros Hg (Hi & Hz & Hlow) Hv r c' Hr Hc'. unfold setitem.
  case_bool_decide as H1; [done |]. intros Hrz.
  case_bool_decide as H2; [|by apply Hg].
  destruct H2 as [<- ->]. destruct (Hlow r); [lia | done].
Qed.

Lemma gravity_zeros : gravity zeros.
Proof. by intros r c _ _ _. Qed.

Lemma amaf_reachable_inv (g : AMAF.GameBoard) :
  amaf_reachable g →
  gravity (AMAF.gb_board g) ∧ (AMAF.gb_turn g = 1%Z ∨ AMAF.gb_turn g = 2%Z).
Proof.
  induction 1 as [t cpu Ht | g column ok g' _ [IHg IHt] Hmove]; simpl.
  - split; [apply gravity_zeros | done].
  - unfold AMAF.apply_move in Hmove.
    destruct (np_index 7 (column - 1)) as [c|] eqn:Hc; [|done].
    rewrite amaf_apply_move_rows_find in Hmove.
    destruct (find _ _) as [i|] eqn:Hf; injection Hmove as <- <-; [|done].
    simpl. split; [|lia].
    apply gravity_setitem; [done | by apply find_lowest_empty | lia].
Qed.

Lemma rave_reachable_inv (g : RAVE.GameBoard) :
  rave_reachable g →
  gravity (RAVE.gb_board g) ∧ (RAVE.gb_turn g = 1%Z ∨ RAVE.gb_turn g = 2%Z).
Proof.
  induction 1 as [t cpu Ht | g column ok g' _ [IHg IHt] Hmove]; simpl.
  - split; [apply gravity_zeros | done].
  - unfold RAVE.apply_move in Hmove.
    destruct (np_index 7 (column - 1)) as [c|] eqn:Hc; [|done].
    rewrite rave_apply_move_rows_find in Hmove.
    destruct (find _ _) as [i|] eqn:Hf; injection Hmove as <- <-; [|done].
    simpl. split; [|case_bool_decide; lia].
    apply gravity_setitem; [done | by apply find_lowest_empty | lia].
Qed.


Lemma amaf_reachable_play (columns : list Z) (g : AMAF.GameBoard) :
  amaf_reachable g → amaf_reachable (amaf_play columns g).
Proof.
  revert g. induction columns as [|column columns IH]; intros g Hg; [done |].
  unfold amaf_play. simpl. apply IH.
  destruct (AMAF.apply_move g column) as [[ok g']| |] eqn:Hmove; [|done..].
  by eapply amaf_reach_move.
Qed.

Lemma rave_reachable_play (columns : list Z) (g : RAVE.GameBoard) :
  rave_reachable g → rave_reachable (rave_play columns g).
Proof.
  revert g. induction columns as [|column columns IH]; intros g Hg; [done |].
  unfold rave_play. simpl. apply IH.
  destruct (RAVE.apply_move g column) as [[ok g']| |] eqn:Hmove; [|done..].
  by eapply rave_reach_move.
Qed.



(** The scenarios of the rules: a row, a column, both diagonals, a full
    board without a line, and the empty board. *)
Example check_win_row :
  AMAF.check_win (AMAF.mkGameBoard 2 (of_rows [[1; 1; 1; 1]]%Z) 1) = (true, Some 1%Z)
  ∧ RAVE.check_win (RAVE.mkGameBoard 2 (of_rows [[1; 1; 1; 1]]%Z) 1)
    = (true, Some 1%Z).
Proof. split; vm_compute; reflexivity. Qed.

Example check_win_column :
  AMAF.check_win (AMAF.mkGameBoard 1 (of_rows [[2]; [2]; [2]; [2]]%Z) 1)
  = (true, Some 2%Z)
  ∧ RAVE.check_win (RAVE.mkGameBoard 1 (of_rows [[2]; [2]; [2]; [2]]%Z) 1)
    = (true, Some 2%Z).
Proof. split; vm_compute; reflexivity. Qed.

Example check_win_diagonals :
  let right := of_rows [[1; 2; 2; 2]; [0; 1; 1; 2]; [0; 0; 1; 1]; [0; 0; 0; 1]]%Z in
  let left := of_rows [[2; 2; 1; 1; 0; 0; 0]; [0; 0; 1; 1; 1; 2; 2];
                       [0; 0; 0; 0; 1; 2; 0]; [0; 0; 0; 0; 0; 1; 0];
                       [0; 0; 0; 0; 0; 0; 1]]%Z in
  AMAF.check_win (AMAF.mkGameBoard 2 right 1) = (true, Some 1%Z)
  ∧ RAVE.check_win (RAVE.mkGameBoard 2 right 1) = (true, Some 1%Z)
  ∧ AMAF.check_win (AMAF.mkGameBoard 2 left 1) = (true, Some 1%Z)
  ∧ RAVE.check_win (RAVE.mkGameBoard 2 left 1) = (true, Some 1%Z).
Proof. repeat split; vm_compute; reflexivity. Qed.

Example check_win_tie :
  let b := of_rows [[1; 2; 1; 2; 1; 2; 1]; [1; 2; 1; 2; 1; 2; 1];
                    [2; 1; 2; 1; 2; 1; 2]; [2; 1; 2; 1; 2; 1; 2];
                    [1; 2; 1; 2; 1; 2; 1]; [1; 2; 1; 2; 1; 2; 1]]%Z in
  AMAF.check_win (AMAF.mkGameBoard 1 b 1) = (true, None)
  ∧ RAVE.check_win (RAVE.mkGameBoard 1 b 1) = (true, None).
Proof. split; vm_compute; reflexivity. Qed.

Example check_win_in_progress :
  AMAF.check_win (AMAF.mkGameBoard 1 zeros 1) = (false, None)
  ∧ RAVE.check_win (RAVE.mkGameBoard 1 zeros 1) = (false, None).
Proof. split; vm_compute; reflexivity. Qed.

Lemma outcome_spec_full_line (b : Board) (r : bool * option Z) :
  outcome_spec b r → full b → has_win b → ∃ p, r = (true, Some p) ∧ wins b p.
Proof.
  unfold outcome_spec. destruct r as [[|] [p|]]; simpl; intros Hspec Hfull Hwin.
  - by exists p.
  - by destruct Hspec as [_ Hno].
  - done.
  - by destruct Hspec as [_ Hno].
Qed.

(** C4.  For every board, [check_win] gives exactly one of three answers:
    a win of a player [p], who then has four marks in a line; a tie, and
    then every cell is occupied and no line of four exists; or game in
    progress, and then some cell is empty and no line exists.  So a full
    board that contains a line is reported as a win, never as a tie.  For
    connect4_RAVE.py the cells hold 0, 1 or 2. *)
Theorem C4_check_win_outcome (b : Board) (turn cpu : Z) :
  (outcome_spec b (AMAF.check_win (AMAF.mkGameBoard turn b cpu))
   ∧ (full b → has_win b →
      ∃ p, AMAF.check_win (AMAF.mkGameBoard turn b cpu) = (true, Some p)
        ∧ wins b p))
  ∧ (marks_ok b →
     outcome_spec b (RAVE.check_win (RAVE.mkGameBoard turn b cpu))
     ∧ (full b → has_win b →
        ∃ p, RAVE.check_win (RAVE.mkGameBoard turn b cpu) = (true, Some p)
          ∧ wins b p)).
Proof.
  pose proof (amaf_check_win_spec (AMAF.mkGameBoard turn b cpu)) as Ha.
  split.
  - split; [done | by apply outcome_spec_full_line].
  - intros Hok.
    pose proof (rave_check_win_spec (RAVE.mkGameBoard turn b cpu) Hok) as Hr.
    split; [done | by apply outcome_spec_full_line].
Qed.

Lemma C4_check_win_outcome_witness :
  outcome_spec full_board_with_line
    (RAVE.check_win (RAVE.mkGameBoard 1 full_board_with_line 1))
  ∧ AMAF.check_win (AMAF.mkGameBoard 1 full_board_with_line 1) = (true, Some 1%Z)
  ∧ RAVE.check_win (RAVE.mkGameBoard 1 full_board_with_line 1) = (true, Some 1%Z).
Proof.
  destruct (C4_check_win_outcome full_board_with_line 1 1) as [_ Hr].
  split; [| split; vm_compute; reflexivity].
  apply Hr. apply marks_okb_true. vm_compute. reflexivity.
Defined.

(** C10.  [apply_move] does no range check on its 1-based argument: called
    with column 0 it raises nothing and does exactly what the call with
    column 7 does.  When the right-most column (array index 6) has an empty
    cell, the call succeeds, and afterwards the lowest empty cell [(i, 6)]
    of that column holds the mark of the player whose turn it was, every
    other cell holds what it held, and the turn has passed to the other
    player; when the column has no empty cell, the call answers [False] and
    changes nothing.  Both files. *)
Theorem C10_apply_move_column_zero (ga : AMAF.GameBoard) (gr : RAVE.GameBoard) :
  (AMAF.apply_move ga 0 = AMAF.apply_move ga 7
   ∧ (∃ r, AMAF.apply_move ga 0 = Ret r)
   ∧ (∀ i, lowest_empty (AMAF.gb_board ga) 6 i →
        ∃ g', AMAF.apply_move ga 0 = Ret (true, g')
          ∧ AMAF.gb_board g' i 6 = AMAF.gb_turn ga
          ∧ (∀ r c, (r, c) ≠ (i, 6) →
               AMAF.gb_board g' r c = AMAF.gb_board ga r c)
          ∧ AMAF.gb_turn g' = (3 - AMAF.gb_turn ga)%Z
          ∧ AMAF.gb_cpu g' = AMAF.gb_cpu ga)
   ∧ ((∀ i, i < 6 → AMAF.gb_board ga i 6 ≠ 0%Z) →
      AMAF.apply_move ga 0 = Ret (false, ga)))
  ∧
  (RAVE.apply_move gr 0 = RAVE.apply_move gr 7
   ∧ (∃ r, RAVE.apply_move gr 0 = Ret r)
   ∧ (∀ i, lowest_empty (RAVE.gb_board gr) 6 i →
        ∃ g', RAVE.apply_move gr 0 = Ret (true, g')
          ∧ RAVE.gb_board g' i 6 = RAVE.gb_turn gr
          ∧ (∀ r c, (r, c) ≠ (i, 6) →
               RAVE.gb_board g' r c = RAVE.gb_board gr r c)
          ∧ RAVE.gb_turn g' = (if bool_decide (RAVE.gb_turn gr = 1%Z)
                               then 2%Z else 1%Z)
          ∧ RAVE.gb_cpu g' = RAVE.gb_cpu gr)
   ∧ ((∀ i, i < 6 → RAVE.gb_board gr i 6 ≠ 0%Z) →
      RAVE.apply_move gr 0 = Ret (false, gr))).
Proof.
  split.
  - unfold AMAF.apply_move.
    change (np_index 7 (0 - 1)) with (Some 6).
    change (np_index 7 (7 - 1)) with (Some 6).
    split_and!; [done | by eexists | |].
    + intros i Hi. rewrite amaf_apply_move_rows_find.
      apply find_lowest_empty in Hi. rewrite Hi.
      eexists. split; [reflexivity |]. cbn. unfold setitem.
      split_and!; [by rewrite bool_decide_eq_true_2 | | done | done].
      intros r c Hne. rewrite bool_decide_eq_false_2; [done |].
      intros [-> ->]. done.
    + intros Hfull. rewrite amaf_apply_move_rows_find.
      by rewrite (proj2 (find_no_empty (AMAF.gb_board ga) 6) Hfull).
  - unfold RAVE.apply_move.
    change (np_index 7 (0 - 1)) with (Some 6).
    change (np_index 7 (7 - 1)) with (Some 6).
    split_and!; [done | by eexists | |].
    + intros i Hi. rewrite rave_apply_move_rows_find.
      apply find_lowest_empty in Hi. rewrite Hi.
      eexists. split; [reflexivity |]. cbn. unfold setitem.
      split_and!; [by rewrite bool_decide_eq_true_2 | | done | done].
      intros r c Hne. rewrite bool_decide_eq_false_2; [done |].
      intros [-> ->]. done.
    + intros Hfull. rewrite rave_apply_move_rows_find.
      by rewrite (proj2 (find_no_empty (RAVE.gb_board gr) 6) Hfull).
Qed.

Lemma C10_apply_move_column_zero_witness :
  (∃ g', AMAF.apply_move (AMAF.mkGameBoard 1 zeros 1) 0 = Ret (true, g')
     ∧ AMAF.gb_board g' 0 6 = 1%Z
     ∧ AMAF.gb_board g' 1 6 = 0%Z ∧ AMAF.gb_board g' 0 0 = 0%Z
     ∧ AMAF.gb_turn g' = 2%Z)
  ∧ (∃ g', RAVE.apply_move (RAVE.mkGameBoard 1 zeros 1) 0 = Ret (true, g')
       ∧ RAVE.gb_board g' 0 6 = 1%Z
       ∧ RAVE.gb_board g' 1 6 = 0%Z ∧ RAVE.gb_board g' 0 0 = 0%Z
       ∧ RAVE.gb_turn g' = 2%Z).
Proof.
  destruct (C10_apply_move_column_zero
              (AMAF.mkGameBoard 1 zeros 1) (RAVE.mkGameBoard 1 zeros 1))
    as [(_ & _ & Ha & _) (_ & _ & Hr & _)].
  split.
  - destruct (Ha 0) as (g' & Hrun & Hcell & Hkeep & Hturn & _).
    { split; [lia | split; [reflexivity | intros; lia]]. }
    exists g'. split_and!; [done | done | | | done].
    + by rewrite Hkeep.
    + by rewrite Hkeep.
  - destruct (Hr 0) as (g' & Hrun & Hcell & Hkeep & Hturn & _).
    { split; [lia | split; [reflexivity | intros; lia]]. }
    exists g'. split_and!; [done | done | | | done].
    + by rewrite Hkeep.
    + by rewrite Hkeep.
Defined.

(** ** connect4_AMAF.py: arrays are only ever copied, never overwritten *)

Module AmafFacts.
Import AMAF AmafSpec.

Lemma amaf_copy_setitem (st : State) (a j i : nat) (v : Z) :
  np_setitem (with_arrays st (arrays st ++ [array_at st a]))
             (length (arrays st)) j i v
  = with_arrays st (arrays st ++ [setitem (array_at st a) j i v]).
Proof.
  unfold np_setitem, with_arrays, array_at. simpl. f_equal.
  rewrite lookup_app_r by lia. rewrite Nat.sub_diag. simpl.
  rewrite insert_app_r_alt by lia. rewrite Nat.sub_diag. done.
Qed.

Lemma amaf_array_at_prefix (st st' : State) (l : nat) :
  arrays st `prefix_of` arrays st' → l < length (arrays st) →
  array_at st' l = array_at st l.
Proof.
  intros [k Hk] Hl. unfold array_at. rewrite Hk, lookup_app_l by done. done.
Qed.

Lemma amaf_frame_refl (st : State) : frame st st.
Proof. repeat split; done. Qed.

Lemma amaf_frame_trans (st1 st2 st3 : State) :
  frame st1 st2 → frame st2 st3 → frame st1 st3.
Proof.
  intros (Ha & Hl & Hb) (Ha' & Hl' & Hb'). repeat split.
  - by etrans.
  - lia.
  - intros x Hx. rewrite Hb' by lia. by apply Hb.
Qed.

Lemma amaf_apply_move_to_board_arrays (st : State) (b col : nat) (v : Z) :
  ∃ brd, (apply_move_to_board st b col v).1
         = with_arrays st (arrays st ++ [brd])
       ∧ (apply_move_to_board st b col v).2 = length (arrays st).
Proof.
  unfold apply_move_to_board.
  destruct (np_copy st b) as [st1 new_board] eqn:Hcopy.
  destruct (find _ _) as [j|].
  - exists (setitem (array_at st b) j col v). simpl.
    injection Hcopy as <- <-. by rewrite amaf_copy_setitem.
  - exists (array_at st b). injection Hcopy as <- <-. done.
Qed.

Lemma amaf_arrays_grow_refl (st : State) : amaf_arrays_grow st st.
Proof. repeat split; done. Qed.

Lemma amaf_arrays_grow_trans (st1 st2 st3 : State) :
  amaf_arrays_grow st1 st2 → amaf_arrays_grow st2 st3 → amaf_arrays_grow st1 st3.
Proof.
  intros (Hn & Hs & Ha) (Hn' & Hs' & Ha'). repeat split; try congruence.
  by etrans.
Qed.

Lemma amaf_get_moves_cols_grow (st : State) (b : nat) (v : Z) (cols : list nat) :
  amaf_arrays_grow st (get_moves_cols st b v cols).1.
Proof.
  revert st. induction cols as [|i cols IH]; intros st; simpl.
  - apply amaf_arrays_grow_refl.
  - case_bool_decide; [|apply IH].
    destruct (apply_move_to_board st b i v) as [st1 m] eqn:Hmove.
    destruct (get_moves_cols st1 b v cols) as [st2 ms] eqn:Hrest. simpl.
    destruct (amaf_apply_move_to_board_arrays st b i v) as (brd & Hst1 & _).
    rewrite Hmove in Hst1. simpl in Hst1.
    eapply amaf_arrays_grow_trans; [|specialize (IH st1); by rewrite Hrest in IH].
    subst st1. repeat split. simpl. by apply prefix_app_r.
Qed.

Lemma amaf_random_choice_grow (st : State) (moves : list nat) :
  amaf_arrays_grow st (random_choice st moves).1
  ∧ arrays (random_choice st moves).1 = arrays st.
Proof. unfold random_choice. destruct (rng st); repeat split; done. Qed.

Lemma amaf_rollout_loop_grow (fuel : nat) (st : State) (node b : nat) (v : Z)
    (acts : list (nat * nat)) st' w acts' :
  rollout_loop fuel st node b v acts = Ret (st', w, acts') →
  amaf_arrays_grow st st'.
Proof.
  revert st b v acts. induction fuel as [|fuel IH]; intros st b v acts; simpl.
  - destruct (negb _); [done |]. intros [= <- _ _]. apply amaf_arrays_grow_refl.
  - destruct (negb _); [|intros [= <- _ _]; apply amaf_arrays_grow_refl].
    pose proof (amaf_get_moves_cols_grow st b (3 - v) (range 7)) as Hgm.
    fold (get_moves st b (3 - v)) in Hgm.
    destruct (get_moves st b (3 - v)) as [st1 moves]. simpl in Hgm.
    destruct moves as [|m moves]; [by intros [= <- _ _] |].
    pose proof (amaf_random_choice_grow st1 (m :: moves)) as [Hrc _].
    destruct (random_choice st1 (m :: moves)) as [st2 next_board]. simpl in Hrc.
    destruct (py_ne_zero _).
    + intros [= <- _ _]. by eapply amaf_arrays_grow_trans.
    + intros Hloop. apply IH in Hloop.
      eapply amaf_arrays_grow_trans; [|exact Hloop].
      by eapply amaf_arrays_grow_trans.
Qed.

Lemma amaf_rollout_grow (fuel : nat) (st : State) (node : nat) st' w acts :
  rollout fuel st node = Ret (st', w, acts) → amaf_arrays_grow st st'.
Proof. apply amaf_rollout_loop_grow. Qed.


(** ** connect4_AMAF.py: expansion *)

Lemma amaf_node_at_with_arrays (st : State) (arrs : list Board) (x : nat) :
  node_at (with_arrays st arrs) x = node_at st x.
Proof. done. Qed.

Lemma amaf_array_at_app (st : State) (ks : list Board) (l : nat) :
  l < length (arrays st) →
  array_at (with_arrays st (arrays st ++ ks)) l = array_at st l.
Proof.
  intros Hl. unfold array_at. simpl. by rewrite lookup_app_l.
Qed.

Lemma amaf_array_at_new (st : State) (ks : list Board) (brd : Board) :
  array_at (with_arrays st (ks ++ [brd])) (length ks) = brd.
Proof.
  unfold array_at. simpl. rewrite lookup_app_r by lia.
  by rewrite Nat.sub_diag.
Qed.

Lemma amaf_node_at_app (st : State) (arrs : list Board) (ks : list Node)
    (x : nat) :
  x < length (nodes st) →
  node_at (with_nodes (with_arrays st arrs) (nodes st ++ ks)) x = node_at st x.
Proof.
  intros Hx. unfold node_at. cbn. by rewrite lookup_app_l.
Qed.

Lemma amaf_is_duplicate_new (st0 : State) (self : nat) (ks : list Board)
    (brd : Board) :
  (∀ c, c ∈ children (node_at st0 self) →
        board (node_at st0 c) < length (arrays st0)) →
  is_duplicate (with_arrays st0 ((arrays st0 ++ ks) ++ [brd]))
               (length (arrays st0 ++ ks)) self = false
  ↔ is_new st0 self brd.
Proof.
  intros Hrefs. unfold is_duplicate, is_new, board_of.
  rewrite amaf_array_at_new, amaf_node_at_with_arrays.
  rewrite <- not_true_iff_false, existsb_exists. split.
  - intros Hno c Hc. apply not_true_iff_false. intros Heq. apply Hno.
    exists c. split; [by apply list_elem_of_In |].
    rewrite amaf_node_at_with_arrays, <- app_assoc, amaf_array_at_app; auto.
  - intros Hnew (c & Hc%list_elem_of_In & Heq).
    rewrite amaf_node_at_with_arrays, <- app_assoc, amaf_array_at_app in Heq
      by auto.
    rewrite Hnew in Heq; done.
Qed.

Lemma amaf_add_child_cols_cons (st : State) (self i : nat) (cols : list nat) :
  self < length (nodes st) →
  add_child_cols st self (i :: cols)
  = let nd := node_at st self in
    let b := array_at st (board nd) in
    if bool_decide (b 5 i = 0%Z) then
      match find (λ j, bool_decide (b j i = 0%Z)) (range 6) with
      | Some j =>
          let brd := setitem b j i (turn nd) in
          let st2 := with_arrays st (arrays st ++ [brd]) in
          if is_duplicate st2 (length (arrays st)) self
          then add_child_cols st2 self cols
          else with_nodes st2
                 (<[self := append_child nd (length (nodes st))]>
                    (nodes st ++ [mkNode 0 0 (Some self) (length (arrays st))
                                         (3 - turn nd) [] (check_terminal brd)
                                         false]))
      | None => add_child_cols st self cols
      end
    else add_child_cols st self cols.
Proof.
  intros Hself. cbn [add_child_cols]. cbv zeta.
  case_bool_decide; [|done].
  destruct (find _ (range 6)) as [j|]; [|done].
  unfold np_copy. rewrite amaf_node_at_with_arrays, amaf_copy_setitem.
  destruct (is_duplicate _ _ self); [done |].
  cbn [negb]. unfold new_node, set_node. rewrite amaf_node_at_with_arrays.
  cbn [nodes arrays with_arrays with_nodes].
  rewrite amaf_array_at_new.
  rewrite amaf_node_at_app by done. done.
Qed.

Lemma amaf_add_child_cols_spec (st0 : State) (self a k : nat) (ks : list Board) :
  let nd := node_at st0 self in
  let b := array_at st0 (board nd) in
  self < length (nodes st0) → board nd < length (arrays st0) →
  (∀ c, c ∈ children nd → board (node_at st0 c) < length (arrays st0)) →
  let st' := add_child_cols (with_arrays st0 (arrays st0 ++ ks)) self (seq a k) in
  amaf_stats st' = amaf_stats st0 ∧ rng st' = rng st0
  ∧ arrays st0 `prefix_of` arrays st'
  ∧ ((∃ i j, a ≤ i < a + k ∧ b 5 i = 0%Z ∧ lowest_empty b i j
        ∧ is_new st0 self (setitem b j i (turn nd))
        ∧ (∀ i' j', a ≤ i' < i → b 5 i' = 0%Z → lowest_empty b i' j' →
             ¬ is_new st0 self (setitem b j' i' (turn nd)))
        ∧ added_child st0 st' self i j)
     ∨ (nodes st' = <[self := set_expanded nd true]> (nodes st0)
        ∧ ∀ i j, a ≤ i < a + k → b 5 i = 0%Z → lowest_empty b i j →
            ¬ is_new st0 self (setitem b j i (turn nd)))).
Proof.
  intros nd b Hself Hboard Hrefs.
  revert a ks. induction k as [|k IH]; intros a ks st'.
  - subst st'. cbn [seq add_child_cols].
    split_and!; [done | done | by apply prefix_app_r |].
    right. split; [done | intros; lia].
  - subst st'. cbn [seq].
    rewrite amaf_add_child_cols_cons by done. cbv zeta.
    rewrite amaf_node_at_with_arrays, amaf_array_at_app by done.
    fold nd. fold b.
    assert (Hskip : ∀ ks',
      (∀ j, lowest_empty b a j → b 5 a = 0%Z →
            ¬ is_new st0 self (setitem b j a (turn nd))) →
      let st' := add_child_cols (with_arrays st0 (arrays st0 ++ ks')) self
                                (seq (S a) k) in
      amaf_stats st' = amaf_stats st0 ∧ rng st' = rng st0
      ∧ arrays st0 `prefix_of` arrays st'
      ∧ ((∃ i j, a ≤ i < a + S k ∧ b 5 i = 0%Z ∧ lowest_empty b i j
            ∧ is_new st0 self (setitem b j i (turn nd))
            ∧ (∀ i' j', a ≤ i' < i → b 5 i' = 0%Z → lowest_empty b i' j' →
                 ¬ is_new st0 self (setitem b j' i' (turn nd)))
            ∧ added_child st0 st' self i j)
         ∨ (nodes st' = <[self := set_expanded nd true]> (nodes st0)
            ∧ ∀ i j, a ≤ i < a + S k → b 5 i = 0%Z → lowest_empty b i j →
                ¬ is_new st0 self (setitem b j i (turn nd))))).
    { intros ks' Hdup. destruct (IH (S a) ks') as (Hs & Hr & Ha & Hcases).
      split_and!; [done.. |].
      destruct Hcases as [(i & j & Hi & Htop & Hlow & Hnew & Hfirst & Hadd)
                         | (Hnodes & Hall)].
      - left. exists i, j. split_and!; [lia | lia | done.. | | done].
        intros i' j' Hi' Htop' Hlow'.
        destruct (decide (i' = a)) as [-> | Hne]; [by apply Hdup |].
        apply Hfirst; [lia | done..].
      - right. split; [done |]. intros i j Hi Htop Hlow.
        destruct (decide (i = a)) as [-> | Hne]; [by apply Hdup |].
        apply Hall; [lia | done..]. }
    case_bool_decide as Htop; [|apply Hskip; intros; done].
    destruct (find _ (range 6)) as [j|] eqn:Hfind.
    + cbn [arrays with_arrays].
      change (with_arrays (with_arrays st0 (arrays st0 ++ ks))
                ((arrays st0 ++ ks) ++ [setitem b j a (turn nd)]))
        with (with_arrays st0 ((arrays st0 ++ ks) ++ [setitem b j a (turn nd)])).
      destruct (is_duplicate _ _ self) eqn:Hdup.
      * rewrite <- app_assoc. apply Hskip. intros j' Hlow' _ Hnew.
        assert (j' = j) as ->.
        { apply find_lowest_empty in Hlow'. congruence. }
        apply (proj2 (amaf_is_duplicate_new st0 self ks _ Hrefs)) in Hnew.
        congruence.
      * apply amaf_is_duplicate_new in Hdup; [|done].
        apply find_lowest_empty in Hfind.
        split_and!; [done | done | |].
        { cbn. rewrite <- app_assoc. by apply prefix_app_r. }
        left. exists a, j. split_and!; [lia | lia | done.. | |].
        { intros; lia. }
        exists (length (arrays st0 ++ ks)). fold nd. fold b. split_and!.
        -- rewrite length_app. lia.
        -- cbn. rewrite lookup_app_r by lia. by rewrite Nat.sub_diag.
        -- done.
    + apply Hskip. intros j Hlow _. apply find_lowest_empty in Hlow. congruence.
Qed.

Lemma amaf_add_child_spec (st : State) (self : nat) :
  let nd := node_at st self in
  let b := array_at st (board nd) in
  self < length (nodes st) → board nd < length (arrays st) →
  (∀ c, c ∈ children nd → board (node_at st c) < length (arrays st)) →
  let st' := add_child st self in
  amaf_stats st' = amaf_stats st ∧ rng st' = rng st
  ∧ arrays st `prefix_of` arrays st'
  ∧ ((expanded nd = true ∧ st' = st)
     ∨ (expanded nd = false
        ∧ ∃ i j, legal_drop b i j
          ∧ is_new st self (setitem b j i (turn nd))
          ∧ (∀ i' j', i' < i → legal_drop b i' j' →
               ¬ is_new st self (setitem b j' i' (turn nd)))
          ∧ added_child st st' self i j)
     ∨ (expanded nd = false
        ∧ nodes st' = <[self := set_expanded nd true]> (nodes st)
        ∧ ∀ i j, legal_drop b i j →
            ¬ is_new st self (setitem b j i (turn nd)))).
Proof.
  intros nd b Hself Hboard Hrefs st'. subst st'. unfold add_child. fold nd.
  destruct (expanded nd) eqn:Hexp.
  - split_and!; [done.. |]. by left.
  - pose proof (amaf_add_child_cols_spec st self 0 7 [] Hself Hboard Hrefs)
      as Hspec. cbv zeta in Hspec. fold nd in Hspec. fold b in Hspec.
    assert (Hst : with_arrays st (arrays st ++ []) = st).
    { unfold with_arrays. rewrite app_nil_r. by destruct st. }
    rewrite Hst in Hspec. fold (range 7) in Hspec.
    destruct Hspec as (Hs & Hr & Ha & Hcases). split_and!; [done.. |].
    right. destruct Hcases as [(i & j & Hi & Htop & Hlow & Hnew & Hfirst & Hadd)
                              | (Hnodes & Hall)].
    + left. split; [done |]. exists i, j.
      split_and!; [by (split_and!; [lia | done..]) | done | | done].
      intros i' j' Hi' (_ & Htop' & Hlow'). apply Hfirst; [lia | done..].
    + right. split_and!; [done.. |]. intros i j (Hi & Htop & Hlow).
      apply Hall; [lia | done..].
Qed.

(** ** connect4_AMAF.py: the shape of the tree is kept *)

Lemma amaf_board_of_same (st st' : State) (x : nat) :
  tree_ok st → x < length (nodes st) →
  board (node_at st' x) = board (node_at st x) →
  arrays st `prefix_of` arrays st' →
  board_of st' x = board_of st x.
Proof.
  intros [_ Hok] Hx Hb Ha. unfold board_of. rewrite Hb.
  apply amaf_array_at_prefix; [done |]. by destruct (Hok x Hx) as (? & _).
Qed.

Lemma amaf_tree_ok_same (st st' : State) :
  tree_ok st → length (nodes st') = length (nodes st) →
  (∀ x, x < length (nodes st) → same_links (node_at st x) (node_at st' x)) →
  arrays st `prefix_of` arrays st' →
  tree_ok st'.
Proof.
  intros Hok Hlen Hlinks Ha. pose proof Hok as [Hroot Hnodes].
  assert (Hbo : ∀ x, x < length (nodes st) → board_of st' x = board_of st x).
  { intros x Hx. apply amaf_board_of_same; [done.. | | done].
    by destruct (Hlinks x Hx) as (_ & ? & _). }
  split; [lia |]. intros x Hx. rewrite Hlen in Hx.
  destruct (Hlinks x Hx) as (Hp & Hb & Ht & Hc).
  destruct (Hnodes x Hx) as (Hboard & Hturn & Hparent & Hchildren & Hdistinct).
  unfold node_ok. rewrite Hp, Hb, Ht, Hc, Hlen. split_and!; [|done..| |].
  - apply prefix_length in Ha. lia.
  - intros c Hin. destruct (Hchildren c Hin) as (Hrange & Hpc & j & i & Hdiff).
    split_and!; [lia | lia | |].
    + destruct (Hlinks c) as (-> & _); [lia | done].
    + exists j, i. rewrite Hbo by lia.
      rewrite (amaf_array_at_prefix st st') by done. done.
  - intros k1 k2 c1 c2 H1 H2 Hne.
    assert (c1 < length (nodes st) ∧ c2 < length (nodes st)) as [Hc1 Hc2].
    { split; eapply Hchildren, list_elem_of_lookup_2; eauto. }
    rewrite !Hbo by done. by eapply Hdistinct.
Qed.

Lemma amaf_added_nodes (st st' : State) (self : nat) (nd' new : Node) :
  self < length (nodes st) →
  nodes st' = <[self := nd']> (nodes st ++ [new]) →
  length (nodes st') = S (length (nodes st))
  ∧ node_at st' self = nd'
  ∧ node_at st' (length (nodes st)) = new
  ∧ ∀ x, x ≠ self → x < length (nodes st) → node_at st' x = node_at st x.
Proof.
  intros Hself Hnodes. unfold node_at. rewrite Hnodes. split_and!.
  - rewrite length_insert, length_app. simpl. lia.
  - rewrite list_lookup_insert_eq; [done |]. rewrite length_app. lia.
  - rewrite list_lookup_insert_ne by lia.
    rewrite lookup_app_r by lia. by rewrite Nat.sub_diag.
  - intros x Hne Hx. rewrite list_lookup_insert_ne by done.
    by rewrite lookup_app_l.
Qed.

Lemma amaf_tree_ok_added (st st' : State) (self i j : nat) :
  let nd := node_at st self in
  let b := array_at st (board nd) in
  tree_ok st → self < length (nodes st) →
  arrays st `prefix_of` arrays st' →
  legal_drop b i j → is_new st self (setitem b j i (turn nd)) →
  added_child st st' self i j →
  tree_ok st'.
Proof.
  intros nd b Hok Hself Ha (Hi & Htop & Hj & Hz & Hlow) Hnew
         (tl & Htl & Harr & Hnodes).
  fold nd in Hnodes. fold b in Hnodes, Harr.
  pose proof Hok as [Hroot Hall].
  destruct (amaf_added_nodes _ _ _ _ _ Hself Hnodes)
    as (Hlen & Hat_self & Hat_new & Hat_old).
  destruct (Hall self Hself) as (Hboard & Hturn & Hparent & Hchildren & Hdistinct).
  fold nd in Hboard, Hturn, Hparent, Hchildren, Hdistinct.
  assert (Hbrd_new : board_of st' (length (nodes st)) = setitem b j i (turn nd)).
  { unfold board_of, array_at. rewrite Hat_new. simpl. by rewrite Harr. }
  assert (Hbrd_old : ∀ x, x < length (nodes st) → board_of st' x = board_of st x).
  { intros x Hx. apply amaf_board_of_same; [done.. | | done].
    destruct (decide (x = self)) as [-> | Hne].
    - by rewrite Hat_self.
    - by rewrite Hat_old. }
  assert (Hparent_old : ∀ x, x < length (nodes st) →
            parent (node_at st' x) = parent (node_at st x)).
  { intros x Hx. destruct (decide (x = self)) as [-> | Hne].
    - by rewrite Hat_self.
    - by rewrite Hat_old. }
  split; [lia |]. intros x Hx. rewrite Hlen in Hx.
  destruct (decide (x = length (nodes st))) as [-> | Hne_new].
  { (* the new child *)
    rewrite Hat_new. unfold node_ok. simpl. split_and!.
    - by apply lookup_lt_Some in Harr.
    - lia.
    - done.
    - intros c Hc. inversion Hc.
    - intros k1 k2 c1 c2 H1. done. }
  assert (Hx' : x < length (nodes st)) by lia.
  destruct (decide (x = self)) as [-> | Hne].
  { (* the expanded node *)
    rewrite Hat_self. unfold node_ok. simpl. fold nd. split_and!.
    - apply prefix_length in Ha. lia.
    - done.
    - done.
    - intros c [Hc | ->%list_elem_of_singleton]%elem_of_app.
      + destruct (Hchildren c Hc) as (Hrange & Hpc & j0 & i0 & Hdiff).
        split_and!; [lia | lia | by rewrite Hparent_old by lia |].
        exists j0, i0. rewrite Hbrd_old by lia.
        rewrite (amaf_array_at_prefix st st') by done. done.
      + split_and!; [lia | lia | by rewrite Hat_new |].
        exists j, i. rewrite Hbrd_new.
        rewrite (amaf_array_at_prefix st st') by done. fold b.
        apply one_cell_diff_setitem; [done.. |]. rewrite Hz. lia.
    - intros k1 k2 c1 c2 H1 H2 Hk.
      apply lookup_app_Some in H1 as [H1 | [Hk1 H1]];
      apply lookup_app_Some in H2 as [H2 | [Hk2 H2]].
      + assert (c1 < length (nodes st) ∧ c2 < length (nodes st)) as [Hc1 Hc2].
        { split; eapply Hchildren, list_elem_of_lookup_2; eauto. }
        rewrite !Hbrd_old by done. by eapply Hdistinct.
      + apply list_lookup_singleton_Some in H2 as [_ <-].
        assert (Hin : c1 ∈ children nd) by (by eapply list_elem_of_lookup_2).
        rewrite Hbrd_new, Hbrd_old by (by apply Hchildren).
        rewrite board_eqb_sym. by apply Hnew.
      + apply list_lookup_singleton_Some in H1 as [_ <-].
        assert (Hin : c2 ∈ children nd) by (by eapply list_elem_of_lookup_2).
        rewrite Hbrd_new, Hbrd_old by (by apply Hchildren).
        by apply Hnew.
      + apply list_lookup_singleton_Some in H1 as [? _].
        apply list_lookup_singleton_Some in H2 as [? _]. lia. }
  (* any other node *)
  rewrite Hat_old by done.
  destruct (Hall x Hx') as (Hb & Ht & Hp & Hc & Hd).
  unfold node_ok. split_and!; [|done..| |].
  - apply prefix_length in Ha. lia.
  - intros c Hin. destruct (Hc c Hin) as (Hrange & Hpc & j0 & i0 & Hdiff).
    split_and!; [lia | lia | by rewrite Hparent_old by lia |].
    exists j0, i0. rewrite Hbrd_old by lia.
    rewrite (amaf_array_at_prefix st st') by done. done.
  - intros k1 k2 c1 c2 H1 H2 Hk.
    assert (c1 < length (nodes st) ∧ c2 < length (nodes st)) as [Hc1 Hc2].
    { split; eapply Hc, list_elem_of_lookup_2; eauto. }
    rewrite !Hbrd_old by done. by eapply Hd.
Qed.

(** ** connect4_AMAF.py: backpropagation *)

Lemma amaf_tree_ok_parent (st : State) (x : nat) :
  tree_ok st → x < length (nodes st) →
  match parent (node_at st x) with Some p => p < x | None => x = 0 end.
Proof. intros [_ Hok] Hx. by destruct (Hok x Hx) as (_ & _ & ? & _). Qed.

Lemma amaf_path_same (fuel : nat) (st st' : State) (x : nat) :
  (∀ y, parent (node_at st' y) = parent (node_at st y)) →
  path_to_root fuel st' x = path_to_root fuel st x.
Proof.
  intros Hp. revert x. induction fuel as [|fuel IH]; intros x; simpl; [done |].
  rewrite Hp. destruct (parent (node_at st x)); [by rewrite IH | done].
Qed.

Lemma amaf_path_bound (fuel : nat) (st : State) (x y : nat) :
  (∀ z, z < length (nodes st) →
        match parent (node_at st z) with Some p => p < z | None => z = 0 end) →
  x < length (nodes st) → y ∈ path_to_root fuel st x → y ≤ x.
Proof.
  intros Hwf. revert x. induction fuel as [|fuel IH]; intros x Hx; simpl.
  - intros Hy. inversion Hy.
  - intros [-> | Hy]%elem_of_cons; [done |].
    specialize (Hwf x Hx). destruct (parent (node_at st x)) as [p|].
    + specialize (IH p ltac:(lia) Hy). lia.
    + inversion Hy.
Qed.

Lemma amaf_path_root (fuel : nat) (st : State) (x : nat) :
  (∀ z, z < length (nodes st) →
        match parent (node_at st z) with Some p => p < z | None => z = 0 end) →
  x < length (nodes st) → x < fuel →
  x ∈ path_to_root fuel st x ∧ 0 ∈ path_to_root fuel st x.
Proof.
  intros Hwf. revert x. induction fuel as [|fuel IH]; intros x Hx Hfuel; [lia |].
  simpl. split; [left |].
  pose proof (Hwf x Hx) as Hp. destruct (parent (node_at st x)) as [p|].
  - right. apply IH; lia.
  - subst x. left.
Qed.

Lemma amaf_node_at_set_node (st : State) (x y : nat) (nd : Node) :
  x < length (nodes st) →
  node_at (set_node st x nd) y = if decide (y = x) then nd else node_at st y.
Proof.
  intros Hx. unfold node_at, set_node. simpl. case_decide as Hy.
  - subst y. by rewrite list_lookup_insert_eq.
  - by rewrite list_lookup_insert_ne.
Qed.

Lemma amaf_backpropagate_spec (fuel : nat) (st : State) (node : nat)
    (winner : option Z) (actions : list (nat * nat)) :
  (∀ z, z < length (nodes st) →
        match parent (node_at st z) with Some p => p < z | None => z = 0 end) →
  node < length (nodes st) → node < fuel →
  ∃ st', backpropagate fuel st node winner actions = Ret st'
    ∧ arrays st' = arrays st ∧ rng st' = rng st
    ∧ length (nodes st') = length (nodes st)
    ∧ ∀ x, same_links (node_at st x) (node_at st' x)
        ∧ n (node_at st' x)
          = (n (node_at st x)
             + if bool_decide (x ∈ path_to_root fuel st node) then 1 else 0)%Z.
Proof.
  revert st node. induction fuel as [|fuel IH]; intros st node Hwf Hnode Hfuel;
    [lia |].
  cbn [backpropagate path_to_root].
  set (nd := node_at st node).
  set (won := is_winner (turn nd) winner).
  set (st1 := set_node st node
                (set_stats nd (if won then q nd + 1 else q nd)%Z (n nd + 1)%Z)).
  set (st2 := with_stats st1 (foldl (amaf_update won) (amaf_stats st1) actions)).
  assert (Hat : ∀ y, node_at st2 y
                     = if decide (y = node)
                       then set_stats nd (if won then q nd + 1 else q nd)%Z
                                      (n nd + 1)%Z
                       else node_at st y).
  { intros y. unfold st2. change (node_at (with_stats st1 _) y) with (node_at st1 y).
    unfold st1. by rewrite amaf_node_at_set_node. }
  assert (Hparents : ∀ y, parent (node_at st2 y) = parent (node_at st y)).
  { intros y. rewrite Hat. destruct (decide (y = node)) as [-> | ?]; done. }
  assert (Hlen2 : length (nodes st2) = length (nodes st)).
  { unfold st2, st1, set_node. simpl. by rewrite length_insert. }
  rewrite Hparents. fold nd.
  pose proof (Hwf node Hnode) as Hp. fold nd in Hp.
  destruct (parent nd) as [p|] eqn:Hpar.
  - destruct (IH st2 p) as (st' & Hrun & Harr & Hrng & Hlen & Hx).
    { intros z Hz. rewrite Hparents. apply Hwf. by rewrite <- Hlen2. }
    { lia. }
    { lia. }
    exists st'. split_and!; [done | done | done | congruence |].
    intros x. destruct (Hx x) as [(Hl1 & Hl2 & Hl3 & Hl4) Hn].
    rewrite (amaf_path_same fuel st st2) in Hn by done.
    rewrite Hn, Hat. split.
    + unfold same_links. rewrite Hl1, Hl2, Hl3, Hl4, Hat.
      destruct (decide (x = node)) as [-> | Hxn]; done.
    + destruct (decide (x = node)) as [-> | Hxn].
      * rewrite (bool_decide_eq_true_2 (node ∈ node :: _)) by left.
        rewrite (bool_decide_eq_false_2 (node ∈ path_to_root fuel st p));
          [simpl; unfold nd; lia |].
        intros Hin. apply amaf_path_bound in Hin; [lia | done | lia].
      * simpl. f_equal.
        rewrite (bool_decide_ext (x ∈ node :: path_to_root fuel st p)
                                 (x ∈ path_to_root fuel st p)); [done |].
        rewrite elem_of_cons. tauto.
  - exists st2. split_and!; [done.. |].
    intros x. rewrite Hat. split.
    + unfold same_links. destruct (decide (x = node)) as [-> | Hxn]; done.
    + destruct (decide (x = node)) as [-> | Hxn].
      * rewrite bool_decide_eq_true_2 by left. done.
      * rewrite bool_decide_eq_false_2; [lia |].
        intros [-> | Hin]%elem_of_cons; [done | inversion Hin].
Qed.

(** ** connect4_AMAF.py: selection *)

Section amaf_selection.
Context {F : Type} {ops : FloatOps F}.

Lemma amaf_get_amaf_value_ret (st : State) (child p : nat) :
  parent (node_at st child) = Some p →
  ∃ v : F, get_amaf_value st child = Ret v.
Proof.
  intros Hp. unfold get_amaf_value. rewrite Hp.
  destruct (get_action _ _ _) as [action|]; [|by eexists].
  destruct (default _ _) as [q0 n0].
  case_bool_decide; [|by eexists].
  rewrite py_truediv_pos by done. by eexists.
Qed.

Lemma amaf_select_amaf_loop_spec (st : State) (node : nat) (cs : list nat)
    (best_value : F) (best_node : option nat) (log : list (Z * Z)) :
  (∀ c, c ∈ cs → (0 < n (node_at st c))%Z ∧ parent (node_at st c) = Some node) →
  ∃ best, select_amaf_loop st node cs best_value best_node log
          = Ret (best, log ++ ((λ c, (n (node_at st node), n (node_at st c))) <$> cs))
    ∧ (best = best_node ∨ ∃ c, best = Some c ∧ c ∈ cs).
Proof.
  revert best_value best_node log.
  induction cs as [|child cs IH]; intros best_value best_node log Hcs.
  - exists best_node. simpl. rewrite app_nil_r. by split; [|left].
  - destruct (Hcs child) as [Hn Hp]; [left |].
    assert (Hcs' : ∀ c, c ∈ cs →
              (0 < n (node_at st c))%Z ∧ parent (node_at st c) = Some node).
    { intros c Hc. apply Hcs. by right. }
    cbn [select_amaf_loop]. rewrite py_truediv_pos by done.
    destruct (amaf_get_amaf_value_ret st child node Hp) as [v Hv].
    cbn [mbind res_bind]. rewrite Hv. cbn [mbind res_bind].
    rewrite fmap_cons.
    destruct (f_gt _ _).
    + destruct (IH (f_add (f_add (f_truediv (q (node_at st child))
                                            (n (node_at st child)))
                    (f_mul (f_of_int 2)
                       (f_sqrt (f_div (f_log (f_of_int (n (node_at st node))))
                                      (f_of_int (n (node_at st child))))))) v)
                   (Some child)
                   (log ++ [(n (node_at st node), n (node_at st child))]) Hcs')
        as (best & Hrun & Hbest).
      rewrite <- app_assoc in Hrun.
      exists best. split; [done |]. right.
      destruct Hbest as [-> | (c & -> & Hc)].
      * exists child. split; [done | left].
      * exists c. split; [done | by right].
    + destruct (IH best_value best_node
                   (log ++ [(n (node_at st node), n (node_at st child))]) Hcs')
        as (best & Hrun & Hbest).
      rewrite <- app_assoc in Hrun.
      exists best. split; [done |].
      destruct Hbest as [-> | (c & -> & Hc)]; [by left |].
      right. exists c. split; [done | by right].
Qed.

Lemma amaf_fully_expanded_children (st : State) (node : nat) :
  fully_expanded st node = true →
  ∀ c, c ∈ children (node_at st node) → (0 < n (node_at st c))%Z.
Proof.
  unfold fully_expanded. case_bool_decide; [|done].
  rewrite forallb_forall. intros Hall c Hc%list_elem_of_In.
  by apply Hall, bool_decide_eq_true in Hc.
Qed.

Lemma amaf_select_loop_spec (fuel : nat) (st : State) (node : nat)
    (log : list (Z * Z)) :
  search_inv st → node < length (nodes st) →
  length (nodes st) ≤ fuel + node → log_positive log →
  ∃ node' log', select_loop fuel st node log = Ret (node', log')
    ∧ node' < length (nodes st) ∧ log_positive log'.
Proof.
  intros (Hok & Hvis & Hroot).
  revert node log. induction fuel as [|fuel IH]; intros node log Hnode Hfuel Hlog;
    cbn [select_loop].
  - destruct (fully_expanded st node); [lia | by exists node, log].
  - destruct (fully_expanded st node) eqn:Hfull; [|by exists node, log].
    pose proof (amaf_fully_expanded_children _ _ Hfull) as Hpos.
    destruct Hok as [Hlen Hnodes].
    destruct (Hnodes node Hnode) as (_ & _ & _ & Hchildren & _).
    unfold select_amaf.
    destruct (amaf_select_amaf_loop_spec st node (children (node_at st node))
                f_neg_inf None log) as (best & Hrun & Hbest).
    { intros c Hc. split; [by apply Hpos | by apply Hchildren]. }
    rewrite Hrun. cbn [mbind res_bind].
    assert (Hlog' : log_positive
              (log ++ ((λ c, (n (node_at st node), n (node_at st c)))
                         <$> children (node_at st node)))).
    { apply Forall_app. split; [done |]. apply Forall_fmap, Forall_forall.
      intros c Hc. simpl. split; [|by apply Hpos].
      destruct (decide (node = 0)) as [-> | Hne].
      - assert (1 ≤ n (node_at st 0))%Z; [|lia]. apply Hroot.
        intros Hnil. rewrite Hnil in Hc. inversion Hc.
      - destruct (Hvis node Hnode) as [_ Hone].
        assert (1 ≤ n (node_at st node))%Z by (by apply Hone). lia. }
    case_bool_decide as Htmp; [by eexists _, _ |].
    destruct Hbest as [-> | (c & -> & Hc)]; [done |]. simpl in *.
    destruct (Hchildren c Hc) as (Hrange & _).
    apply IH; [lia | lia | done].
Qed.

Lemma amaf_node_at_insert (st st' : State) (self : nat) (nd' : Node) (x : nat) :
  self < length (nodes st) → nodes st' = <[self := nd']> (nodes st) →
  node_at st' x = if decide (x = self) then nd' else node_at st x.
Proof.
  intros Hself Hnodes. unfold node_at. rewrite Hnodes.
  destruct (decide (x = self)) as [-> | Hne].
  - by rewrite list_lookup_insert_eq.
  - by rewrite list_lookup_insert_ne.
Qed.

(** What [select] does to a state between two iterations. *)
Lemma amaf_select_spec (st : State) (node : nat) :
  search_inv st → node < length (nodes st) →
  ∃ st' leaf log, select st node = Ret (st', leaf, log)
    ∧ log_positive log
    ∧ tree_ok st'
    ∧ arrays st `prefix_of` arrays st'
    ∧ length (nodes st) ≤ length (nodes st')
    ∧ (∀ x, x < length (nodes st) →
         n (node_at st' x) = n (node_at st x)
         ∧ board (node_at st' x) = board (node_at st x))
    ∧ match leaf with
      | None => visits_ok st' None ∧ root_visited st'
      | Some l => l < length (nodes st') ∧ visits_ok st' (Some l)
      end.
Proof.
  intros Hinv Hnode. pose proof Hinv as (Hok & Hvis & Hroot).
  destruct (amaf_select_loop_spec (length (nodes st)) st node [] Hinv Hnode)
    as (node1 & log & Hloop & Hnode1 & Hlog); [lia | constructor |].
  unfold select. rewrite Hloop. cbn [mbind res_bind].
  assert (Hweak : ∀ l, visits_ok st (Some l)).
  { intros l x Hx. destruct (Hvis x Hx) as [H0 H1]. split; [done |].
    intros Hx0 _. by apply H1. }
  destruct (terminal (node_at st node1)).
  { exists st, (Some node1), log. split_and!; try done. }
  pose proof Hok as [Hlen Hnodes].
  destruct (Hnodes node1 Hnode1) as (Hboard & Hturn & Hparent & Hchildren & Hdist).
  assert (Hold : ∀ c, c ∈ children (node_at st node1) →
            (n (node_at st c) =? 0)%Z = false ∧ c ≠ node1 ∧ c < length (nodes st)).
  { intros c Hc. destruct (Hchildren c Hc) as (Hrange & _).
    destruct (Hvis c) as [_ H1]; [lia |].
    assert (1 ≤ n (node_at st c))%Z by (apply H1; [lia | done]).
    split_and!; [lia | lia | lia]. }
  destruct (amaf_add_child_spec st node1 Hnode1 Hboard)
    as (Hstats & Hrng & Harr & Hcases).
  { intros c Hc. destruct (Hchildren c Hc) as (Hrange & _).
    by destruct (Hnodes c ltac:(lia)) as (? & _). }
  destruct Hcases as [(Hexp & Heq)
                     | [(Hexp & i & j & Hdrop & Hnew & _ & Hadd)
                       | (Hexp & Hnodes' & _)]].
  - (* already marked as expanded *)
    rewrite Heq.
    destruct (children (node_at st node1)) as [|c0 cs] eqn:Hcs.
    { exists st, (Some node1), log. split_and!; try done. }
    exists st, (pick_unvisited st (c0 :: cs)), log. split_and!; try done.
    unfold pick_unvisited. rewrite find_all_false; [done |].
    intros c Hc. apply bool_decide_eq_false. destruct (Hold c Hc) as (? & _). lia.
  - (* one child added *)
    set (st' := add_child st node1) in *.
    pose proof (amaf_tree_ok_added st st' node1 i j Hok Hnode1 Harr Hdrop Hnew Hadd)
      as Hok'.
    destruct Hadd as (tl & Htl & Htlarr & Hnodes').
    destruct (amaf_added_nodes _ _ _ _ _ Hnode1 Hnodes')
      as (Hlen' & Hat_self & Hat_new & Hat_old).
    assert (Hn : ∀ x, x < length (nodes st) →
              n (node_at st' x) = n (node_at st x)
              ∧ board (node_at st' x) = board (node_at st x)).
    { intros x Hx. destruct (decide (x = node1)) as [-> | Hne].
      - by rewrite Hat_self.
      - by rewrite Hat_old. }
    rewrite Hat_self. cbn [children append_child].
    destruct (children (node_at st node1) ++ [length (nodes st)]) as [|c0 cs] eqn:Hcs.
    { by destruct (children (node_at st node1)). }
    rewrite <- Hcs.
    exists st', (Some (length (nodes st))), log.
    split_and!; [|done | done | done | lia | done | lia |].
    + do 2 f_equal. unfold pick_unvisited. rewrite find_app_false.
      * simpl. rewrite Hat_new. done.
      * intros c Hc. destruct (Hold c Hc) as (Hz & Hne & Hlt).
        apply bool_decide_eq_false. destruct (Hn c Hlt) as [-> _]. lia.
    + intros x Hx. rewrite Hlen' in Hx.
      destruct (decide (x = length (nodes st))) as [-> | Hne].
      * rewrite Hat_new. simpl. split; [lia | done].
      * destruct (Hn x ltac:(lia)) as [-> _].
        destruct (Hvis x ltac:(lia)) as [H0 H1]. split; [done |].
        intros Hx0 _. by apply H1.
  - (* nothing left to add: the node is marked as expanded *)
    set (st' := add_child st node1) in *.
    assert (Hat : ∀ x, node_at st' x
                       = if decide (x = node1)
                         then set_expanded (node_at st node1) true
                         else node_at st x).
    { intros x. by apply amaf_node_at_insert. }
    assert (Hlen' : length (nodes st') = length (nodes st)).
    { by rewrite Hnodes', length_insert. }
    assert (Hn : ∀ x, n (node_at st' x) = n (node_at st x)
                      ∧ children (node_at st' x) = children (node_at st x)).
    { intros x. rewrite Hat. destruct (decide (x = node1)) as [-> | ?]; done. }
    assert (Hok' : tree_ok st').
    { apply (amaf_tree_ok_same st); [done.. | | done].
      intros x Hx. rewrite Hat. unfold same_links.
      destruct (decide (x = node1)) as [-> | ?]; done. }
    assert (Hvis' : ∀ pending, visits_ok st pending → visits_ok st' pending).
    { intros pending Hp x Hx. destruct (Hn x) as [-> _]. apply Hp. lia. }
    assert (Hkeep : ∀ x, x < length (nodes st) →
              n (node_at st' x) = n (node_at st x)
              ∧ board (node_at st' x) = board (node_at st x)).
    { intros x Hx. rewrite Hat. destruct (decide (x = node1)) as [-> | ?]; done. }
    destruct (Hn node1) as [_ ->].
    destruct (children (node_at st node1)) as [|c0 cs] eqn:Hcs.
    { exists st', (Some node1), log. split_and!; try done; [lia | lia | by apply Hvis']. }
    exists st', (pick_unvisited st' (c0 :: cs)), log.
    split_and!; try done; [lia |].
    unfold pick_unvisited. rewrite find_all_false.
    + split; [by apply Hvis' |]. unfold root_visited.
      destruct (Hn 0) as [-> ->]. done.
    + intros c Hc. apply bool_decide_eq_false. destruct (Hold c Hc) as (? & _).
      destruct (Hn c) as [-> _]. lia.
Qed.

(** ** connect4_AMAF.py: rollout and the search loop *)

Lemma amaf_result_ne_zero (b : Board) : py_ne_zero (result b) = true.
Proof.
  destruct (result b) as [w|] eqn:Hres; [|done].
  apply amaf_result_Some in Hres as [Hw _]. simpl.
  by rewrite bool_decide_eq_false_2.
Qed.

(** A rollout returns as soon as its first ply is played. *)
Lemma amaf_rollout_ret (fuel : nat) (st : State) (node : nat) :
  ∃ st' w acts, rollout (S fuel) st node = Ret (st', w, acts) ∧ length acts ≤ 1.
Proof.
  unfold rollout. cbn [rollout_loop].
  destruct (negb _); [|eexists _, _, []; split; [done | simpl; lia]].
  destruct (get_moves _ _ _) as [st1 [|m moves]];
    [eexists _, _, []; split; [done | simpl; lia] |].
  destruct (random_choice _ _) as [st2 next_board].
  rewrite amaf_result_ne_zero.
  destruct (get_action _ _ _); eexists _, _, _; (split; [done | simpl; lia]).
Qed.

Lemma amaf_node_at_nodes (st st' : State) (x : nat) :
  nodes st' = nodes st → node_at st' x = node_at st x.
Proof. intros Hn. unfold node_at. by rewrite Hn. Qed.

Lemma amaf_iterate_spec (K : nat) (st : State) :
  search_inv st →
  ∃ st' fin, iterate K st 0 = Ret (st', fin)
    ∧ search_inv st'
    ∧ arrays st `prefix_of` arrays st'
    ∧ length (nodes st) ≤ length (nodes st')
    ∧ (∀ x, x < length (nodes st) →
         board (node_at st' x) = board (node_at st x))
    ∧ (fin = true → n (node_at st' 0) = (n (node_at st 0) + Z.of_nat K)%Z).
Proof.
  revert st. induction K as [|K IH]; intros st Hinv.
  { exists st, true. cbn [iterate]. split_and!; try done. intros _. lia. }
  pose proof Hinv as (Hok & Hvis & Hroot). pose proof Hok as [Hlen _].
  destruct (amaf_select_spec st 0 Hinv Hlen)
    as (st1 & leaf & log & Hsel & _ & Hok1 & Harr1 & Hlen1 & Hkeep1 & Hleaf).
  cbn [iterate]. rewrite Hsel. cbn [mbind res_bind].
  destruct leaf as [l|]; [|by exists st1, false; split_and!; try done;
                                  intros x Hx; apply Hkeep1].
  destruct Hleaf as [Hl Hvis1].
  destruct (amaf_rollout_ret 41 st1 l) as (st2 & w & acts & Hroll & _).
  rewrite Hroll. cbn [mbind res_bind].
  apply amaf_rollout_grow in Hroll as (Hnodes2 & _ & Harr2).
  assert (Hat2 : ∀ x, node_at st2 x = node_at st1 x).
  { intros x. by apply amaf_node_at_nodes. }
  assert (Hok2 : tree_ok st2).
  { apply (amaf_tree_ok_same st1); [done | by rewrite Hnodes2 | | done].
    intros x _. rewrite Hat2. by unfold same_links. }
  destruct (amaf_backpropagate_spec (length (nodes st2)) st2 l w acts)
    as (st3 & Hback & Harr3 & _ & Hlen3 & Hx3).
  { intros z Hz. by apply amaf_tree_ok_parent. }
  { by rewrite Hnodes2. }
  { by rewrite Hnodes2. }
  rewrite Hback. cbn [mbind res_bind].
  destruct (amaf_path_root (length (nodes st2)) st2 l) as [Hpath_l Hpath_0].
  { intros z Hz. by apply amaf_tree_ok_parent. }
  { by rewrite Hnodes2. }
  { by rewrite Hnodes2. }
  assert (Hok3 : tree_ok st3).
  { apply (amaf_tree_ok_same st2); [done | done | | by rewrite Harr3].
    intros x _. apply Hx3. }
  assert (Hn3 : ∀ x, (n (node_at st1 x) ≤ n (node_at st3 x))%Z).
  { intros x. destruct (Hx3 x) as [_ ->]. rewrite Hat2. case_bool_decide; lia. }
  assert (Hinv3 : search_inv st3).
  { split_and!; [done | |].
    - intros x Hx. rewrite Hlen3, Hnodes2 in Hx.
      destruct (Hvis1 x Hx) as [H0 H1]. specialize (Hn3 x).
      split; [lia |]. intros Hx0 _.
      destruct (decide (x = l)) as [-> | Hne].
      + destruct (Hx3 l) as [_ ->].
        rewrite bool_decide_eq_true_2 by done. rewrite Hat2. lia.
      + assert (1 ≤ n (node_at st1 x))%Z by (apply H1; congruence). lia.
    - intros _. destruct (Hx3 0) as [_ ->].
      rewrite bool_decide_eq_true_2 by done. rewrite Hat2.
      destruct (Hvis1 0) as [H0 _]; [lia | lia]. }
  destruct (IH st3 Hinv3) as (st' & fin & Hiter & Hinv' & Harr' & Hlen' & Hkeep' & Hfin).
  exists st', fin. rewrite Hlen3, Hnodes2 in Hlen'.
  split_and!; [done | done | | lia | |].
  - etrans; [exact Harr1 |]. etrans; [exact Harr2 |]. by rewrite <- Harr3.
  - intros x Hx. rewrite Hkeep' by (rewrite Hlen3, Hnodes2; lia).
    destruct (Hx3 x) as [(_ & -> & _) _]. rewrite Hat2. by apply Hkeep1.
  - intros Hf. rewrite (Hfin Hf). destruct (Hx3 0) as [_ ->].
    rewrite bool_decide_eq_true_2 by done. rewrite Hat2.
    destruct (Hkeep1 0 Hlen) as [-> _]. lia.
Qed.

Lemma amaf_root_state_inv (b : Board) (symbol : Z)
    (stats : gmap (nat * nat) (Z * Z)) (draws : list nat) :
  symbol = 1%Z ∨ symbol = 2%Z → search_inv (root_state b symbol stats draws).
Proof.
  intros Hsym. unfold root_state, new_node. cbn [fst].
  split_and!.
  - split; [simpl; lia |]. intros x Hx. simpl in Hx.
    assert (x = 0) as -> by lia. unfold node_ok. cbn.
    split_and!; [lia | lia | done | |].
    + intros c Hc. inversion Hc.
    + intros k1 k2 c1 c2 H1. done.
  - intros x Hx. simpl in Hx. assert (x = 0) as -> by lia. cbn. split; [lia | done].
  - intros Hne. by cbn in Hne.
Qed.

End amaf_selection.

(** ** connect4_AMAF.py: the move returned *)

Lemma amaf_py_max_by_n_acc (st : State) (cs pre : list nat) (kb b : nat) :
  first_max st pre kb b →
  ∃ k best, py_max_by_n st cs (Some b) = Some best
    ∧ first_max st (pre ++ cs) k best.
Proof.
  revert pre kb b. induction cs as [|c cs IH]; intros pre kb b Hmax.
  - exists kb, b. rewrite app_nil_r. done.
  - cbn [py_max_by_n]. destruct Hmax as (Hkb & Hall & Hbefore).
    replace (pre ++ c :: cs) with ((pre ++ [c]) ++ cs)
      by (by rewrite <- app_assoc).
    case_bool_decide as Hlt.
    + apply (IH (pre ++ [c]) (length pre) c). split_and!.
      * rewrite lookup_app_r by lia. by rewrite Nat.sub_diag.
      * intros k' c' [Hc' | [_ Hc']]%lookup_app_Some.
        -- specialize (Hall k' c' Hc'). lia.
        -- apply list_lookup_singleton_Some in Hc' as [_ <-]. lia.
      * intros k' c' Hk' [Hc' | [Hge _]]%lookup_app_Some; [|lia].
        specialize (Hall k' c' Hc'). lia.
    + apply (IH (pre ++ [c]) kb b). split_and!.
      * by apply lookup_app_l_Some.
      * intros k' c' [Hc' | [_ Hc']]%lookup_app_Some.
        -- by apply (Hall k').
        -- apply list_lookup_singleton_Some in Hc' as [_ <-]. lia.
      * intros k' c' Hk' [Hc' | [Hge _]]%lookup_app_Some.
        -- by apply (Hbefore k').
        -- apply lookup_lt_Some in Hkb. lia.
Qed.

Lemma amaf_best_child_first_max (st : State) (node : nat) :
  children (node_at st node) ≠ [] →
  ∃ k best, best_child st node = Some best
    ∧ first_max st (children (node_at st node)) k best.
Proof.
  unfold best_child. destruct (children (node_at st node)) as [|c cs]; [done |].
  intros _. cbn [py_max_by_n].
  apply (amaf_py_max_by_n_acc st cs [c] 0 c). split_and!.
  - done.
  - intros k' c' Hc'. apply list_lookup_singleton_Some in Hc' as [_ <-]. lia.
  - intros k' c' Hk'. lia.
Qed.

End AmafFacts.

Lemma first_some_seq_first {B} (f : nat → option B) (a k x : nat) (y : B) :
  a ≤ x < a + k → f x = Some y → (∀ x', a ≤ x' < x → f x' = None) →
  first_some f (seq a k) = Some y.
Proof.
  revert a. induction k as [|k IH]; intros a Hx Hfx Hbefore; [lia |].
  simpl. destruct (decide (x = a)) as [-> | Hne].
  - by rewrite Hfx.
  - rewrite Hbefore by lia. apply IH; [lia | done |]. intros x' Hx'.
    apply Hbefore. lia.
Qed.

(** The scan for the first differing cell finds the one cell in which two
    boards differ, whichever of the two comes first. *)
Lemma first_diff_one_cell (b1 b2 : Board) (j i : nat) :
  one_cell_diff b1 b2 j i →
  first_diff b1 b2 = Some (j, i) ∧ first_diff b2 b1 = Some (j, i).
Proof.
  intros (Hj & Hi & Hne & Hsame).
  assert (Hgen : ∀ c1 c2 : Board, c1 j i ≠ c2 j i →
            (∀ j' i', j' < 6 → i' < 7 → (j', i') ≠ (j, i) → c1 j' i' = c2 j' i') →
            first_diff c1 c2 = Some (j, i)).
  { intros c1 c2 Hne' Hsame'. unfold first_diff, range.
    apply (first_some_seq_first _ 0 6 j); [lia | |].
    - apply (first_some_seq_first _ 0 7 i); [lia | |].
      + by rewrite bool_decide_eq_true_2.
      + intros i' Hi'. rewrite bool_decide_eq_false_2; [done |].
        intros Hd. apply Hd, Hsame'; [lia | lia |]. intros [= ->]. lia.
    - intros j' Hj'. apply first_some_None. intros i' Hi'%elem_of_seq.
      rewrite bool_decide_eq_false_2; [done |].
      intros Hd. apply Hd, Hsame'; [lia | lia |]. intros [= -> ->]. lia. }
  split; apply Hgen; [done | done | congruence |].
  intros j' i' Hj' Hi' Hne'. symmetry. by apply Hsame.
Qed.

(** ** connect4_AMAF.py: no array that exists is written to *)

Module AmafFrame.
Import AMAF AmafSpec AmafFacts.

Lemma amaf_frame_set_node (st : State) (x : nat) (nd : Node) :
  board nd = board (node_at st x) → frame st (set_node st x nd).
Proof.
  intros Hb. split_and!; [done | simpl; by rewrite length_insert |].
  intros y Hy. unfold node_at, set_node. simpl.
  destruct (decide (y = x)) as [-> | Hne].
  - rewrite list_lookup_insert_eq by done. simpl. by rewrite Hb.
  - by rewrite list_lookup_insert_ne.
Qed.

Lemma amaf_frame_new_array (st : State) (brd : Board) :
  frame st (with_arrays st (arrays st ++ [brd])).
Proof. split_and!; [by apply prefix_app_r | done | done]. Qed.

Lemma amaf_frame_new_node (st : State) (p : option nat) (b : nat) (v : Z) :
  frame st (new_node st p b v).1.
Proof.
  split_and!; [done | simpl; rewrite length_app; lia |].
  intros x Hx. unfold node_at. simpl. by rewrite lookup_app_l.
Qed.

Lemma amaf_frame_add_child_cols (st : State) (self : nat) (cols : list nat) :
  frame st (add_child_cols st self cols).
Proof.
  revert st. induction cols as [|i cols IH]; intros st; cbn [add_child_cols].
  - by apply amaf_frame_set_node.
  - cbv zeta. case_bool_decide; [|apply IH].
    destruct (find _ (range 6)) as [j|]; [|apply IH].
    unfold np_copy. rewrite amaf_node_at_with_arrays, amaf_copy_setitem.
    set (st2 := with_arrays st (arrays st ++ [_])).
    assert (Hst2 : frame st st2) by apply amaf_frame_new_array.
    destruct (negb _).
    + eapply amaf_frame_trans; [exact Hst2 |].
      destruct (new_node st2 (Some self) (length (arrays st))
                         (turn (node_at st2 self))) as [st3 c] eqn:Hnew.
      eapply amaf_frame_trans; [|by apply amaf_frame_set_node].
      pose proof (amaf_frame_new_node st2 (Some self) (length (arrays st))
                    (turn (node_at st2 self))) as Hf.
      by rewrite Hnew in Hf.
    + eapply amaf_frame_trans; [exact Hst2 | apply IH].
Qed.

Lemma amaf_frame_add_child (st : State) (self : nat) :
  frame st (add_child st self).
Proof.
  unfold add_child. destruct (expanded _); [apply amaf_frame_refl |].
  apply amaf_frame_add_child_cols.
Qed.

Lemma amaf_frame_backpropagate (fuel : nat) (st : State) (node : nat)
    (winner : option Z) (actions : list (nat * nat)) (st' : State) :
  backpropagate fuel st node winner actions = Ret st' → frame st st'.
Proof.
  revert st node. induction fuel as [|fuel IH]; intros st node; [done |].
  cbn [backpropagate]. cbv zeta.
  set (st1 := set_node st node _).
  set (st2 := with_stats st1 _).
  assert (Hf : frame st st2).
  { change (frame st st1). by apply amaf_frame_set_node. }
  destruct (parent (node_at st2 node)) as [p|].
  - intros Hrun. eapply amaf_frame_trans; [exact Hf | by eapply IH].
  - by intros [= <-].
Qed.

Lemma amaf_frame_rollout (fuel : nat) (st : State) (node : nat) st' w acts :
  rollout fuel st node = Ret (st', w, acts) → frame st st'.
Proof.
  intros (Hn & _ & Ha)%amaf_rollout_grow.
  split_and!; [done | by rewrite Hn |]. intros x _. unfold node_at. by rewrite Hn.
Qed.

Section amaf_frame_search.
Context {F : Type} {ops : FloatOps F}.

Lemma amaf_frame_select (st : State) (node : nat) st' leaf log :
  select st node = Ret (st', leaf, log) → frame st st'.
Proof.
  unfold select. destruct (select_loop _ _ _ _) as [[node1 log1]| |]; [|done..].
  cbn [mbind res_bind]. destruct (terminal _).
  - intros [= <- _ _]. apply amaf_frame_refl.
  - destruct (children _); intros [= <- _ _]; apply amaf_frame_add_child.
Qed.

Lemma amaf_frame_iterate (K : nat) (st : State) (node : nat) st' fin :
  iterate K st node = Ret (st', fin) → frame st st'.
Proof.
  revert st. induction K as [|K IH]; intros st; cbn [iterate].
  - intros [= <- _]. apply amaf_frame_refl.
  - destruct (select st node) as [[[st1 leaf] log]| |] eqn:Hsel; [|done..].
    apply amaf_frame_select in Hsel. cbn [mbind res_bind].
    destruct leaf as [l|]; [|by intros [= <- _]].
    destruct (rollout 42 st1 l) as [[[st2 w] acts]| |] eqn:Hroll; [|done..].
    apply amaf_frame_rollout in Hroll. cbn [mbind res_bind].
    destruct (backpropagate _ st2 l w acts) as [st3| |] eqn:Hback; [|done..].
    apply amaf_frame_backpropagate in Hback. cbn [mbind res_bind].
    intros Hrun%IH.
    eapply amaf_frame_trans; [exact Hsel |].
    eapply amaf_frame_trans; [exact Hroll |].
    by eapply amaf_frame_trans.
Qed.

Lemma amaf_frame_compute_move (K : nat) (st : State) (node : nat) st' mv :
  compute_move K st node = Ret (st', mv) → frame st st'.
Proof.
  unfold compute_move.
  destruct (iterate K st node) as [[st1 fin]| |] eqn:Hiter; [|done..].
  apply amaf_frame_iterate in Hiter. cbn [mbind res_bind].
  destruct fin; by intros [= <- _].
Qed.

End amaf_frame_search.

End AmafFrame.

(** ** connect4_RAVE.py: arrays are only ever copied, never overwritten *)

Module RaveFacts.
Import RAVE RaveSpec.

Lemma rave_copy_setitem (st : State) (a j i : nat) (v : Z) :
  np_setitem (with_arrays st (arrays st ++ [array_at st a]))
             (length (arrays st)) j i v
  = with_arrays st (arrays st ++ [setitem (array_at st a) j i v]).
Proof.
  unfold np_setitem, with_arrays, array_at. simpl. f_equal.
  rewrite lookup_app_r by lia. rewrite Nat.sub_diag. simpl.
  rewrite insert_app_r_alt by lia. rewrite Nat.sub_diag. done.
Qed.

Lemma rave_array_at_prefix (st st' : State) (l : nat) :
  arrays st `prefix_of` arrays st' → l < length (arrays st) →
  array_at st' l = array_at st l.
Proof.
  intros [k Hk] Hl. unfold array_at. rewrite Hk, lookup_app_l by done. done.
Qed.

Lemma rave_frame_refl (st : State) : frame st st.
Proof. repeat split; done. Qed.

Lemma rave_frame_trans (st1 st2 st3 : State) :
  frame st1 st2 → frame st2 st3 → frame st1 st3.
Proof.
  intros (Ha & Hl & Hb) (Ha' & Hl' & Hb'). repeat split.
  - by etrans.
  - lia.
  - intros x Hx. rewrite Hb' by lia. by apply Hb.
Qed.

Lemma rave_arrays_grow_refl (st : State) : rave_arrays_grow st st.
Proof. repeat split; done. Qed.

Lemma rave_arrays_grow_trans (st1 st2 st3 : State) :
  rave_arrays_grow st1 st2 → rave_arrays_grow st2 st3 → rave_arrays_grow st1 st3.
Proof.
  intros (Hn & Ha) (Hn' & Ha'). split; [congruence | by etrans].
Qed.

Lemma rave_get_moves_cols_grow (st : State) (b : nat) (v : Z) (cols : list nat) :
  rave_arrays_grow st (get_moves_cols st b v cols).1.
Proof.
  revert st. induction cols as [|i cols IH]; intros st; cbn [get_moves_cols].
  - apply rave_arrays_grow_refl.
  - case_bool_decide; [|apply IH].
    destruct (find _ (range 6)) as [j|]; [|apply IH].
    unfold np_copy. rewrite rave_copy_setitem.
    set (st2 := with_arrays st _).
    destruct (get_moves_cols st2 b v cols) as [st3 ms] eqn:Hrest. simpl.
    eapply rave_arrays_grow_trans; [|specialize (IH st2); by rewrite Hrest in IH].
    split; [done |]. simpl. by apply prefix_app_r.
Qed.

Lemma rave_random_choice_grow (st : State) (moves : list nat) :
  rave_arrays_grow st (random_choice st moves).1
  ∧ arrays (random_choice st moves).1 = arrays st.
Proof. unfold random_choice. destruct (rng st); repeat split; done. Qed.

Lemma rave_rollout_loop_grow (fuel : nat) (st : State) (b : nat) (v : Z)
    (acts : list (nat * nat)) st' w acts' :
  rollout_loop fuel st b v acts = Ret (st', w, acts') →
  rave_arrays_grow st st'.
Proof.
  revert st b v acts. induction fuel as [|fuel IH]; intros st b v acts;
    cbn [rollout_loop]; [done |].
  set (turn1 := if bool_decide (v = 2%Z) then 1%Z else 2%Z).
  pose proof (rave_get_moves_cols_grow st b turn1 (range 7)) as Hgm.
  fold (get_moves st b turn1) in Hgm.
  destruct (get_moves st b turn1) as [st1 moves]. simpl in Hgm.
  destruct moves as [|m moves]; [by intros [= <- _ _] |].
  pose proof (rave_random_choice_grow st1 (m :: moves)) as [Hrc _].
  destruct (random_choice st1 (m :: moves)) as [st2 next_board]. simpl in Hrc.
  destruct (py_ne_zero _).
  + intros [= <- _ _]. by eapply rave_arrays_grow_trans.
  + intros Hloop. apply IH in Hloop.
    eapply rave_arrays_grow_trans; [|exact Hloop].
    by eapply rave_arrays_grow_trans.
Qed.

Lemma rave_rollout_grow (fuel : nat) (st : State) (node : nat) st' w acts :
  rollout fuel st node = Ret (st', w, acts) → rave_arrays_grow st st'.
Proof.
  unfold rollout. destruct (negb _).
  - apply rave_rollout_loop_grow.
  - intros [= <- _ _]. apply rave_arrays_grow_refl.
Qed.

(** ** connect4_RAVE.py: expansion *)

Lemma rave_node_at_with_arrays (st : State) (arrs : list Board) (x : nat) :
  node_at (with_arrays st arrs) x = node_at st x.
Proof. done. Qed.

Lemma rave_array_at_app (st : State) (ks : list Board) (l : nat) :
  l < length (arrays st) →
  array_at (with_arrays st (arrays st ++ ks)) l = array_at st l.
Proof.
  intros Hl. unfold array_at. simpl. by rewrite lookup_app_l.
Qed.

Lemma rave_array_at_new (st : State) (ks : list Board) (brd : Board) :
  array_at (with_arrays st (ks ++ [brd])) (length ks) = brd.
Proof.
  unfold array_at. simpl. rewrite lookup_app_r by lia.
  by rewrite Nat.sub_diag.
Qed.

Lemma rave_node_at_app (st : State) (arrs : list Board) (ks : list Node)
    (x : nat) :
  x < length (nodes st) →
  node_at (with_nodes (with_arrays st arrs) (nodes st ++ ks)) x = node_at st x.
Proof.
  intros Hx. unfold node_at. cbn. by rewrite lookup_app_l.
Qed.

Lemma rave_compare_children_new (st0 : State) (self : nat) (ks : list Board)
    (brd : Board) :
  (∀ c, c ∈ children (node_at st0 self) →
        board (node_at st0 c) < length (arrays st0)) →
  compare_children (with_arrays st0 ((arrays st0 ++ ks) ++ [brd]))
                   (length (arrays st0 ++ ks))
                   ((λ c, board (node_at st0 c)) <$> children (node_at st0 self))
  = false
  ↔ is_new st0 self brd.
Proof.
  intros Hrefs. unfold compare_children, is_new, board_of.
  rewrite rave_array_at_new.
  rewrite <- not_true_iff_false, existsb_exists. split.
  - intros Hno c Hc. apply not_true_iff_false. intros Heq. apply Hno.
    exists (board (node_at st0 c)). split.
    + apply list_elem_of_In, list_elem_of_fmap. by exists c.
    + rewrite <- app_assoc, rave_array_at_app; auto.
  - intros Hnew (l & Hl%list_elem_of_In & Heq).
    apply list_elem_of_fmap in Hl as (c & -> & Hc).
    rewrite <- app_assoc, rave_array_at_app in Heq by auto.
    rewrite Hnew in Heq; done.
Qed.

Lemma rave_add_child_cols_cons (st : State) (self i : nat)
    (child_board cols : list nat) :
  self < length (nodes st) →
  add_child_cols st self child_board (i :: cols)
  = let nd := node_at st self in
    let b := array_at st (board nd) in
    if bool_decide (b 5 i = 0%Z) then
      match find (λ j, bool_decide (b j i = 0%Z)) (range 6) with
      | Some j =>
          let brd := setitem b j i (child_mark nd) in
          let st2 := with_arrays st (arrays st ++ [brd]) in
          if compare_children st2 (length (arrays st)) child_board
          then add_child_cols st2 self child_board cols
          else with_nodes st2
                 (<[self := append_child nd (length (nodes st))]>
                    (nodes st ++ [mkNode 0 0 0 0 (Some self) (length (arrays st))
                                         (child_mark nd) [] (check_terminal brd)
                                         false]))
      | None => add_child_cols st self child_board cols
      end
    else add_child_cols st self child_board cols.
Proof.
  intros Hself. cbn [add_child_cols]. cbv zeta.
  case_bool_decide; [|done].
  destruct (find _ (range 6)) as [j|]; [|done].
  unfold np_copy, child_mark. rewrite rave_node_at_with_arrays.
  rewrite !rave_copy_setitem.
  assert (Hadd : ∀ st2 v,
    (let '(st1, c) := new_node
         (with_arrays st (arrays st ++ [st2])) (Some self) (length (arrays st)) v in
     set_node st1 self (append_child (node_at st1 self) c))
    = with_nodes (with_arrays st (arrays st ++ [st2]))
        (<[self := append_child (node_at st self) (length (nodes st))]>
           (nodes st ++ [mkNode 0 0 0 0 (Some self) (length (arrays st))
                                (if bool_decide (v = 1%Z) then 2%Z else 1%Z) []
                                (check_terminal st2) false]))).
  { intros brd v. unfold new_node, set_node.
    cbn [nodes arrays with_arrays with_nodes].
    rewrite rave_array_at_new. rewrite rave_node_at_app by done. done. }
  unfold add_or_break.
  case_bool_decide.
  - rewrite Hadd. destruct child_board; [done |].
    by destruct (compare_children _ _ _).
  - rewrite Hadd. destruct child_board; [done |].
    by destruct (compare_children _ _ _).
Qed.

Lemma rave_add_child_cols_spec (st0 : State) (self a k : nat) (ks : list Board) :
  let nd := node_at st0 self in
  let b := array_at st0 (board nd) in
  self < length (nodes st0) → board nd < length (arrays st0) →
  (∀ c, c ∈ children nd → board (node_at st0 c) < length (arrays st0)) →
  let st' := add_child_cols (with_arrays st0 (arrays st0 ++ ks)) self
               ((λ c, board (node_at st0 c)) <$> children nd) (seq a k) in
  rng st' = rng st0
  ∧ arrays st0 `prefix_of` arrays st'
  ∧ ((∃ i j, a ≤ i < a + k ∧ b 5 i = 0%Z ∧ lowest_empty b i j
        ∧ is_new st0 self (setitem b j i (child_mark nd))
        ∧ (∀ i' j', a ≤ i' < i → b 5 i' = 0%Z → lowest_empty b i' j' →
             ¬ is_new st0 self (setitem b j' i' (child_mark nd)))
        ∧ added_child st0 st' self i j)
     ∨ (nodes st' = <[self := set_expanded nd true]> (nodes st0)
        ∧ ∀ i j, a ≤ i < a + k → b 5 i = 0%Z → lowest_empty b i j →
            ¬ is_new st0 self (setitem b j i (child_mark nd)))).
Proof.
  intros nd b Hself Hboard Hrefs.
  revert a ks. induction k as [|k IH]; intros a ks st'.
  - subst st'. cbn [seq add_child_cols].
    split_and!; [done | by apply prefix_app_r |].
    right. split; [done | intros; lia].
  - subst st'. cbn [seq].
    rewrite rave_add_child_cols_cons by done. cbv zeta.
    rewrite rave_node_at_with_arrays, rave_array_at_app by done.
    fold nd. fold b.
    assert (Hskip : ∀ ks',
      (∀ j, lowest_empty b a j → b 5 a = 0%Z →
            ¬ is_new st0 self (setitem b j a (child_mark nd))) →
      let st' := add_child_cols (with_arrays st0 (arrays st0 ++ ks')) self
                   ((λ c, board (node_at st0 c)) <$> children nd) (seq (S a) k) in
      rng st' = rng st0
      ∧ arrays st0 `prefix_of` arrays st'
      ∧ ((∃ i j, a ≤ i < a + S k ∧ b 5 i = 0%Z ∧ lowest_empty b i j
            ∧ is_new st0 self (setitem b j i (child_mark nd))
            ∧ (∀ i' j', a ≤ i' < i → b 5 i' = 0%Z → lowest_empty b i' j' →
                 ¬ is_new st0 self (setitem b j' i' (child_mark nd)))
            ∧ added_child st0 st' self i j)
         ∨ (nodes st' = <[self := set_expanded nd true]> (nodes st0)
            ∧ ∀ i j, a ≤ i < a + S k → b 5 i = 0%Z → lowest_empty b i j →
                ¬ is_new st0 self (setitem b j i (child_mark nd))))).
    { intros ks' Hdup. destruct (IH (S a) ks') as (Hr & Ha & Hcases).
      split_and!; [done.. |].
      destruct Hcases as [(i & j & Hi & Htop & Hlow & Hnew & Hfirst & Hadd)
                         | (Hnodes & Hall)].
      - left. exists i, j. split_and!; [lia | lia | done.. | | done].
        intros i' j' Hi' Htop' Hlow'.
        destruct (decide (i' = a)) as [-> | Hne]; [by apply Hdup |].
        apply Hfirst; [lia | done..].
      - right. split; [done |]. intros i j Hi Htop Hlow.
        destruct (decide (i = a)) as [-> | Hne]; [by apply Hdup |].
        apply Hall; [lia | done..]. }
    case_bool_decide as Htop; [|apply Hskip; intros; done].
    destruct (find _ (range 6)) as [j|] eqn:Hfind.
    + cbn [arrays with_arrays].
      change (with_arrays (with_arrays st0 (arrays st0 ++ ks))
                ((arrays st0 ++ ks) ++ [setitem b j a (child_mark nd)]))
        with (with_arrays st0 ((arrays st0 ++ ks) ++ [setitem b j a (child_mark nd)])).
      destruct (compare_children _ _ _) eqn:Hdup.
      * rewrite <- app_assoc. apply Hskip. intros j' Hlow' _ Hnew.
        assert (j' = j) as ->.
        { apply find_lowest_empty in Hlow'. congruence. }
        apply (proj2 (rave_compare_children_new st0 self ks _ Hrefs)) in Hnew.
        fold nd in Hnew.
        congruence.
      * apply rave_compare_children_new in Hdup; [|done].
        apply find_lowest_empty in Hfind.
        split_and!; [done | |].
        { cbn. rewrite <- app_assoc. by apply prefix_app_r. }
        left. exists a, j. split_and!; [lia | lia | done.. | |].
        { intros; lia. }
        exists (length (arrays st0 ++ ks)). fold nd. fold b. split_and!.
        -- rewrite length_app. lia.
        -- cbn. rewrite lookup_app_r by lia. by rewrite Nat.sub_diag.
        -- done.
    + apply Hskip. intros j Hlow _. apply find_lowest_empty in Hlow. congruence.
Qed.

Lemma rave_add_child_spec (st : State) (self : nat) :
  let nd := node_at st self in
  let b := array_at st (board nd) in
  self < length (nodes st) → board nd < length (arrays st) →
  (∀ c, c ∈ children nd → board (node_at st c) < length (arrays st)) →
  let st' := add_child st self in
  rng st' = rng st
  ∧ arrays st `prefix_of` arrays st'
  ∧ ((expanded nd = true ∧ st' = st)
     ∨ (expanded nd = false
        ∧ ∃ i j, legal_drop b i j
          ∧ is_new st self (setitem b j i (child_mark nd))
          ∧ (∀ i' j', i' < i → legal_drop b i' j' →
               ¬ is_new st self (setitem b j' i' (child_mark nd)))
          ∧ added_child st st' self i j)
     ∨ (expanded nd = false
        ∧ nodes st' = <[self := set_expanded nd true]> (nodes st)
        ∧ ∀ i j, legal_drop b i j →
            ¬ is_new st self (setitem b j i (child_mark nd)))).
Proof.
  intros nd b Hself Hboard Hrefs st'. subst st'. unfold add_child. fold nd.
  destruct (expanded nd) eqn:Hexp.
  - split_and!; [done.. |]. by left.
  - pose proof (rave_add_child_cols_spec st self 0 7 [] Hself Hboard Hrefs)
      as Hspec. cbv zeta in Hspec. fold nd in Hspec. fold b in Hspec.
    assert (Hst : with_arrays st (arrays st ++ []) = st).
    { unfold with_arrays. rewrite app_nil_r. by destruct st. }
    rewrite Hst in Hspec. fold (range 7) in Hspec.
    destruct Hspec as (Hr & Ha & Hcases). split_and!; [done.. |].
    right. destruct Hcases as [(i & j & Hi & Htop & Hlow & Hnew & Hfirst & Hadd)
                              | (Hnodes & Hall)].
    + left. split; [done |]. exists i, j.
      split_and!; [by (split_and!; [lia | done..]) | done | | done].
      intros i' j' Hi' (_ & Htop' & Hlow'). apply Hfirst; [lia | done..].
    + right. split_and!; [done.. |]. intros i j (Hi & Htop & Hlow).
      apply Hall; [lia | done..].
Qed.

(** ** connect4_RAVE.py: the shape of the tree is kept *)

Lemma rave_board_of_same (st st' : State) (x : nat) :
  tree_ok st → x < length (nodes st) →
  board (node_at st' x) = board (node_at st x) →
  arrays st `prefix_of` arrays st' →
  board_of st' x = board_of st x.
Proof.
  intros [_ Hok] Hx Hb Ha. unfold board_of. rewrite Hb.
  apply rave_array_at_prefix; [done |]. by destruct (Hok x Hx) as (? & _).
Qed.

Lemma rave_tree_ok_same (st st' : State) :
  tree_ok st → length (nodes st') = length (nodes st) →
  (∀ x, x < length (nodes st) → same_links (node_at st x) (node_at st' x)) →
  arrays st `prefix_of` arrays st' →
  tree_ok st'.
Proof.
  intros Hok Hlen Hlinks Ha. pose proof Hok as [Hroot Hnodes].
  assert (Hbo : ∀ x, x < length (nodes st) → board_of st' x = board_of st x).
  { intros x Hx. apply rave_board_of_same; [done.. | | done].
    by destruct (Hlinks x Hx) as (_ & ? & _). }
  split; [lia |]. intros x Hx. rewrite Hlen in Hx.
  destruct (Hlinks x Hx) as (Hp & Hb & Ht & Hc).
  destruct (Hnodes x Hx) as (Hboard & Hturn & Hparent & Hchildren & Hdistinct).
  unfold node_ok. rewrite Hp, Hb, Ht, Hc, Hlen. split_and!; [|done..| |].
  - apply prefix_length in Ha. lia.
  - intros c Hin. destruct (Hchildren c Hin) as (Hrange & Hpc & j & i & Hdiff).
    split_and!; [lia | lia | |].
    + destruct (Hlinks c) as (-> & _); [lia | done].
    + exists j, i. rewrite Hbo by lia.
      rewrite (rave_array_at_prefix st st') by done. done.
  - intros k1 k2 c1 c2 H1 H2 Hne.
    assert (c1 < length (nodes st) ∧ c2 < length (nodes st)) as [Hc1 Hc2].
    { split; eapply Hchildren, list_elem_of_lookup_2; eauto. }
    rewrite !Hbo by done. by eapply Hdistinct.
Qed.

Lemma rave_added_nodes (st st' : State) (self : nat) (nd' new : Node) :
  self < length (nodes st) →
  nodes st' = <[self := nd']> (nodes st ++ [new]) →
  length (nodes st') = S (length (nodes st))
  ∧ node_at st' self = nd'
  ∧ node_at st' (length (nodes st)) = new
  ∧ ∀ x, x ≠ self → x < length (nodes st) → node_at st' x = node_at st x.
Proof.
  intros Hself Hnodes. unfold node_at. rewrite Hnodes. split_and!.
  - rewrite length_insert, length_app. simpl. lia.
  - rewrite list_lookup_insert_eq; [done |]. rewrite length_app. lia.
  - rewrite list_lookup_insert_ne by lia.
    rewrite lookup_app_r by lia. by rewrite Nat.sub_diag.
  - intros x Hne Hx. rewrite list_lookup_insert_ne by done.
    by rewrite lookup_app_l.
Qed.

Lemma rave_tree_ok_added (st st' : State) (self i j : nat) :
  let nd := node_at st self in
  let b := array_at st (board nd) in
  tree_ok st → self < length (nodes st) →
  arrays st `prefix_of` arrays st' →
  legal_drop b i j → is_new st self (setitem b j i (child_mark nd)) →
  added_child st st' self i j →
  tree_ok st'.
Proof.
  intros nd b Hok Hself Ha (Hi & Htop & Hj & Hz & Hlow) Hnew
         (tl & Htl & Harr & Hnodes).
  fold nd in Hnodes. fold b in Hnodes, Harr.
  pose proof Hok as [Hroot Hall].
  destruct (rave_added_nodes _ _ _ _ _ Hself Hnodes)
    as (Hlen & Hat_self & Hat_new & Hat_old).
  destruct (Hall self Hself) as (Hboard & Hturn & Hparent & Hchildren & Hdistinct).
  fold nd in Hboard, Hturn, Hparent, Hchildren, Hdistinct.
  assert (Hbrd_new : board_of st' (length (nodes st)) = setitem b j i (child_mark nd)).
  { unfold board_of, array_at. rewrite Hat_new. simpl. by rewrite Harr. }
  assert (Hbrd_old : ∀ x, x < length (nodes st) → board_of st' x = board_of st x).
  { intros x Hx. apply rave_board_of_same; [done.. | | done].
    destruct (decide (x = self)) as [-> | Hne].
    - by rewrite Hat_self.
    - by rewrite Hat_old. }
  assert (Hparent_old : ∀ x, x < length (nodes st) →
            parent (node_at st' x) = parent (node_at st x)).
  { intros x Hx. destruct (decide (x = self)) as [-> | Hne].
    - by rewrite Hat_self.
    - by rewrite Hat_old. }
  split; [lia |]. intros x Hx. rewrite Hlen in Hx.
  destruct (decide (x = length (nodes st))) as [-> | Hne_new].
  { (* the new child *)
    rewrite Hat_new. unfold node_ok. simpl. split_and!.
    - by apply lookup_lt_Some in Harr.
    - unfold child_mark. case_bool_decide; lia.
    - done.
    - intros c Hc. inversion Hc.
    - intros k1 k2 c1 c2 H1. done. }
  assert (Hx' : x < length (nodes st)) by lia.
  destruct (decide (x = self)) as [-> | Hne].
  { (* the expanded node *)
    rewrite Hat_self. unfold node_ok. simpl. fold nd. split_and!.
    - apply prefix_length in Ha. lia.
    - done.
    - done.
    - intros c [Hc | ->%list_elem_of_singleton]%elem_of_app.
      + destruct (Hchildren c Hc) as (Hrange & Hpc & j0 & i0 & Hdiff).
        split_and!; [lia | lia | by rewrite Hparent_old by lia |].
        exists j0, i0. rewrite Hbrd_old by lia.
        rewrite (rave_array_at_prefix st st') by done. done.
      + split_and!; [lia | lia | by rewrite Hat_new |].
        exists j, i. rewrite Hbrd_new.
        rewrite (rave_array_at_prefix st st') by done. fold b.
        apply one_cell_diff_setitem; [done.. |]. rewrite Hz.
        unfold child_mark. case_bool_decide; lia.
    - intros k1 k2 c1 c2 H1 H2 Hk.
      apply lookup_app_Some in H1 as [H1 | [Hk1 H1]];
      apply lookup_app_Some in H2 as [H2 | [Hk2 H2]].
      + assert (c1 < length (nodes st) ∧ c2 < length (nodes st)) as [Hc1 Hc2].
        { split; eapply Hchildren, list_elem_of_lookup_2; eauto. }
        rewrite !Hbrd_old by done. by eapply Hdistinct.
      + apply list_lookup_singleton_Some in H2 as [_ <-].
        assert (Hin : c1 ∈ children nd) by (by eapply list_elem_of_lookup_2).
        rewrite Hbrd_new, Hbrd_old by (by apply Hchildren).
        rewrite board_eqb_sym. by apply Hnew.
      + apply list_lookup_singleton_Some in H1 as [_ <-].
        assert (Hin : c2 ∈ children nd) by (by eapply list_elem_of_lookup_2).
        rewrite Hbrd_new, Hbrd_old by (by apply Hchildren).
        by apply Hnew.
      + apply list_lookup_singleton_Some in H1 as [? _].
        apply list_lookup_singleton_Some in H2 as [? _]. lia. }
  (* any other node *)
  rewrite Hat_old by done.
  destruct (Hall x Hx') as (Hb & Ht & Hp & Hc & Hd).
  unfold node_ok. split_and!; [|done..| |].
  - apply prefix_length in Ha. lia.
  - intros c Hin. destruct (Hc c Hin) as (Hrange & Hpc & j0 & i0 & Hdiff).
    split_and!; [lia | lia | by rewrite Hparent_old by lia |].
    exists j0, i0. rewrite Hbrd_old by lia.
    rewrite (rave_array_at_prefix st st') by done. done.
  - intros k1 k2 c1 c2 H1 H2 Hk.
    assert (c1 < length (nodes st) ∧ c2 < length (nodes st)) as [Hc1 Hc2].
    { split; eapply Hc, list_elem_of_lookup_2; eauto. }
    rewrite !Hbrd_old by done. by eapply Hd.
Qed.

(** ** connect4_RAVE.py: backpropagation *)

Lemma rave_tree_ok_parent (st : State) (x : nat) :
  tree_ok st → x < length (nodes st) →
  match parent (node_at st x) with Some p => p < x | None => x = 0 end.
Proof. intros [_ Hok] Hx. by destruct (Hok x Hx) as (_ & _ & ? & _). Qed.

Lemma rave_path_same (fuel : nat) (st st' : State) (x : nat) :
  (∀ y, parent (node_at st' y) = parent (node_at st y)) →
  path_to_root fuel st' x = path_to_root fuel st x.
Proof.
  intros Hp. revert x. induction fuel as [|fuel IH]; intros x; simpl; [done |].
  rewrite Hp. destruct (parent (node_at st x)); [by rewrite IH | done].
Qed.

Lemma rave_path_bound (fuel : nat) (st : State) (x y : nat) :
  (∀ z, z < length (nodes st) →
        match parent (node_at st z) with Some p => p < z | None => z = 0 end) →
  x < length (nodes st) → y ∈ path_to_root fuel st x → y ≤ x.
Proof.
  intros Hwf. revert x. induction fuel as [|fuel IH]; intros x Hx; simpl.
  - intros Hy. inversion Hy.
  - intros [-> | Hy]%elem_of_cons; [done |].
    specialize (Hwf x Hx). destruct (parent (node_at st x)) as [p|].
    + specialize (IH p ltac:(lia) Hy). lia.
    + inversion Hy.
Qed.

Lemma rave_path_root (fuel : nat) (st : State) (x : nat) :
  (∀ z, z < length (nodes st) →
        match parent (node_at st z) with Some p => p < z | None => z = 0 end) →
  x < length (nodes st) → x < fuel →
  x ∈ path_to_root fuel st x ∧ 0 ∈ path_to_root fuel st x.
Proof.
  intros Hwf. revert x. induction fuel as [|fuel IH]; intros x Hx Hfuel; [lia |].
  simpl. split; [left |].
  pose proof (Hwf x Hx) as Hp. destruct (parent (node_at st x)) as [p|].
  - right. apply IH; lia.
  - subst x. left.
Qed.

Lemma rave_node_at_set_node (st : State) (x y : nat) (nd : Node) :
  x < length (nodes st) →
  node_at (set_node st x nd) y = if decide (y = x) then nd else node_at st y.
Proof.
  intros Hx. unfold node_at, set_node. simpl. case_decide as Hy.
  - subst y. by rewrite list_lookup_insert_eq.
  - by rewrite list_lookup_insert_ne.
Qed.

Lemma rave_only_refl (st : State) : rave_only st st.
Proof. by split_and!. Qed.

Lemma rave_only_trans (st1 st2 st3 : State) :
  rave_only st1 st2 → rave_only st2 st3 → rave_only st1 st3.
Proof.
  intros (Ha & Hr & Hl & Hx) (Ha' & Hr' & Hl' & Hx').
  split_and!; [congruence.. |]. intros y.
  destruct (Hx y) as [(H1 & H2 & H3 & H4) Hn].
  destruct (Hx' y) as [(H1' & H2' & H3' & H4') Hn'].
  unfold same_links. split_and!; congruence.
Qed.

Lemma rave_only_set_rave (st : State) (child : nat) (rq rn : Z) :
  rave_only st (set_node st child (set_rave (node_at st child) rq rn)).
Proof.
  split_and!; [done | done | simpl; by rewrite length_insert |].
  intros y. unfold node_at, set_node. simpl.
  destruct (decide (y = child)) as [-> | Hne];
    [|by rewrite list_lookup_insert_ne].
  destruct (decide (child < length (nodes st))) as [Hlt | Hge].
  - rewrite list_lookup_insert_eq by done. done.
  - rewrite list_insert_ge by lia. done.
Qed.

Lemma rave_only_update (node : nat) (won : bool) (st : State)
    (action : nat * nat) :
  rave_only st (rave_update node won st action).
Proof.
  unfold rave_update. generalize (children (node_at st node)) as cs.
  intros cs. revert st. induction cs as [|c cs IH]; intros s; simpl.
  - apply rave_only_refl.
  - case_bool_decide; [|apply IH].
    eapply rave_only_trans; [apply rave_only_set_rave | apply IH].
Qed.

Lemma rave_only_actions (node : nat) (won : bool) (actions : list (nat * nat))
    (st : State) :
  rave_only st (foldl (rave_update node won) st actions).
Proof.
  revert st. induction actions as [|a actions IH]; intros st; simpl.
  - apply rave_only_refl.
  - eapply rave_only_trans; [apply rave_only_update | apply IH].
Qed.

Lemma rave_backpropagate_spec (fuel : nat) (st : State) (node : nat)
    (winner : option Z) (actions : list (nat * nat)) :
  (∀ z, z < length (nodes st) →
        match parent (node_at st z) with Some p => p < z | None => z = 0 end) →
  node < length (nodes st) → node < fuel →
  ∃ st', backpropagate fuel st node winner actions = Ret st'
    ∧ arrays st' = arrays st ∧ rng st' = rng st
    ∧ length (nodes st') = length (nodes st)
    ∧ ∀ x, same_links (node_at st x) (node_at st' x)
        ∧ n (node_at st' x)
          = (n (node_at st x)
             + if bool_decide (x ∈ path_to_root fuel st node) then 1 else 0)%Z.
Proof.
  revert st node. induction fuel as [|fuel IH]; intros st node Hwf Hnode Hfuel;
    [lia |].
  cbn [backpropagate path_to_root].
  set (nd := node_at st node).
  set (won := is_winner (turn nd) winner).
  set (st1 := set_node st node
                (set_stats nd (if won then q nd + 1 else q nd)%Z (n nd + 1)%Z)).
  set (st2 := foldl (rave_update node won) st1 actions).
  destruct (rave_only_actions node won actions st1)
    as (Harr2 & Hrng2 & Hlen2 & Hx2). fold st2 in Harr2, Hrng2, Hlen2, Hx2.
  assert (Hat1 : ∀ y, node_at st1 y
                      = if decide (y = node)
                        then set_stats nd (if won then q nd + 1 else q nd)%Z
                                       (n nd + 1)%Z
                        else node_at st y).
  { intros y. unfold st1. by rewrite rave_node_at_set_node. }
  assert (Hlinks : ∀ y, same_links (node_at st y) (node_at st2 y)).
  { intros y. destruct (Hx2 y) as [(H1 & H2 & H3 & H4) _].
    unfold same_links. rewrite H1, H2, H3, H4, Hat1.
    destruct (decide (y = node)) as [-> | ?]; done. }
  assert (Hn2 : ∀ y, n (node_at st2 y)
                     = (n (node_at st y) + if decide (y = node) then 1 else 0)%Z).
  { intros y. destruct (Hx2 y) as [_ ->]. rewrite Hat1.
    destruct (decide (y = node)) as [-> | ?]; simpl; unfold nd; lia. }
  assert (Hparents : ∀ y, parent (node_at st2 y) = parent (node_at st y)).
  { intros y. by destruct (Hlinks y) as (? & _). }
  assert (Hlen : length (nodes st2) = length (nodes st)).
  { rewrite Hlen2. unfold st1, set_node. simpl. by rewrite length_insert. }
  rewrite Hparents. fold nd.
  pose proof (Hwf node Hnode) as Hp. fold nd in Hp.
  destruct (parent nd) as [p|] eqn:Hpar.
  - destruct (IH st2 p) as (st' & Hrun & Harr & Hrng & Hlen' & Hx).
    { intros z Hz. rewrite Hparents. apply Hwf. by rewrite <- Hlen. }
    { lia. }
    { lia. }
    exists st'.
    split_and!; [done | by rewrite Harr, Harr2 | by rewrite Hrng, Hrng2
                | congruence |].
    intros x. destruct (Hx x) as [(Hl1 & Hl2 & Hl3 & Hl4) Hn].
    destruct (Hlinks x) as (Hk1 & Hk2 & Hk3 & Hk4).
    rewrite (rave_path_same fuel st st2) in Hn by done.
    rewrite Hn, Hn2. split.
    + unfold same_links. split_and!; congruence.
    + destruct (decide (x = node)) as [-> | Hxn].
      * rewrite (bool_decide_eq_true_2 (node ∈ node :: _)) by left.
        rewrite (bool_decide_eq_false_2 (node ∈ path_to_root fuel st p));
          [simpl; lia |].
        intros Hin. apply rave_path_bound in Hin; [lia | done | lia].
      * rewrite (bool_decide_ext (x ∈ node :: path_to_root fuel st p)
                                 (x ∈ path_to_root fuel st p)); [lia |].
        rewrite elem_of_cons. tauto.
  - exists st2. rewrite Harr2, Hrng2. split_and!; [done.. |].
    intros x. rewrite Hn2. split; [done |].
    destruct (decide (x = node)) as [-> | Hxn].
    + rewrite bool_decide_eq_true_2 by left. done.
    + rewrite bool_decide_eq_false_2; [done |].
      intros [-> | Hin]%elem_of_cons; [done | inversion Hin].
Qed.

(** ** connect4_RAVE.py: selection *)

Section rave_selection.
Context {F : Type} {ops : FloatOps F}.
Variable t : Z.
Hypothesis t_nonneg : (0 ≤ t)%Z.

Lemma rave_select_uct_loop_spec (st : State) (node : nat) (cs : list nat)
    (best_value : F) (best_node : option nat) (log : list (Z * Z)) :
  (∀ c, c ∈ cs → (0 < n (node_at st c))%Z) →
  (cs ≠ [] → (0 < n (node_at st node))%Z) →
  ∃ best, select_uct_loop t st node cs best_value best_node log
          = Ret (best, log ++ ((λ c, (n (node_at st node), n (node_at st c))) <$> cs))
    ∧ (best = best_node ∨ ∃ c, best = Some c ∧ c ∈ cs).
Proof.
  revert best_value best_node log.
  induction cs as [|child cs IH]; intros best_value best_node log Hcs Hnode.
  - exists best_node. simpl. rewrite app_nil_r. by split; [|left].
  - assert (Hn : (0 < n (node_at st child))%Z) by (apply Hcs; left).
    assert (Hp : (0 < n (node_at st node))%Z) by (by apply Hnode).
    assert (Hcs' : ∀ c, c ∈ cs → (0 < n (node_at st c))%Z).
    { intros c Hc. apply Hcs. by right. }
    cbn [select_uct_loop].
    rewrite (py_truediv_pos (q (node_at st child))) by lia.
    cbn [mbind res_bind].
    rewrite (py_truediv_pos t) by lia.
    cbn [mbind res_bind].
    assert (Hrave : ∃ v : F,
      (if bool_decide (0 < rave_n (node_at st child))%Z
       then py_truediv (rave_q (node_at st child)) (rave_n (node_at st child))
       else Ret (f_of_int 0)) = Ret v).
    { case_bool_decide; [|by eexists]. rewrite py_truediv_pos by done. by eexists. }
    destruct Hrave as [v ->]. cbn [mbind res_bind].
    rewrite fmap_cons.
    destruct (f_gt _ _).
    + match goal with
      | |- context [select_uct_loop t st node cs ?bv ?bn ?lg] =>
          destruct (IH bv bn lg Hcs') as (best & Hrun & Hbest); [done |]
      end.
      rewrite <- app_assoc in Hrun. rewrite Hrun.
      exists best. split; [done |]. right.
      destruct Hbest as [-> | (c & -> & Hc)].
      * exists child. split; [done | left].
      * exists c. split; [done | by right].
    + match goal with
      | |- context [select_uct_loop t st node cs ?bv ?bn ?lg] =>
          destruct (IH bv bn lg Hcs') as (best & Hrun & Hbest); [done |]
      end.
      rewrite <- app_assoc in Hrun. rewrite Hrun.
      exists best. split; [done |].
      destruct Hbest as [-> | (c & -> & Hc)]; [by left |].
      right. exists c. split; [done | by right].
Qed.

Lemma rave_fully_expanded_children (st : State) (node : nat) :
  fully_expanded st node = true →
  ∀ c, c ∈ children (node_at st node) → n (node_at st c) ≠ 0%Z.
Proof.
  unfold fully_expanded. case_bool_decide; [|done].
  generalize (children (node_at st node)) as cs.
  assert (Hgen : ∀ cs visited,
    foldl (λ visited child,
             if bool_decide (n (node_at st child) = 0%Z) then false else visited)
          visited cs = true →
    visited = true ∧ ∀ c, c ∈ cs → n (node_at st c) ≠ 0%Z).
  { induction cs as [|c cs IH]; intros visited; simpl.
    - intros ->. split; [done |]. intros c Hc. inversion Hc.
    - intros [Hv Hall]%IH. case_bool_decide as Hz; [done |].
      split; [done |]. intros c' [-> | Hc']%elem_of_cons; auto. }
  intros cs Hfold. by apply Hgen in Hfold as [_ ?].
Qed.

Lemma rave_select_loop_spec (fuel : nat) (st : State) (node : nat)
    (log : list (Z * Z)) :
  search_inv st → node < length (nodes st) →
  length (nodes st) ≤ fuel + node → log_positive log →
  ∃ node' log', select_loop t fuel st node log = Ret (node', log')
    ∧ node' < length (nodes st) ∧ log_positive log'.
Proof.
  intros (Hok & Hvis & Hroot).
  revert node log. induction fuel as [|fuel IH]; intros node log Hnode Hfuel Hlog;
    cbn [select_loop].
  - destruct (fully_expanded st node); [lia | by exists node, log].
  - destruct (fully_expanded st node) eqn:Hfull; [|by exists node, log].
    pose proof (rave_fully_expanded_children _ _ Hfull) as Hnz.
    destruct Hok as [Hlen Hnodes].
    destruct (Hnodes node Hnode) as (_ & _ & _ & Hchildren & _).
    assert (Hpos : ∀ c, c ∈ children (node_at st node) →
              (0 < n (node_at st c))%Z).
    { intros c Hc. specialize (Hnz c Hc).
      destruct (Hchildren c Hc) as (Hrange & _).
      destruct (Hvis c) as [H0 _]; [lia | lia]. }
    assert (Hnode_pos : children (node_at st node) ≠ [] →
              (0 < n (node_at st node))%Z).
    { intros Hne. destruct (decide (node = 0)) as [-> | Hn0].
      - assert (1 ≤ n (node_at st 0))%Z by (by apply Hroot). lia.
      - destruct (Hvis node Hnode) as [_ Hone].
        assert (1 ≤ n (node_at st node))%Z by (by apply Hone). lia. }
    unfold select_uct.
    destruct (rave_select_uct_loop_spec st node (children (node_at st node))
                f_neg_inf None log Hpos Hnode_pos) as (best & Hrun & Hbest).
    rewrite Hrun. cbn [mbind res_bind].
    assert (Hlog' : log_positive
              (log ++ ((λ c, (n (node_at st node), n (node_at st c)))
                         <$> children (node_at st node)))).
    { apply Forall_app. split; [done |]. apply Forall_fmap, Forall_forall.
      intros c Hc. simpl. split; [|by apply Hpos].
      apply Hnode_pos. intros Hnil. rewrite Hnil in Hc. inversion Hc. }
    case_bool_decide as Htmp; [by eexists _, _ |].
    destruct Hbest as [-> | (c & -> & Hc)]; [done |]. simpl in *.
    destruct (Hchildren c Hc) as (Hrange & _).
    apply IH; [lia | lia | done].
Qed.

Lemma rave_node_at_insert (st st' : State) (self : nat) (nd' : Node) (x : nat) :
  self < length (nodes st) → nodes st' = <[self := nd']> (nodes st) →
  node_at st' x = if decide (x = self) then nd' else node_at st x.
Proof.
  intros Hself Hnodes. unfold node_at. rewrite Hnodes.
  destruct (decide (x = self)) as [-> | Hne].
  - by rewrite list_lookup_insert_eq.
  - by rewrite list_lookup_insert_ne.
Qed.

(** What [select] does to a state between two iterations. *)
Lemma rave_select_spec (st : State) (node : nat) :
  search_inv st → node < length (nodes st) →
  ∃ st' leaf log, select t st node = Ret (st', leaf, log)
    ∧ log_positive log
    ∧ tree_ok st'
    ∧ arrays st `prefix_of` arrays st'
    ∧ length (nodes st) ≤ length (nodes st')
    ∧ (∀ x, x < length (nodes st) →
         n (node_at st' x) = n (node_at st x)
         ∧ board (node_at st' x) = board (node_at st x))
    ∧ match leaf with
      | None => visits_ok st' None ∧ root_visited st'
      | Some l => l < length (nodes st') ∧ visits_ok st' (Some l)
      end.
Proof.
  intros Hinv Hnode. pose proof Hinv as (Hok & Hvis & Hroot).
  destruct (rave_select_loop_spec (length (nodes st)) st node [] Hinv Hnode)
    as (node1 & log & Hloop & Hnode1 & Hlog); [lia | constructor |].
  unfold select. rewrite Hloop. cbn [mbind res_bind].
  assert (Hweak : ∀ l, visits_ok st (Some l)).
  { intros l x Hx. destruct (Hvis x Hx) as [H0 H1]. split; [done |].
    intros Hx0 _. by apply H1. }
  destruct (terminal (node_at st node1)).
  { exists st, (Some node1), log. split_and!; try done. }
  pose proof Hok as [Hlen Hnodes].
  destruct (Hnodes node1 Hnode1) as (Hboard & Hturn & Hparent & Hchildren & Hdist).
  assert (Hold : ∀ c, c ∈ children (node_at st node1) →
            (n (node_at st c) =? 0)%Z = false ∧ c ≠ node1 ∧ c < length (nodes st)).
  { intros c Hc. destruct (Hchildren c Hc) as (Hrange & _).
    destruct (Hvis c) as [_ H1]; [lia |].
    assert (1 ≤ n (node_at st c))%Z by (apply H1; [lia | done]).
    split_and!; [lia | lia | lia]. }
  destruct (rave_add_child_spec st node1 Hnode1 Hboard)
    as (Hrng & Harr & Hcases).
  { intros c Hc. destruct (Hchildren c Hc) as (Hrange & _).
    by destruct (Hnodes c ltac:(lia)) as (? & _). }
  destruct Hcases as [(Hexp & Heq)
                     | [(Hexp & i & j & Hdrop & Hnew & _ & Hadd)
                       | (Hexp & Hnodes' & _)]].
  - (* already marked as expanded *)
    rewrite Heq.
    destruct (children (node_at st node1)) as [|c0 cs] eqn:Hcs.
    { exists st, (Some node1), log. split_and!; try done. }
    exists st, (pick_unvisited st (c0 :: cs)), log. split_and!; try done.
    unfold pick_unvisited. rewrite find_all_false; [done |].
    intros c Hc. apply bool_decide_eq_false. destruct (Hold c Hc) as (? & _). lia.
  - (* one child added *)
    set (st' := add_child st node1) in *.
    pose proof (rave_tree_ok_added st st' node1 i j Hok Hnode1 Harr Hdrop Hnew Hadd)
      as Hok'.
    destruct Hadd as (tl & Htl & Htlarr & Hnodes').
    destruct (rave_added_nodes _ _ _ _ _ Hnode1 Hnodes')
      as (Hlen' & Hat_self & Hat_new & Hat_old).
    assert (Hn : ∀ x, x < length (nodes st) →
              n (node_at st' x) = n (node_at st x)
              ∧ board (node_at st' x) = board (node_at st x)).
    { intros x Hx. destruct (decide (x = node1)) as [-> | Hne].
      - by rewrite Hat_self.
      - by rewrite Hat_old. }
    rewrite Hat_self. cbn [children append_child].
    destruct (children (node_at st node1) ++ [length (nodes st)]) as [|c0 cs] eqn:Hcs.
    { by destruct (children (node_at st node1)). }
    rewrite <- Hcs.
    exists st', (Some (length (nodes st))), log.
    split_and!; [|done | done | done | lia | done | lia |].
    + do 2 f_equal. unfold pick_unvisited. rewrite find_app_false.
      * simpl. rewrite Hat_new. done.
      * intros c Hc. destruct (Hold c Hc) as (Hz & Hne & Hlt).
        apply bool_decide_eq_false. destruct (Hn c Hlt) as [-> _]. lia.
    + intros x Hx. rewrite Hlen' in Hx.
      destruct (decide (x = length (nodes st))) as [-> | Hne].
      * rewrite Hat_new. simpl. split; [lia | done].
      * destruct (Hn x ltac:(lia)) as [-> _].
        destruct (Hvis x ltac:(lia)) as [H0 H1]. split; [done |].
        intros Hx0 _. by apply H1.
  - (* nothing left to add: the node is marked as expanded *)
    set (st' := add_child st node1) in *.
    assert (Hat : ∀ x, node_at st' x
                       = if decide (x = node1)
                         then set_expanded (node_at st node1) true
                         else node_at st x).
    { intros x. by apply rave_node_at_insert. }
    assert (Hlen' : length (nodes st') = length (nodes st)).
    { by rewrite Hnodes', length_insert. }
    assert (Hn : ∀ x, n (node_at st' x) = n (node_at st x)
                      ∧ children (node_at st' x) = children (node_at st x)).
    { intros x. rewrite Hat. destruct (decide (x = node1)) as [-> | ?]; done. }
    assert (Hok' : tree_ok st').
    { apply (rave_tree_ok_same st); [done.. | | done].
      intros x Hx. rewrite Hat. unfold same_links.
      destruct (decide (x = node1)) as [-> | ?]; done. }
    assert (Hvis' : ∀ pending, visits_ok st pending → visits_ok st' pending).
    { intros pending Hp x Hx. destruct (Hn x) as [-> _]. apply Hp. lia. }
    assert (Hkeep : ∀ x, x < length (nodes st) →
              n (node_at st' x) = n (node_at st x)
              ∧ board (node_at st' x) = board (node_at st x)).
    { intros x Hx. rewrite Hat. destruct (decide (x = node1)) as [-> | ?]; done. }
    destruct (Hn node1) as [_ ->].
    destruct (children (node_at st node1)) as [|c0 cs] eqn:Hcs.
    { exists st', (Some node1), log. split_and!; try done; [lia | lia | by apply Hvis']. }
    exists st', (pick_unvisited st' (c0 :: cs)), log.
    split_and!; try done; [lia |].
    unfold pick_unvisited. rewrite find_all_false.
    + split; [by apply Hvis' |]. unfold root_visited.
      destruct (Hn 0) as [-> ->]. done.
    + intros c Hc. apply bool_decide_eq_false. destruct (Hold c Hc) as (? & _).
      destruct (Hn c) as [-> _]. lia.
Qed.

(** ** connect4_RAVE.py: rollout and the search loop *)

Lemma rave_result_ne_zero (b : Board) : py_ne_zero (result b) = true.
Proof.
  destruct (result b) as [w|] eqn:Hres; [|done].
  apply rave_result_Some in Hres as [Hw _]. simpl.
  by rewrite bool_decide_eq_false_2.
Qed.

(** A rollout returns as soon as its first ply is played. *)
Lemma rave_rollout_ret (fuel : nat) (st : State) (node : nat) :
  ∃ st' w acts, rollout (S fuel) st node = Ret (st', w, acts) ∧ length acts ≤ 1.
Proof.
  unfold rollout.
  destruct (negb _); [|eexists _, _, []; split; [done | simpl; lia]].
  cbn [rollout_loop].
  destruct (get_moves _ _ _) as [st1 [|m moves]];
    [eexists _, _, []; split; [done | simpl; lia] |].
  destruct (random_choice _ _) as [st2 next_board].
  rewrite rave_result_ne_zero.
  destruct (get_action _ _ _); eexists _, _, _; (split; [done | simpl; lia]).
Qed.

Lemma rave_node_at_nodes (st st' : State) (x : nat) :
  nodes st' = nodes st → node_at st' x = node_at st x.
Proof. intros Hn. unfold node_at. by rewrite Hn. Qed.

Lemma rave_iterate_spec (K : nat) (st : State) :
  search_inv st →
  ∃ st' fin, iterate t K st 0 = Ret (st', fin)
    ∧ search_inv st'
    ∧ arrays st `prefix_of` arrays st'
    ∧ length (nodes st) ≤ length (nodes st')
    ∧ (∀ x, x < length (nodes st) →
         board (node_at st' x) = board (node_at st x))
    ∧ (fin = true → n (node_at st' 0) = (n (node_at st 0) + Z.of_nat K)%Z).
Proof.
  revert st. induction K as [|K IH]; intros st Hinv.
  { exists st, true. cbn [iterate]. split_and!; try done. intros _. lia. }
  pose proof Hinv as (Hok & Hvis & Hroot). pose proof Hok as [Hlen _].
  destruct (rave_select_spec st 0 Hinv Hlen)
    as (st1 & leaf & log & Hsel & _ & Hok1 & Harr1 & Hlen1 & Hkeep1 & Hleaf).
  cbn [iterate]. rewrite Hsel. cbn [mbind res_bind].
  destruct leaf as [l|]; [|by exists st1, false; split_and!; try done;
                                  intros x Hx; apply Hkeep1].
  destruct Hleaf as [Hl Hvis1].
  destruct (rave_rollout_ret 41 st1 l) as (st2 & w & acts & Hroll & _).
  rewrite Hroll. cbn [mbind res_bind].
  apply rave_rollout_grow in Hroll as (Hnodes2 & Harr2).
  assert (Hat2 : ∀ x, node_at st2 x = node_at st1 x).
  { intros x. by apply rave_node_at_nodes. }
  assert (Hok2 : tree_ok st2).
  { apply (rave_tree_ok_same st1); [done | by rewrite Hnodes2 | | done].
    intros x _. rewrite Hat2. by unfold same_links. }
  destruct (rave_backpropagate_spec (length (nodes st2)) st2 l w acts)
    as (st3 & Hback & Harr3 & _ & Hlen3 & Hx3).
  { intros z Hz. by apply rave_tree_ok_parent. }
  { by rewrite Hnodes2. }
  { by rewrite Hnodes2. }
  rewrite Hback. cbn [mbind res_bind].
  destruct (rave_path_root (length (nodes st2)) st2 l) as [Hpath_l Hpath_0].
  { intros z Hz. by apply rave_tree_ok_parent. }
  { by rewrite Hnodes2. }
  { by rewrite Hnodes2. }
  assert (Hok3 : tree_ok st3).
  { apply (rave_tree_ok_same st2); [done | done | | by rewrite Harr3].
    intros x _. apply Hx3. }
  assert (Hn3 : ∀ x, (n (node_at st1 x) ≤ n (node_at st3 x))%Z).
  { intros x. destruct (Hx3 x) as [_ ->]. rewrite Hat2. case_bool_decide; lia. }
  assert (Hinv3 : search_inv st3).
  { split_and!; [done | |].
    - intros x Hx. rewrite Hlen3, Hnodes2 in Hx.
      destruct (Hvis1 x Hx) as [H0 H1]. specialize (Hn3 x).
      split; [lia |]. intros Hx0 _.
      destruct (decide (x = l)) as [-> | Hne].
      + destruct (Hx3 l) as [_ ->].
        rewrite bool_decide_eq_true_2 by done. rewrite Hat2. lia.
      + assert (1 ≤ n (node_at st1 x))%Z by (apply H1; congruence). lia.
    - intros _. destruct (Hx3 0) as [_ ->].
      rewrite bool_decide_eq_true_2 by done. rewrite Hat2.
      destruct (Hvis1 0) as [H0 _]; [lia | lia]. }
  destruct (IH st3 Hinv3) as (st' & fin & Hiter & Hinv' & Harr' & Hlen' & Hkeep' & Hfin).
  exists st', fin. rewrite Hlen3, Hnodes2 in Hlen'.
  split_and!; [done | done | | lia | |].
  - etrans; [exact Harr1 |]. etrans; [exact Harr2 |]. by rewrite <- Harr3.
  - intros x Hx. rewrite Hkeep' by (rewrite Hlen3, Hnodes2; lia).
    destruct (Hx3 x) as [(_ & -> & _) _]. rewrite Hat2. by apply Hkeep1.
  - intros Hf. rewrite (Hfin Hf). destruct (Hx3 0) as [_ ->].
    rewrite bool_decide_eq_true_2 by done. rewrite Hat2.
    destruct (Hkeep1 0 Hlen) as [-> _]. lia.
Qed.

Lemma rave_root_state_inv (b : Board) (symbol : Z) (draws : list nat) :
  search_inv (root_state b symbol draws).
Proof.
  unfold root_state, new_node. cbn [fst].
  split_and!.
  - split; [simpl; lia |]. intros x Hx. simpl in Hx.
    assert (x = 0) as -> by lia. unfold node_ok. cbn.
    split_and!; [lia | case_bool_decide; lia | done | |].
    + intros c Hc. inversion Hc.
    + intros k1 k2 c1 c2 H1. done.
  - intros x Hx. simpl in Hx. assert (x = 0) as -> by lia. cbn. split; [lia | done].
  - intros Hne. by cbn in Hne.
Qed.

End rave_selection.

(** ** connect4_RAVE.py: the move returned *)

Lemma rave_best_child_loop_acc (st : State) (cs pre : list nat) (kb b : nat) :
  first_max st pre kb b →
  ∃ k best, best_child_loop st cs (n (node_at st b)) (Some b) = Some best
    ∧ first_max st (pre ++ cs) k best.
Proof.
  revert pre kb b. induction cs as [|c cs IH]; intros pre kb b Hmax.
  - exists kb, b. rewrite app_nil_r. done.
  - cbn [best_child_loop]. destruct Hmax as (Hkb & Hall & Hbefore).
    replace (pre ++ c :: cs) with ((pre ++ [c]) ++ cs)
      by (by rewrite <- app_assoc).
    case_bool_decide as Hlt.
    + apply (IH (pre ++ [c]) (length pre) c). split_and!.
      * rewrite lookup_app_r by lia. by rewrite Nat.sub_diag.
      * intros k' c' [Hc' | [_ Hc']]%lookup_app_Some.
        -- specialize (Hall k' c' Hc'). lia.
        -- apply list_lookup_singleton_Some in Hc' as [_ <-]. lia.
      * intros k' c' Hk' [Hc' | [Hge _]]%lookup_app_Some; [|lia].
        specialize (Hall k' c' Hc'). lia.
    + apply (IH (pre ++ [c]) kb b). split_and!.
      * by apply lookup_app_l_Some.
      * intros k' c' [Hc' | [_ Hc']]%lookup_app_Some.
        -- by apply (Hall k').
        -- apply list_lookup_singleton_Some in Hc' as [_ <-]. lia.
      * intros k' c' Hk' [Hc' | [Hge _]]%lookup_app_Some.
        -- by apply (Hbefore k').
        -- apply lookup_lt_Some in Hkb. lia.
Qed.

(** [best_child] starts from [max_visit = 0] and replaces on a strictly
    larger count, so a child is returned once the first child has a visit. *)
Lemma rave_best_child_first_max (st : State) (node : nat) :
  (∀ c, c ∈ children (node_at st node) → (1 ≤ n (node_at st c))%Z) →
  children (node_at st node) ≠ [] →
  ∃ k best, best_child st node = Some best
    ∧ first_max st (children (node_at st node)) k best.
Proof.
  unfold best_child. destruct (children (node_at st node)) as [|c cs]; [done |].
  intros Hvis _. cbn [best_child_loop].
  assert (1 ≤ n (node_at st c))%Z by (apply Hvis; left).
  rewrite bool_decide_eq_true_2 by lia.
  apply (rave_best_child_loop_acc st cs [c] 0 c). split_and!.
  - done.
  - intros k' c' Hc'. apply list_lookup_singleton_Some in Hc' as [_ <-]. lia.
  - intros k' c' Hk'. lia.
Qed.

End RaveFacts.

(** ** connect4_RAVE.py: no array that exists is written to *)

Module RaveFrame.
Import RAVE RaveSpec RaveFacts.

Lemma rave_frame_set_node (st : State) (x : nat) (nd : Node) :
  board nd = board (node_at st x) → frame st (set_node st x nd).
Proof.
  intros Hb. split_and!; [done | simpl; by rewrite length_insert |].
  intros y Hy. unfold node_at, set_node. simpl.
  destruct (decide (y = x)) as [-> | Hne].
  - rewrite list_lookup_insert_eq by done. simpl. by rewrite Hb.
  - by rewrite list_lookup_insert_ne.
Qed.

Lemma rave_frame_new_array (st : State) (brd : Board) :
  frame st (with_arrays st (arrays st ++ [brd])).
Proof. split_and!; [by apply prefix_app_r | done | done]. Qed.

Lemma rave_frame_new_node (st : State) (p : option nat) (b : nat) (v : Z) :
  frame st (new_node st p b v).1.
Proof.
  split_and!; [done | simpl; rewrite length_app; lia |].
  intros x Hx. unfold node_at. simpl. by rewrite lookup_app_l.
Qed.

Lemma rave_frame_add_child_cols (st : State) (self : nat)
    (child_board cols : list nat) :
  frame st (add_child_cols st self child_board cols).
Proof.
  revert st. induction cols as [|i cols IH]; intros st; cbn [add_child_cols].
  - by apply rave_frame_set_node.
  - cbv zeta. case_bool_decide; [|apply IH].
    destruct (find _ (range 6)) as [j|]; [|apply IH].
    unfold np_copy. rewrite rave_node_at_with_arrays, !rave_copy_setitem.
    assert (Hgen : ∀ brd v,
      match add_or_break (with_arrays st (arrays st ++ [brd])) self
                         (length (arrays st)) v child_board with
      | inl st2 => frame st st2
      | inr st2 => frame st (add_child_cols st2 self child_board cols)
      end).
    { intros brd v. unfold add_or_break.
      set (st2 := with_arrays st (arrays st ++ [brd])).
      assert (Hst2 : frame st st2) by apply rave_frame_new_array.
      assert (Hadd : frame st
        (let '(st1, c) := new_node st2 (Some self) (length (arrays st)) v in
         set_node st1 self (append_child (node_at st1 self) c))).
      { destruct (new_node st2 (Some self) (length (arrays st)) v)
          as [st3 c] eqn:Hnew.
        eapply rave_frame_trans; [exact Hst2 |].
        eapply rave_frame_trans; [|by apply rave_frame_set_node].
        pose proof (rave_frame_new_node st2 (Some self) (length (arrays st)) v)
          as Hf.
        by rewrite Hnew in Hf. }
      destruct child_board; [done |].
      destruct (negb _); [done |].
      eapply rave_frame_trans; [exact Hst2 | apply IH]. }
    case_bool_decide.
    + specialize (Hgen (setitem (array_at st (board (node_at st self))) j i 2) 1%Z).
      by destruct (add_or_break _ _ _ _ _).
    + specialize (Hgen (setitem (array_at st (board (node_at st self))) j i 1) 2%Z).
      by destruct (add_or_break _ _ _ _ _).
Qed.

Lemma rave_frame_add_child (st : State) (self : nat) :
  frame st (add_child st self).
Proof.
  unfold add_child. destruct (expanded _); [apply rave_frame_refl |].
  apply rave_frame_add_child_cols.
Qed.

Lemma rave_frame_backpropagate (fuel : nat) (st : State) (node : nat)
    (winner : option Z) (actions : list (nat * nat)) (st' : State) :
  backpropagate fuel st node winner actions = Ret st' → frame st st'.
Proof.
  revert st node. induction fuel as [|fuel IH]; intros st node; [done |].
  cbn [backpropagate]. cbv zeta.
  set (st1 := set_node st node _).
  set (st2 := foldl _ st1 actions).
  assert (Hf : frame st st2).
  { apply (rave_frame_trans st st1); [by apply rave_frame_set_node |].
    destruct (rave_only_actions node
                (is_winner (turn (node_at st node)) winner) actions st1)
      as (Ha & _ & Hl & Hx).
    unfold st2. split_and!; [by rewrite Ha | by rewrite Hl |].
    intros x _. by destruct (Hx x) as [(_ & ? & _) _]. }
  destruct (parent (node_at st2 node)) as [p|].
  - intros Hrun. eapply rave_frame_trans; [exact Hf | by eapply IH].
  - by intros [= <-].
Qed.

Lemma rave_frame_rollout (fuel : nat) (st : State) (node : nat) st' w acts :
  rollout fuel st node = Ret (st', w, acts) → frame st st'.
Proof.
  intros (Hn & Ha)%rave_rollout_grow.
  split_and!; [done | by rewrite Hn |]. intros x _. unfold node_at. by rewrite Hn.
Qed.

Section rave_frame_search.
Context {F : Type} {ops : FloatOps F}.
Variable t : Z.

Lemma rave_frame_select (st : State) (node : nat) st' leaf log :
  select t st node = Ret (st', leaf, log) → frame st st'.
Proof.
  unfold select. destruct (select_loop _ _ _ _ _) as [[node1 log1]| |]; [|done..].
  cbn [mbind res_bind]. destruct (terminal _).
  - intros [= <- _ _]. apply rave_frame_refl.
  - destruct (children _); intros [= <- _ _]; apply rave_frame_add_child.
Qed.

Lemma rave_frame_iterate (K : nat) (st : State) (node : nat) st' fin :
  iterate t K st node = Ret (st', fin) → frame st st'.
Proof.
  revert st. induction K as [|K IH]; intros st; cbn [iterate].
  - intros [= <- _]. apply rave_frame_refl.
  - destruct (select t st node) as [[[st1 leaf] log]| |] eqn:Hsel; [|done..].
    apply rave_frame_select in Hsel. cbn [mbind res_bind].
    destruct leaf as [l|]; [|by intros [= <- _]].
    destruct (rollout 42 st1 l) as [[[st2 w] acts]| |] eqn:Hroll; [|done..].
    apply rave_frame_rollout in Hroll. cbn [mbind res_bind].
    destruct (backpropagate _ st2 l w acts) as [st3| |] eqn:Hback; [|done..].
    apply rave_frame_backpropagate in Hback. cbn [mbind res_bind].
    intros Hrun%IH.
    eapply rave_frame_trans; [exact Hsel |].
    eapply rave_frame_trans; [exact Hroll |].
    by eapply rave_frame_trans.
Qed.

Lemma rave_frame_compute_move (K : nat) (st : State) (node : nat) st' mv :
  compute_move t K st node = Ret (st', mv) → frame st st'.
Proof.
  unfold compute_move.
  destruct (iterate t K st node) as [[st1 fin]| |] eqn:Hiter; [|done..].
  apply rave_frame_iterate in Hiter. cbn [mbind res_bind].
  destruct fin; by intros [= <- _].
Qed.

End rave_frame_search.

End RaveFrame.

(** ** Expansion and backpropagation on a well-shaped tree *)

Module AmafTree.
Import AMAF AmafSpec AmafFacts.

Lemma amaf_path_last (fuel : nat) (st : State) (x : nat) :
  (∀ z, z < length (nodes st) →
        match parent (node_at st z) with Some p => p < z | None => z = 0 end) →
  x < length (nodes st) → x < fuel →
  last (path_to_root fuel st x) = Some 0.
Proof.
  intros Hwf. revert x. induction fuel as [|fuel IH]; intros x Hx Hfuel; [lia |].
  cbn [path_to_root]. pose proof (Hwf x Hx) as Hp.
  destruct (parent (node_at st x)) as [p|].
  - rewrite last_cons. rewrite IH by lia. done.
  - by subst x.
Qed.

(** [add_child] keeps the tree well shaped, and either leaves the node as
    it is, or appends one child for the first legal drop whose board is not
    yet among the children, or (no such drop) marks the node as expanded. *)
Lemma amaf_add_child_ok (st : State) (self : nat) :
  let nd := node_at st self in
  let b := board_of st self in
  let st' := add_child st self in
  tree_ok st → self < length (nodes st) →
  tree_ok st'
  ∧ ((expanded nd = true ∧ st' = st)
     ∨ (expanded nd = false
        ∧ ∃ i j, legal_drop b i j
          ∧ is_new st self (setitem b j i (turn nd))
          ∧ (∀ i' j', i' < i → legal_drop b i' j' →
               ¬ is_new st self (setitem b j' i' (turn nd)))
          ∧ added_child st st' self i j)
     ∨ (expanded nd = false
        ∧ nodes st' = <[self := set_expanded nd true]> (nodes st)
        ∧ arrays st `prefix_of` arrays st'
        ∧ ∀ i j, legal_drop b i j →
            ¬ is_new st self (setitem b j i (turn nd)))).
Proof.
  intros nd b st' Hok Hself. pose proof Hok as [Hlen Hnodes].
  destruct (Hnodes self Hself) as (Hboard & _ & _ & Hchildren & _).
  destruct (amaf_add_child_spec st self Hself Hboard)
    as (_ & _ & Harr & Hcases).
  { intros c Hc. destruct (Hchildren c Hc) as (Hrange & _).
    by destruct (Hnodes c ltac:(lia)) as (? & _). }
  fold st' in Harr, Hcases. fold nd in Hcases. fold (board_of st self) in Hcases.
  fold b in Hcases.
  destruct Hcases as [(Hexp & Heq)
                     | [(Hexp & i & j & Hdrop & Hnew & Hfirst & Hadd)
                       | (Hexp & Hnodes' & Hall)]].
  - split; [by rewrite Heq | by left].
  - split; [exact (amaf_tree_ok_added st st' self i j Hok Hself Harr Hdrop Hnew Hadd) |].
    right; left. split; [done |]. by exists i, j.
  - split; [|right; right; by split_and!].
    apply (amaf_tree_ok_same st); [done | by rewrite Hnodes', length_insert | | done].
    intros x Hx. rewrite (amaf_node_at_insert st st' self _ x Hself Hnodes').
    unfold same_links. destruct (decide (x = self)) as [-> | ?]; done.
Qed.

End AmafTree.

Module RaveTree.
Import RAVE RaveSpec RaveFacts.

Lemma rave_path_last (fuel : nat) (st : State) (x : nat) :
  (∀ z, z < length (nodes st) →
        match parent (node_at st z) with Some p => p < z | None => z = 0 end) →
  x < length (nodes st) → x < fuel →
  last (path_to_root fuel st x) = Some 0.
Proof.
  intros Hwf. revert x. induction fuel as [|fuel IH]; intros x Hx Hfuel; [lia |].
  cbn [path_to_root]. pose proof (Hwf x Hx) as Hp.
  destruct (parent (node_at st x)) as [p|].
  - rewrite last_cons. rewrite IH by lia. done.
  - by subst x.
Qed.

Lemma rave_add_child_ok (st : State) (self : nat) :
  let nd := node_at st self in
  let b := board_of st self in
  let st' := add_child st self in
  tree_ok st → self < length (nodes st) →
  tree_ok st'
  ∧ ((expanded nd = true ∧ st' = st)
     ∨ (expanded nd = false
        ∧ ∃ i j, legal_drop b i j
          ∧ is_new st self (setitem b j i (child_mark nd))
          ∧ (∀ i' j', i' < i → legal_drop b i' j' →
               ¬ is_new st self (setitem b j' i' (child_mark nd)))
          ∧ added_child st st' self i j)
     ∨ (expanded nd = false
        ∧ nodes st' = <[self := set_expanded nd true]> (nodes st)
        ∧ arrays st `prefix_of` arrays st'
        ∧ ∀ i j, legal_drop b i j →
            ¬ is_new st self (setitem b j i (child_mark nd)))).
Proof.
  intros nd b st' Hok Hself. pose proof Hok as [Hlen Hnodes].
  destruct (Hnodes self Hself) as (Hboard & _ & _ & Hchildren & _).
  destruct (rave_add_child_spec st self Hself Hboard)
    as (_ & Harr & Hcases).
  { intros c Hc. destruct (Hchildren c Hc) as (Hrange & _).
    by destruct (Hnodes c ltac:(lia)) as (? & _). }
  fold st' in Harr, Hcases. fold nd in Hcases. fold (board_of st self) in Hcases.
  fold b in Hcases.
  destruct Hcases as [(Hexp & Heq)
                     | [(Hexp & i & j & Hdrop & Hnew & Hfirst & Hadd)
                       | (Hexp & Hnodes' & Hall)]].
  - split; [by rewrite Heq | by left].
  - split; [exact (rave_tree_ok_added st st' self i j Hok Hself Harr Hdrop Hnew Hadd) |].
    right; left. split; [done |]. by exists i, j.
  - split; [|right; right; by split_and!].
    apply (rave_tree_ok_same st); [done | by rewrite Hnodes', length_insert | | done].
    intros x Hx. rewrite (rave_node_at_insert st st' self _ x Hself Hnodes').
    unfold same_links. destruct (decide (x = self)) as [-> | ?]; done.
Qed.

End RaveTree.

(** ** States reached by the search *)

Lemma amaf_reached_inv {F} {ops : FloatOps F} (K : nat) (b : Board) (symbol : Z)
    (stats : gmap (nat * nat) (Z * Z)) (draws : list nat)
    (st : AMAF.State) (fin : bool) :
  symbol = 1%Z ∨ symbol = 2%Z →
  AMAF.iterate K (AMAF.root_state b symbol stats draws) 0 = Ret (st, fin) →
  AmafSpec.search_inv st
  ∧ (fin = true → AMAF.n (AMAF.node_at st 0) = Z.of_nat K).
Proof.
  intros Hsym Hrun.
  destruct (AmafFacts.amaf_iterate_spec K _
              (AmafFacts.amaf_root_state_inv b symbol stats draws Hsym))
    as (st' & fin' & Hrun' & Hinv & _ & _ & _ & Hn).
  rewrite Hrun in Hrun'. injection Hrun' as <- <-. split; [done |].
  intros Hfin. rewrite (Hn Hfin). simpl. lia.
Qed.

Lemma rave_reached_inv {F} {ops : FloatOps F} (t : Z) (K : nat) (b : Board)
    (symbol : Z) (draws : list nat) (st : RAVE.State) (fin : bool) :
  (0 ≤ t)%Z →
  RAVE.iterate t K (RAVE.root_state b symbol draws) 0 = Ret (st, fin) →
  RaveSpec.search_inv st
  ∧ (fin = true → RAVE.n (RAVE.node_at st 0) = Z.of_nat K).
Proof.
  intros Ht Hrun.
  destruct (RaveFacts.rave_iterate_spec t Ht K _
              (RaveFacts.rave_root_state_inv b symbol draws))
    as (st' & fin' & Hrun' & Hinv & _ & _ & _ & Hn).
  rewrite Hrun in Hrun'. injection Hrun' as <- <-. split; [done |].
  intros Hfin. rewrite (Hn Hfin). simpl. lia.
Qed.

(** C9.  Whatever state and node [compute_move] is given, when it returns
    every array that existed at entry is unchanged and every node still
    refers to the array it referred to; so the board of the node it was
    given (and of any other node) is, cell for cell, what it was.  Both
    files. *)
Theorem C9_compute_move_keeps_boards {F} {ops : FloatOps F} (K : nat) (t : Z)
    (node : nat) :
  (∀ st st' mv, AMAF.compute_move K st node = Ret (st', mv) →
     AmafSpec.frame st st'
     ∧ (node < length (AMAF.nodes st) →
        AMAF.board (AMAF.node_at st node) < length (AMAF.arrays st) →
        AmafSpec.board_of st' node = AmafSpec.board_of st node))
  ∧ (∀ st st' mv, RAVE.compute_move t K st node = Ret (st', mv) →
     RaveSpec.frame st st'
     ∧ (node < length (RAVE.nodes st) →
        RAVE.board (RAVE.node_at st node) < length (RAVE.arrays st) →
        RaveSpec.board_of st' node = RaveSpec.board_of st node)).
Proof.
  split.
  - intros st st' mv Hrun%AmafFrame.amaf_frame_compute_move.
    split; [done |]. destruct Hrun as (Harr & _ & Hboard).
    intros Hnode Hloc. unfold AmafSpec.board_of. rewrite Hboard by done.
    by apply AmafFacts.amaf_array_at_prefix.
  - intros st st' mv Hrun%RaveFrame.rave_frame_compute_move.
    split; [done |]. destruct Hrun as (Harr & _ & Hboard).
    intros Hnode Hloc. unfold RaveSpec.board_of. rewrite Hboard by done.
    by apply RaveFacts.rave_array_at_prefix.
Qed.

Lemma C9_compute_move_keeps_boards_witness :
  (∃ st' mv, AMAF.compute_move (ops := fixed_point_ops) 9 amaf_start 0 = Ret (st', mv)
     ∧ AmafSpec.board_of st' 0 = AmafSpec.board_of amaf_start 0)
  ∧ (∃ st' mv, RAVE.compute_move (ops := fixed_point_ops) 5 9 rave_start 0
               = Ret (st', mv)
     ∧ RaveSpec.board_of st' 0 = RaveSpec.board_of rave_start 0).
Proof.
  destruct (C9_compute_move_keeps_boards (ops := fixed_point_ops) 9 5 0)
    as [Ha Hr].
  split.
  - destruct (AMAF.compute_move 9 amaf_start 0) as [[st' mv]| |] eqn:Hrun.
    + exists st', mv. split; [done |].
      apply (Ha _ _ _ Hrun); vm_compute; lia.
    + vm_compute in Hrun. discriminate.
    + vm_compute in Hrun. discriminate.
  - destruct (RAVE.compute_move 5 9 rave_start 0) as [[st' mv]| |] eqn:Hrun.
    + exists st', mv. split; [done |].
      apply (Hr _ _ _ Hrun); vm_compute; lia.
    + vm_compute in Hrun. discriminate.
    + vm_compute in Hrun. discriminate.
Defined.

(** ** The calls made by one iteration *)

Module AmafSearch.
Import AMAF AmafSpec AmafFacts AmafTree.

Lemma amaf_children_ok (st : State) : tree_ok st → children_ok st.
Proof.
  intros [_ Hok] x Hx.
  destruct (Hok x Hx) as (_ & _ & _ & Hchildren & Hdist). split; [done |].
  intros c Hc. by destruct (Hchildren c Hc) as (_ & _ & ?).
Qed.

Lemma amaf_expansion_step (st : State) (self : nat) :
  tree_ok st → self < length (nodes st) →
  expansion_step st (add_child st self) self ∧ children_ok (add_child st self).
Proof.
  intros Hok Hself.
  destruct (amaf_add_child_ok st self Hok Hself) as [Hok' Hcases].
  split; [|by apply amaf_children_ok].
  destruct Hcases as [(Hexp & Heq)
                     | [(Hexp & i & j & Hdrop & Hnew & Hfirst & Hadd)
                       | (Hexp & Hnodes' & Harr & Hall)]].
  - by left.
  - right; left. exists i, j.
    pose proof Hadd as (tl & Htl & Harr & Hnodes').
    destruct (amaf_added_nodes _ _ _ _ _ Hself Hnodes')
      as (Hlen' & Hat_self & Hat_new & Hat_old).
    assert (Hnewb : board_of (add_child st self) (length (nodes st))
                    = setitem (board_of st self) j i (turn (node_at st self))).
    { unfold board_of at 1. rewrite Hat_new. unfold array_at. cbn [board].
      by rewrite Harr. }
    split_and!; [done | by rewrite Hat_self | | by rewrite Hnewb].
    destruct Hok' as [_ Hok'].
    destruct (Hok' self ltac:(lia)) as (_ & _ & _ & Hchildren & _).
    destruct (Hchildren (length (nodes st))) as (_ & _ & j' & i' & Hdiff).
    { rewrite Hat_self. cbn. apply elem_of_app. right. left. }
    fold (board_of (add_child st self) self) in Hdiff.
    assert ((j', i') = (j, i)) as [= -> ->]; [|done].
    destruct Hdiff as (Hj' & Hi' & Hne' & Hsame').
    destruct (decide ((j', i') = (j, i))) as [? | Hne]; [done |].
    exfalso. destruct Hdrop as (Hi & _ & Hj & Hz & _).
    assert (Hcell : board_of (add_child st self) self j i
                    = board_of (add_child st self) (length (nodes st)) j i).
    { apply Hsame'; [done | done | congruence]. }
    rewrite Hnewb in Hcell. unfold setitem in Hcell.
    rewrite bool_decide_eq_true_2 in Hcell by done.
    assert (Hsame_self : board_of (add_child st self) self = board_of st self).
    { apply amaf_board_of_same; [done | done | by rewrite Hat_self |].
      destruct (amaf_add_child_spec st self) as (_ & _ & ? & _); try done.
      - destruct Hok as [_ Hok]. by destruct (Hok self Hself) as (? & _).
      - intros c Hc. destruct Hok as [_ Hok].
        destruct (Hok self Hself) as (_ & _ & _ & Hch & _).
        destruct (Hch c Hc) as (Hrange & _).
        by destruct (Hok c ltac:(lia)) as (? & _). }
    rewrite Hsame_self, Hz in Hcell.
    destruct Hok as [_ Hok]. destruct (Hok self Hself) as (_ & Hturn & _). lia.
  - right; right.
    rewrite (amaf_node_at_insert st _ self _ self Hself Hnodes').
    rewrite decide_True by done. by split_and!.
Qed.

Section amaf_search.
Context {F : Type} {ops : FloatOps F}.

Lemma amaf_backpropagate_call (st st1 st2 : State) (leaf : nat)
    (log : list (Z * Z)) (w : option Z) (acts : list (nat * nat)) :
  search_inv st →
  select st 0 = Ret (st1, Some leaf, log) →
  rollout 42 st1 leaf = Ret (st2, w, acts) →
  ∃ st3, backpropagate (length (nodes st2)) st2 leaf w acts = Ret st3
    ∧ counts_path st2 st3 leaf.
Proof.
  intros Hinv Hsel Hroll. pose proof Hinv as ([Hlen _] & _ & _).
  destruct (amaf_select_spec st 0 Hinv Hlen)
    as (st1' & leaf' & log' & Hsel' & _ & Hok1 & _ & _ & _ & Hleaf).
  rewrite Hsel in Hsel'. injection Hsel' as <- <- <-. destruct Hleaf as [Hl _].
  apply amaf_rollout_grow in Hroll as (Hnodes2 & _ & Harr2).
  assert (Hok2 : tree_ok st2).
  { apply (amaf_tree_ok_same st1); [done | by rewrite Hnodes2 | | done].
    intros x _. rewrite (amaf_node_at_nodes st1 st2) by done.
    by unfold same_links. }
  assert (Hwf : ∀ z, z < length (nodes st2) →
            match parent (node_at st2 z) with Some p => p < z | None => z = 0 end).
  { intros z Hz. by apply amaf_tree_ok_parent. }
  rewrite <- Hnodes2 in Hl.
  destruct (amaf_backpropagate_spec (length (nodes st2)) st2 leaf w acts Hwf Hl Hl)
    as (st3 & Hback & _ & _ & _ & Hx).
  exists st3. split; [done |]. unfold counts_path. split_and!.
  - by apply amaf_path_root.
  - by apply amaf_path_last.
  - intros x. by destruct (Hx x) as [_ ?].
Qed.

Lemma amaf_robust_move (st : State) :
  search_inv st → robust_move st (move_of_best st 0).
Proof.
  intros ([Hlen Hok] & _ & _). unfold robust_move, move_of_best. split.
  - intros Hnil. unfold best_child. by rewrite Hnil.
  - intros Hne. destruct (amaf_best_child_first_max st 0 Hne)
      as (k & best & -> & Hmax).
    destruct (Hok 0 Hlen) as (_ & _ & _ & Hchildren & _).
    destruct (Hchildren best) as (_ & _ & j & i & Hdiff).
    { destruct Hmax as (Hk & _). by eapply list_elem_of_lookup_2. }
    exists k, best, j, i. split_and!; [done.. |].
    destruct (first_diff_one_cell _ _ _ _ Hdiff) as [_ Hfd].
    fold (board_of st best). fold (board_of st 0).
    fold (board_of st 0) in Hfd. by rewrite Hfd.
Qed.

End amaf_search.

End AmafSearch.

Module RaveSearch.
Import RAVE RaveSpec RaveFacts RaveTree.

Lemma rave_children_ok (st : State) : tree_ok st → children_ok st.
Proof.
  intros [_ Hok] x Hx.
  destruct (Hok x Hx) as (_ & _ & _ & Hchildren & Hdist). split; [done |].
  intros c Hc. by destruct (Hchildren c Hc) as (_ & _ & ?).
Qed.

Lemma rave_expansion_step (st : State) (self : nat) :
  tree_ok st → self < length (nodes st) →
  expansion_step st (add_child st self) self ∧ children_ok (add_child st self).
Proof.
  intros Hok Hself.
  destruct (rave_add_child_ok st self Hok Hself) as [Hok' Hcases].
  split; [|by apply rave_children_ok].
  destruct Hcases as [(Hexp & Heq)
                     | [(Hexp & i & j & Hdrop & Hnew & Hfirst & Hadd)
                       | (Hexp & Hnodes' & Harr & Hall)]].
  - by left.
  - right; left. exists i, j.
    pose proof Hadd as (tl & Htl & Harr & Hnodes').
    destruct (rave_added_nodes _ _ _ _ _ Hself Hnodes')
      as (Hlen' & Hat_self & Hat_new & Hat_old).
    assert (Hnewb : board_of (add_child st self) (length (nodes st))
                    = setitem (board_of st self) j i (child_mark (node_at st self))).
    { unfold board_of at 1. rewrite Hat_new. unfold array_at. cbn [board].
      by rewrite Harr. }
    split_and!; [done | by rewrite Hat_self | | by rewrite Hnewb].
    destruct Hok' as [_ Hok'].
    destruct (Hok' self ltac:(lia)) as (_ & _ & _ & Hchildren & _).
    destruct (Hchildren (length (nodes st))) as (_ & _ & j' & i' & Hdiff).
    { rewrite Hat_self. cbn. apply elem_of_app. right. left. }
    fold (board_of (add_child st self) self) in Hdiff.
    assert ((j', i') = (j, i)) as [= -> ->]; [|done].
    destruct Hdiff as (Hj' & Hi' & Hne' & Hsame').
    destruct (decide ((j', i') = (j, i))) as [? | Hne]; [done |].
    exfalso. destruct Hdrop as (Hi & _ & Hj & Hz & _).
    assert (Hcell : board_of (add_child st self) self j i
                    = board_of (add_child st self) (length (nodes st)) j i).
    { apply Hsame'; [done | done | congruence]. }
    rewrite Hnewb in Hcell. unfold setitem in Hcell.
    rewrite bool_decide_eq_true_2 in Hcell by done.
    assert (Hsame_self : board_of (add_child st self) self = board_of st self).
    { apply rave_board_of_same; [done | done | by rewrite Hat_self |].
      destruct (rave_add_child_spec st self) as (_ & ? & _); try done.
      - destruct Hok as [_ Hok]. by destruct (Hok self Hself) as (? & _).
      - intros c Hc. destruct Hok as [_ Hok].
        destruct (Hok self Hself) as (_ & _ & _ & Hch & _).
        destruct (Hch c Hc) as (Hrange & _).
        by destruct (Hok c ltac:(lia)) as (? & _). }
    rewrite Hsame_self, Hz in Hcell.
    unfold child_mark in Hcell. case_bool_decide; lia.
  - right; right.
    rewrite (rave_node_at_insert st _ self _ self Hself Hnodes').
    rewrite decide_True by done. by split_and!.
Qed.

Section rave_search.
Context {F : Type} {ops : FloatOps F}.
Variable t : Z.
Hypothesis t_nonneg : (0 ≤ t)%Z.

Lemma rave_backpropagate_call (st st1 st2 : State) (leaf : nat)
    (log : list (Z * Z)) (w : option Z) (acts : list (nat * nat)) :
  search_inv st →
  select t st 0 = Ret (st1, Some leaf, log) →
  rollout 42 st1 leaf = Ret (st2, w, acts) →
  ∃ st3, backpropagate (length (nodes st2)) st2 leaf w acts = Ret st3
    ∧ counts_path st2 st3 leaf.
Proof.
  intros Hinv Hsel Hroll. pose proof Hinv as ([Hlen _] & _ & _).
  destruct (rave_select_spec t t_nonneg st 0 Hinv Hlen)
    as (st1' & leaf' & log' & Hsel' & _ & Hok1 & _ & _ & _ & Hleaf).
  rewrite Hsel in Hsel'. injection Hsel' as <- <- <-. destruct Hleaf as [Hl _].
  apply rave_rollout_grow in Hroll as (Hnodes2 & Harr2).
  assert (Hok2 : tree_ok st2).
  { apply (rave_tree_ok_same st1); [done | by rewrite Hnodes2 | | done].
    intros x _. rewrite (rave_node_at_nodes st1 st2) by done.
    by unfold same_links. }
  assert (Hwf : ∀ z, z < length (nodes st2) →
            match parent (node_at st2 z) with Some p => p < z | None => z = 0 end).
  { intros z Hz. by apply rave_tree_ok_parent. }
  rewrite <- Hnodes2 in Hl.
  destruct (rave_backpropagate_spec (length (nodes st2)) st2 leaf w acts Hwf Hl Hl)
    as (st3 & Hback & _ & _ & _ & Hx).
  exists st3. split; [done |]. unfold counts_path. split_and!.
  - by apply rave_path_root.
  - by apply rave_path_last.
  - intros x. by destruct (Hx x) as [_ ?].
Qed.

Lemma rave_robust_move (st : State) :
  search_inv st → robust_move st (move_of_best st 0).
Proof.
  intros ([Hlen Hok] & Hvis & _). unfold robust_move, move_of_best. split.
  - intros Hnil. unfold best_child. by rewrite Hnil.
  - intros Hne. destruct (Hok 0 Hlen) as (_ & _ & _ & Hchildren & _).
    destruct (rave_best_child_first_max st 0) as (k & best & -> & Hmax);
      [|done |].
    { intros c Hc. destruct (Hchildren c Hc) as (Hrange & _).
      destruct (Hvis c) as [_ H1]; [lia |]. apply H1; [lia | done]. }
    destruct (Hchildren best) as (_ & _ & j & i & Hdiff).
    { destruct Hmax as (Hk & _). by eapply list_elem_of_lookup_2. }
    exists k, best, j, i. split_and!; [done.. |].
    destruct (first_diff_one_cell _ _ _ _ Hdiff) as [_ Hfd].
    fold (board_of st best). fold (board_of st 0).
    fold (board_of st 0) in Hfd. by rewrite Hfd.
Qed.

End rave_search.

End RaveSearch.

(** ** The search: selection, visit counts, the move returned, expansion *)

(** C5.  In every state the search reaches from a fresh root, the tree walk
    of [select] raises no exception (no division by a zero visit count) and
    every score it computes is computed from a child with [n > 0] under a
    node with [n > 0].  Both files; for connect4_RAVE.py the time budget
    is not negative. *)
Theorem C5_select_scores_visited_children {F} {ops : FloatOps F}
    (K : nat) (b : Board) (symbol t : Z)
    (stats : gmap (nat * nat) (Z * Z)) (draws : list nat) :
  symbol = 1%Z ∨ symbol = 2%Z → (0 ≤ t)%Z →
  (∀ st fin,
     AMAF.iterate K (AMAF.root_state b symbol stats draws) 0 = Ret (st, fin) →
     ∃ st' leaf log, AMAF.select st 0 = Ret (st', leaf, log)
       ∧ AmafSpec.log_positive log)
  ∧ (∀ st fin,
       RAVE.iterate t K (RAVE.root_state b symbol draws) 0 = Ret (st, fin) →
       ∃ st' leaf log, RAVE.select t st 0 = Ret (st', leaf, log)
         ∧ RaveSpec.log_positive log).
Proof.
  intros Hsym Ht. split.
  - intros st fin [Hinv _]%amaf_reached_inv; [|done].
    pose proof Hinv as ([Hlen _] & _).
    destruct (AmafFacts.amaf_select_spec st 0 Hinv Hlen)
      as (st' & leaf & log & Hsel & Hlog & _).
    by exists st', leaf, log.
  - intros st fin [Hinv _]%rave_reached_inv; [|done].
    pose proof Hinv as ([Hlen _] & _).
    destruct (RaveFacts.rave_select_spec t Ht st 0 Hinv Hlen)
      as (st' & leaf & log & Hsel & Hlog & _).
    by exists st', leaf, log.
Qed.

Lemma C5_select_scores_visited_children_witness :
  (∃ st fin st' leaf log,
     AMAF.iterate (ops := fixed_point_ops) 8 amaf_start 0 = Ret (st, fin)
     ∧ AMAF.select (ops := fixed_point_ops) st 0 = Ret (st', leaf, log)
     ∧ AmafSpec.log_positive log ∧ length log = 7)
  ∧ (∃ st fin st' leaf log,
       RAVE.iterate (ops := fixed_point_ops) 5 8 rave_start 0 = Ret (st, fin)
       ∧ RAVE.select (ops := fixed_point_ops) 5 st 0 = Ret (st', leaf, log)
       ∧ RaveSpec.log_positive log ∧ length log = 7).
Proof.
  destruct (C5_select_scores_visited_children (ops := fixed_point_ops)
              8 zeros 1 5 ∅ [3; 1; 4; 1; 5; 9; 2; 6])
    as [Ha Hr]; [by left | lia |].
  split.
  - destruct (AMAF.iterate 8 amaf_start 0) as [[st fin]| |] eqn:Hrun.
    + destruct (Ha st fin Hrun) as (st' & leaf & log & Hsel & Hlog).
      exists st, fin, st', leaf, log. split_and!; [done.. |].
      vm_compute in Hrun. injection Hrun as <- <-.
      vm_compute in Hsel. by injection Hsel as <- <- <-.
    + vm_compute in Hrun. discriminate.
    + vm_compute in Hrun. discriminate.
  - destruct (RAVE.iterate 5 8 rave_start 0) as [[st fin]| |] eqn:Hrun.
    + destruct (Hr st fin Hrun) as (st' & leaf & log & Hsel & Hlog).
      exists st, fin, st', leaf, log. split_and!; [done.. |].
      vm_compute in Hrun. injection Hrun as <- <-.
      vm_compute in Hsel. by injection Hsel as <- <- <-.
    + vm_compute in Hrun. discriminate.
    + vm_compute in Hrun. discriminate.
Defined.

(** C6.  When the loop of [compute_move] has ended after [K] iterations
    from a fresh root, the value returned is: (-1, -1) if the root has no
    children; otherwise the (row, column) of the single cell in which the
    board of the most-visited child of the root differs from the board of
    the root, the first such child in the order of the children when
    several have the largest count.  Both files. *)
Theorem C6_compute_move_returns_robust_child {F} {ops : FloatOps F}
    (K : nat) (b : Board) (symbol t : Z)
    (stats : gmap (nat * nat) (Z * Z)) (draws : list nat) :
  symbol = 1%Z ∨ symbol = 2%Z → (0 ≤ t)%Z →
  (∀ st,
     AMAF.iterate K (AMAF.root_state b symbol stats draws) 0 = Ret (st, true) →
     ∃ mv, AMAF.compute_move K (AMAF.root_state b symbol stats draws) 0
           = Ret (st, mv)
       ∧ AmafSpec.robust_move st mv)
  ∧ (∀ st,
       RAVE.iterate t K (RAVE.root_state b symbol draws) 0 = Ret (st, true) →
       ∃ mv, RAVE.compute_move t K (RAVE.root_state b symbol draws) 0
             = Ret (st, mv)
         ∧ RaveSpec.robust_move st mv).
Proof.
  intros Hsym Ht. split.
  - intros st Hrun. exists (AMAF.move_of_best st 0).
    unfold AMAF.compute_move. rewrite Hrun. split; [done |].
    apply amaf_reached_inv in Hrun as [Hinv _]; [|done].
    by apply AmafSearch.amaf_robust_move.
  - intros st Hrun. exists (RAVE.move_of_best st 0).
    unfold RAVE.compute_move. rewrite Hrun. split; [done |].
    apply rave_reached_inv in Hrun as [Hinv _]; [|done].
    by apply RaveSearch.rave_robust_move.
Qed.

Lemma C6_compute_move_returns_robust_child_witness :
  (∃ st mv, AMAF.compute_move (ops := fixed_point_ops) 9 amaf_start 0 = Ret (st, mv)
     ∧ AmafSpec.robust_move st mv ∧ mv = (0, 0)%Z)
  ∧ (∃ st mv, RAVE.compute_move (ops := fixed_point_ops) 5 9 rave_start 0
              = Ret (st, mv)
     ∧ RaveSpec.robust_move st mv ∧ mv = (0, 0)%Z).
Proof.
  destruct (C6_compute_move_returns_robust_child (ops := fixed_point_ops)
              9 zeros 1 5 ∅ [3; 1; 4; 1; 5; 9; 2; 6])
    as [Ha Hr]; [by left | lia |].
  split.
  - destruct (AMAF.iterate (ops := fixed_point_ops) 9 amaf_start 0)
      as [[st fin]| |] eqn:Hrun;
      [| vm_compute in Hrun; discriminate..].
    assert (fin = true) as ->.
    { vm_compute in Hrun. by injection Hrun as _ <-. }
    destruct (Ha st Hrun) as (mv & Hmove & Hrobust).
    exists st, mv. split_and!; [done.. |].
    vm_compute in Hrun. injection Hrun as <-.
    vm_compute in Hmove. by injection Hmove as <-.
  - destruct (RAVE.iterate (ops := fixed_point_ops) 5 9 rave_start 0)
      as [[st fin]| |] eqn:Hrun;
      [| vm_compute in Hrun; discriminate..].
    assert (fin = true) as ->.
    { vm_compute in Hrun. by injection Hrun as _ <-. }
    destruct (Hr st Hrun) as (mv & Hmove & Hrobust).
    exists st, mv. split_and!; [done.. |].
    vm_compute in Hrun. injection Hrun as <-.
    vm_compute in Hmove. by injection Hmove as <-.
Defined.

(** C7.  After [K] completed iterations from a fresh root the root has
    [n = K].  Every backpropagation the loop makes (after the selection and
    the rollout of an iteration) returns, having added one visit at each
    node on the path from the leaf to the root, where it stops, and none
    elsewhere.  Both files. *)
Theorem C7_root_visits_equal_iterations {F} {ops : FloatOps F}
    (K : nat) (b : Board) (symbol t : Z)
    (stats : gmap (nat * nat) (Z * Z)) (draws : list nat) :
  symbol = 1%Z ∨ symbol = 2%Z → (0 ≤ t)%Z →
  (∀ st,
     AMAF.iterate K (AMAF.root_state b symbol stats draws) 0 = Ret (st, true) →
     AMAF.n (AMAF.node_at st 0) = Z.of_nat K)
  ∧ (∀ st fin st1 leaf log st2 w acts,
       AMAF.iterate K (AMAF.root_state b symbol stats draws) 0 = Ret (st, fin) →
       AMAF.select st 0 = Ret (st1, Some leaf, log) →
       AMAF.rollout 42 st1 leaf = Ret (st2, w, acts) →
       ∃ st3, AMAF.backpropagate (length (AMAF.nodes st2)) st2 leaf w acts
              = Ret st3
         ∧ AmafSpec.counts_path st2 st3 leaf)
  ∧ (∀ st,
       RAVE.iterate t K (RAVE.root_state b symbol draws) 0 = Ret (st, true) →
       RAVE.n (RAVE.node_at st 0) = Z.of_nat K)
  ∧ (∀ st fin st1 leaf log st2 w acts,
       RAVE.iterate t K (RAVE.root_state b symbol draws) 0 = Ret (st, fin) →
       RAVE.select t st 0 = Ret (st1, Some leaf, log) →
       RAVE.rollout 42 st1 leaf = Ret (st2, w, acts) →
       ∃ st3, RAVE.backpropagate (length (RAVE.nodes st2)) st2 leaf w acts
              = Ret st3
         ∧ RaveSpec.counts_path st2 st3 leaf).
Proof.
  intros Hsym Ht. split_and!.
  - intros st [_ Hn]%amaf_reached_inv; [|done]. by apply Hn.
  - intros st fin st1 leaf log st2 w acts [Hinv _]%amaf_reached_inv; [|done].
    by apply AmafSearch.amaf_backpropagate_call.
  - intros st [_ Hn]%rave_reached_inv; [|done]. by apply Hn.
  - intros st fin st1 leaf log st2 w acts [Hinv _]%rave_reached_inv; [|done].
    by apply RaveSearch.rave_backpropagate_call.
Qed.

Lemma C7_root_visits_equal_iterations_witness :
  (∃ st, AMAF.iterate (ops := fixed_point_ops) 12 amaf_start 0 = Ret (st, true)
     ∧ AMAF.n (AMAF.node_at st 0) = 12%Z)
  ∧ (∃ st, RAVE.iterate (ops := fixed_point_ops) 5 12 rave_start 0 = Ret (st, true)
       ∧ RAVE.n (RAVE.node_at st 0) = 12%Z).
Proof.
  destruct (C7_root_visits_equal_iterations (ops := fixed_point_ops)
              12 zeros 1 5 ∅ [3; 1; 4; 1; 5; 9; 2; 6])
    as (Ha & _ & Hr & _); [by left | lia |].
  split.
  - destruct (AMAF.iterate (ops := fixed_point_ops) 12 amaf_start 0)
      as [[st fin]| |] eqn:Hrun; [| vm_compute in Hrun; discriminate..].
    assert (fin = true) as ->.
    { vm_compute in Hrun. by injection Hrun as _ <-. }
    exists st. split; [done | by apply Ha].
  - destruct (RAVE.iterate (ops := fixed_point_ops) 5 12 rave_start 0)
      as [[st fin]| |] eqn:Hrun; [| vm_compute in Hrun; discriminate..].
    assert (fin = true) as ->.
    { vm_compute in Hrun. by injection Hrun as _ <-. }
    exists st. split; [done | by apply Hr].
Defined.

(** ** Expansion, cell by cell *)

Module AmafCells.
Import AMAF AmafSpec AmafFacts AmafFrame AmafTree.

Lemma amaf_children_cells (st : State) : tree_ok st → children_cells st.
Proof.
  intros [_ Hok] x Hx.
  destruct (Hok x Hx) as (_ & _ & _ & Hchildren & Hdist). split.
  - intros k1 k2 c1 c2 Hc1 Hc2 Hne. apply board_eqb_false.
    by apply (Hdist k1 k2).
  - intros c Hc. by destruct (Hchildren c Hc) as (_ & _ & ?).
Qed.

Lemma amaf_expansion_cells (st : State) (self : nat) :
  tree_ok st → self < length (nodes st) →
  expansion_cells st (add_child st self) self.
Proof.
  intros Hok Hself.
  destruct (amaf_add_child_ok st self Hok Hself) as [_ Hcases].
  destruct (amaf_frame_add_child st self) as (Hpre & _ & Hboards).
  assert (Hsame : board_of (add_child st self) self = board_of st self).
  { apply amaf_board_of_same; auto. }
  destruct Hok as [_ Hnodes]. destruct (Hnodes self Hself) as (_ & Hturn & _).
  destruct Hcases as [(Hexp & Heq)
                     | [(Hexp & i & j & Hdrop & Hnew & Hfirst & Hadd)
                       | (Hexp & Hnodes' & Harr & Hall)]].
  - by left.
  - right; left. exists i, j.
    pose proof Hadd as (tl & Htl & Harr & Hnodes').
    destruct (amaf_added_nodes _ _ _ _ _ Hself Hnodes')
      as (Hlen' & Hat_self & Hat_new & Hat_old).
    assert (Hnewb : board_of (add_child st self) (length (nodes st))
                    = setitem (board_of st self) j i (turn (node_at st self))).
    { unfold board_of at 1. rewrite Hat_new. unfold array_at. cbn [board].
      by rewrite Harr. }
    destruct (legal_drop_cell _ _ _ Hdrop) as (Hj & Hi & Hz).
    split_and!; [done | by rewrite Hat_self | | |].
    + rewrite Hsame, Hnewb. apply one_cell_diff_setitem; [done | done |].
      rewrite Hz. lia.
    + rewrite Hnewb. by apply mark_added_setitem_refl.
    + intros c Hc. apply board_eqb_false. rewrite Hnewb. by apply Hnew.
  - right; right.
    rewrite (amaf_node_at_insert st _ self _ self Hself Hnodes').
    rewrite decide_True by done. split_and!; [done | done |].
    intros i j Hdrop.
    destruct (exists_equal_board (board_of st) _ _ (Hall i j Hdrop))
      as (c & Hc & Heq).
    exists c. split; [done |].
    destruct (legal_drop_cell _ _ _ Hdrop) as (Hj & Hi & Hz).
    by apply mark_added_setitem.
Qed.

End AmafCells.

Module RaveCells.
Import RAVE RaveSpec RaveFacts RaveFrame RaveTree.

Lemma rave_children_cells (st : State) : tree_ok st → children_cells st.
Proof.
  intros [_ Hok] x Hx.
  destruct (Hok x Hx) as (_ & _ & _ & Hchildren & Hdist). split.
  - intros k1 k2 c1 c2 Hc1 Hc2 Hne. apply board_eqb_false.
    by apply (Hdist k1 k2).
  - intros c Hc. by destruct (Hchildren c Hc) as (_ & _ & ?).
Qed.

Lemma rave_expansion_cells (st : State) (self : nat) :
  tree_ok st → self < length (nodes st) →
  expansion_cells st (add_child st self) self.
Proof.
  intros Hok Hself.
  destruct (rave_add_child_ok st self Hok Hself) as [_ Hcases].
  destruct (rave_frame_add_child st self) as (Hpre & _ & Hboards).
  assert (Hsame : board_of (add_child st self) self = board_of st self).
  { apply rave_board_of_same; auto. }
  destruct Hcases as [(Hexp & Heq)
                     | [(Hexp & i & j & Hdrop & Hnew & Hfirst & Hadd)
                       | (Hexp & Hnodes' & Harr & Hall)]].
  - by left.
  - right; left. exists i, j.
    pose proof Hadd as (tl & Htl & Harr & Hnodes').
    destruct (rave_added_nodes _ _ _ _ _ Hself Hnodes')
      as (Hlen' & Hat_self & Hat_new & Hat_old).
    assert (Hnewb : board_of (add_child st self) (length (nodes st))
                    = setitem (board_of st self) j i (child_mark (node_at st self))).
    { unfold board_of at 1. rewrite Hat_new. unfold array_at. cbn [board].
      by rewrite Harr. }
    destruct (legal_drop_cell _ _ _ Hdrop) as (Hj & Hi & Hz).
    split_and!; [done | by rewrite Hat_self | | |].
    + rewrite Hsame, Hnewb. apply one_cell_diff_setitem; [done | done |].
      rewrite Hz. unfold child_mark. case_bool_decide; lia.
    + rewrite Hnewb. by apply mark_added_setitem_refl.
    + intros c Hc. apply board_eqb_false. rewrite Hnewb. by apply Hnew.
  - right; right.
    rewrite (rave_node_at_insert st _ self _ self Hself Hnodes').
    rewrite decide_True by done. split_and!; [done | done |].
    intros i j Hdrop.
    destruct (exists_equal_board (board_of st) _ _ (Hall i j Hdrop))
      as (c & Hc & Heq).
    exists c. split; [done |].
    destruct (legal_drop_cell _ _ _ Hdrop) as (Hj & Hi & Hz).
    by apply mark_added_setitem.
Qed.

End RaveCells.

(** C8.  In every state the search reaches from a fresh root, a call of
    [add_child] on any node either does nothing (node marked as expanded),
    or appends one child, or appends nothing and marks the node as
    expanded.  An appended child has the board of the node with one more
    mark, in the cell where a mark dropped in a legal column lands: that
    cell was empty, every other cell is as in the board of the node, so
    the two boards differ in exactly that one cell; and its board differs
    in some cell from the board of every earlier child.  Nothing is
    appended only when, for every legal drop, some child already holds,
    cell for cell, the board the drop gives.  Afterwards, in every node,
    any two children have boards that differ in some cell, and every child
    differs from its parent in exactly one cell.  Both files. *)
Theorem C8_add_child_one_cell_no_duplicates {F} {ops : FloatOps F}
    (K : nat) (b : Board) (symbol t : Z)
    (stats : gmap (nat * nat) (Z * Z)) (draws : list nat) :
  symbol = 1%Z ∨ symbol = 2%Z → (0 ≤ t)%Z →
  (∀ st fin self,
     AMAF.iterate K (AMAF.root_state b symbol stats draws) 0 = Ret (st, fin) →
     self < length (AMAF.nodes st) →
     AmafSpec.expansion_cells st (AMAF.add_child st self) self
     ∧ AmafSpec.children_cells (AMAF.add_child st self))
  ∧ (∀ st fin self,
       RAVE.iterate t K (RAVE.root_state b symbol draws) 0 = Ret (st, fin) →
       self < length (RAVE.nodes st) →
       RaveSpec.expansion_cells st (RAVE.add_child st self) self
       ∧ RaveSpec.children_cells (RAVE.add_child st self)).
Proof.
  intros Hsym Ht. split.
  - intros st fin self [[Hok _] _]%amaf_reached_inv Hself; [|done].
    split; [by apply AmafCells.amaf_expansion_cells |].
    apply AmafCells.amaf_children_cells.
    by destruct (AmafTree.amaf_add_child_ok st self Hok Hself).
  - intros st fin self [[Hok _] _]%rave_reached_inv Hself; [|done].
    split; [by apply RaveCells.rave_expansion_cells |].
    apply RaveCells.rave_children_cells.
    by destruct (RaveTree.rave_add_child_ok st self Hok Hself).
Qed.

Lemma C8_add_child_one_cell_no_duplicates_witness :
  (∃ st fin, AMAF.iterate (ops := fixed_point_ops) 3 amaf_start 0 = Ret (st, fin)
     ∧ AmafSpec.expansion_cells st (AMAF.add_child st 0) 0
     ∧ AmafSpec.children_cells (AMAF.add_child st 0)
     ∧ AMAF.children (AMAF.node_at (AMAF.add_child st 0) 0) = [1; 2; 3; 4]
     ∧ some_cell_differs (AmafSpec.board_of (AMAF.add_child st 0) 3)
                         (AmafSpec.board_of (AMAF.add_child st 0) 4)
     ∧ AmafSpec.board_of (AMAF.add_child st 0) 4 0 3 = 2%Z
     ∧ AmafSpec.board_of (AMAF.add_child st 0) 3 0 3 = 0%Z
     ∧ AmafSpec.board_of (AMAF.add_child st 0) 3 0 2 = 2%Z
     ∧ AmafSpec.board_of (AMAF.add_child st 0) 4 0 2 = 0%Z)
  ∧ (∃ st fin, RAVE.iterate (ops := fixed_point_ops) 5 3 rave_start 0 = Ret (st, fin)
       ∧ RaveSpec.expansion_cells st (RAVE.add_child st 0) 0
       ∧ RaveSpec.children_cells (RAVE.add_child st 0)
       ∧ RAVE.children (RAVE.node_at (RAVE.add_child st 0) 0) = [1; 2; 3; 4]
       ∧ some_cell_differs (RaveSpec.board_of (RAVE.add_child st 0) 3)
                           (RaveSpec.board_of (RAVE.add_child st 0) 4)
       ∧ RaveSpec.board_of (RAVE.add_child st 0) 4 0 3 = 1%Z
       ∧ RaveSpec.board_of (RAVE.add_child st 0) 3 0 3 = 0%Z
       ∧ RaveSpec.board_of (RAVE.add_child st 0) 3 0 2 = 1%Z
       ∧ RaveSpec.board_of (RAVE.add_child st 0) 4 0 2 = 0%Z).
Proof.
  destruct (C8_add_child_one_cell_no_duplicates (ops := fixed_point_ops)
              3 zeros 1 5 ∅ [3; 1; 4; 1; 5; 9; 2; 6])
    as [Ha Hr]; [by left | lia |].
  split.
  - destruct (AMAF.iterate (ops := fixed_point_ops) 3 amaf_start 0)
      as [[st fin]| |] eqn:Hrun; [| vm_compute in Hrun; discriminate..].
    exists st, fin. split; [done |].
    assert (Hself : 0 < length (AMAF.nodes st)).
    { vm_compute in Hrun. injection Hrun as <- _. vm_compute. lia. }
    assert (Hlen : 0 < length (AMAF.nodes (AMAF.add_child st 0))).
    { vm_compute in Hrun. injection Hrun as <- _. vm_compute. lia. }
    assert (Hch : AMAF.children (AMAF.node_at (AMAF.add_child st 0) 0)
                  = [1; 2; 3; 4]).
    { vm_compute in Hrun. by injection Hrun as <- _. }
    destruct (Ha st fin 0 Hrun Hself) as [Hstep Hchildren].
    destruct (Hchildren 0 Hlen) as [Hdist _]. rewrite Hch in Hdist.
    split_and!; [done | done | done | by apply (Hdist 2 3) | ..];
      vm_compute in Hrun; by injection Hrun as <- _.
  - destruct (RAVE.iterate (ops := fixed_point_ops) 5 3 rave_start 0)
      as [[st fin]| |] eqn:Hrun; [| vm_compute in Hrun; discriminate..].
    exists st, fin. split; [done |].
    assert (Hself : 0 < length (RAVE.nodes st)).
    { vm_compute in Hrun. injection Hrun as <- _. vm_compute. lia. }
    assert (Hlen : 0 < length (RAVE.nodes (RAVE.add_child st 0))).
    { vm_compute in Hrun. injection Hrun as <- _. vm_compute. lia. }
    assert (Hch : RAVE.children (RAVE.node_at (RAVE.add_child st 0) 0)
                  = [1; 2; 3; 4]).
    { vm_compute in Hrun. by injection Hrun as <- _. }
    destruct (Hr st fin 0 Hrun Hself) as [Hstep Hchildren].
    destruct (Hchildren 0 Hlen) as [Hdist _]. rewrite Hch in Hdist.
    split_and!; [done | done | done | by apply (Hdist 2 3) | ..];
      vm_compute in Hrun; by injection Hrun as <- _.
Defined.

(** ** Who made the move of a child *)

(** In connect4_RAVE.py the cell changed for a new child holds the turn
    recorded in the child, which is not the turn recorded in its parent. *)
Lemma rave_added_child_mark (st st' : RAVE.State) (self i j : nat) :
  self < length (RAVE.nodes st) →
  RaveSpec.added_child st st' self i j →
  let c := length (RAVE.nodes st) in
  RaveSpec.board_of st' c j i = RAVE.turn (RAVE.node_at st' c)
  ∧ RAVE.turn (RAVE.node_at st' c) ≠ RAVE.turn (RAVE.node_at st self).
Proof.
  intros Hself (tl & Htl & Harr & Hnodes) c.
  destruct (RaveFacts.rave_added_nodes _ _ _ _ _ Hself Hnodes)
    as (_ & _ & Hat_new & _).
  unfold RaveSpec.board_of. subst c. rewrite Hat_new.
  unfold RAVE.array_at. cbn [RAVE.board RAVE.turn]. rewrite Harr. simpl.
  unfold setitem. rewrite bool_decide_eq_true_2 by done. split; [done |].
  unfold RaveSpec.child_mark. case_bool_decide; lia.
Qed.

(** In connect4_AMAF.py the cell changed for a new child holds the turn
    recorded in the parent, and the child records the other turn. *)
Lemma amaf_added_child_mark (st st' : AMAF.State) (self i j : nat) :
  self < length (AMAF.nodes st) →
  AmafSpec.added_child st st' self i j →
  let c := length (AMAF.nodes st) in
  AmafSpec.board_of st' c j i = AMAF.turn (AMAF.node_at st self)
  ∧ AMAF.turn (AMAF.node_at st' c) = (3 - AMAF.turn (AMAF.node_at st self))%Z.
Proof.
  intros Hself (tl & Htl & Harr & Hnodes) c.
  destruct (AmafFacts.amaf_added_nodes _ _ _ _ _ Hself Hnodes)
    as (_ & _ & Hat_new & _).
  unfold AmafSpec.board_of. subst c. rewrite Hat_new.
  unfold AMAF.array_at. cbn [AMAF.board AMAF.turn]. rewrite Harr. simpl.
  unfold setitem. by rewrite bool_decide_eq_true_2.
Qed.

(** C2 (fails in connect4_AMAF.py).  On the empty board with the engine
    playing symbol 1, the root records turn 2.  The first child appended by
    [add_child] differs from the root in cell (0, 0) only.  In
    connect4_AMAF.py that cell holds 2, the turn recorded in the root,
    while the child records turn 1.  In connect4_RAVE.py the cell holds 1,
    the turn recorded in the child. *)
Theorem C2_amaf_child_marked_with_parent_turn :
  (let st := AMAF.add_child amaf_start 0 in
   AMAF.children (AMAF.node_at st 0) = [1]
   ∧ one_cell_diff (AmafSpec.board_of st 0) (AmafSpec.board_of st 1) 0 0
   ∧ AmafSpec.board_of st 1 0 0 = 2%Z
   ∧ AMAF.turn (AMAF.node_at st 1) = 1%Z
   ∧ AMAF.turn (AMAF.node_at st 0) = 2%Z)
  ∧ (let st := RAVE.add_child rave_start 0 in
     RAVE.children (RAVE.node_at st 0) = [1]
     ∧ one_cell_diff (RaveSpec.board_of st 0) (RaveSpec.board_of st 1) 0 0
     ∧ RaveSpec.board_of st 1 0 0 = 1%Z
     ∧ RAVE.turn (RAVE.node_at st 1) = 1%Z
     ∧ RAVE.turn (RAVE.node_at st 0) = 2%Z).
Proof.
  split; cbv zeta; (split_and!; [reflexivity | | reflexivity..]).
  - change (AmafSpec.board_of (AMAF.add_child amaf_start 0) 1)
      with (setitem (AmafSpec.board_of (AMAF.add_child amaf_start 0) 0) 0 0 2).
    apply one_cell_diff_setitem; [lia | lia | done].
  - change (RaveSpec.board_of (RAVE.add_child rave_start 0) 1)
      with (setitem (RaveSpec.board_of (RAVE.add_child rave_start 0) 0) 0 0 1).
    apply one_cell_diff_setitem; [lia | lia | done].
Qed.

(** ** The rollout *)

(** C1 (fails in both files).  The engine is asked for a move on the empty
    board.  [select] returns the first child of the root, which is not
    terminal.  The rollout from it plays one ply (a mark of player 2 in
    cell (0, 3), on the array with reference 5) and returns at once with no
    winner and that one action, although the board it reached holds two
    marks, is not terminal, and has all seven columns legal: [result] gives
    [None] there, and [None != 0] holds. *)
Theorem C1_rollout_returns_after_one_ply :
  (∃ st1 st2,
     AMAF.select (ops := fixed_point_ops) amaf_start 0 = Ret (st1, Some 1, [])
     ∧ AMAF.terminal (AMAF.node_at st1 1) = false
     ∧ AMAF.rollout 42 st1 1 = Ret (st2, None, [(0, 3)])
     ∧ AMAF.array_at st2 5 0 3 = 2%Z
     ∧ first_diff (AmafSpec.board_of st2 1) (AMAF.array_at st2 5) = Some (0, 3)
     ∧ AMAF.check_terminal (AMAF.array_at st2 5) = false
     ∧ top_row_zeros (AMAF.array_at st2 5) = 7)
  ∧ (∃ st1 st2,
       RAVE.select (ops := fixed_point_ops) 5 rave_start 0 = Ret (st1, Some 1, [])
       ∧ RAVE.terminal (RAVE.node_at st1 1) = false
       ∧ RAVE.rollout 42 st1 1 = Ret (st2, None, [(0, 3)])
       ∧ RAVE.array_at st2 5 0 3 = 2%Z
       ∧ first_diff (RaveSpec.board_of st2 1) (RAVE.array_at st2 5) = Some (0, 3)
       ∧ RAVE.check_terminal (RAVE.array_at st2 5) = false
       ∧ top_row_zeros (RAVE.array_at st2 5) = 7).
Proof.
  split.
  - eexists _, _. split_and!; [vm_compute; reflexivity | ..];
      vm_compute; reflexivity.
  - eexists _, _. split_and!; [vm_compute; reflexivity | ..];
      vm_compute; reflexivity.
Qed.

(** ** More on the game board: apply_move, the end of the game *)

Lemma res_bind_ret {A B} (k : A → res B) (a : A) : Ret a ≫= k = k a.
Proof. reflexivity. Qed.

Lemma np_index_None (size : nat) (k : Z) :
  np_index size k = None ↔ (k < - Z.of_nat size ∨ Z.of_nat size ≤ k)%Z.
Proof.
  unfold np_index. repeat case_bool_decide; split; (done || lia).
Qed.

Lemma np_index_wrap (size : nat) (k : Z) :
  (- Z.of_nat size ≤ k < 0)%Z → np_index size k = np_index size (k + Z.of_nat size).
Proof.
  intros Hk. unfold np_index.
  rewrite (bool_decide_eq_false_2 (0 ≤ k < _)%Z) by lia.
  rewrite (bool_decide_eq_true_2 (- _ ≤ k < 0)%Z) by lia.
  by rewrite (bool_decide_eq_true_2 (0 ≤ k + _ < _)%Z) by lia.
Qed.

(** X1: [apply_move(column)] raises IndexError exactly for a column number
    below -6 or above 7, in both files; a column number from -6 to 0 is
    taken by numpy as an index from the end, so the call plays in column
    [column + 7]. *)
Theorem X1_apply_move_index_error
    (ga : AMAF.GameBoard) (gr : RAVE.GameBoard) (column : Z) :
  (AMAF.apply_move ga column = Raise IndexError ↔ (column < -6 ∨ 7 < column)%Z)
  ∧ (RAVE.apply_move gr column = Raise IndexError ↔ (column < -6 ∨ 7 < column)%Z)
  ∧ ((-6 ≤ column ≤ 0)%Z →
     AMAF.apply_move ga column = AMAF.apply_move ga (column + 7)
     ∧ RAVE.apply_move gr column = RAVE.apply_move gr (column + 7)).
Proof.
  split_and!.
  - unfold AMAF.apply_move. destruct (np_index 7 (column - 1)) eqn:Hc.
    + split; [done |]. intros Hout.
      assert (np_index 7 (column - 1) = None) as Hn by (apply np_index_None; lia).
      congruence.
    + apply np_index_None in Hc. split; [lia | done].
  - unfold RAVE.apply_move. destruct (np_index 7 (column - 1)) eqn:Hc.
    + split; [done |]. intros Hout.
      assert (np_index 7 (column - 1) = None) as Hn by (apply np_index_None; lia).
      congruence.
    + apply np_index_None in Hc. split; [lia | done].
  - intros Hcol. unfold AMAF.apply_move, RAVE.apply_move.
    rewrite (np_index_wrap 7 (column - 1)) by lia.
    by replace (column - 1 + Z.of_nat 7)%Z with (column + 7 - 1)%Z by lia.
Qed.

Lemma X1_apply_move_index_error_witness :
  AMAF.apply_move (AMAF.mkGameBoard 1 zeros 1) 8 = Raise IndexError
  ∧ RAVE.apply_move (RAVE.mkGameBoard 1 zeros 1) (-7) = Raise IndexError
  ∧ AMAF.apply_move (AMAF.mkGameBoard 1 zeros 1) (-6)
    = AMAF.apply_move (AMAF.mkGameBoard 1 zeros 1) (-6 + 7).
Proof.
  pose proof (X1_apply_move_index_error (AMAF.mkGameBoard 1 zeros 1)
                (RAVE.mkGameBoard 1 zeros 1) 8) as (H8 & _ & _).
  pose proof (X1_apply_move_index_error (AMAF.mkGameBoard 1 zeros 1)
                (RAVE.mkGameBoard 1 zeros 1) (-7)) as (_ & H7 & _).
  pose proof (X1_apply_move_index_error (AMAF.mkGameBoard 1 zeros 1)
                (RAVE.mkGameBoard 1 zeros 1) (-6)) as (_ & _ & H6).
  split_and!.
  - apply H8. lia.
  - apply H7. lia.
  - apply H6. lia.
Defined.

(** X2: a call of [apply_move] that returns never changes an occupied cell
    nor [cpu].  When it returns False the game is unchanged and the column
    addressed has no empty cell; when it returns True exactly the lowest
    empty cell of that column received the mark of the player to move and
    the turn passed to the other player.  Both files. *)
Theorem X2_apply_move_fills_lowest_empty_cell
    (ga : AMAF.GameBoard) (gr : RAVE.GameBoard) (column : Z) :
  (∀ ok g', AMAF.apply_move ga column = Ret (ok, g') →
     AMAF.gb_cpu g' = AMAF.gb_cpu ga
     ∧ (∀ r c, AMAF.gb_board ga r c ≠ 0%Z →
               AMAF.gb_board g' r c = AMAF.gb_board ga r c)
     ∧ ∃ c, np_index 7 (column - 1) = Some c ∧ c < 7
       ∧ (ok = false → g' = ga ∧ ∀ i, i < 6 → AMAF.gb_board ga i c ≠ 0%Z)
       ∧ (ok = true → ∃ i, lowest_empty (AMAF.gb_board ga) c i
            ∧ AMAF.gb_board g' i c = AMAF.gb_turn ga
            ∧ (∀ r c', (r, c') ≠ (i, c) →
                 AMAF.gb_board g' r c' = AMAF.gb_board ga r c')
            ∧ AMAF.gb_turn g' = (3 - AMAF.gb_turn ga)%Z))
  ∧ (∀ ok g', RAVE.apply_move gr column = Ret (ok, g') →
       RAVE.gb_cpu g' = RAVE.gb_cpu gr
       ∧ (∀ r c, RAVE.gb_board gr r c ≠ 0%Z →
                 RAVE.gb_board g' r c = RAVE.gb_board gr r c)
       ∧ ∃ c, np_index 7 (column - 1) = Some c ∧ c < 7
         ∧ (ok = false → g' = gr ∧ ∀ i, i < 6 → RAVE.gb_board gr i c ≠ 0%Z)
         ∧ (ok = true → ∃ i, lowest_empty (RAVE.gb_board gr) c i
              ∧ RAVE.gb_board g' i c = RAVE.gb_turn gr
              ∧ (∀ r c', (r, c') ≠ (i, c) →
                   RAVE.gb_board g' r c' = RAVE.gb_board gr r c')
              ∧ RAVE.gb_turn g' = (if bool_decide (RAVE.gb_turn gr = 1%Z)
                                   then 2%Z else 1%Z))).
Proof.
  split.
  - intros ok g'. unfold AMAF.apply_move.
    destruct (np_index 7 (column - 1)) as [c|] eqn:Hc; [| done].
    rewrite amaf_apply_move_rows_find.
    destruct (find _ (range 6)) as [i|] eqn:Hfind; intros [= <- <-]; simpl.
    + apply find_lowest_empty in Hfind. split_and!; [done | |].
      * intros r c' Hocc. unfold setitem. case_bool_decide as Hrc; [| done].
        destruct Hrc as [-> ->]. by destruct Hfind as (_ & Hz & _).
      * exists c. split_and!; [done | by eapply np_index_Some | done |].
        intros _. exists i. unfold setitem.
        split_and!; [done | by rewrite bool_decide_eq_true_2 | | done].
        intros r c' Hne. rewrite bool_decide_eq_false_2; [done |].
        intros [-> ->]. done.
    + split_and!; [done.. |]. exists c.
      split_and!; [done | by eapply np_index_Some | | done].
      intros _. split; [done |]. by apply find_no_empty.
  - intros ok g'. unfold RAVE.apply_move.
    destruct (np_index 7 (column - 1)) as [c|] eqn:Hc; [| done].
    rewrite rave_apply_move_rows_find.
    destruct (find _ (range 6)) as [i|] eqn:Hfind; intros [= <- <-]; simpl.
    + apply find_lowest_empty in Hfind. split_and!; [done | |].
      * intros r c' Hocc. unfold setitem. case_bool_decide as Hrc; [| done].
        destruct Hrc as [-> ->]. by destruct Hfind as (_ & Hz & _).
      * exists c. split_and!; [done | by eapply np_index_Some | done |].
        intros _. exists i. unfold setitem.
        split_and!; [done | by rewrite bool_decide_eq_true_2 | | done].
        intros r c' Hne. rewrite bool_decide_eq_false_2; [done |].
        intros [-> ->]. done.
    + split_and!; [done.. |]. exists c.
      split_and!; [done | by eapply np_index_Some | | done].
      intros _. split; [done |]. by apply find_no_empty.
Qed.

Lemma X2_apply_move_fills_lowest_empty_cell_witness :
  AMAF.gb_board (amaf_play [4; 4]%Z (AMAF.mkGameBoard 1 zeros 1)) 0 3 = 1%Z
  ∧ RAVE.gb_board (rave_play [4; 4]%Z (RAVE.mkGameBoard 1 zeros 1)) 0 3 = 1%Z.
Proof.
  pose (ga := amaf_play [4]%Z (AMAF.mkGameBoard 1 zeros 1)).
  pose (gr := rave_play [4]%Z (RAVE.mkGameBoard 1 zeros 1)).
  destruct (X2_apply_move_fills_lowest_empty_cell ga gr 4) as [Ha Hr].
  split.
  - destruct (Ha true (amaf_play [4; 4]%Z (AMAF.mkGameBoard 1 zeros 1)))
      as (_ & Hkeep & _); [reflexivity |].
    rewrite Hkeep; [reflexivity | vm_compute; discriminate].
  - destruct (Hr true (rave_play [4; 4]%Z (RAVE.mkGameBoard 1 zeros 1)))
      as (_ & Hkeep & _); [reflexivity |].
    rewrite Hkeep; [reflexivity | vm_compute; discriminate].
Defined.

Lemma marks_ok_setitem (b : Board) (j i : nat) (v : Z) :
  marks_ok b → v = 1%Z ∨ v = 2%Z → marks_ok (setitem b j i v).
Proof.
  intros Hb Hv r c Hr Hc. unfold setitem. case_bool_decide; [tauto | auto].
Qed.

(** X3: every board a [GameBoard] object can hold has cells 0, 1 and 2
    only and no empty cell below a mark, and the player to move is 1 or 2;
    so the check of connect4_RAVE.py, which looks for marks 1 and 2 on the
    diagonals, classifies every such game correctly as well. *)
Theorem X3_reachable_game_boards (ga : AMAF.GameBoard) (gr : RAVE.GameBoard) :
  (amaf_reachable ga →
     marks_ok (AMAF.gb_board ga) ∧ gravity (AMAF.gb_board ga)
     ∧ (AMAF.gb_turn ga = 1%Z ∨ AMAF.gb_turn ga = 2%Z)
     ∧ outcome_spec (AMAF.gb_board ga) (AMAF.check_win ga))
  ∧ (rave_reachable gr →
       marks_ok (RAVE.gb_board gr) ∧ gravity (RAVE.gb_board gr)
       ∧ (RAVE.gb_turn gr = 1%Z ∨ RAVE.gb_turn gr = 2%Z)
       ∧ outcome_spec (RAVE.gb_board gr) (RAVE.check_win gr)).
Proof.
  split.
  - intros Hreach.
    assert (marks_ok (AMAF.gb_board ga)) as Hmarks.
    { induction Hreach as [t cpu Ht | g column ok g' Hreach IH Hmove].
      - intros r c _ _. by left.
      - apply amaf_reachable_inv in Hreach as [_ Hturn].
        unfold AMAF.apply_move in Hmove.
        destruct (np_index 7 (column - 1)) as [c|]; [| done].
        rewrite amaf_apply_move_rows_find in Hmove.
        destruct (find _ (range 6)); injection Hmove as <- <-; simpl;
          [by apply marks_ok_setitem | done]. }
    destruct (amaf_reachable_inv ga Hreach) as [Hgrav Hturn].
    split_and!; [done.. |]. apply amaf_check_win_spec.
  - intros Hreach.
    assert (marks_ok (RAVE.gb_board gr)) as Hmarks.
    { induction Hreach as [t cpu Ht | g column ok g' Hreach IH Hmove].
      - intros r c _ _. by left.
      - apply rave_reachable_inv in Hreach as [_ Hturn].
        unfold RAVE.apply_move in Hmove.
        destruct (np_index 7 (column - 1)) as [c|]; [| done].
        rewrite rave_apply_move_rows_find in Hmove.
        destruct (find _ (range 6)); injection Hmove as <- <-; simpl;
          [by apply marks_ok_setitem | done]. }
    destruct (rave_reachable_inv gr Hreach) as [Hgrav Hturn].
    split_and!; [done.. |]. by apply rave_check_win_spec.
Qed.

Lemma X3_reachable_game_boards_witness :
  marks_ok (AMAF.gb_board amaf_first_column_full)
  ∧ outcome_spec (RAVE.gb_board rave_first_column_full)
                 (RAVE.check_win rave_first_column_full).
Proof.
  destruct (X3_reachable_game_boards amaf_first_column_full
              rave_first_column_full) as [Ha Hr].
  assert (amaf_reachable amaf_first_column_full) as Hreach_a.
  { apply amaf_reachable_play. apply amaf_reach_init. by left. }
  assert (rave_reachable rave_first_column_full) as Hreach_r.
  { apply rave_reachable_play. apply rave_reach_init. by left. }
  destruct (Ha Hreach_a) as (Hmarks & _).
  destruct (Hr Hreach_r) as (_ & _ & _ & Hout).
  exact (conj Hmarks Hout).
Defined.

(** X4: the flag [terminal] that the constructor of a node computes with
    [check_terminal] is the game-over flag of [check_win] on the same
    board, in both files and for every content of the array. *)
Theorem X4_check_terminal_is_game_over (b : Board) (turn cpu : Z) :
  AMAF.check_terminal b = (AMAF.check_win (AMAF.mkGameBoard turn b cpu)).1
  ∧ RAVE.check_terminal b = (RAVE.check_win (RAVE.mkGameBoard turn b cpu)).1.
Proof.
  assert (∀ w, wins b w → truthy (Some w) = true) as Htruthy.
  { intros w [Hw _]. simpl. by rewrite bool_decide_eq_false_2. }
  split.
  - unfold AMAF.check_terminal, AMAF.check_win. simpl.
    destruct (AMAF.check_rows b) as [w|] eqn:Hrows.
    { by rewrite (Htruthy w (amaf_check_rows_Some b w Hrows)). }
    destruct (AMAF.check_cols b) as [w|] eqn:Hcols.
    { by rewrite (Htruthy w (amaf_check_cols_Some b w Hcols)). }
    destruct (AMAF.check_diag b) as [w|] eqn:Hdiag.
    { by rewrite (Htruthy w (amaf_check_diag_Some b w Hdiag)). }
    simpl. by destruct (AMAF.check_tie b).
  - unfold RAVE.check_terminal, RAVE.check_win. simpl.
    destruct (RAVE.check_rows b) as [w|] eqn:Hrows.
    { rewrite Htruthy; [done |].
      apply amaf_check_rows_Some. by rewrite <- rave_check_rows_eq. }
    destruct (RAVE.check_cols b) as [w|] eqn:Hcols.
    { rewrite Htruthy; [done |].
      apply amaf_check_cols_Some. by rewrite <- rave_check_cols_eq. }
    destruct (RAVE.check_diag b) as [w|] eqn:Hdiag.
    { rewrite Htruthy; [done |]. by apply rave_check_diag_Some. }
    simpl. by destruct (RAVE.check_tie b).
Qed.

Lemma outcome_spec_agree (b : Board) (r1 r2 : bool * option Z) :
  outcome_spec b r1 → outcome_spec b r2 →
  r1.1 = r2.1 ∧ ((∀ p q, wins b p → wins b q → p = q) → r1 = r2).
Proof.
  unfold outcome_spec.
  destruct r1 as [[] [p|]], r2 as [[] [q|]]; simpl; intros H1 H2; try done.
  - split; [done | intros Huniq; by rewrite (Huniq p q H1 H2)].
  - exfalso. destruct H2 as [_ Hno]. apply Hno. by exists p.
  - exfalso. destruct H2 as [_ Hno]. apply Hno. by exists p.
  - exfalso. destruct H1 as [_ Hno]. apply Hno. by exists q.
  - exfalso. tauto.
  - exfalso. destruct H1 as [_ Hno]. apply Hno. by exists q.
  - exfalso. tauto.
Qed.

(** X5: the two files agree on when a game is over: on a board with cells
    0, 1 and 2 their [check_win] return the same flag, and the same pair
    when only one player has four in a line (the files scan the diagonals
    in different orders). *)
Theorem X5_check_win_same_in_both_files (b : Board) (turn cpu : Z) :
  marks_ok b →
  (AMAF.check_win (AMAF.mkGameBoard turn b cpu)).1
  = (RAVE.check_win (RAVE.mkGameBoard turn b cpu)).1
  ∧ ((∀ p q, wins b p → wins b q → p = q) →
     AMAF.check_win (AMAF.mkGameBoard turn b cpu)
     = RAVE.check_win (RAVE.mkGameBoard turn b cpu)).
Proof.
  intros Hmarks. apply (outcome_spec_agree b).
  - apply (amaf_check_win_spec (AMAF.mkGameBoard turn b cpu)).
  - by apply (rave_check_win_spec (RAVE.mkGameBoard turn b cpu)).
Qed.

Lemma X5_check_win_same_in_both_files_witness :
  (AMAF.check_win (AMAF.mkGameBoard 1 full_board_with_line 1)).1
  = (RAVE.check_win (RAVE.mkGameBoard 1 full_board_with_line 1)).1.
Proof.
  apply (X5_check_win_same_in_both_files full_board_with_line 1 1).
  apply marks_okb_true. vm_compute. reflexivity.
Defined.

(** X6: [check_tie] differs between the files.  In connect4_AMAF.py it
    holds exactly on a board without an empty cell, also when there is a
    line of four; in connect4_RAVE.py it holds exactly on a board without
    an empty cell on which none of the three checks finds a winner. *)
Theorem X6_check_tie (b : Board) :
  (AMAF.check_tie b = true ↔ full b)
  ∧ (RAVE.check_tie b = true ↔ full b ∧ RAVE.result b = None)
  ∧ (marks_ok b → (RAVE.check_tie b = true ↔ full b ∧ ¬ has_win b))
  ∧ (full b → has_win b → marks_ok b →
     AMAF.check_tie b = true ∧ RAVE.check_tie b = false).
Proof.
  split_and!.
  - apply amaf_check_tie_true.
  - apply rave_check_tie_true.
  - intros Hmarks. rewrite rave_check_tie_true. split.
    + intros [Hfull Hres]. split; [done |]. by apply rave_result_None.
    + intros [Hfull Hnowin]. split; [done |].
      destruct (RAVE.result b) as [w|] eqn:Hres; [| done].
      exfalso. apply Hnowin. exists w. by apply rave_result_Some.
  - intros Hfull Hwin Hmarks. split; [by apply amaf_check_tie_true |].
    destruct (RAVE.check_tie b) eqn:Htie; [| done].
    apply rave_check_tie_true in Htie as [_ Hres].
    by destruct (rave_result_None b Hmarks Hres).
Qed.

Lemma X6_check_tie_witness :
  AMAF.check_tie full_board_with_line = true
  ∧ RAVE.check_tie full_board_with_line = false.
Proof.
  apply (X6_check_tie full_board_with_line).
  - intros r c Hr Hc.
    assert (r = 0 ∨ r = 1 ∨ r = 2 ∨ r = 3 ∨ r = 4 ∨ r = 5) as Hr' by lia.
    assert (c = 0 ∨ c = 1 ∨ c = 2 ∨ c = 3 ∨ c = 4 ∨ c = 5 ∨ c = 6) as Hc' by lia.
    destruct_or!; subst; vm_compute; discriminate.
  - exists 1%Z. split; [done |].
    exists [(0, 0); (0, 0 + 1); (0, 0 + 2); (0, 0 + 3)].
    split; [constructor; lia |]. repeat constructor.
  - apply marks_okb_true. vm_compute. reflexivity.
Defined.

Lemma first_diff_None (b1 b2 : Board) :
  first_diff b1 b2 = None ↔ board_eqb b1 b2 = true.
Proof.
  unfold first_diff. rewrite first_some_None, board_eqb_true. split.
  - intros Hall j i Hj Hi. specialize (Hall j (proj2 (elem_of_range 6 j) Hj)).
    rewrite first_some_None in Hall.
    specialize (Hall i (proj2 (elem_of_range 7 i) Hi)). simpl in Hall.
    destruct (decide (b1 j i = b2 j i)) as [| Hne]; [done |].
    by rewrite bool_decide_eq_true_2 in Hall.
  - intros Heq j Hj. apply first_some_None. intros i Hi.
    apply elem_of_range in Hj, Hi.
    rewrite bool_decide_eq_false_2; [done |]. intros Hne. by apply Hne, Heq.
Qed.

Lemma first_some_seq_Some {B} (f : nat → option B) (a k : nat) (y : B) :
  first_some f (seq a k) = Some y →
  ∃ x, a ≤ x < a + k ∧ f x = Some y ∧ ∀ x', a ≤ x' < x → f x' = None.
Proof.
  revert a. induction k as [|k IH]; intros a; simpl; [done |].
  destruct (f a) eqn:Ha.
  - intros [= <-]. exists a. split_and!; [lia.. | done | intros; lia].
  - intros Hy. destruct (IH _ Hy) as (x & Hx & Hfx & Hbefore).
    exists x. split_and!; [lia.. | done |]. intros x' Hx'.
    destruct (decide (x' = a)) as [-> | Hne]; [done |]. apply Hbefore. lia.
Qed.

Lemma first_diff_Some (b1 b2 : Board) (j i : nat) :
  first_diff b1 b2 = Some (j, i) →
  j < 6 ∧ i < 7 ∧ b1 j i ≠ b2 j i
  ∧ ∀ j' i', j' < 6 → i' < 7 → j' < j ∨ (j' = j ∧ i' < i) → b1 j' i' = b2 j' i'.
Proof.
  unfold first_diff, range. intros Hfd.
  apply first_some_seq_Some in Hfd as (j0 & Hj0 & Hrow & Hrows).
  apply first_some_seq_Some in Hrow as (i0 & Hi0 & Hcell & Hcells).
  case_bool_decide as Hne; [| done]. injection Hcell as -> ->.
  split_and!; [lia.. | done |]. intros j' i' Hj' Hi' [Hlt | [-> Hlt]].
  - specialize (Hrows j' ltac:(lia)). rewrite first_some_None in Hrows.
    assert (i' ∈ seq 0 7) as Hin by (apply elem_of_seq; lia).
    specialize (Hrows i' Hin). simpl in Hrows.
    destruct (decide (b1 j' i' = b2 j' i')) as [| Hne']; [done |].
    by rewrite bool_decide_eq_true_2 in Hrows.
  - specialize (Hcells i' ltac:(lia)). simpl in Hcells.
    destruct (decide (b1 j i' = b2 j i')) as [| Hne']; [done |].
    by rewrite bool_decide_eq_true_2 in Hcells.
Qed.

(** X7: [get_action(parent_board, child_board)] returns None exactly when
    the two arrays are equal on the grid; otherwise it returns the first
    cell, rows outermost, at which they differ.  When the child board is
    the parent board with one cell changed, that cell is returned.  Both
    files. *)
Theorem X7_get_action_first_difference
    (sa : AMAF.State) (sr : RAVE.State) (p c : nat) :
  (AMAF.get_action sa p c = None
     ↔ board_eqb (AMAF.array_at sa p) (AMAF.array_at sa c) = true)
  ∧ (∀ j i, AMAF.get_action sa p c = Some (j, i) →
       j < 6 ∧ i < 7 ∧ AMAF.array_at sa p j i ≠ AMAF.array_at sa c j i
       ∧ ∀ j' i', j' < 6 → i' < 7 → j' < j ∨ (j' = j ∧ i' < i) →
           AMAF.array_at sa p j' i' = AMAF.array_at sa c j' i')
  ∧ (∀ j i v, j < 6 → i < 7 → AMAF.array_at sa p j i ≠ v →
       AMAF.array_at sa c = setitem (AMAF.array_at sa p) j i v →
       AMAF.get_action sa p c = Some (j, i))
  ∧ (RAVE.get_action sr p c = None
       ↔ board_eqb (RAVE.array_at sr p) (RAVE.array_at sr c) = true)
  ∧ (∀ j i, RAVE.get_action sr p c = Some (j, i) →
       j < 6 ∧ i < 7 ∧ RAVE.array_at sr p j i ≠ RAVE.array_at sr c j i
       ∧ ∀ j' i', j' < 6 → i' < 7 → j' < j ∨ (j' = j ∧ i' < i) →
           RAVE.array_at sr p j' i' = RAVE.array_at sr c j' i')
  ∧ (∀ j i v, j < 6 → i < 7 → RAVE.array_at sr p j i ≠ v →
       RAVE.array_at sr c = setitem (RAVE.array_at sr p) j i v →
       RAVE.get_action sr p c = Some (j, i)).
Proof.
  unfold AMAF.get_action, RAVE.get_action. split_and!.
  - apply first_diff_None.
  - intros j i. apply first_diff_Some.
  - intros j i v Hj Hi Hv ->.
    exact (proj1 (first_diff_one_cell _ _ j i
                    (one_cell_diff_setitem _ j i v Hj Hi Hv))).
  - apply first_diff_None.
  - intros j i. apply first_diff_Some.
  - intros j i v Hj Hi Hv ->.
    exact (proj1 (first_diff_one_cell _ _ j i
                    (one_cell_diff_setitem _ j i v Hj Hi Hv))).
Qed.

Lemma X7_get_action_first_difference_witness :
  AMAF.get_action (AMAF.mkState [] [zeros; setitem zeros 2 3 1] ∅ []) 0 1
  = Some (2, 3).
Proof.
  pose (sa := AMAF.mkState [] [zeros; setitem zeros 2 3 1] ∅ []).
  pose (sr := RAVE.mkState [] [] []).
  destruct (X7_get_action_first_difference sa sr 0 1) as (_ & _ & Hset & _).
  apply (Hset 2 3 1%Z); [lia | lia | vm_compute; discriminate | reflexivity].
Defined.

(** ** get_moves and rollout *)

Lemma py_count_fmap {A} (f : A → Z) (v : Z) (l : list A) :
  py_count v (f <$> l) = length (filter (λ x, f x = v) l).
Proof.
  unfold py_count. induction l as [|a l IH]; [done |].
  rewrite fmap_cons, !filter_cons. destruct (decide (f a = v)); simpl; by rewrite IH.
Qed.

Lemma top_row_zeros_legal (b : Board) :
  top_row_zeros b = length (legal_columns b).
Proof. apply (py_count_fmap (λ i, b 5 i)). Qed.

Lemma legal_column_drop (b : Board) (i : nat) :
  i < 7 → b 5 i = 0%Z →
  ∃ j, find (λ j, bool_decide (b j i = 0%Z)) (range 6) = Some j ∧ legal_drop b i j.
Proof.
  intros Hi Htop.
  destruct (find (λ j, bool_decide (b j i = 0%Z)) (range 6)) as [j|] eqn:Hfind.
  - exists j. split; [done |]. split_and!; [done.. |]. by apply find_lowest_empty.
  - exfalso. apply (proj1 (find_no_empty b i) Hfind 5); [lia | done].
Qed.

Lemma elem_of_legal_columns (b : Board) (i : nat) :
  i ∈ legal_columns b ↔ i < 7 ∧ b 5 i = 0%Z.
Proof.
  unfold legal_columns. rewrite list_elem_of_filter, elem_of_range. tauto.
Qed.

Module AmafMoves.
Import AMAF AmafSpec AmafFacts.

Lemma amaf_with_arrays_nil (st : State) : with_arrays st (arrays st ++ []) = st.
Proof. destruct st. unfold with_arrays. simpl. by rewrite app_nil_r. Qed.

Lemma amaf_apply_move_to_board_eq (st : State) (b col : nat) (v : Z) :
  apply_move_to_board st b col v
  = (with_arrays st (arrays st ++
       [match find (λ j, bool_decide (array_at st b j col = 0%Z)) (range 6) with
        | Some j => setitem (array_at st b) j col v
        | None => array_at st b
        end]),
     length (arrays st)).
Proof.
  unfold apply_move_to_board, np_copy.
  rewrite (amaf_array_at_new st (arrays st) (array_at st b)).
  destruct (find _ (range 6)) as [j|]; [| done].
  by rewrite amaf_copy_setitem.
Qed.

Lemma amaf_get_moves_cols_spec (st0 : State) (b : nat) (v : Z)
    (cols : list nat) (ks : list Board) :
  b < length (arrays st0) → (∀ i, i ∈ cols → i < 7) →
  ∃ bs, get_moves_cols (with_arrays st0 (arrays st0 ++ ks)) b v cols
        = (with_arrays st0 (arrays st0 ++ ks ++ bs),
           seq (length (arrays st0 ++ ks)) (length bs))
    ∧ Forall2 (dropped_in (array_at st0 b) v)
              (filter (λ i, array_at st0 b 5 i = 0%Z) cols) bs.
Proof.
  intros Hb. revert ks. induction cols as [|i cols IH]; intros ks Hcols.
  { exists []. simpl. rewrite app_nil_r. split; [done | constructor]. }
  cbn [get_moves_cols]. rewrite (amaf_array_at_app st0 ks b Hb).
  assert (∀ i', i' ∈ cols → i' < 7) as Hcols' by (intros; apply Hcols; by right).
  rewrite filter_cons. case_bool_decide as Htop.
  - rewrite decide_True by done.
    rewrite amaf_apply_move_to_board_eq, (amaf_array_at_app st0 ks b Hb).
    destruct (legal_column_drop (array_at st0 b) i) as (j & -> & Hdrop);
      [apply Hcols; left | done |].
    change (with_arrays (with_arrays st0 (arrays st0 ++ ks)) ?l)
      with (with_arrays st0 l).
    change (arrays (with_arrays st0 (arrays st0 ++ ks))) with (arrays st0 ++ ks).
    rewrite <- (app_assoc (arrays st0) ks).
    destruct (IH (ks ++ [setitem (array_at st0 b) j i v]) Hcols')
      as (bs & -> & Hall).
    exists (setitem (array_at st0 b) j i v :: bs). split.
    + f_equal; [by rewrite <- (app_assoc ks) |].
      rewrite !length_app. simpl. f_equal. f_equal. lia.
    + constructor; [by exists j | done].
  - rewrite decide_False by done. by apply IH.
Qed.

Lemma amaf_get_moves_spec (st : State) (b : nat) (v : Z) :
  b < length (arrays st) →
  ∃ bs, get_moves st b v
        = (with_arrays st (arrays st ++ bs), seq (length (arrays st)) (length bs))
    ∧ Forall2 (dropped_in (array_at st b) v) (legal_columns (array_at st b)) bs.
Proof.
  intros Hb.
  destruct (amaf_get_moves_cols_spec st b v (range 7) [] Hb) as (bs & Hrun & Hall).
  { intros i. apply elem_of_range. }
  exists bs. split; [| done].
  rewrite amaf_with_arrays_nil, app_nil_r in Hrun. exact Hrun.
Qed.

End AmafMoves.

Module RaveMoves.
Import RAVE RaveSpec RaveFacts.

Lemma rave_with_arrays_nil (st : State) : with_arrays st (arrays st ++ []) = st.
Proof. destruct st. unfold with_arrays. simpl. by rewrite app_nil_r. Qed.

Lemma rave_get_moves_cols_spec (st0 : State) (b : nat) (v : Z)
    (cols : list nat) (ks : list Board) :
  b < length (arrays st0) → (∀ i, i ∈ cols → i < 7) →
  ∃ bs, get_moves_cols (with_arrays st0 (arrays st0 ++ ks)) b v cols
        = (with_arrays st0 (arrays st0 ++ ks ++ bs),
           seq (length (arrays st0 ++ ks)) (length bs))
    ∧ Forall2 (dropped_in (array_at st0 b) v)
              (filter (λ i, array_at st0 b 5 i = 0%Z) cols) bs.
Proof.
  intros Hb. revert ks. induction cols as [|i cols IH]; intros ks Hcols.
  { exists []. simpl. rewrite app_nil_r. split; [done | constructor]. }
  cbn [get_moves_cols]. rewrite (rave_array_at_app st0 ks b Hb).
  assert (∀ i', i' ∈ cols → i' < 7) as Hcols' by (intros; apply Hcols; by right).
  rewrite filter_cons. case_bool_decide as Htop.
  - rewrite decide_True by done.
    destruct (legal_column_drop (array_at st0 b) i) as (j & -> & Hdrop);
      [apply Hcols; left | done |].
    unfold np_copy. rewrite (rave_array_at_app st0 ks b Hb).
    pose proof (rave_copy_setitem (with_arrays st0 (arrays st0 ++ ks)) b j i v)
      as Hcopy.
    rewrite (rave_array_at_app st0 ks b Hb) in Hcopy. rewrite Hcopy.
    change (with_arrays (with_arrays st0 (arrays st0 ++ ks)) ?l)
      with (with_arrays st0 l).
    change (arrays (with_arrays st0 (arrays st0 ++ ks))) with (arrays st0 ++ ks).
    rewrite <- (app_assoc (arrays st0) ks).
    destruct (IH (ks ++ [setitem (array_at st0 b) j i v]) Hcols')
      as (bs & -> & Hall).
    exists (setitem (array_at st0 b) j i v :: bs). split.
    + f_equal; [by rewrite <- (app_assoc ks) |].
      rewrite !length_app. simpl. f_equal. f_equal. lia.
    + constructor; [by exists j | done].
  - rewrite decide_False by done. by apply IH.
Qed.

Lemma rave_get_moves_spec (st : State) (b : nat) (v : Z) :
  b < length (arrays st) →
  ∃ bs, get_moves st b v
        = (with_arrays st (arrays st ++ bs), seq (length (arrays st)) (length bs))
    ∧ Forall2 (dropped_in (array_at st b) v) (legal_columns (array_at st b)) bs.
Proof.
  intros Hb.
  destruct (rave_get_moves_cols_spec st b v (range 7) [] Hb) as (bs & Hrun & Hall).
  { intros i. apply elem_of_range. }
  exists bs. split; [| done].
  rewrite rave_with_arrays_nil, app_nil_r in Hrun. exact Hrun.
Qed.

End RaveMoves.

(** X8: [get_moves(board, turn)] leaves every existing array, [board]
    included, as it is and returns one new array for each column whose top
    cell is empty, in increasing order of the column: the board with the
    mark [turn] in the lowest empty cell of that column.  So the number of
    boards returned is the number of zeros in the top row.  Both files. *)
Theorem X8_get_moves_one_board_per_legal_column
    (sa : AMAF.State) (sr : RAVE.State) (b : nat) (v : Z) :
  (b < length (AMAF.arrays sa) →
   ∀ st' ms, AMAF.get_moves sa b v = (st', ms) →
     AMAF.nodes st' = AMAF.nodes sa ∧ AMAF.amaf_stats st' = AMAF.amaf_stats sa
     ∧ AMAF.rng st' = AMAF.rng sa
     ∧ length ms = top_row_zeros (AMAF.array_at sa b)
     ∧ ∃ bs, AMAF.arrays st' = AMAF.arrays sa ++ bs
         ∧ ms = seq (length (AMAF.arrays sa)) (length bs)
         ∧ Forall2 (dropped_in (AMAF.array_at sa b) v)
                   (legal_columns (AMAF.array_at sa b)) bs)
  ∧ (b < length (RAVE.arrays sr) →
     ∀ st' ms, RAVE.get_moves sr b v = (st', ms) →
       RAVE.nodes st' = RAVE.nodes sr ∧ RAVE.rng st' = RAVE.rng sr
       ∧ length ms = top_row_zeros (RAVE.array_at sr b)
       ∧ ∃ bs, RAVE.arrays st' = RAVE.arrays sr ++ bs
           ∧ ms = seq (length (RAVE.arrays sr)) (length bs)
           ∧ Forall2 (dropped_in (RAVE.array_at sr b) v)
                     (legal_columns (RAVE.array_at sr b)) bs).
Proof.
  split.
  - intros Hb st' ms Hrun.
    destruct (AmafMoves.amaf_get_moves_spec sa b v Hb) as (bs & Heq & Hall).
    rewrite Heq in Hrun. injection Hrun as <- <-.
    split_and!; [done.. | | by exists bs].
    rewrite length_seq, top_row_zeros_legal. symmetry. by eapply Forall2_length.
  - intros Hb st' ms Hrun.
    destruct (RaveMoves.rave_get_moves_spec sr b v Hb) as (bs & Heq & Hall).
    rewrite Heq in Hrun. injection Hrun as <- <-.
    split_and!; [done.. | | by exists bs].
    rewrite length_seq, top_row_zeros_legal. symmetry. by eapply Forall2_length.
Qed.

Lemma X8_get_moves_one_board_per_legal_column_witness :
  (∃ st' ms, AMAF.get_moves amaf_start 0 2 = (st', ms) ∧ length ms = 7
     ∧ ms !! 3 = Some 4 ∧ AMAF.array_at st' 4 0 3 = 2%Z
     ∧ AMAF.array_at st' 4 0 2 = 0%Z ∧ AMAF.array_at st' 0 0 3 = 0%Z)
  ∧ (∃ st' ms, RAVE.get_moves rave_start 0 2 = (st', ms) ∧ length ms = 7
       ∧ ms !! 3 = Some 4 ∧ RAVE.array_at st' 4 0 3 = 2%Z
       ∧ RAVE.array_at st' 4 0 2 = 0%Z ∧ RAVE.array_at st' 0 0 3 = 0%Z).
Proof.
  destruct (X8_get_moves_one_board_per_legal_column amaf_start rave_start 0 2)
    as [Ha Hr].
  split.
  - destruct (AMAF.get_moves amaf_start 0 2) as [st' ms] eqn:Hrun.
    destruct (Ha ltac:(simpl; lia) st' ms eq_refl) as (_ & _ & _ & Hlen & _).
    exists st', ms. split; [done |]. split; [by rewrite Hlen |].
    vm_compute in Hrun. by injection Hrun as <- <-.
  - destruct (RAVE.get_moves rave_start 0 2) as [st' ms] eqn:Hrun.
    destruct (Hr ltac:(simpl; lia) st' ms eq_refl) as (_ & _ & Hlen & _).
    exists st', ms. split; [done |]. split; [by rewrite Hlen |].
    vm_compute in Hrun. by injection Hrun as <- <-.
Defined.

Module AmafRollout.
Import AMAF AmafSpec AmafFacts AmafMoves.

Lemma amaf_rollout_ply (st : State) (node fuel r : nat) (rest : list nat) (i : nat) :
  let nd := node_at st node in
  let b := board_of st node in
  board nd < length (arrays st) → terminal nd = false → turn nd ≠ 3%Z →
  rng st = r :: rest →
  legal_columns b !! (r mod length (legal_columns b)) = Some i →
  ∃ j bs, legal_drop b i j
    ∧ rollout (S fuel) st node
      = Ret (with_rng (with_arrays st (arrays st ++ bs)) rest,
             result (setitem b j i (3 - turn nd)), [(j, i)]).
Proof.
  intros nd b Hb Hterm Hturn Hrng Hcol.
  unfold rollout. cbn [rollout_loop]. fold nd. rewrite Hterm. cbn [negb]. cbv zeta.
  destruct (amaf_get_moves_spec st (board nd) (3 - turn nd) Hb) as (bs & -> & Hall).
  fold (board_of st node) in Hall. fold b in Hall.
  pose proof (Forall2_length _ _ _ Hall) as Hlen.
  set (k := r mod length (legal_columns b)) in *.
  assert (k < length bs) as Hk.
  { rewrite <- Hlen. by eapply lookup_lt_Some. }
  destruct (lookup_lt_is_Some_2 bs k Hk) as [brd Hbrd].
  destruct (Forall2_lookup_lr _ _ _ _ _ _ Hall Hcol Hbrd) as (j & Hdrop & ->).
  exists j, bs. split; [done |].
  assert (seq (length (arrays st)) (length bs) !! k = Some (length (arrays st) + k))
    as Hmove by (by apply lookup_seq).
  destruct (seq (length (arrays st)) (length bs)) as [|m0 ms] eqn:Hseq; [done |].
  unfold random_choice. cbn [rng with_arrays]. rewrite Hrng.
  assert (length (m0 :: ms) = length (legal_columns b)) as ->.
  { by rewrite <- Hseq, length_seq. }
  fold k. rewrite Hmove. cbn [default]. unfold id.
  set (st2 := with_rng _ rest).
  assert (array_at st2 (length (arrays st) + k) = setitem b j i (3 - turn nd))
    as Hnext.
  { unfold array_at, st2. cbn [arrays with_rng with_arrays].
    rewrite lookup_app_r by lia.
    replace (length (arrays st) + k - length (arrays st)) with k by lia.
    by rewrite Hbrd. }
  assert (array_at st2 (board nd) = b) as Hold.
  { unfold array_at, st2. cbn [arrays with_rng with_arrays].
    by rewrite lookup_app_l. }
  unfold get_action. rewrite Hnext, Hold, amaf_result_ne_zero.
  destruct Hdrop as (Hi & _ & Hj & Hzero & _).
  assert (b j i ≠ (3 - turn nd)%Z) as Hne.
  { change (b j i) with (array_at st (board nd) j i). rewrite Hzero. lia. }
  rewrite (proj1 (first_diff_one_cell _ _ j i
                    (one_cell_diff_setitem b j i (3 - turn nd) Hj Hi Hne))).
  done.
Qed.

Lemma amaf_rollout_no_ply (st : State) (node fuel : nat) :
  let nd := node_at st node in
  let b := board_of st node in
  board nd < length (arrays st) →
  (terminal nd = true → rollout fuel st node = Ret (st, result b, []))
  ∧ (terminal nd = false → legal_columns b = [] →
     rollout (S fuel) st node = Ret (st, result b, [])).
Proof.
  intros nd b Hb. split.
  - intros Hterm. unfold rollout. destruct fuel; cbn [rollout_loop]; fold nd;
      by rewrite Hterm.
  - intros Hterm Hnone. unfold rollout. cbn [rollout_loop]. fold nd.
    rewrite Hterm. cbn [negb]. cbv zeta.
    destruct (amaf_get_moves_spec st (board nd) (3 - turn nd) Hb)
      as (bs & -> & Hall).
    change (legal_columns (array_at st (board nd))) with (legal_columns b) in Hall.
    rewrite Hnone in Hall. apply Forall2_nil_inv_l in Hall as ->. simpl.
    by rewrite amaf_with_arrays_nil.
Qed.

End AmafRollout.

Module RaveRollout.
Import RAVE RaveSpec RaveFacts RaveMoves.

Lemma rave_rollout_ply (st : State) (node fuel r : nat) (rest : list nat) (i : nat) :
  let nd := node_at st node in
  let b := board_of st node in
  let v := if bool_decide (turn nd = 2%Z) then 1%Z else 2%Z in
  board nd < length (arrays st) → terminal nd = false →
  rng st = r :: rest →
  legal_columns b !! (r mod length (legal_columns b)) = Some i →
  ∃ j bs, legal_drop b i j
    ∧ rollout (S fuel) st node
      = Ret (with_rng (with_arrays st (arrays st ++ bs)) rest,
             result (setitem b j i v), [(j, i)]).
Proof.
  intros nd b v Hb Hterm Hrng Hcol.
  unfold rollout. fold nd. rewrite Hterm. cbn [negb rollout_loop]. cbv zeta.
  fold v.
  destruct (rave_get_moves_spec st (board nd) v Hb) as (bs & -> & Hall).
  fold (board_of st node) in Hall. fold b in Hall.
  pose proof (Forall2_length _ _ _ Hall) as Hlen.
  set (k := r mod length (legal_columns b)) in *.
  assert (k < length bs) as Hk.
  { rewrite <- Hlen. by eapply lookup_lt_Some. }
  destruct (lookup_lt_is_Some_2 bs k Hk) as [brd Hbrd].
  destruct (Forall2_lookup_lr _ _ _ _ _ _ Hall Hcol Hbrd) as (j & Hdrop & ->).
  exists j, bs. split; [done |].
  assert (seq (length (arrays st)) (length bs) !! k = Some (length (arrays st) + k))
    as Hmove by (by apply lookup_seq).
  destruct (seq (length (arrays st)) (length bs)) as [|m0 ms] eqn:Hseq; [done |].
  unfold random_choice. cbn [rng with_arrays]. rewrite Hrng.
  assert (length (m0 :: ms) = length (legal_columns b)) as ->.
  { by rewrite <- Hseq, length_seq. }
  fold k. rewrite Hmove. cbn [default]. unfold id.
  set (st2 := with_rng _ rest).
  assert (array_at st2 (length (arrays st) + k) = setitem b j i v) as Hnext.
  { unfold array_at, st2. cbn [arrays with_rng with_arrays].
    rewrite lookup_app_r by lia.
    replace (length (arrays st) + k - length (arrays st)) with k by lia.
    by rewrite Hbrd. }
  assert (array_at st2 (board nd) = b) as Hold.
  { unfold array_at, st2. cbn [arrays with_rng with_arrays].
    by rewrite lookup_app_l. }
  unfold get_action. rewrite Hnext, Hold, rave_result_ne_zero.
  destruct Hdrop as (Hi & _ & Hj & Hzero & _).
  assert (b j i ≠ v) as Hne.
  { change (b j i) with (array_at st (board nd) j i). rewrite Hzero.
    unfold v. case_bool_decide; lia. }
  rewrite (proj1 (first_diff_one_cell _ _ j i
                    (one_cell_diff_setitem b j i v Hj Hi Hne))).
  done.
Qed.

Lemma rave_rollout_no_ply (st : State) (node fuel : nat) :
  let nd := node_at st node in
  let b := board_of st node in
  board nd < length (arrays st) →
  (terminal nd = true → rollout fuel st node = Ret (st, result b, []))
  ∧ (terminal nd = false → legal_columns b = [] →
     rollout (S fuel) st node = Ret (st, result b, [])).
Proof.
  intros nd b Hb. split.
  - intros Hterm. unfold rollout. fold nd. by rewrite Hterm.
  - intros Hterm Hnone. unfold rollout. fold nd.
    rewrite Hterm. cbn [negb rollout_loop]. cbv zeta.
    destruct (rave_get_moves_spec st (board nd)
                (if bool_decide (turn nd = 2%Z) then 1%Z else 2%Z) Hb)
      as (bs & -> & Hall).
    change (legal_columns (array_at st (board nd))) with (legal_columns b) in Hall.
    rewrite Hnone in Hall. apply Forall2_nil_inv_l in Hall as ->. simpl.
    by rewrite rave_with_arrays_nil.
Qed.

End RaveRollout.

(** X9: what [rollout(node)] does, in both files.  On a terminal node it
    returns the result of the board of the node and no action, and changes
    nothing.  Otherwise it asks for the boards of the legal moves of the
    other player; if there is none it returns in the same way; if there are
    some, it plays the one drawn by [random.choice] and returns at once the
    result of that board with the single action played, the cell of a legal
    drop.  The tree and every array that existed are unchanged. *)
Theorem X9_rollout_plays_one_ply
    (sa : AMAF.State) (sr : RAVE.State) (node fuel : nat) :
  (AMAF.board (AMAF.node_at sa node) < length (AMAF.arrays sa) →
   let nd := AMAF.node_at sa node in
   let b := AmafSpec.board_of sa node in
   (AMAF.terminal nd = true →
      AMAF.rollout fuel sa node = Ret (sa, AMAF.result b, []))
   ∧ (AMAF.terminal nd = false → legal_columns b = [] →
      AMAF.rollout (S fuel) sa node = Ret (sa, AMAF.result b, []))
   ∧ (AMAF.terminal nd = false → AMAF.turn nd ≠ 3%Z →
      ∀ r rest i, AMAF.rng sa = r :: rest →
        legal_columns b !! (r mod length (legal_columns b)) = Some i →
        ∃ j st', legal_drop b i j
          ∧ AMAF.rollout (S fuel) sa node
            = Ret (st', AMAF.result (setitem b j i (3 - AMAF.turn nd)), [(j, i)])
          ∧ AMAF.nodes st' = AMAF.nodes sa
          ∧ AMAF.amaf_stats st' = AMAF.amaf_stats sa
          ∧ AMAF.rng st' = rest
          ∧ AMAF.arrays sa `prefix_of` AMAF.arrays st'))
  ∧ (RAVE.board (RAVE.node_at sr node) < length (RAVE.arrays sr) →
     let nd := RAVE.node_at sr node in
     let b := RaveSpec.board_of sr node in
     (RAVE.terminal nd = true →
        RAVE.rollout fuel sr node = Ret (sr, RAVE.result b, []))
     ∧ (RAVE.terminal nd = false → legal_columns b = [] →
        RAVE.rollout (S fuel) sr node = Ret (sr, RAVE.result b, []))
     ∧ (RAVE.terminal nd = false →
        ∀ r rest i, RAVE.rng sr = r :: rest →
          legal_columns b !! (r mod length (legal_columns b)) = Some i →
          ∃ j st', legal_drop b i j
            ∧ RAVE.rollout (S fuel) sr node
              = Ret (st', RAVE.result
                            (setitem b j i
                               (if bool_decide (RAVE.turn nd = 2%Z) then 1 else 2)),
                     [(j, i)])
            ∧ RAVE.nodes st' = RAVE.nodes sr
            ∧ RAVE.rng st' = rest
            ∧ RAVE.arrays sr `prefix_of` RAVE.arrays st')).
Proof.
  split.
  - intros Hb nd b.
    destruct (AmafRollout.amaf_rollout_no_ply sa node fuel Hb) as [Hterm Hnone].
    split_and!; [done.. |]. intros Hnt Hturn r rest i Hrng Hcol.
    destruct (AmafRollout.amaf_rollout_ply sa node fuel r rest i Hb Hnt Hturn
                Hrng Hcol) as (j & bs & Hdrop & Hrun).
    eexists j, _. split_and!; [done | exact Hrun | done.. |].
    simpl. by apply prefix_app_r.
  - intros Hb nd b.
    destruct (RaveRollout.rave_rollout_no_ply sr node fuel Hb) as [Hterm Hnone].
    split_and!; [done.. |]. intros Hnt r rest i Hrng Hcol.
    destruct (RaveRollout.rave_rollout_ply sr node fuel r rest i Hb Hnt
                Hrng Hcol) as (j & bs & Hdrop & Hrun).
    eexists j, _. split_and!; [done | exact Hrun | done.. |].
    simpl. by apply prefix_app_r.
Qed.

Lemma X9_rollout_plays_one_ply_witness :
  (∃ st', AMAF.rollout 1 amaf_start 0 = Ret (st', None, [(0, 3)]))
  ∧ (∃ st', RAVE.rollout 1 rave_start 0 = Ret (st', None, [(0, 3)])).
Proof.
  destruct (X9_rollout_plays_one_ply amaf_start rave_start 0 0) as [Ha Hr].
  split.
  - destruct (Ha ltac:(simpl; lia)) as (_ & _ & Hply).
    destruct (Hply eq_refl ltac:(vm_compute; discriminate) 3 [1; 4; 1; 5; 9; 2; 6] 3
                eq_refl eq_refl) as (j & st' & Hdrop & Hrun & _).
    exists st'. rewrite Hrun.
    destruct Hdrop as (_ & _ & Hj & _ & Hlow).
    assert (j = 0) as ->.
    { destruct j as [|j]; [done |]. exfalso. by apply (Hlow 0); [lia |]. }
    reflexivity.
  - destruct (Hr ltac:(simpl; lia)) as (_ & _ & Hply).
    destruct (Hply eq_refl 3 [1; 4; 1; 5; 9; 2; 6] 3 eq_refl eq_refl)
      as (j & st' & Hdrop & Hrun & _).
    exists st'. rewrite Hrun.
    destruct Hdrop as (_ & _ & Hj & _ & Hlow).
    assert (j = 0) as ->.
    { destruct j as [|j]; [done |]. exfalso. by apply (Hlow 0); [lia |]. }
    reflexivity.
Defined.

(** ** Backpropagation: what it changes *)

Module AmafBack.
Import AMAF AmafSpec AmafFacts.

Lemma amaf_counted_refl (nd : Node) : amaf_counted nd nd.
Proof. unfold amaf_counted. split_and!; (done || lia). Qed.

Lemma amaf_counted_trans (nd1 nd2 nd3 : Node) :
  amaf_counted nd1 nd2 → amaf_counted nd2 nd3 → amaf_counted nd1 nd3.
Proof.
  unfold amaf_counted. intros (? & ? & ? & ? & ? & ? & ? & ?)
    (? & ? & ? & ? & ? & ? & ? & ?).
  split_and!; (congruence || lia).
Qed.

Lemma amaf_node_at_set_stats (st : State) (x y : nat) (a b : Z) :
  node_at (set_node st x (set_stats (node_at st x) a b)) y
  = if decide (y = x ∧ x < length (nodes st))
    then set_stats (node_at st x) a b else node_at st y.
Proof.
  unfold node_at at 1. unfold set_node. cbn [nodes with_nodes].
  destruct (decide (x < length (nodes st))) as [Hx | Hx].
  - destruct (decide (y = x)) as [-> | Hne].
    + rewrite list_lookup_insert_eq by done. by rewrite decide_True.
    + rewrite list_lookup_insert_ne by done. by rewrite decide_False by tauto.
  - rewrite list_insert_ge by lia. by rewrite decide_False by tauto.
Qed.

Lemma amaf_backpropagate_effect (fuel : nat) (st : State) (node : nat)
    (winner : option Z) (actions : list (nat * nat)) (st' : State) :
  backpropagate fuel st node winner actions = Ret st' →
  arrays st' = arrays st ∧ rng st' = rng st
  ∧ length (nodes st') = length (nodes st)
  ∧ ∀ x, amaf_counted (node_at st x) (node_at st' x).
Proof.
  revert st node. induction fuel as [|fuel IH]; intros st node; [done |].
  cbn [backpropagate]. cbv zeta.
  set (nd := node_at st node).
  set (won := is_winner (turn nd) winner).
  set (st1 := set_node st node _).
  set (st2 := with_stats st1 _).
  assert (∀ x, amaf_counted (node_at st x) (node_at st2 x)) as Hstep.
  { intros x. change (node_at st2 x) with (node_at st1 x). unfold st1.
    rewrite amaf_node_at_set_stats. case_decide as Hx.
    - destruct Hx as [-> _]. fold nd. unfold amaf_counted. simpl.
      split_and!; try done; destruct won; lia.
    - apply amaf_counted_refl. }
  assert (length (nodes st2) = length (nodes st)) as Hlen.
  { unfold st2, st1, set_node. simpl. by rewrite length_insert. }
  destruct (parent (node_at st2 node)) as [p|].
  - intros Hrun. destruct (IH st2 p Hrun) as (Harr & Hrng & Hlen' & Hall).
    split_and!; [done | done | congruence |].
    intros x. by eapply amaf_counted_trans.
  - intros [= <-]. done.
Qed.

Lemma amaf_update_entry (won : bool) (m : gmap (nat * nat) (Z * Z))
    (action a : nat * nat) :
  amaf_entry (amaf_update won m action) a
  = if decide (action = a)
    then ((amaf_entry m a).1 + (if won then 1 else 0), (amaf_entry m a).2 + 1)%Z
    else amaf_entry m a.
Proof.
  unfold amaf_update, amaf_entry.
  destruct (default (0%Z, 0%Z) (m !! action)) as [q0 n0] eqn:Hentry.
  case_decide as Ha.
  - subst a. rewrite lookup_insert_eq. simpl. by rewrite Hentry.
  - by rewrite lookup_insert_ne.
Qed.

Lemma amaf_update_lookup (won : bool) (m : gmap (nat * nat) (Z * Z))
    (action a : nat * nat) :
  action ≠ a → amaf_update won m action !! a = m !! a.
Proof.
  intros Hne. unfold amaf_update.
  destruct (default (0%Z, 0%Z) (m !! action)) as [q0 n0].
  by rewrite lookup_insert_ne.
Qed.

Lemma amaf_foldl_update_entry (won : bool) (actions : list (nat * nat))
    (m : gmap (nat * nat) (Z * Z)) (a : nat * nat) :
  amaf_entry (foldl (amaf_update won) m actions) a
  = ((amaf_entry m a).1
     + (if won then Z.of_nat (count_action a actions) else 0),
     (amaf_entry m a).2 + Z.of_nat (count_action a actions))%Z
  ∧ (a ∉ actions → foldl (amaf_update won) m actions !! a = m !! a).
Proof.
  revert m. induction actions as [|x actions IH]; intros m.
  { simpl. split; [| done]. change (count_action a []) with 0.
    destruct (amaf_entry m a), won; simpl; f_equal; lia. }
  cbn [foldl]. destruct (IH (amaf_update won m x)) as [-> Hkeep]. split.
  - rewrite amaf_update_entry. unfold count_action. rewrite filter_cons.
    destruct (decide (x = a)); simpl; destruct won; f_equal; lia.
  - intros Hnot. apply not_elem_of_cons in Hnot as [Hne Hnot].
    rewrite Hkeep by done. by apply amaf_update_lookup.
Qed.

Lemma amaf_backpropagate_table (fuel : nat) (st : State) (node : nat)
    (winner : option Z) (actions : list (nat * nat)) (st' : State)
    (a : nat * nat) :
  backpropagate fuel st node winner actions = Ret st' →
  let path := path_to_root fuel st node in
  amaf_entry (amaf_stats st') a
  = ((amaf_entry (amaf_stats st) a).1
     + Z.of_nat (count_action a actions * amaf_winners_on st winner path),
     (amaf_entry (amaf_stats st) a).2
     + Z.of_nat (count_action a actions * length path))%Z
  ∧ (a ∉ actions → amaf_stats st' !! a = amaf_stats st !! a).
Proof.
  revert st node. induction fuel as [|fuel IH]; intros st node; [done |].
  cbn [backpropagate path_to_root]. cbv zeta.
  set (nd := node_at st node).
  set (won := is_winner (turn nd) winner).
  set (st1 := set_node st node _).
  set (st2 := with_stats st1 _).
  assert (∀ x, amaf_counted (node_at st x) (node_at st2 x)) as Hstep.
  { intros x. change (node_at st2 x) with (node_at st1 x). unfold st1.
    rewrite amaf_node_at_set_stats. case_decide as Hx.
    - destruct Hx as [-> _]. fold nd. unfold amaf_counted. simpl.
      split_and!; try done; destruct won; lia.
    - apply amaf_counted_refl. }
  assert (∀ y, parent (node_at st2 y) = parent (node_at st y)) as Hparents.
  { intros y. by destruct (Hstep y) as (? & _). }
  assert (∀ l, amaf_winners_on st2 winner l = amaf_winners_on st winner l) as Hwin.
  { intros l. unfold amaf_winners_on. f_equal. apply list_filter_iff.
    intros y. by destruct (Hstep y) as (_ & _ & -> & _). }
  destruct (amaf_foldl_update_entry won actions (amaf_stats st1) a)
    as [Hentry Hkeep].
  change (amaf_stats st1) with (amaf_stats st) in Hentry, Hkeep.
  rewrite Hparents. fold nd.
  assert (amaf_winners_on st winner [node] = if won then 1 else 0) as Hhere.
  { unfold amaf_winners_on. rewrite filter_cons, filter_nil. fold nd. fold won.
    by destruct won. }
  destruct (parent nd) as [p|].
  - intros Hrun. destruct (IH st2 p Hrun) as [Hrest Hkeep'].
    rewrite (amaf_path_same fuel st st2) in Hrest by done. rewrite Hwin in Hrest.
    split.
    + rewrite Hrest. change (amaf_stats st2)
        with (foldl (amaf_update won) (amaf_stats st) actions).
      rewrite Hentry. cbn [fst snd length].
      change (node :: path_to_root fuel st p)
        with ([node] ++ path_to_root fuel st p).
      unfold amaf_winners_on at 2. rewrite filter_app, length_app.
      fold (amaf_winners_on st winner [node]).
      fold (amaf_winners_on st winner (path_to_root fuel st p)).
      rewrite Hhere. destruct won; f_equal; lia.
    + intros Hnot. rewrite Hkeep' by done. by apply Hkeep.
  - intros [= <-]. split.
    + change (amaf_stats st2)
        with (foldl (amaf_update won) (amaf_stats st) actions).
      rewrite Hentry, Hhere. cbn [length]. destruct won; f_equal; lia.
    + exact Hkeep.
Qed.

End AmafBack.

(** X10: what one call of [backpropagate] of connect4_AMAF.py does to the
    table [amaf_stats].  The entry of an action of the rollout gains one
    visit for every node on the path from the leaf to the root (not one
    for the simulation), times the number of times the action occurs in
    the list, and one win for every node on that path whose recorded turn
    is the winner; the entries of all other actions stay as they are. *)
Theorem X10_backpropagate_amaf_stats (fuel : nat) (st : AMAF.State) (node : nat)
    (winner : option Z) (actions : list (nat * nat)) (st' : AMAF.State) :
  AMAF.backpropagate fuel st node winner actions = Ret st' →
  let path := AmafSpec.path_to_root fuel st node in
  ∀ a,
    amaf_entry (AMAF.amaf_stats st') a
    = ((amaf_entry (AMAF.amaf_stats st) a).1
       + Z.of_nat (count_action a actions * amaf_winners_on st winner path),
       (amaf_entry (AMAF.amaf_stats st) a).2
       + Z.of_nat (count_action a actions * length path))%Z
    ∧ (a ∉ actions → AMAF.amaf_stats st' !! a = AMAF.amaf_stats st !! a).
Proof. intros Hrun path a. by apply AmafBack.amaf_backpropagate_table. Qed.

Lemma X10_backpropagate_amaf_stats_witness :
  ∃ st', AMAF.backpropagate 1 amaf_start 0 (Some 2%Z) [(0, 3); (0, 3)] = Ret st'
    ∧ amaf_entry (AMAF.amaf_stats st') (0, 3) = (2, 2)%Z.
Proof.
  eexists. split; [reflexivity |].
  destruct (X10_backpropagate_amaf_stats 1 amaf_start 0 (Some 2%Z)
              [(0, 3); (0, 3)] _ eq_refl (0, 3)) as [Hentry _].
  rewrite Hentry. reflexivity.
Defined.

Module RaveBack.
Import RAVE RaveSpec RaveFacts.

Lemma rave_counted_refl (nd : Node) : rave_counted nd nd.
Proof. unfold rave_counted. split_and!; (done || lia). Qed.

Lemma rave_counted_trans (nd1 nd2 nd3 : Node) :
  rave_counted nd1 nd2 → rave_counted nd2 nd3 → rave_counted nd1 nd3.
Proof.
  unfold rave_counted. intros (? & ? & ? & ? & ? & ? & ? & ? & ? & ?)
    (? & ? & ? & ? & ? & ? & ? & ? & ? & ?).
  split_and!; (congruence || lia).
Qed.

Lemma rave_counted_state_refl (st : State) : rave_counted_state st st.
Proof. split_and!; [done.. |]. intros x. apply rave_counted_refl. Qed.

Lemma rave_counted_state_trans (st1 st2 st3 : State) :
  rave_counted_state st1 st2 → rave_counted_state st2 st3 →
  rave_counted_state st1 st3.
Proof.
  intros (? & ? & ? & H12) (? & ? & ? & H23).
  split_and!; [congruence.. |]. intros x. by eapply rave_counted_trans.
Qed.

Lemma rave_node_at_set_node_any (st : State) (x y : nat) (nd : Node) :
  node_at (set_node st x nd) y
  = if decide (y = x ∧ x < length (nodes st)) then nd else node_at st y.
Proof.
  unfold node_at at 1. unfold set_node. cbn [nodes with_nodes].
  destruct (decide (x < length (nodes st))) as [Hx | Hx].
  - destruct (decide (y = x)) as [-> | Hne].
    + rewrite list_lookup_insert_eq by done. by rewrite decide_True.
    + rewrite list_lookup_insert_ne by done. by rewrite decide_False by tauto.
  - rewrite list_insert_ge by lia. by rewrite decide_False by tauto.
Qed.

Lemma rave_counted_set_node (st : State) (x : nat) (nd : Node) :
  rave_counted (node_at st x) nd → rave_counted_state st (set_node st x nd).
Proof.
  intros Hnd. split_and!; [done | done | simpl; by rewrite length_insert |].
  intros y. rewrite rave_node_at_set_node_any. case_decide as Hy.
  - by destruct Hy as [-> _].
  - apply rave_counted_refl.
Qed.

Lemma rave_update_fold_counted (node : nat) (won : bool) (action : nat * nat)
    (cs : list nat) (s : State) :
  rave_counted_state s
    (foldl (λ s child,
       if bool_decide (array_at s (board (node_at s child)) action.1 action.2
                       ≠ array_at s (board (node_at s node)) action.1 action.2)
       then set_node s child
              (set_rave (node_at s child)
                        (rave_q (node_at s child) + (if won then 1 else 0))%Z
                        (rave_n (node_at s child) + 1)%Z)
       else s) s cs).
Proof.
  revert s. induction cs as [|c cs IH]; intros s;
    [apply rave_counted_state_refl |].
  cbn [foldl]. eapply rave_counted_state_trans; [| apply IH].
  case_bool_decide; [| apply rave_counted_state_refl].
  apply rave_counted_set_node. unfold rave_counted. simpl.
  split_and!; try done; destruct won; lia.
Qed.

Lemma rave_update_counted (node : nat) (won : bool) (st : State)
    (action : nat * nat) :
  rave_counted_state st (rave_update node won st action).
Proof. apply rave_update_fold_counted. Qed.

Lemma rave_actions_counted (node : nat) (won : bool)
    (actions : list (nat * nat)) (s : State) :
  rave_counted_state s (foldl (rave_update node won) s actions).
Proof.
  revert s. induction actions as [|a actions IH]; intros s;
    [apply rave_counted_state_refl |].
  cbn [foldl]. eapply rave_counted_state_trans; [| apply IH].
  apply rave_update_counted.
Qed.

Lemma rave_backpropagate_effect (fuel : nat) (st : State) (node : nat)
    (winner : option Z) (actions : list (nat * nat)) (st' : State) :
  backpropagate fuel st node winner actions = Ret st' →
  rave_counted_state st st'.
Proof.
  revert st node. induction fuel as [|fuel IH]; intros st node; [done |].
  cbn [backpropagate]. cbv zeta.
  set (nd := node_at st node).
  set (won := is_winner (turn nd) winner).
  set (st1 := set_node st node _).
  set (st2 := foldl _ st1 actions).
  assert (rave_counted_state st st1) as H1.
  { apply rave_counted_set_node. fold nd. unfold rave_counted. simpl.
    split_and!; try done; destruct won; lia. }
  assert (rave_counted_state st1 st2) as H2.
  { apply rave_actions_counted. }
  pose proof (rave_counted_state_trans _ _ _ H1 H2) as H12.
  destruct (parent (node_at st2 node)) as [p|].
  - intros Hrun. eapply rave_counted_state_trans; [exact H12 | by eapply IH].
  - by intros [= <-].
Qed.

End RaveBack.

(** ** The size of the tree *)

Module AmafSize.
Import AMAF AmafSpec AmafFacts AmafMoves.

Lemma amaf_add_child_cols_size (st : State) (self : nat) (cols : list nat) :
  length (nodes (add_child_cols st self cols)) ≤ S (length (nodes st))
  ∧ length (arrays (add_child_cols st self cols))
    ≤ length (arrays st) + length cols.
Proof.
  revert st. induction cols as [|i cols IH]; intros st; cbn [add_child_cols].
  - simpl. rewrite length_insert. lia.
  - cbv zeta. destruct (IH st) as [IHn IHa].
    case_bool_decide; [| simpl; lia].
    destruct (find _ (range 6)) as [j|]; [| simpl; lia].
    unfold np_copy. rewrite amaf_node_at_with_arrays, amaf_copy_setitem.
    set (st2 := with_arrays st (arrays st ++ [_])).
    destruct (negb _).
    + simpl. rewrite length_insert, !length_app. simpl. lia.
    + destruct (IH st2) as [IHn2 IHa2].
      assert (length (arrays st2) = S (length (arrays st))) as Ha2.
      { unfold st2. simpl. rewrite length_app. simpl. lia. }
      change (nodes st2) with (nodes st) in IHn2. rewrite Ha2 in IHa2.
      simpl. lia.
Qed.

Lemma amaf_add_child_size (st : State) (self : nat) :
  length (nodes (add_child st self)) ≤ S (length (nodes st))
  ∧ length (arrays (add_child st self)) ≤ length (arrays st) + 7.
Proof.
  unfold add_child. destruct (expanded _); [lia |].
  apply (amaf_add_child_cols_size st self (range 7)).
Qed.

Lemma amaf_get_moves_cols_size (st : State) (b : nat) (v : Z) (cols : list nat) :
  length (arrays (get_moves_cols st b v cols).1) ≤ length (arrays st) + length cols.
Proof.
  revert st. induction cols as [|i cols IH]; intros st; cbn [get_moves_cols];
    [simpl; lia |].
  case_bool_decide; [| specialize (IH st); simpl; lia].
  rewrite amaf_apply_move_to_board_eq.
  set (st1 := with_arrays st _). specialize (IH st1).
  destruct (get_moves_cols st1 b v cols) as [st2 ms]. simpl in *.
  rewrite length_app in IH. simpl in IH. lia.
Qed.

Lemma amaf_rollout_size (fuel : nat) (st : State) (node : nat) st' w acts :
  rollout fuel st node = Ret (st', w, acts) →
  nodes st' = nodes st ∧ length (arrays st') ≤ length (arrays st) + 7.
Proof.
  intros Hrun. split; [by apply amaf_rollout_grow in Hrun as (? & _) |].
  revert Hrun. unfold rollout.
  destruct fuel as [|fuel]; cbn [rollout_loop];
    (destruct (negb _); [| intros [= <- _ _]; lia]); [done |].
  pose proof (amaf_get_moves_cols_size st (board (node_at st node))
                (3 - turn (node_at st node)) (range 7)) as Hsize.
  fold (get_moves st (board (node_at st node)) (3 - turn (node_at st node)))
    in Hsize.
  destruct (get_moves _ _ _) as [st1 [|m moves]]; simpl in Hsize;
    [by intros [= <- _ _] |].
  pose proof (amaf_random_choice_grow st1 (m :: moves)) as [_ Harr].
  destruct (random_choice st1 (m :: moves)) as [st2 next_board]. simpl in Harr.
  rewrite amaf_result_ne_zero. intros [= <- _ _]. rewrite Harr. exact Hsize.
Qed.

Section amaf_size.
Context {F : Type} {ops : FloatOps F}.

Lemma amaf_select_effect (st : State) (node : nat) st' leaf log :
  select st node = Ret (st', leaf, log) →
  ∃ node1 log0, select_loop (length (nodes st)) st node [] = Ret (node1, log0)
    ∧ ((terminal (node_at st node1) = true ∧ st' = st ∧ leaf = Some node1)
       ∨ (terminal (node_at st node1) = false ∧ st' = add_child st node1
          ∧ leaf = match children (node_at st' node1) with
                   | [] => Some node1
                   | _ :: _ => pick_unvisited st' (children (node_at st' node1))
                   end)).
Proof.
  unfold select. destruct (select_loop _ _ _ _) as [[node1 log1]| |]; [|done..].
  cbn [mbind res_bind]. intros Hrun. exists node1, log1. split; [done |].
  destruct (terminal _).
  - left. by injection Hrun as <- <- _.
  - right. split; [done |].
    destruct (children _) eqn:Hch; injection Hrun as <- <- _;
      by rewrite Hch.
Qed.

Lemma amaf_iterate_size (K : nat) (st : State) (node : nat) st' fin :
  iterate K st node = Ret (st', fin) →
  length (nodes st') ≤ length (nodes st) + K
  ∧ length (arrays st') ≤ length (arrays st) + 14 * K.
Proof.
  revert st. induction K as [|K IH]; intros st; cbn [iterate].
  - intros [= <- _]. lia.
  - destruct (select st node) as [[[st1 leaf] log]| |] eqn:Hsel; [|done..].
    cbn [mbind res_bind].
    assert (length (nodes st1) ≤ S (length (nodes st))
            ∧ length (arrays st1) ≤ length (arrays st) + 7) as [Hn1 Ha1].
    { apply amaf_select_effect in Hsel
        as (node1 & log0 & _ & [(_ & -> & _) | (_ & -> & _)]); [lia |].
      apply amaf_add_child_size. }
    destruct leaf as [l|]; [| intros [= <- _]; lia].
    destruct (rollout 42 st1 l) as [[[st2 w] acts]| |] eqn:Hroll; [|done..].
    apply amaf_rollout_size in Hroll as [Hn2 Ha2]. cbn [mbind res_bind].
    destruct (backpropagate _ st2 l w acts) as [st3| |] eqn:Hback; [|done..].
    apply AmafBack.amaf_backpropagate_effect in Hback as (Ha3 & _ & Hn3 & _).
    cbn [mbind res_bind]. intros [Hn Ha]%IH.
    rewrite Hn3, Hn2 in Hn. rewrite Ha3 in Ha. lia.
Qed.

End amaf_size.

End AmafSize.

Module RaveSize.
Import RAVE RaveSpec RaveFacts RaveMoves.

Lemma rave_add_child_cols_size (st : State) (self : nat)
    (child_board cols : list nat) :
  length (nodes (add_child_cols st self child_board cols)) ≤ S (length (nodes st))
  ∧ length (arrays (add_child_cols st self child_board cols))
    ≤ length (arrays st) + length cols.
Proof.
  revert st. induction cols as [|i cols IH]; intros st; cbn [add_child_cols].
  - simpl. rewrite length_insert. lia.
  - cbv zeta. destruct (IH st) as [IHn IHa].
    case_bool_decide; [| simpl; lia].
    destruct (find _ (range 6)) as [j|]; [| simpl; lia].
    unfold np_copy. rewrite rave_node_at_with_arrays, !rave_copy_setitem.
    assert (Hgen : ∀ brd v,
      let st2 := with_arrays st (arrays st ++ [brd]) in
      match add_or_break st2 self (length (arrays st)) v child_board with
      | inl st3 => length (nodes st3) ≤ S (length (nodes st))
                   ∧ length (arrays st3) ≤ length (arrays st) + S (length cols)
      | inr st3 => st3 = st2
      end).
    { intros brd v st2. unfold add_or_break.
      assert (length (arrays st2) = S (length (arrays st))) as Ha2.
      { unfold st2. simpl. rewrite length_app. simpl. lia. }
      assert (∀ nd, let st3 := set_node (new_node st2 (Some self)
                                           (length (arrays st)) v).1 self nd in
                length (nodes st3) ≤ S (length (nodes st))
                ∧ length (arrays st3) ≤ length (arrays st) + S (length cols))
        as Hadd.
      { intros nd. simpl. rewrite length_insert, !length_app. simpl. lia. }
      destruct child_board; [apply Hadd |].
      destruct (negb _); [apply Hadd | done]. }
    assert (∀ brd, let st2 := with_arrays st (arrays st ++ [brd]) in
      length (nodes (add_child_cols st2 self child_board cols))
        ≤ S (length (nodes st))
      ∧ length (arrays (add_child_cols st2 self child_board cols))
        ≤ length (arrays st) + S (length cols)) as Hrest.
    { intros brd st2. destruct (IH st2) as [IHn2 IHa2].
      assert (length (arrays st2) = S (length (arrays st))) as Ha2.
      { unfold st2. simpl. rewrite length_app. simpl. lia. }
      change (nodes st2) with (nodes st) in IHn2. rewrite Ha2 in IHa2. lia. }
    case_bool_decide.
    + specialize (Hgen (setitem (array_at st (board (node_at st self))) j i 2) 1%Z).
      cbv zeta in Hgen.
      destruct (add_or_break _ _ _ _ _) as [st3 | st3]; [exact Hgen |].
      subst st3. apply Hrest.
    + specialize (Hgen (setitem (array_at st (board (node_at st self))) j i 1) 2%Z).
      cbv zeta in Hgen.
      destruct (add_or_break _ _ _ _ _) as [st3 | st3]; [exact Hgen |].
      subst st3. apply Hrest.
Qed.

Lemma rave_add_child_size (st : State) (self : nat) :
  length (nodes (add_child st self)) ≤ S (length (nodes st))
  ∧ length (arrays (add_child st self)) ≤ length (arrays st) + 7.
Proof.
  unfold add_child. destruct (expanded _); [lia |].
  apply (rave_add_child_cols_size st self _ (range 7)).
Qed.

Lemma rave_get_moves_cols_size (st : State) (b : nat) (v : Z) (cols : list nat) :
  length (arrays (get_moves_cols st b v cols).1) ≤ length (arrays st) + length cols.
Proof.
  revert st. induction cols as [|i cols IH]; intros st; cbn [get_moves_cols];
    [simpl; lia |].
  case_bool_decide; [| specialize (IH st); simpl; lia].
  destruct (find _ (range 6)) as [j|]; [| specialize (IH st); simpl; lia].
  unfold np_copy. rewrite rave_copy_setitem.
  set (st1 := with_arrays st _). specialize (IH st1).
  destruct (get_moves_cols st1 b v cols) as [st2 ms]. simpl in *.
  rewrite length_app in IH. simpl in IH. lia.
Qed.

Lemma rave_rollout_size (fuel : nat) (st : State) (node : nat) st' w acts :
  rollout fuel st node = Ret (st', w, acts) →
  nodes st' = nodes st ∧ length (arrays st') ≤ length (arrays st) + 7.
Proof.
  intros Hrun. split; [by apply rave_rollout_grow in Hrun as (? & _) |].
  revert Hrun. unfold rollout.
  destruct (negb _); [| intros [= <- _ _]; lia].
  destruct fuel as [|fuel]; cbn [rollout_loop]; [done |].
  set (v := if bool_decide (turn (node_at st node) = 2%Z) then 1%Z else 2%Z).
  pose proof (rave_get_moves_cols_size st (board (node_at st node)) v (range 7))
    as Hsize.
  fold (get_moves st (board (node_at st node)) v) in Hsize.
  destruct (get_moves _ _ _) as [st1 [|m moves]]; simpl in Hsize;
    [by intros [= <- _ _] |].
  pose proof (rave_random_choice_grow st1 (m :: moves)) as [_ Harr].
  destruct (random_choice st1 (m :: moves)) as [st2 next_board]. simpl in Harr.
  rewrite rave_result_ne_zero. intros [= <- _ _]. rewrite Harr. exact Hsize.
Qed.

Section rave_size.
Context {F : Type} {ops : FloatOps F}.
Variable t : Z.

Lemma rave_select_effect (st : State) (node : nat) st' leaf log :
  select t st node = Ret (st', leaf, log) →
  ∃ node1 log0, select_loop t (length (nodes st)) st node [] = Ret (node1, log0)
    ∧ ((terminal (node_at st node1) = true ∧ st' = st ∧ leaf = Some node1)
       ∨ (terminal (node_at st node1) = false ∧ st' = add_child st node1
          ∧ leaf = match children (node_at st' node1) with
                   | [] => Some node1
                   | _ :: _ => pick_unvisited st' (children (node_at st' node1))
                   end)).
Proof.
  unfold select. destruct (select_loop _ _ _ _ _) as [[node1 log1]| |]; [|done..].
  cbn [mbind res_bind]. intros Hrun. exists node1, log1. split; [done |].
  destruct (terminal _).
  - left. by injection Hrun as <- <- _.
  - right. split; [done |].
    destruct (children _) eqn:Hch; injection Hrun as <- <- _;
      by rewrite Hch.
Qed.

Lemma rave_iterate_size (K : nat) (st : State) (node : nat) st' fin :
  iterate t K st node = Ret (st', fin) →
  length (nodes st') ≤ length (nodes st) + K
  ∧ length (arrays st') ≤ length (arrays st) + 14 * K.
Proof.
  revert st. induction K as [|K IH]; intros st; cbn [iterate].
  - intros [= <- _]. lia.
  - destruct (select t st node) as [[[st1 leaf] log]| |] eqn:Hsel; [|done..].
    cbn [mbind res_bind].
    assert (length (nodes st1) ≤ S (length (nodes st))
            ∧ length (arrays st1) ≤ length (arrays st) + 7) as [Hn1 Ha1].
    { apply rave_select_effect in Hsel
        as (node1 & log0 & _ & [(_ & -> & _) | (_ & -> & _)]); [lia |].
      apply rave_add_child_size. }
    destruct leaf as [l|]; [| intros [= <- _]; lia].
    destruct (rollout 42 st1 l) as [[[st2 w] acts]| |] eqn:Hroll; [|done..].
    apply rave_rollout_size in Hroll as [Hn2 Ha2]. cbn [mbind res_bind].
    destruct (backpropagate _ st2 l w acts) as [st3| |] eqn:Hback; [|done..].
    apply RaveBack.rave_backpropagate_effect in Hback as (Ha3 & _ & Hn3 & _).
    cbn [mbind res_bind]. intros [Hn Ha]%IH.
    rewrite Hn3, Hn2 in Hn. rewrite Ha3 in Ha. lia.
Qed.

End rave_size.

End RaveSize.

(** X11: the search grows slowly: however the loop of [compute_move] is
    left, after [K] turns of it the tree has at most [K] nodes more than
    before ([add_child] appends at most one node), and at most [14 K] new
    arrays were made (at most seven copies by [add_child] and seven by
    [get_moves] in each turn).  Both files. *)
Theorem X11_one_node_per_iteration {F} {ops : FloatOps F} (K : nat) (t : Z)
    (node : nat) :
  (∀ st st' fin, AMAF.iterate K st node = Ret (st', fin) →
     length (AMAF.nodes st') ≤ length (AMAF.nodes st) + K
     ∧ length (AMAF.arrays st') ≤ length (AMAF.arrays st) + 14 * K)
  ∧ (∀ st st' fin, RAVE.iterate t K st node = Ret (st', fin) →
       length (RAVE.nodes st') ≤ length (RAVE.nodes st) + K
       ∧ length (RAVE.arrays st') ≤ length (RAVE.arrays st) + 14 * K).
Proof.
  split.
  - intros st st' fin. apply AmafSize.amaf_iterate_size.
  - intros st st' fin. apply RaveSize.rave_iterate_size.
Qed.

Lemma X11_one_node_per_iteration_witness :
  (∃ st', AMAF.iterate (ops := fixed_point_ops) 9 amaf_start 0 = Ret (st', true)
     ∧ length (AMAF.nodes st') ≤ 1 + 9)
  ∧ (∃ st', RAVE.iterate (ops := fixed_point_ops) 5 9 rave_start 0 = Ret (st', true)
       ∧ length (RAVE.nodes st') ≤ 1 + 9).
Proof.
  destruct (X11_one_node_per_iteration (ops := fixed_point_ops) 9 5 0) as [Ha Hr].
  split.
  - eexists. split; [vm_compute; reflexivity |].
    refine (proj1 (Ha amaf_start _ true _)). vm_compute. reflexivity.
  - eexists. split; [vm_compute; reflexivity |].
    refine (proj1 (Hr rave_start _ true _)). vm_compute. reflexivity.
Defined.

(** ** best_child, fully_expanded and pick_unvisited *)

Lemma amaf_py_max_by_n_Some (st : AMAF.State) (cs : list nat) (b : nat) :
  ∃ best, AMAF.py_max_by_n st cs (Some b) = Some best ∧ (best = b ∨ best ∈ cs).
Proof.
  revert b. induction cs as [|c cs IH]; intros b; cbn [AMAF.py_max_by_n].
  - exists b. by split; [| left].
  - case_bool_decide.
    + destruct (IH c) as (best & Heq & Hin). exists best. split; [done |].
      right. destruct Hin as [-> | Hin]; [left | by right].
    + destruct (IH b) as (best & Heq & Hin). exists best. split; [done |].
      destruct Hin as [-> | Hin]; [by left | right; by right].
Qed.

Lemma rave_best_child_loop_Some (st : RAVE.State) (cs : list nat) (mv : Z)
    (bn : option nat) (best : nat) :
  RAVE.best_child_loop st cs mv bn = Some best →
  bn = Some best ∨ (best ∈ cs ∧ (mv < RAVE.n (RAVE.node_at st best))%Z).
Proof.
  revert mv bn. induction cs as [|c cs IH]; intros mv bn;
    cbn [RAVE.best_child_loop]; [by left |].
  case_bool_decide as Hc.
  - intros [[= ->] | [Hin Hlt]]%IH; right; (split; [| lia]); [left | by right].
  - intros [-> | [Hin Hlt]]%IH; [by left | right]. split; [by right | done].
Qed.

Lemma rave_best_child_loop_None (st : RAVE.State) (cs : list nat) (mv : Z) :
  RAVE.best_child_loop st cs mv None = None
  ↔ ∀ c, c ∈ cs → (RAVE.n (RAVE.node_at st c) ≤ mv)%Z.
Proof.
  induction cs as [|c cs IH]; cbn [RAVE.best_child_loop].
  - split; [intros _ c Hc; inversion Hc | done].
  - case_bool_decide as Hc.
    + split.
      * intros Hnone. exfalso.
        destruct (RAVE.best_child_loop st cs (RAVE.n (RAVE.node_at st c)) (Some c))
          as [best|] eqn:Hloop; [done |]. clear Hnone IH.
        revert Hloop. generalize (RAVE.n (RAVE.node_at st c)). generalize c.
        induction cs as [|c' cs IH']; intros c0 mv0; cbn [RAVE.best_child_loop];
          [done |].
        case_bool_decide; apply IH'.
      * intros Hall. specialize (Hall c ltac:(left)). lia.
    + rewrite IH. split.
      * intros Hall c' [-> | Hin]%elem_of_cons; [lia | by apply Hall].
      * intros Hall c' Hin. apply Hall. by right.
Qed.

(** X12: [best_child] differs between the files on a node whose children
    have no visit.  In connect4_AMAF.py ([max] with [default=None]) it is
    None exactly for a node without children; in connect4_RAVE.py (a loop
    that starts from [max_visit = 0]) it is None exactly when no child has a
    positive number of visits.  A child returned is a child of the node. *)
Theorem X12_best_child_none (sa : AMAF.State) (sr : RAVE.State) (node : nat) :
  (AMAF.best_child sa node = None
     ↔ AMAF.children (AMAF.node_at sa node) = [])
  ∧ (∀ best, AMAF.best_child sa node = Some best →
       best ∈ AMAF.children (AMAF.node_at sa node))
  ∧ (RAVE.best_child sr node = None
       ↔ ∀ c, c ∈ RAVE.children (RAVE.node_at sr node) →
              (RAVE.n (RAVE.node_at sr c) ≤ 0)%Z)
  ∧ (∀ best, RAVE.best_child sr node = Some best →
       best ∈ RAVE.children (RAVE.node_at sr node)
       ∧ (0 < RAVE.n (RAVE.node_at sr best))%Z).
Proof.
  split_and!.
  - unfold AMAF.best_child.
    destruct (AMAF.children (AMAF.node_at sa node)) as [|c cs]; [done |].
    cbn [AMAF.py_max_by_n].
    destruct (amaf_py_max_by_n_Some sa cs c) as (best & -> & _). done.
  - unfold AMAF.best_child. intros best.
    destruct (AMAF.children (AMAF.node_at sa node)) as [|c cs]; [done |].
    cbn [AMAF.py_max_by_n].
    destruct (amaf_py_max_by_n_Some sa cs c) as (best' & -> & Hin).
    intros [= <-]. destruct Hin as [-> | Hin]; [left | by right].
  - apply rave_best_child_loop_None.
  - intros best Hbest. apply rave_best_child_loop_Some in Hbest.
    by destruct Hbest as [? | ?].
Qed.

Lemma X12_best_child_none_witness :
  AMAF.best_child (AMAF.add_child amaf_start 0) 0 = Some 1
  ∧ RAVE.best_child (RAVE.add_child rave_start 0) 0 = None.
Proof.
  destruct (X12_best_child_none (AMAF.add_child amaf_start 0)
              (RAVE.add_child rave_start 0) 0) as (_ & _ & Hnone & _).
  split; [reflexivity |]. apply Hnone.
  intros c Hc. apply list_elem_of_singleton in Hc as ->. vm_compute. discriminate.
Defined.

Lemma rave_visited_fold (st : RAVE.State) (cs : list nat) (acc : bool) :
  foldl (λ visited child,
           if bool_decide (RAVE.n (RAVE.node_at st child) = 0%Z) then false
           else visited) acc cs
  = acc && forallb (λ c, negb (bool_decide (RAVE.n (RAVE.node_at st c) = 0%Z))) cs.
Proof.
  revert acc. induction cs as [|c cs IH]; intros acc; cbn [foldl forallb].
  - by rewrite andb_true_r.
  - rewrite IH. case_bool_decide; simpl; [by rewrite andb_false_r | done].
Qed.

(** X13: [fully_expanded(node)] holds exactly when the node has as many
    children as its board has legal columns and every child has been
    visited ([n > 0] in connect4_AMAF.py, [n != 0] in connect4_RAVE.py);
    [pick_unvisited] then finds no child, and a child it finds has no
    visit. *)
Theorem X13_fully_expanded (sa : AMAF.State) (sr : RAVE.State) (node : nat) :
  (AMAF.fully_expanded sa node = true
     ↔ length (AMAF.children (AMAF.node_at sa node))
       = length (legal_columns (AmafSpec.board_of sa node))
       ∧ ∀ c, c ∈ AMAF.children (AMAF.node_at sa node) →
              (0 < AMAF.n (AMAF.node_at sa c))%Z)
  ∧ (AMAF.fully_expanded sa node = true →
     AMAF.pick_unvisited sa (AMAF.children (AMAF.node_at sa node)) = None)
  ∧ (∀ cs c, AMAF.pick_unvisited sa cs = Some c →
       c ∈ cs ∧ AMAF.n (AMAF.node_at sa c) = 0%Z)
  ∧ (RAVE.fully_expanded sr node = true
       ↔ length (RAVE.children (RAVE.node_at sr node))
         = length (legal_columns (RaveSpec.board_of sr node))
         ∧ ∀ c, c ∈ RAVE.children (RAVE.node_at sr node) →
                RAVE.n (RAVE.node_at sr c) ≠ 0%Z)
  ∧ (RAVE.fully_expanded sr node = true →
     RAVE.pick_unvisited sr (RAVE.children (RAVE.node_at sr node)) = None)
  ∧ (∀ cs c, RAVE.pick_unvisited sr cs = Some c →
       c ∈ cs ∧ RAVE.n (RAVE.node_at sr c) = 0%Z).
Proof.
  assert (AMAF.fully_expanded sa node = true
     ↔ length (AMAF.children (AMAF.node_at sa node))
       = length (legal_columns (AmafSpec.board_of sa node))
       ∧ ∀ c, c ∈ AMAF.children (AMAF.node_at sa node) →
              (0 < AMAF.n (AMAF.node_at sa c))%Z) as Hamaf.
  { unfold AMAF.fully_expanded. rewrite top_row_zeros_legal.
    fold (AmafSpec.board_of sa node). case_bool_decide as Hlen.
    - rewrite forallb_forall. split.
      + intros Hall. split; [done |]. intros c Hc.
        apply list_elem_of_In, Hall in Hc. by apply bool_decide_eq_true in Hc.
      + intros [_ Hall] c Hc. apply bool_decide_eq_true, Hall.
        by apply list_elem_of_In.
    - split; [done | tauto]. }
  assert (RAVE.fully_expanded sr node = true
       ↔ length (RAVE.children (RAVE.node_at sr node))
         = length (legal_columns (RaveSpec.board_of sr node))
         ∧ ∀ c, c ∈ RAVE.children (RAVE.node_at sr node) →
                RAVE.n (RAVE.node_at sr c) ≠ 0%Z) as Hrave.
  { unfold RAVE.fully_expanded. rewrite top_row_zeros_legal.
    fold (RaveSpec.board_of sr node). case_bool_decide as Hlen.
    - rewrite rave_visited_fold. cbn [andb]. rewrite forallb_forall. split.
      + intros Hall. split; [done |]. intros c Hc.
        apply list_elem_of_In, Hall in Hc.
        by apply negb_true_iff, bool_decide_eq_false in Hc.
      + intros [_ Hall] c Hc. apply negb_true_iff, bool_decide_eq_false, Hall.
        by apply list_elem_of_In.
    - split; [done |]. intros [Heq _]. by rewrite Heq in Hlen. }
  split_and!.
  - exact Hamaf.
  - intros [_ Hall]%Hamaf. apply find_all_false. intros c Hc.
    apply bool_decide_eq_false. specialize (Hall c Hc). lia.
  - intros cs c Hfind. unfold AMAF.pick_unvisited in Hfind.
    apply find_some in Hfind as [Hin Hn].
    split; [by apply list_elem_of_In | by apply bool_decide_eq_true in Hn].
  - exact Hrave.
  - intros [_ Hall]%Hrave. apply find_all_false. intros c Hc.
    apply bool_decide_eq_false. by apply Hall.
  - intros cs c Hfind. unfold RAVE.pick_unvisited in Hfind.
    apply find_some in Hfind as [Hin Hn].
    split; [by apply list_elem_of_In | by apply bool_decide_eq_true in Hn].
Qed.

Lemma X13_fully_expanded_witness :
  AMAF.fully_expanded (AMAF.add_child amaf_start 0) 0 = false
  ∧ AMAF.pick_unvisited (AMAF.add_child amaf_start 0) [1] = Some 1.
Proof.
  destruct (X13_fully_expanded (AMAF.add_child amaf_start 0)
              (RAVE.add_child rave_start 0) 0) as (Hfull & _).
  split; [| reflexivity].
  destruct (AMAF.fully_expanded (AMAF.add_child amaf_start 0) 0) eqn:Hfe; [| done].
  exfalso. destruct (proj1 Hfull eq_refl) as [Hlen _].
  vm_compute in Hlen. discriminate.
Defined.

(** ** connect4_AMAF.py: what holds of every node of the tree *)

Module AmafInv.
Import AMAF AmafSpec AmafFacts AmafFrame AmafTree AmafBack AmafSize.

Lemma amaf_board_of_frame (st st' : State) (x : nat) :
  tree_ok st → frame st st' → x < length (nodes st) →
  board_of st' x = board_of st x.
Proof.
  intros Hok (Hpre & _ & Hb) Hx. apply amaf_board_of_same; auto.
Qed.

Lemma amaf_child_lt (st : State) (x c : nat) :
  tree_ok st → x < length (nodes st) → c ∈ children (node_at st x) →
  c < length (nodes st).
Proof.
  intros [_ Hok] Hx Hc. destruct (Hok x Hx) as (_ & _ & _ & Hch & _).
  destruct (Hch c Hc) as (? & _). lia.
Qed.

Lemma amaf_game_tree_same (st st' : State) :
  tree_ok st → frame st st' → length (nodes st') = length (nodes st) →
  (∀ x, children (node_at st' x) = children (node_at st x)
        ∧ turn (node_at st' x) = turn (node_at st x)
        ∧ terminal (node_at st' x) = terminal (node_at st x)
        ∧ (q (node_at st x) ≤ q (node_at st' x))%Z
        ∧ (q (node_at st' x) - q (node_at st x)
           ≤ n (node_at st' x) - n (node_at st x))%Z) →
  amaf_game_tree st → amaf_game_tree st'.
Proof.
  intros Hok Hframe Hlen Hsame Htree x Hx. rewrite Hlen in Hx.
  destruct (Htree x Hx) as (Hq & Hterm & Hleaf & Hdrops).
  destruct (Hsame x) as (Hch & Hturn & Hterm' & Hq1 & Hq2).
  unfold amaf_node_inv. cbv zeta.
  rewrite Hch, Hturn, Hterm', (amaf_board_of_frame st st' x Hok Hframe Hx).
  split_and!; [lia.. | done | done |].
  intros c Hc. rewrite (amaf_board_of_frame st st' c Hok Hframe).
  - by apply Hdrops.
  - by eapply amaf_child_lt.
Qed.

Lemma amaf_game_tree_counted (st st' : State) :
  tree_ok st → arrays st `prefix_of` arrays st' →
  length (nodes st') = length (nodes st) →
  (∀ x, amaf_counted (node_at st x) (node_at st' x)) →
  amaf_game_tree st → amaf_game_tree st'.
Proof.
  intros Hok Hpre Hlen Hcount. apply amaf_game_tree_same; [done | | done |].
  - split_and!; [done | lia |]. intros x _.
    by destruct (Hcount x) as (_ & ? & _).
  - intros x. destruct (Hcount x) as (_ & _ & ? & ? & ? & _ & ? & ?). done.
Qed.

Lemma amaf_game_tree_add_child (st : State) (self : nat) :
  tree_ok st → self < length (nodes st) →
  terminal (node_at st self) = false →
  amaf_game_tree st → amaf_game_tree (add_child st self).
Proof.
  intros Hok Hself Hnt Htree.
  pose proof (amaf_frame_add_child st self) as Hframe.
  destruct (amaf_add_child_ok st self Hok Hself)
    as (_ & [(_ & ->) | [(_ & i & j & Hdrop & _ & _ & Hadd) | (_ & Hnodes & _)]]);
    [done | |].
  - (* a child was appended *)
    destruct Hadd as (tl & Htl & Hbrd & Hnodes).
    destruct (amaf_added_nodes st (add_child st self) self _ _ Hself Hnodes)
      as (Hlen & Hat_self & Hat_new & Hat_old).
    set (st' := add_child st self) in *.
    assert (∀ y, y < length (nodes st) → board_of st' y = board_of st y) as Hboards.
    { intros y Hy. by apply amaf_board_of_frame. }
    assert (board_of st' (length (nodes st))
            = setitem (board_of st self) j i (turn (node_at st self))) as Hnew.
    { unfold board_of at 1. rewrite Hat_new. cbn [board]. unfold array_at.
      by rewrite Hbrd. }
    intros x Hx. rewrite Hlen in Hx. unfold amaf_node_inv. cbv zeta.
    destruct (decide (x = length (nodes st))) as [-> | Hxnew].
    { rewrite Hat_new, Hnew. cbn [q n terminal children].
      split_and!; [lia.. | done | done |]. intros c Hc. inversion Hc. }
    assert (x < length (nodes st)) as Hx' by lia.
    destruct (Htree x Hx') as (Hq & Hterm & Hleaf & Hdrops).
    rewrite (Hboards x Hx').
    destruct (decide (x = self)) as [-> | Hxself].
    + rewrite Hat_self. cbn [q n terminal children turn append_child].
      split_and!; [lia.. | done | by rewrite Hnt |].
      intros c [Hc | ->%list_elem_of_singleton]%elem_of_app.
      * rewrite (Hboards c) by (by eapply amaf_child_lt). by apply Hdrops.
      * rewrite Hnew. exists i, j. done.
    + rewrite (Hat_old x Hxself Hx').
      split_and!; [lia.. | done | done |]. intros c Hc.
      rewrite (Hboards c) by (by eapply amaf_child_lt). by apply Hdrops.
  - (* the node was marked as expanded *)
    apply (amaf_game_tree_same st); [done | done | | | done].
    + by rewrite Hnodes, length_insert.
    + intros x. rewrite (amaf_node_at_insert st _ self _ x Hself Hnodes).
      case_decide as Hx; [subst x; simpl |]; split_and!; (done || lia).
Qed.

Lemma amaf_add_child_cols_stats (st : State) (self : nat) (cols : list nat) :
  amaf_stats (add_child_cols st self cols) = amaf_stats st.
Proof.
  revert st. induction cols as [|i cols IH]; intros st; cbn [add_child_cols];
    [done |].
  cbv zeta. case_bool_decide; [| apply IH].
  destruct (find _ (range 6)) as [j|]; [| apply IH].
  unfold np_copy. rewrite amaf_node_at_with_arrays, amaf_copy_setitem.
  destruct (negb _); [done |]. by rewrite IH.
Qed.

Lemma amaf_add_child_stats (st : State) (self : nat) :
  amaf_stats (add_child st self) = amaf_stats st.
Proof.
  unfold add_child. destruct (expanded _); [done |].
  apply amaf_add_child_cols_stats.
Qed.

Lemma amaf_winners_on_le (st : State) (winner : option Z) (path : list nat) :
  amaf_winners_on st winner path ≤ length path.
Proof. unfold amaf_winners_on. apply length_filter. Qed.

Lemma amaf_table_ok_backpropagate (fuel : nat) (st : State) (node : nat)
    (winner : option Z) (actions : list (nat * nat)) (st' : State) :
  backpropagate fuel st node winner actions = Ret st' →
  amaf_table_ok (amaf_stats st) → amaf_table_ok (amaf_stats st').
Proof.
  intros Hrun Hok a.
  destruct (amaf_backpropagate_table fuel st node winner actions st' a Hrun)
    as [-> _].
  pose proof (amaf_winners_on_le st winner (path_to_root fuel st node)).
  specialize (Hok a). cbn [fst snd]. nia.
Qed.

Lemma amaf_game_tree_root (b : Board) (symbol : Z)
    (stats : gmap (nat * nat) (Z * Z)) (draws : list nat) :
  amaf_game_tree (root_state b symbol stats draws).
Proof.
  intros x Hx. simpl in Hx. assert (x = 0) as -> by lia.
  unfold amaf_node_inv. cbv zeta. split_and!; try done.
  intros c Hc. inversion Hc.
Qed.

Section amaf_inv.
Context {F : Type} {ops : FloatOps F}.

Lemma amaf_search_inv_step (st st1 st2 st3 : State) (leaf : nat)
    (log : list (Z * Z)) (w : option Z) (acts : list (nat * nat)) :
  search_inv st →
  select st 0 = Ret (st1, Some leaf, log) →
  rollout 42 st1 leaf = Ret (st2, w, acts) →
  backpropagate (length (nodes st2)) st2 leaf w acts = Ret st3 →
  search_inv st3.
Proof.
  intros Hinv Hsel Hroll Hback.
  destruct (amaf_iterate_spec 1 st Hinv) as (st' & fin & Hrun & Hinv' & _).
  assert (iterate 1 st 0 = Ret (st3, true)) as Heq.
  { cbn [iterate]. rewrite Hsel, res_bind_ret. rewrite Hroll, res_bind_ret.
    by rewrite Hback, res_bind_ret. }
  rewrite Heq in Hrun. by injection Hrun as <- _.
Qed.

Lemma amaf_game_tree_select (st st1 : State) (leaf : option nat)
    (log : list (Z * Z)) :
  search_inv st → amaf_game_tree st →
  select st 0 = Ret (st1, leaf, log) →
  amaf_game_tree st1 ∧ amaf_stats st1 = amaf_stats st ∧ tree_ok st1
  ∧ (leaf = None → search_inv st1).
Proof.
  intros Hinv Htree Hsel. pose proof Hinv as (Hok & _). pose proof Hok as [Hlen _].
  destruct (amaf_select_spec st 0 Hinv Hlen)
    as (st' & leaf' & log' & Hsel' & _ & Hok1 & _ & _ & _ & Hleaf).
  rewrite Hsel in Hsel'. injection Hsel' as <- <- <-.
  assert (leaf = None → search_inv st1) as Hnone.
  { intros ->. by split. }
  apply amaf_select_effect in Hsel as (node1 & log0 & Hloop & Hcases).
  destruct (amaf_select_loop_spec (length (nodes st)) st 0 [] Hinv Hlen
              ltac:(lia) ltac:(constructor))
    as (node' & log1 & Hloop' & Hnode & _).
  rewrite Hloop in Hloop'. injection Hloop' as <- <-.
  destruct Hcases as [(_ & -> & _) | (Hnt & -> & _)]; [done |].
  split_and!; [| apply amaf_add_child_stats | done | done].
  by apply amaf_game_tree_add_child.
Qed.

Lemma amaf_game_tree_iterate (K : nat) (st st' : State) (fin : bool) :
  search_inv st → amaf_game_tree st →
  iterate K st 0 = Ret (st', fin) →
  search_inv st' ∧ amaf_game_tree st'
  ∧ (amaf_table_ok (amaf_stats st) → amaf_table_ok (amaf_stats st')).
Proof.
  revert st. induction K as [|K IH]; intros st Hinv Htree; cbn [iterate].
  { by intros [= <- _]. }
  destruct (select st 0) as [[[st1 leaf] log]| |] eqn:Hsel; [|done..].
  cbn [mbind res_bind].
  destruct (amaf_game_tree_select st st1 leaf log Hinv Htree Hsel)
    as (Htree1 & Hstats1 & Hok1 & Hnone).
  destruct leaf as [l|]; [| intros [= <- _]; rewrite Hstats1; auto].
  destruct (rollout 42 st1 l) as [[[st2 w] acts]| |] eqn:Hroll; [|done..].
  cbn [mbind res_bind].
  destruct (backpropagate _ st2 l w acts) as [st3| |] eqn:Hback; [|done..].
  cbn [mbind res_bind]. intros Hrun.
  pose proof (amaf_search_inv_step st st1 st2 st3 l log w acts Hinv Hsel Hroll
                Hback) as Hinv3.
  pose proof (amaf_rollout_grow _ _ _ _ _ _ Hroll) as (Hn2 & Hs2 & Ha2).
  pose proof (amaf_backpropagate_effect _ _ _ _ _ _ Hback)
    as (Ha3 & _ & Hn3 & Hc3).
  assert (amaf_game_tree st2) as Htree2.
  { apply (amaf_game_tree_counted st1); [done | done | by rewrite Hn2 | | done].
    intros x. rewrite (amaf_node_at_nodes st1 st2 x Hn2).
    apply amaf_counted_refl. }
  assert (tree_ok st2) as Hok2.
  { apply (amaf_tree_ok_same st1); [done | by rewrite Hn2 | | done].
    intros x _. by rewrite (amaf_node_at_nodes st1 st2 x Hn2). }
  assert (amaf_game_tree st3) as Htree3.
  { apply (amaf_game_tree_counted st2); [done | by rewrite Ha3 | done.. ]. }
  destruct (IH st3 Hinv3 Htree3 Hrun) as (Hinv' & Htree' & Htable').
  split_and!; [done.. |]. intros Htable. apply Htable'.
  apply (amaf_table_ok_backpropagate _ _ _ _ _ _ Hback).
  by rewrite Hs2, Hstats1.
Qed.

Lemma amaf_reached_game_tree (K : nat) (b : Board) (symbol : Z)
    (stats : gmap (nat * nat) (Z * Z)) (draws : list nat)
    (st : State) (fin : bool) :
  symbol = 1%Z ∨ symbol = 2%Z →
  iterate K (root_state b symbol stats draws) 0 = Ret (st, fin) →
  search_inv st ∧ amaf_game_tree st
  ∧ (amaf_table_ok stats → amaf_table_ok (amaf_stats st)).
Proof.
  intros Hsym Hrun.
  apply (amaf_game_tree_iterate K (root_state b symbol stats draws) st fin);
    [by apply amaf_root_state_inv | apply amaf_game_tree_root | done].
Qed.

End amaf_inv.

End AmafInv.

(** ** connect4_RAVE.py: what holds of every node of the tree *)

Module RaveInv.
Import RAVE RaveSpec RaveFacts RaveFrame RaveTree RaveBack RaveSize.

Lemma rave_board_of_frame (st st' : State) (x : nat) :
  tree_ok st → frame st st' → x < length (nodes st) →
  board_of st' x = board_of st x.
Proof.
  intros Hok (Hpre & _ & Hb) Hx. apply rave_board_of_same; auto.
Qed.

Lemma rave_child_lt (st : State) (x c : nat) :
  tree_ok st → x < length (nodes st) → c ∈ children (node_at st x) →
  c < length (nodes st).
Proof.
  intros [_ Hok] Hx Hc. destruct (Hok x Hx) as (_ & _ & _ & Hch & _).
  destruct (Hch c Hc) as (? & _). lia.
Qed.

Lemma rave_game_tree_same (st st' : State) :
  tree_ok st → frame st st' → length (nodes st') = length (nodes st) →
  (∀ x, children (node_at st' x) = children (node_at st x)
        ∧ turn (node_at st' x) = turn (node_at st x)
        ∧ terminal (node_at st' x) = terminal (node_at st x)
        ∧ (q (node_at st x) ≤ q (node_at st' x))%Z
        ∧ (q (node_at st' x) - q (node_at st x)
           ≤ n (node_at st' x) - n (node_at st x))%Z
        ∧ (rave_q (node_at st x) ≤ rave_q (node_at st' x))%Z
        ∧ (rave_q (node_at st' x) - rave_q (node_at st x)
           ≤ rave_n (node_at st' x) - rave_n (node_at st x))%Z) →
  rave_game_tree st → rave_game_tree st'.
Proof.
  intros Hok Hframe Hlen Hsame Htree x Hx. rewrite Hlen in Hx.
  destruct (Htree x Hx) as (Hq & Hrq & Hterm & Hleaf & Hdrops).
  destruct (Hsame x) as (Hch & Hturn & Hterm' & Hq1 & Hq2 & Hr1 & Hr2).
  unfold rave_node_inv, child_mark. cbv zeta.
  rewrite Hch, Hturn, Hterm', (rave_board_of_frame st st' x Hok Hframe Hx).
  split_and!; [lia.. | done | done |].
  intros c Hc. rewrite (rave_board_of_frame st st' c Hok Hframe).
  - by apply Hdrops.
  - by eapply rave_child_lt.
Qed.

Lemma rave_game_tree_counted (st st' : State) :
  tree_ok st → rave_counted_state st st' →
  rave_game_tree st → rave_game_tree st'.
Proof.
  intros Hok (Harr & _ & Hlen & Hcount).
  apply rave_game_tree_same; [done | | done |].
  - split_and!; [by rewrite Harr | lia |]. intros x _.
    by destruct (Hcount x) as (_ & ? & _).
  - intros x.
    destruct (Hcount x) as (_ & _ & ? & ? & ? & _ & ? & ? & ? & ?). done.
Qed.

Lemma rave_game_tree_add_child (st : State) (self : nat) :
  tree_ok st → self < length (nodes st) →
  terminal (node_at st self) = false →
  rave_game_tree st → rave_game_tree (add_child st self).
Proof.
  intros Hok Hself Hnt Htree.
  pose proof (rave_frame_add_child st self) as Hframe.
  destruct (rave_add_child_ok st self Hok Hself)
    as (_ & [(_ & ->) | [(_ & i & j & Hdrop & _ & _ & Hadd) | (_ & Hnodes & _)]]);
    [done | |].
  - (* a child was appended *)
    destruct Hadd as (tl & Htl & Hbrd & Hnodes).
    destruct (rave_added_nodes st (add_child st self) self _ _ Hself Hnodes)
      as (Hlen & Hat_self & Hat_new & Hat_old).
    set (st' := add_child st self) in *.
    assert (∀ y, y < length (nodes st) → board_of st' y = board_of st y) as Hboards.
    { intros y Hy. by apply rave_board_of_frame. }
    assert (board_of st' (length (nodes st))
            = setitem (board_of st self) j i (child_mark (node_at st self)))
      as Hnew.
    { unfold board_of at 1. rewrite Hat_new. cbn [board]. unfold array_at.
      by rewrite Hbrd. }
    intros x Hx. rewrite Hlen in Hx. unfold rave_node_inv. cbv zeta.
    destruct (decide (x = length (nodes st))) as [-> | Hxnew].
    { rewrite Hat_new, Hnew. cbn [q n rave_q rave_n terminal children].
      split_and!; [lia.. | done | done |]. intros c Hc. inversion Hc. }
    assert (x < length (nodes st)) as Hx' by lia.
    destruct (Htree x Hx') as (Hq & Hrq & Hterm & Hleaf & Hdrops).
    rewrite (Hboards x Hx').
    destruct (decide (x = self)) as [-> | Hxself].
    + rewrite Hat_self. unfold child_mark.
      cbn [q n rave_q rave_n terminal children turn append_child].
      split_and!; [lia.. | done | by rewrite Hnt |].
      intros c [Hc | ->%list_elem_of_singleton]%elem_of_app.
      * rewrite (Hboards c) by (by eapply rave_child_lt). by apply Hdrops.
      * rewrite Hnew. exists i, j. done.
    + rewrite (Hat_old x Hxself Hx').
      split_and!; [lia.. | done | done |]. intros c Hc.
      rewrite (Hboards c) by (by eapply rave_child_lt). by apply Hdrops.
  - (* the node was marked as expanded *)
    apply (rave_game_tree_same st); [done | done | | | done].
    + by rewrite Hnodes, length_insert.
    + intros x. rewrite (rave_node_at_insert st _ self _ x Hself Hnodes).
      case_decide as Hx; [subst x; simpl |]; split_and!; (done || lia).
Qed.

Lemma rave_game_tree_root (b : Board) (symbol : Z) (draws : list nat) :
  rave_game_tree (root_state b symbol draws).
Proof.
  intros x Hx. simpl in Hx. assert (x = 0) as -> by lia.
  unfold rave_node_inv. cbv zeta. split_and!; try done.
  intros c Hc. inversion Hc.
Qed.

Section rave_inv.
Context {F : Type} {ops : FloatOps F}.
Variable t : Z.
Hypothesis t_nonneg : (0 ≤ t)%Z.

Lemma rave_search_inv_step (st st1 st2 st3 : State) (leaf : nat)
    (log : list (Z * Z)) (w : option Z) (acts : list (nat * nat)) :
  search_inv st →
  select t st 0 = Ret (st1, Some leaf, log) →
  rollout 42 st1 leaf = Ret (st2, w, acts) →
  backpropagate (length (nodes st2)) st2 leaf w acts = Ret st3 →
  search_inv st3.
Proof.
  intros Hinv Hsel Hroll Hback.
  destruct (rave_iterate_spec t t_nonneg 1 st Hinv)
    as (st' & fin & Hrun & Hinv' & _).
  assert (iterate t 1 st 0 = Ret (st3, true)) as Heq.
  { cbn [iterate]. rewrite Hsel, res_bind_ret. rewrite Hroll, res_bind_ret.
    by rewrite Hback, res_bind_ret. }
  rewrite Heq in Hrun. by injection Hrun as <- _.
Qed.

Lemma rave_game_tree_select (st st1 : State) (leaf : option nat)
    (log : list (Z * Z)) :
  search_inv st → rave_game_tree st →
  select t st 0 = Ret (st1, leaf, log) →
  rave_game_tree st1 ∧ tree_ok st1 ∧ (leaf = None → search_inv st1).
Proof.
  intros Hinv Htree Hsel. pose proof Hinv as (Hok & _). pose proof Hok as [Hlen _].
  destruct (rave_select_spec t t_nonneg st 0 Hinv Hlen)
    as (st' & leaf' & log' & Hsel' & _ & Hok1 & _ & _ & _ & Hleaf).
  rewrite Hsel in Hsel'. injection Hsel' as <- <- <-.
  assert (leaf = None → search_inv st1) as Hnone.
  { intros ->. by split. }
  apply rave_select_effect in Hsel as (node1 & log0 & Hloop & Hcases).
  destruct (rave_select_loop_spec t t_nonneg (length (nodes st)) st 0 [] Hinv Hlen
              ltac:(lia) ltac:(constructor))
    as (node' & log1 & Hloop' & Hnode & _).
  rewrite Hloop in Hloop'. injection Hloop' as <- <-.
  destruct Hcases as [(_ & -> & _) | (Hnt & -> & _)]; [done |].
  split_and!; [| done | done].
  by apply rave_game_tree_add_child.
Qed.

Lemma rave_game_tree_iterate (K : nat) (st st' : State) (fin : bool) :
  search_inv st → rave_game_tree st →
  iterate t K st 0 = Ret (st', fin) →
  search_inv st' ∧ rave_game_tree st'.
Proof.
  revert st. induction K as [|K IH]; intros st Hinv Htree; cbn [iterate].
  { by intros [= <- _]. }
  destruct (select t st 0) as [[[st1 leaf] log]| |] eqn:Hsel; [|done..].
  cbn [mbind res_bind].
  destruct (rave_game_tree_select st st1 leaf log Hinv Htree Hsel)
    as (Htree1 & Hok1 & Hnone).
  destruct leaf as [l|]; [| intros [= <- _]; auto].
  destruct (rollout 42 st1 l) as [[[st2 w] acts]| |] eqn:Hroll; [|done..].
  cbn [mbind res_bind].
  destruct (backpropagate _ st2 l w acts) as [st3| |] eqn:Hback; [|done..].
  cbn [mbind res_bind]. intros Hrun.
  pose proof (rave_search_inv_step st st1 st2 st3 l log w acts Hinv Hsel Hroll
                Hback) as Hinv3.
  pose proof (rave_rollout_grow _ _ _ _ _ _ Hroll) as (Hn2 & Ha2).
  pose proof (rave_backpropagate_effect _ _ _ _ _ _ Hback) as Hc3.
  assert (tree_ok st2) as Hok2.
  { apply (rave_tree_ok_same st1); [done | by rewrite Hn2 | | done].
    intros x _. by rewrite (rave_node_at_nodes st1 st2 x Hn2). }
  assert (rave_game_tree st2) as Htree2.
  { apply (rave_game_tree_same st1); [done | | by rewrite Hn2 | | done].
    - split_and!; [done | by rewrite Hn2 |]. intros x _.
      by rewrite (rave_node_at_nodes st1 st2 x Hn2).
    - intros x. rewrite (rave_node_at_nodes st1 st2 x Hn2).
      split_and!; (done || lia). }
  assert (rave_game_tree st3) as Htree3.
  { by apply (rave_game_tree_counted st2). }
  by apply (IH st3).
Qed.

Lemma rave_reached_game_tree (K : nat) (b : Board) (symbol : Z)
    (draws : list nat) (st : State) (fin : bool) :
  iterate t K (root_state b symbol draws) 0 = Ret (st, fin) →
  search_inv st ∧ rave_game_tree st.
Proof.
  intros Hrun.
  apply (rave_game_tree_iterate K (root_state b symbol draws) st fin);
    [by apply rave_root_state_inv | apply rave_game_tree_root | done].
Qed.

End rave_inv.

End RaveInv.

(** ** The tree at any time of the search, and the move returned *)

(** X14: in every tree the search builds from a fresh root, the score [q]
    of a node lies between 0 and its number of visits [n]:
    [backpropagate] adds at most one to [q] whenever it adds one to [n].
    The same holds of the RAVE counters of connect4_RAVE.py, and of every
    entry of the table [amaf_stats] of connect4_AMAF.py if it held when
    the search began. *)
Theorem X14_scores_within_visits {F} {ops : FloatOps F}
    (K : nat) (b : Board) (symbol t : Z)
    (stats : gmap (nat * nat) (Z * Z)) (draws : list nat) :
  symbol = 1%Z ∨ symbol = 2%Z → (0 ≤ t)%Z →
  (∀ st fin,
     AMAF.iterate K (AMAF.root_state b symbol stats draws) 0 = Ret (st, fin) →
     (∀ x, x < length (AMAF.nodes st) →
        (0 ≤ AMAF.q (AMAF.node_at st x) ≤ AMAF.n (AMAF.node_at st x))%Z)
     ∧ (amaf_table_ok stats → amaf_table_ok (AMAF.amaf_stats st)))
  ∧ (∀ st fin,
       RAVE.iterate t K (RAVE.root_state b symbol draws) 0 = Ret (st, fin) →
       ∀ x, x < length (RAVE.nodes st) →
         (0 ≤ RAVE.q (RAVE.node_at st x) ≤ RAVE.n (RAVE.node_at st x))%Z
         ∧ (0 ≤ RAVE.rave_q (RAVE.node_at st x)
            ≤ RAVE.rave_n (RAVE.node_at st x))%Z).
Proof.
  intros Hsym Ht. split.
  - intros st fin Hrun.
    destruct (AmafInv.amaf_reached_game_tree K b symbol stats draws st fin Hsym
                Hrun) as (_ & Htree & Htable).
    split; [| done]. intros x Hx. by destruct (Htree x Hx) as (? & _).
  - intros st fin Hrun x Hx.
    destruct (RaveInv.rave_reached_game_tree t Ht K b symbol draws st fin Hrun)
      as (_ & Htree).
    by destruct (Htree x Hx) as (? & ? & _).
Qed.

Lemma X14_scores_within_visits_witness :
  (∃ st fin, AMAF.iterate (ops := fixed_point_ops) 5 amaf_start 0 = Ret (st, fin)
     ∧ (0 ≤ AMAF.q (AMAF.node_at st 0) ≤ AMAF.n (AMAF.node_at st 0))%Z
     ∧ amaf_table_ok (AMAF.amaf_stats st))
  ∧ (∃ st fin, RAVE.iterate (ops := fixed_point_ops) 5 5 rave_start 0
               = Ret (st, fin)
       ∧ (0 ≤ RAVE.rave_q (RAVE.node_at st 0) ≤ RAVE.rave_n (RAVE.node_at st 0))%Z).
Proof.
  destruct (X14_scores_within_visits (ops := fixed_point_ops) 5 zeros 1 5 ∅
              [3; 1; 4; 1; 5; 9; 2; 6] (or_introl eq_refl) ltac:(lia)) as [Ha Hr].
  split.
  - destruct (AMAF.iterate (ops := fixed_point_ops) 5 amaf_start 0)
      as [[st fin]| |] eqn:Hrun; [| vm_compute in Hrun; discriminate..].
    destruct (amaf_reached_inv 5 zeros 1 ∅ [3; 1; 4; 1; 5; 9; 2; 6] st fin
                (or_introl eq_refl) Hrun) as [[[Hlen _] _] _].
    destruct (Ha st fin Hrun) as [Hq Htable].
    exists st, fin. split; [done |]. split; [by apply Hq | apply Htable].
    intros a. unfold amaf_entry. rewrite lookup_empty. simpl. lia.
  - destruct (RAVE.iterate (ops := fixed_point_ops) 5 5 rave_start 0)
      as [[st fin]| |] eqn:Hrun; [| vm_compute in Hrun; discriminate..].
    destruct (rave_reached_inv 5 5 zeros 1 [3; 1; 4; 1; 5; 9; 2; 6] st fin
                ltac:(lia) Hrun) as [[[Hlen _] _] _].
    exists st, fin. split; [done |]. by apply (Hr st fin Hrun 0).
Defined.

(** X15: in every tree the search builds from a fresh root, the flag
    [terminal] of every node is what [check_terminal] says of its board
    now (no board of the tree is ever written to), and a terminal node
    never gets a child.  Both files. *)
Theorem X15_terminal_nodes_stay_leaves {F} {ops : FloatOps F}
    (K : nat) (b : Board) (symbol t : Z)
    (stats : gmap (nat * nat) (Z * Z)) (draws : list nat) :
  symbol = 1%Z ∨ symbol = 2%Z → (0 ≤ t)%Z →
  (∀ st fin,
     AMAF.iterate K (AMAF.root_state b symbol stats draws) 0 = Ret (st, fin) →
     ∀ x, x < length (AMAF.nodes st) →
       AMAF.terminal (AMAF.node_at st x)
       = AMAF.check_terminal (AmafSpec.board_of st x)
       ∧ (AMAF.terminal (AMAF.node_at st x) = true →
          AMAF.children (AMAF.node_at st x) = []))
  ∧ (∀ st fin,
       RAVE.iterate t K (RAVE.root_state b symbol draws) 0 = Ret (st, fin) →
       ∀ x, x < length (RAVE.nodes st) →
         RAVE.terminal (RAVE.node_at st x)
         = RAVE.check_terminal (RaveSpec.board_of st x)
         ∧ (RAVE.terminal (RAVE.node_at st x) = true →
            RAVE.children (RAVE.node_at st x) = [])).
Proof.
  intros Hsym Ht. split.
  - intros st fin Hrun x Hx.
    destruct (AmafInv.amaf_reached_game_tree K b symbol stats draws st fin Hsym
                Hrun) as (_ & Htree & _).
    by destruct (Htree x Hx) as (_ & ? & ? & _).
  - intros st fin Hrun x Hx.
    destruct (RaveInv.rave_reached_game_tree t Ht K b symbol draws st fin Hrun)
      as (_ & Htree).
    by destruct (Htree x Hx) as (_ & _ & ? & ? & _).
Qed.

Lemma X15_terminal_nodes_stay_leaves_witness :
  (∃ st fin, AMAF.iterate (ops := fixed_point_ops) 5 amaf_start 0 = Ret (st, fin)
     ∧ AMAF.terminal (AMAF.node_at st 0)
       = AMAF.check_terminal (AmafSpec.board_of st 0))
  ∧ (∃ st fin, RAVE.iterate (ops := fixed_point_ops) 5 5 rave_start 0
               = Ret (st, fin)
       ∧ RAVE.terminal (RAVE.node_at st 0)
         = RAVE.check_terminal (RaveSpec.board_of st 0)).
Proof.
  destruct (X15_terminal_nodes_stay_leaves (ops := fixed_point_ops) 5 zeros 1 5 ∅
              [3; 1; 4; 1; 5; 9; 2; 6] (or_introl eq_refl) ltac:(lia)) as [Ha Hr].
  split.
  - destruct (AMAF.iterate (ops := fixed_point_ops) 5 amaf_start 0)
      as [[st fin]| |] eqn:Hrun; [| vm_compute in Hrun; discriminate..].
    destruct (amaf_reached_inv 5 zeros 1 ∅ [3; 1; 4; 1; 5; 9; 2; 6] st fin
                (or_introl eq_refl) Hrun) as [[[Hlen _] _] _].
    exists st, fin. split; [done |]. by apply (Ha st fin Hrun 0).
  - destruct (RAVE.iterate (ops := fixed_point_ops) 5 5 rave_start 0)
      as [[st fin]| |] eqn:Hrun; [| vm_compute in Hrun; discriminate..].
    destruct (rave_reached_inv 5 5 zeros 1 [3; 1; 4; 1; 5; 9; 2; 6] st fin
                ltac:(lia) Hrun) as [[[Hlen _] _] _].
    exists st, fin. split; [done |]. by apply (Hr st fin Hrun 0).
Defined.

Lemma one_cell_diff_dropped (b brd : Board) (v : Z) (i j i' : nat) :
  dropped_in b v i' brd → one_cell_diff b brd j i → i = i' ∧ legal_drop b i j.
Proof.
  intros (j' & Hdrop & ->) (_ & _ & Hne & _). unfold setitem in Hne.
  case_bool_decide as Hcell; [| done]. by destruct Hcell as [-> ->].
Qed.

Module AmafMove.
Import AMAF AmafSpec AmafFacts AmafFrame AmafSearch AmafInv.

Section amaf_move.
Context {F : Type} {ops : FloatOps F}.

Lemma amaf_move_of_best_legal (b : Board) (st0 st : State) :
  search_inv st0 → frame st0 st → board_of st0 0 = b →
  search_inv st → amaf_game_tree st →
  (move_of_best st 0 = (-1, -1)%Z
   ∨ ∃ i j, legal_drop b i j ∧ move_of_best st 0 = (Z.of_nat j, Z.of_nat i))
  ∧ (check_terminal b = true → move_of_best st 0 = (-1, -1)%Z).
Proof.
  intros Hinv0 Hframe Hb Hinv Htree.
  pose proof Hinv0 as ([Hlen0 _] & _). pose proof Hinv as ([Hlen _] & _).
  assert (board_of st 0 = b) as Hroot.
  { rewrite <- Hb. apply amaf_board_of_frame; [apply Hinv0 | done | done]. }
  destruct (Htree 0 Hlen) as (_ & Hterm & Hleaf & Hdrops).
  rewrite Hroot in Hterm, Hdrops.
  destruct (amaf_robust_move st Hinv) as [Hnone Hsome].
  split.
  - destruct (children (node_at st 0)) as [|c cs] eqn:Hch; [left; by apply Hnone |].
    right. destruct (Hsome ltac:(done)) as (k & best & j & i & Hmax & Hdiff & ->).
    rewrite Hroot in Hdiff. destruct Hmax as (Hbest & _).
    apply list_elem_of_lookup_2 in Hbest.
    destruct (Hdrops best Hbest) as (i' & Hdrop).
    destruct (one_cell_diff_dropped _ _ _ i j i' Hdrop Hdiff) as [_ Hlegal].
    by exists i, j.
  - intros Hover. apply Hnone, Hleaf. by rewrite Hterm.
Qed.

Lemma amaf_compute_move_legal (K : nat) (b : Board) (symbol : Z)
    (stats : gmap (nat * nat) (Z * Z)) (draws : list nat) :
  symbol = 1%Z ∨ symbol = 2%Z →
  ∃ st mv, compute_move K (root_state b symbol stats draws) 0 = Ret (st, mv)
    ∧ frame (root_state b symbol stats draws) st
    ∧ (mv = (-1, -1)%Z
       ∨ ∃ i j, legal_drop b i j ∧ mv = (Z.of_nat j, Z.of_nat i))
    ∧ (check_terminal b = true → mv = (-1, -1)%Z).
Proof.
  intros Hsym. set (st0 := root_state b symbol stats draws).
  assert (search_inv st0) as Hinv0 by (by apply amaf_root_state_inv).
  destruct (amaf_iterate_spec K st0 Hinv0) as (st & fin & Hrun & _).
  destruct (amaf_reached_game_tree K b symbol stats draws st fin Hsym Hrun)
    as (Hinv & Htree & _).
  pose proof (amaf_frame_iterate K st0 0 st fin Hrun) as Hframe.
  unfold compute_move. rewrite Hrun, res_bind_ret.
  destruct fin.
  - exists st, (move_of_best st 0). split_and!; [done | done | |];
      by apply (amaf_move_of_best_legal b st0 st).
  - exists st, (-1, -1)%Z. split_and!; [done | done | by left | done].
Qed.

End amaf_move.

End AmafMove.

Module RaveMove.
Import RAVE RaveSpec RaveFacts RaveFrame RaveSearch RaveInv.

Section rave_move.
Context {F : Type} {ops : FloatOps F}.
Variable t : Z.
Hypothesis t_nonneg : (0 ≤ t)%Z.

Lemma rave_move_of_best_legal (b : Board) (st0 st : State) :
  search_inv st0 → frame st0 st → board_of st0 0 = b →
  search_inv st → rave_game_tree st →
  (move_of_best st 0 = (-1, -1)%Z
   ∨ ∃ i j, legal_drop b i j ∧ move_of_best st 0 = (Z.of_nat j, Z.of_nat i))
  ∧ (check_terminal b = true → move_of_best st 0 = (-1, -1)%Z).
Proof.
  intros Hinv0 Hframe Hb Hinv Htree.
  pose proof Hinv0 as ([Hlen0 _] & _). pose proof Hinv as ([Hlen _] & _).
  assert (board_of st 0 = b) as Hroot.
  { rewrite <- Hb. apply rave_board_of_frame; [apply Hinv0 | done | done]. }
  destruct (Htree 0 Hlen) as (_ & _ & Hterm & Hleaf & Hdrops).
  rewrite Hroot in Hterm, Hdrops.
  destruct (rave_robust_move st Hinv) as [Hnone Hsome].
  split.
  - destruct (children (node_at st 0)) as [|c cs] eqn:Hch; [left; by apply Hnone |].
    right. destruct (Hsome ltac:(done)) as (k & best & j & i & Hmax & Hdiff & ->).
    rewrite Hroot in Hdiff. destruct Hmax as (Hbest & _).
    apply list_elem_of_lookup_2 in Hbest.
    destruct (Hdrops best Hbest) as (i' & Hdrop).
    destruct (one_cell_diff_dropped _ _ _ i j i' Hdrop Hdiff) as [_ Hlegal].
    by exists i, j.
  - intros Hover. apply Hnone, Hleaf. by rewrite Hterm.
Qed.

Lemma rave_compute_move_legal (K : nat) (b : Board) (symbol : Z)
    (draws : list nat) :
  ∃ st mv, compute_move t K (root_state b symbol draws) 0 = Ret (st, mv)
    ∧ frame (root_state b symbol draws) st
    ∧ (mv = (-1, -1)%Z
       ∨ ∃ i j, legal_drop b i j ∧ mv = (Z.of_nat j, Z.of_nat i))
    ∧ (check_terminal b = true → mv = (-1, -1)%Z).
Proof.
  set (st0 := root_state b symbol draws).
  assert (search_inv st0) as Hinv0 by (by apply rave_root_state_inv).
  destruct (rave_iterate_spec t t_nonneg K st0 Hinv0) as (st & fin & Hrun & _).
  destruct (rave_reached_game_tree t t_nonneg K b symbol draws st fin Hrun)
    as (Hinv & Htree).
  pose proof (rave_frame_iterate t K st0 0 st fin Hrun) as Hframe.
  unfold compute_move. rewrite Hrun, res_bind_ret.
  destruct fin.
  - exists st, (move_of_best st 0). split_and!; [done | done | |];
      by apply (rave_move_of_best_legal b st0 st).
  - exists st, (-1, -1)%Z. split_and!; [done | done | by left | done].
Qed.

End rave_move.

End RaveMove.

(** X16: [compute_move] on a fresh root always returns, and what it
    returns is either the no-move value [(-1, -1)] or the cell [(j, i)] of a
    legal move on the board it was given: column [i] has its top cell empty
    and [j] is the lowest empty row of that column.  On a board on which
    the game is over it returns [(-1, -1)].  Both files. *)
Theorem X16_compute_move_returns_legal_move {F} {ops : FloatOps F}
    (K : nat) (b : Board) (symbol t : Z)
    (stats : gmap (nat * nat) (Z * Z)) (draws : list nat) :
  symbol = 1%Z ∨ symbol = 2%Z → (0 ≤ t)%Z →
  (∃ st mv,
     AMAF.compute_move K (AMAF.root_state b symbol stats draws) 0 = Ret (st, mv)
     ∧ (mv = (-1, -1)%Z
        ∨ ∃ i j, legal_drop b i j ∧ mv = (Z.of_nat j, Z.of_nat i))
     ∧ (AMAF.check_terminal b = true → mv = (-1, -1)%Z))
  ∧ (∃ st mv,
       RAVE.compute_move t K (RAVE.root_state b symbol draws) 0 = Ret (st, mv)
       ∧ (mv = (-1, -1)%Z
          ∨ ∃ i j, legal_drop b i j ∧ mv = (Z.of_nat j, Z.of_nat i))
       ∧ (RAVE.check_terminal b = true → mv = (-1, -1)%Z)).
Proof.
  intros Hsym Ht. split.
  - destruct (AmafMove.amaf_compute_move_legal K b symbol stats draws Hsym)
      as (st & mv & Hrun & _ & Hlegal & Hover).
    by exists st, mv.
  - destruct (RaveMove.rave_compute_move_legal t Ht K b symbol draws)
      as (st & mv & Hrun & _ & Hlegal & Hover).
    by exists st, mv.
Qed.

Lemma X16_compute_move_returns_legal_move_witness :
  (∃ st mv, AMAF.compute_move (ops := fixed_point_ops) 5
              (AMAF.root_state zeros 1 ∅ [3; 1; 4; 1; 5; 9; 2; 6]) 0 = Ret (st, mv)
     ∧ (mv = (-1, -1)%Z
        ∨ ∃ i j, legal_drop zeros i j ∧ mv = (Z.of_nat j, Z.of_nat i)))
  ∧ (∃ st mv, RAVE.compute_move (ops := fixed_point_ops) 5 5
                (RAVE.root_state zeros 1 [3; 1; 4; 1; 5; 9; 2; 6]) 0 = Ret (st, mv)
       ∧ (mv = (-1, -1)%Z
          ∨ ∃ i j, legal_drop zeros i j ∧ mv = (Z.of_nat j, Z.of_nat i))).
Proof.
  destruct (X16_compute_move_returns_legal_move (ops := fixed_point_ops) 5 zeros
              1 5 ∅ [3; 1; 4; 1; 5; 9; 2; 6] (or_introl eq_refl) ltac:(lia))
    as [(sa & mva & Ha & Hla & _) (sr & mvr & Hr & Hlr & _)].
  split.
  - exists sa, mva. exact (conj Ha Hla).
  - exists sr, mvr. exact (conj Hr Hlr).
Defined.

(** ** main_AMAF.py: the game loop *)

Module MainFacts.
Import MainAMAF.

Lemma amaf_apply_move_legal (g : AMAF.GameBoard) (i j : nat) :
  legal_drop (AMAF.gb_board g) i j →
  AMAF.apply_move g (Z.of_nat i + 1)
  = Ret (true, AMAF.mkGameBoard (3 - AMAF.gb_turn g)
                 (setitem (AMAF.gb_board g) j i (AMAF.gb_turn g))
                 (AMAF.gb_cpu g)).
Proof.
  intros (Hi & _ & Hlow). unfold AMAF.apply_move.
  rewrite np_index_in_range by done. rewrite amaf_apply_move_rows_find.
  by rewrite (proj2 (find_lowest_empty _ _ _) Hlow).
Qed.

Lemma handle_event_spec (event : Event) (sel : Z) (g : AMAF.GameBoard) :
  (1 ≤ sel ≤ 7)%Z →
  ∃ r, handle_event event sel g = Ret r
    ∧ ∀ sel' g', r = Continue (sel', g') →
        (1 ≤ sel' ≤ 7)%Z
        ∧ (g' = g ∨ (AMAF.gb_turn g ≠ symbol ∧ event = K_RETURN
                     ∧ amaf_moved g g')).
Proof.
  intros Hsel. destruct event; cbn [handle_event].
  - eexists. split; [done |]. done.
  - eexists. split; [done |]. done.
  - eexists. split; [done |]. intros sel' g' [= <- <-].
    split; [case_bool_decide; lia | by left].
  - eexists. split; [done |]. intros sel' g' [= <- <-].
    split; [case_bool_decide; lia | by left].
  - case_bool_decide as Hturn;
      [| eexists; split; [done |]; intros sel' g' [= <- <-]; by split; [| left]].
    assert (∃ c, c < 7 ∧ sel = (Z.of_nat c + 1)%Z) as (c & Hc & ->).
    { exists (Z.to_nat (sel - 1)). lia. }
    rewrite np_index_in_range by lia.
    case_bool_decide as Htop;
      [| eexists; split; [done |]; intros sel' g' [= <- <-]; by split; [| left]].
    destruct (legal_column_drop (AMAF.gb_board g) c) as (j & _ & Hdrop);
      [lia | done |].
    rewrite (amaf_apply_move_legal g _ j Hdrop), res_bind_ret.
    eexists. split; [done |]. intros sel' g' [= <- <-].
    split; [lia |]. right. split_and!; [done | done |]. by exists c, j.
  - eexists. split; [done |]. intros sel' g' [= <- <-]. by split; [| left].
  - eexists. split; [done |]. intros sel' g' [= <- <-]. by split; [| left].
Qed.

Lemma handle_events_spec (events : list Event) (sel : Z) (g : AMAF.GameBoard) :
  (1 ≤ sel ≤ 7)%Z → AMAF.gb_turn g = 1%Z ∨ AMAF.gb_turn g = 2%Z →
  ∃ r, handle_events events sel g = Ret r
    ∧ ∀ sel' g', r = Continue (sel', g') →
        (1 ≤ sel' ≤ 7)%Z
        ∧ (g' = g ∨ (AMAF.gb_turn g = 2%Z ∧ amaf_moved g g')).
Proof.
  revert sel g. induction events as [|event events IH]; intros sel g Hsel Hturn;
    cbn [handle_events].
  { eexists. split; [done |]. intros sel' g' [= <- <-]. by split; [| left]. }
  destruct (handle_event_spec event sel g Hsel) as (r & -> & Hr).
  rewrite res_bind_ret. destruct r as [[sel1 g1]|]; [| by eexists].
  destruct (Hr sel1 g1 eq_refl) as [Hsel1 Hg1].
  assert (AMAF.gb_turn g1 = 1%Z ∨ AMAF.gb_turn g1 = 2%Z) as Hturn1.
  { destruct Hg1 as [-> | (_ & _ & i & j & _ & ->)]; [done |]. simpl. lia. }
  destruct (IH sel1 g1 Hsel1 Hturn1) as (r & -> & Hrest).
  eexists. split; [done |]. intros sel' g' ->.
  destruct (Hrest sel' g' eq_refl) as [Hsel' Hg']. split; [done |].
  destruct Hg1 as [-> | (Hne & _ & Hmoved)]; [done |].
  assert (AMAF.gb_turn g = 2%Z) as H2 by (unfold symbol in Hne; lia).
  right. split; [done |].
  destruct Hg' as [-> | (Hturn2 & _)]; [done |].
  destruct Hmoved as (i & j & _ & ->). simpl in Hturn2. lia.
Qed.

Section main_facts.
Context {F : Type} {ops : FloatOps F}.

Lemma engine_turn_spec (K : nat) (g : AMAF.GameBoard)
    (stats : gmap (nat * nat) (Z * Z)) (draws : list nat) :
  ∃ g' stats' draws', engine_turn K g stats draws = Ret (g', stats', draws')
    ∧ (AMAF.gb_turn g ≠ symbol → (g', stats', draws') = (g, stats, draws))
    ∧ (g' = g ∨ (AMAF.gb_turn g = symbol ∧ amaf_moved g g'))
    ∧ (AMAF.check_terminal (AMAF.gb_board g) = true → g' = g).
Proof.
  unfold engine_turn. case_bool_decide as Hturn;
    [| eexists _, _, _; split_and!; [done | done | by left | done]].
  cbv zeta.
  destruct (AmafMove.amaf_compute_move_legal K (AMAF.gb_board g) symbol stats
              draws (or_introl eq_refl))
    as (st1 & mv & -> & Hframe & Hlegal & Hover).
  rewrite res_bind_ret.
  assert (AMAF.array_at st1 0 = AMAF.gb_board g) as Hboard.
  { destruct Hframe as (Hpre & _).
    rewrite (AmafFacts.amaf_array_at_prefix _ st1 0 Hpre); [done | simpl; lia]. }
  rewrite Hboard.
  assert (AMAF.mkGameBoard (AMAF.gb_turn g) (AMAF.gb_board g) (AMAF.gb_cpu g) = g)
    as Hg by (by destruct g).
  rewrite Hg.
  case_bool_decide as Hmv.
  - destruct Hlegal as [-> | (i & j & Hdrop & ->)]; [done |].
    cbn [snd]. rewrite (amaf_apply_move_legal g i j Hdrop), res_bind_ret.
    eexists _, _, _. split_and!; [done | done | |].
    + right. split; [done |]. by exists i, j.
    + intros Hterm. by specialize (Hover Hterm).
  - eexists _, _, _. split_and!; [done | done | by left | done].
Qed.

Lemma amaf_moved_reachable (g g' : AMAF.GameBoard) :
  amaf_reachable g → amaf_moved g g' → amaf_reachable g'.
Proof.
  intros Hreach (i & j & Hdrop & ->).
  eapply amaf_reach_move; [exact Hreach |]. by apply amaf_apply_move_legal.
Qed.

Lemma round_spec (K : nat) (events : list Event) (gm : Game) :
  amaf_reachable (gameboard gm) → (1 ≤ select_move gm ≤ 7)%Z →
  ∃ r, round K events gm = Ret r
    ∧ (∀ w, r = GameOver w ↔ AMAF.check_win (gameboard gm) = (true, w))
    ∧ ∀ gm', r = Next gm' →
        amaf_reachable (gameboard gm') ∧ (1 ≤ select_move gm' ≤ 7)%Z
        ∧ ∃ g1, (g1 = gameboard gm
                 ∨ (AMAF.gb_turn (gameboard gm) = 2%Z
                    ∧ amaf_moved (gameboard gm) g1))
            ∧ (gameboard gm' = g1
               ∨ (AMAF.gb_turn g1 = 1%Z ∧ amaf_moved g1 (gameboard gm'))).
Proof.
  intros Hreach Hsel. unfold round.
  destruct (AMAF.check_win (gameboard gm)) as [[] w] eqn:Hwin.
  { eexists. split; [done |]. split; [| done]. intros w'. split; congruence. }
  destruct (handle_events_spec events (select_move gm) (gameboard gm) Hsel)
    as (r & -> & Hr).
  { by destruct (amaf_reachable_inv _ Hreach). }
  rewrite res_bind_ret. destruct r as [[sel1 g1]|];
    [| eexists; split; [done |]; split; [| done]; intros w'; split; congruence].
  destruct (Hr sel1 g1 eq_refl) as [Hsel1 Hg1].
  destruct (engine_turn_spec K g1 (amaf_stats gm) (draws gm))
    as (g' & stats' & draws' & -> & _ & Hg' & _).
  rewrite res_bind_ret. eexists. split; [done |].
  split; [intros w'; split; congruence |].
  intros gm' [= <-]. cbn [gameboard select_move].
  assert (amaf_reachable g1) as Hreach1.
  { destruct Hg1 as [-> | [_ Hmoved]]; [done |].
    by eapply amaf_moved_reachable. }
  split_and!; [| lia.. |].
  - destruct Hg' as [-> | [_ Hmoved]]; [done |].
    by eapply amaf_moved_reachable.
  - exists g1. split; [done |].
    destruct Hg' as [-> | [Hturn Hmoved]]; [by left | by right].
Qed.

End main_facts.

End MainFacts.

(** X17: the handling of the queued events in main_AMAF.py never raises
    while [select_move] is between 1 and 7, and keeps it there; it changes
    the game at most once, by a legal move of the human player when it is
    that player's turn (a second Return in the same round finds the turn
    passed to the engine). *)
Theorem X17_events_keep_select_move_in_range
    (events : list MainAMAF.Event) (select_move : Z) (g : AMAF.GameBoard) :
  (1 ≤ select_move ≤ 7)%Z → AMAF.gb_turn g = 1%Z ∨ AMAF.gb_turn g = 2%Z →
  ∃ r, MainAMAF.handle_events events select_move g = Ret r
    ∧ ∀ select_move' g', r = MainAMAF.Continue (select_move', g') →
        (1 ≤ select_move' ≤ 7)%Z
        ∧ (g' = g ∨ (AMAF.gb_turn g = 2%Z ∧ amaf_moved g g')).
Proof. apply MainFacts.handle_events_spec. Qed.

Lemma X17_events_keep_select_move_in_range_witness :
  ∃ select_move' g',
    MainAMAF.handle_events
      [MainAMAF.K_RIGHT; MainAMAF.K_RETURN; MainAMAF.K_RETURN] 7
      (AMAF.mkGameBoard 2 zeros 1)
    = Ret (MainAMAF.Continue (select_move', g'))
    ∧ (1 ≤ select_move' ≤ 7)%Z
    ∧ AMAF.gb_board g' 0 6 = 2%Z ∧ AMAF.gb_board g' 1 6 = 0%Z
    ∧ AMAF.gb_turn g' = 1%Z.
Proof.
  destruct (X17_events_keep_select_move_in_range
              [MainAMAF.K_RIGHT; MainAMAF.K_RETURN; MainAMAF.K_RETURN] 7
              (AMAF.mkGameBoard 2 zeros 1) ltac:(lia) (or_intror eq_refl))
    as (r & Hrun & Hr).
  destruct r as [[select_move' g']|]; [| vm_compute in Hrun; discriminate].
  exists select_move', g'. split; [done |].
  split; [by destruct (Hr select_move' g' eq_refl) |].
  vm_compute in Hrun. by injection Hrun as <- <-.
Defined.

(** X18: the turn of the engine in main_AMAF.py always returns (the move
    computed is never an index out of range).  When it is not the engine's
    turn nothing changes.  Otherwise the game is either left as it was, and
    that is the case when the game is over on the board, or the engine's
    mark was dropped in a legal column and the turn passed to the human;
    the search itself leaves the shared board array as it was. *)
Theorem X18_engine_turn_plays_legal_move {F} {ops : FloatOps F}
    (K : nat) (g : AMAF.GameBoard)
    (stats : gmap (nat * nat) (Z * Z)) (draws : list nat) :
  ∃ g' stats' draws',
    MainAMAF.engine_turn K g stats draws = Ret (g', stats', draws')
    ∧ (AMAF.gb_turn g ≠ MainAMAF.symbol → (g', stats', draws') = (g, stats, draws))
    ∧ (g' = g ∨ (AMAF.gb_turn g = MainAMAF.symbol ∧ amaf_moved g g'))
    ∧ (AMAF.check_terminal (AMAF.gb_board g) = true → g' = g).
Proof. apply MainFacts.engine_turn_spec. Qed.

Lemma X18_engine_turn_plays_legal_move_witness :
  ∃ g' stats' draws',
    MainAMAF.engine_turn (ops := fixed_point_ops) 5
      (AMAF.mkGameBoard 1 zeros 1) ∅ [3; 1; 4; 1; 5; 9; 2; 6]
    = Ret (g', stats', draws')
    ∧ (g' = AMAF.mkGameBoard 1 zeros 1
       ∨ amaf_moved (AMAF.mkGameBoard 1 zeros 1) g')
    ∧ AMAF.gb_board g' 0 0 = 1%Z ∧ AMAF.gb_board g' 1 0 = 0%Z
    ∧ AMAF.gb_board g' 0 1 = 0%Z ∧ AMAF.gb_turn g' = 2%Z.
Proof.
  destruct (X18_engine_turn_plays_legal_move (ops := fixed_point_ops) 5
              (AMAF.mkGameBoard 1 zeros 1) ∅ [3; 1; 4; 1; 5; 9; 2; 6])
    as (g' & stats' & draws' & Hrun & _ & Hmove & _).
  exists g', stats', draws'. split; [exact Hrun |].
  split; [destruct Hmove as [-> | [_ Hmoved]]; [by left | by right] |].
  vm_compute in Hrun. by injection Hrun as <- _ _.
Defined.

(** X19: one round of the game loop of main_AMAF.py (the test for the end
    of the game, the events, the turn of the engine; the drawing calls in
    between are not modelled), on a game reached by play and with
    [select_move] between 1 and 7, never raises.  It ends the
    game exactly when [check_win] says so; otherwise, unless the program is
    left, the next round starts from a game reached by play, with
    [select_move] still between 1 and 7, that differs from the old one by
    at most a legal move of the human followed by at most a legal move of
    the engine. *)
Theorem X19_round_keeps_game_legal {F} {ops : FloatOps F}
    (K : nat) (events : list MainAMAF.Event) (gm : MainAMAF.Game) :
  amaf_reachable (MainAMAF.gameboard gm) →
  (1 ≤ MainAMAF.select_move gm ≤ 7)%Z →
  ∃ r, MainAMAF.round K events gm = Ret r
    ∧ (∀ w, r = MainAMAF.GameOver w
            ↔ AMAF.check_win (MainAMAF.gameboard gm) = (true, w))
    ∧ ∀ gm', r = MainAMAF.Next gm' →
        amaf_reachable (MainAMAF.gameboard gm')
        ∧ (1 ≤ MainAMAF.select_move gm' ≤ 7)%Z
        ∧ ∃ g1, (g1 = MainAMAF.gameboard gm
                 ∨ (AMAF.gb_turn (MainAMAF.gameboard gm) = 2%Z
                    ∧ amaf_moved (MainAMAF.gameboard gm) g1))
            ∧ (MainAMAF.gameboard gm' = g1
               ∨ (AMAF.gb_turn g1 = 1%Z
                  ∧ amaf_moved g1 (MainAMAF.gameboard gm'))).
Proof. apply MainFacts.round_spec. Qed.

Lemma X19_round_keeps_game_legal_witness :
  ∃ gm', MainAMAF.round (ops := fixed_point_ops) 5 [MainAMAF.K_RETURN]
           (MainAMAF.mkGame (AMAF.mkGameBoard 2 zeros 1) ∅
              [3; 1; 4; 1; 5; 9; 2; 6] 4) = Ret (MainAMAF.Next gm')
    ∧ amaf_reachable (MainAMAF.gameboard gm')
    ∧ AMAF.gb_board (MainAMAF.gameboard gm') 0 3 = 2%Z
    ∧ AMAF.gb_board (MainAMAF.gameboard gm') 0 0 = 1%Z
    ∧ AMAF.gb_board (MainAMAF.gameboard gm') 1 3 = 0%Z
    ∧ AMAF.gb_turn (MainAMAF.gameboard gm') = 2%Z.
Proof.
  destruct (X19_round_keeps_game_legal (ops := fixed_point_ops) 5
              [MainAMAF.K_RETURN]
              (MainAMAF.mkGame (AMAF.mkGameBoard 2 zeros 1) ∅
                 [3; 1; 4; 1; 5; 9; 2; 6] 4))
    as (r & Hrun & _ & Hnext).
  - apply amaf_reach_init. by right.
  - simpl. lia.
  - destruct r as [w | | gm']; [vm_compute in Hrun; discriminate.. |].
    exists gm'. split; [exact Hrun |].
    split; [by destruct (Hnext gm' eq_refl) as (? & _) |].
    vm_compute in Hrun. by injection Hrun as <-.
Defined.
